(** * mu_json: a table-driven, allocation-free JSON tokenizer

    A shallow embedding of [src/mu_json.c] and of the parts of
    [src/mu_str.c] it calls, followed by the properties of the parser and of
    the tree navigation functions.

    Conventions of the embedding.
    - C [int] values ([char_pos], [depth], [state], table cells) are [Z].  The
      input is shorter than [INT_MAX] bytes, so no [int] arithmetic of the
      parser overflows; the one narrowing store of the program,
      [token->depth = parser->depth] into an [int16_t], is written out.
    - The token store is the list of the records written so far: the parser
      writes [tokens[0]], [tokens[1]], ... in this order, so [token_count] is
      the length of that list and [max_tokens] stays a number.
    - A pointer to a token is [NULL] or the index of the record.
    - A read outside the object a pointer belongs to (a table cell beyond the
      table, a token beyond the written records) has no defined behaviour in
      C; the model answers [Undefined].  Loops carry a bound and answer
      [Timeout] when it is used up; the bounds are shown to suffice. *)

From Stdlib Require Import ZArith List Bool Lia.
From Stdlib Require Import Strings.String Strings.Ascii Strings.Byte.
From stdpp Require Import base tactics option list.
Import ListNotations.

Open Scope Z_scope.

(** ** Outcomes of a C computation *)

Inductive outcome (A : Type) : Type :=
| Done (a : A)
| Undefined
| Timeout.

Arguments Done {A} a.
Arguments Undefined {A}.
Arguments Timeout {A}.

#[global] Instance outcome_ret : MRet outcome := fun A a => Done a.

#[global] Instance outcome_bind : MBind outcome := fun A B f m =>
  match m with
  | Done a => f a
  | Undefined => Undefined
  | Timeout => Timeout
  end.

(** ** mu_str: a pointer and a length

    [buf] is the address the view starts at, counted in bytes from the start
    of the buffer being parsed. *)

Module MuStr.

Record mu_str_t : Type := mk { buf : Z; length : Z }.

Definition MU_STR_END : Z := 2147483647.

Definition mu_str_init (b : Z) (len : Z) : mu_str_t := mk b len.

Definition mu_str_length (str : mu_str_t) : Z := length str.

(** [mu_str_get_byte]: [None] is the C [false]; the byte is read from the
    memory [mem] the view points into. *)
Definition mu_str_get_byte (mem : list byte) (str : mu_str_t) (index : Z)
  : outcome (option byte) :=
  if (index <? 0) || (index >=? length str) then Done None
  else match mem !! Z.to_nat (buf str + index) with
       | Some b => Done (Some b)
       | None => Undefined
       end.

Definition mu_str_slice (src : mu_str_t) (start end_ : Z) : mu_str_t :=
  let start :=
    if start <? 0 then length src + start
    else if (start >? length src) || (start =? MU_STR_END) then length src
    else start in
  let end_ :=
    if end_ <? 0 then length src + end_
    else if (end_ >=? length src) || (end_ =? MU_STR_END) then length src
    else end_ in
  let end_ := if end_ <? start then start else end_ in
  mu_str_init (buf src + start) (end_ - start).

End MuStr.

Abbreviation mu_str_t := MuStr.mu_str_t.

(** ** Public types of mu_json.h *)

Definition mu_json_err_t := Z.
Definition MU_JSON_ERR_NONE : mu_json_err_t := 0.
Definition MU_JSON_ERR_BAD_FORMAT : mu_json_err_t := -1.
Definition MU_JSON_ERR_NO_TOKENS : mu_json_err_t := -2.
Definition MU_JSON_ERR_INCOMPLETE : mu_json_err_t := -3.

Definition MU_JSON_TOKEN_FLAG_IS_FIRST : Z := 1.
Definition MU_JSON_TOKEN_FLAG_IS_LAST : Z := 2.
Definition MU_JSON_TOKEN_FLAG_IS_SEALED : Z := 4.

Inductive mu_json_token_type_t : Type :=
| MU_JSON_TOKEN_TYPE_UNKNOWN
| MU_JSON_TOKEN_TYPE_ARRAY
| MU_JSON_TOKEN_TYPE_OBJECT
| MU_JSON_TOKEN_TYPE_STRING
| MU_JSON_TOKEN_TYPE_NUMBER
| MU_JSON_TOKEN_TYPE_INTEGER
| MU_JSON_TOKEN_TYPE_TRUE
| MU_JSON_TOKEN_TYPE_FALSE
| MU_JSON_TOKEN_TYPE_NULL.

#[global] Instance mu_json_token_type_eq_dec : EqDecision mu_json_token_type_t.
Proof. solve_decision. Defined.

Module Token.

Record mu_json_token_t : Type := mk {
  json : mu_str_t;
  type : mu_json_token_type_t;
  flags : Z;
  depth : Z
}.

End Token.

Abbreviation mu_json_token_t := Token.mu_json_token_t.

(** A pointer into the token store. *)
Inductive token_ptr : Type :=
| NULL
| At (i : nat).

#[global] Instance token_ptr_eq_dec : EqDecision token_ptr.
Proof. solve_decision. Defined.

(** The value an [int] takes when it is stored into an [int16_t]. *)
Definition int16_of_int (z : Z) : Z := (z + 32768) mod 65536 - 32768.

(** ** Character classes and parser states *)

Definition __ : Z := 255. (* (uint8_t) - 1 *)

Definition C_SPACE : Z := 0.
Definition C_WHITE : Z := 1.
Definition C_LCURB : Z := 2.
Definition C_RCURB : Z := 3.
Definition C_LSQRB : Z := 4.
Definition C_RSQRB : Z := 5.
Definition C_COLON : Z := 6.
Definition C_COMMA : Z := 7.
Definition C_QUOTE : Z := 8.
Definition C_BACKS : Z := 9.
Definition C_SLASH : Z := 10.
Definition C_PLUS : Z := 11.
Definition C_MINUS : Z := 12.
Definition C_POINT : Z := 13.
Definition C_ZERO : Z := 14.
Definition C_DIGIT : Z := 15.
Definition C_LOW_A : Z := 16.
Definition C_LOW_B : Z := 17.
Definition C_LOW_C : Z := 18.
Definition C_LOW_D : Z := 19.
Definition C_LOW_E : Z := 20.
Definition C_LOW_F : Z := 21.
Definition C_LOW_L : Z := 22.
Definition C_LOW_N : Z := 23.
Definition C_LOW_R : Z := 24.
Definition C_LOW_S : Z := 25.
Definition C_LOW_T : Z := 26.
Definition C_LOW_U : Z := 27.
Definition C_ABCDF : Z := 28.
Definition C_E : Z := 29.
Definition C_ETC : Z := 30.
Definition NR_CLASSES : Z := 31.

Definition GO : Z := 0.
Definition OK : Z := 1.
Definition OB : Z := 2.
Definition KE : Z := 3.
Definition CO : Z := 4.
Definition VA : Z := 5.
Definition AR : Z := 6.
Definition ST : Z := 7.
Definition ES : Z := 8.
Definition U1 : Z := 9.
Definition U2 : Z := 10.
Definition U3 : Z := 11.
Definition U4 : Z := 12.
Definition MI : Z := 13.
Definition ZE : Z := 14.
Definition IN : Z := 15.
Definition FR : Z := 16.
Definition FS : Z := 17.
Definition E1 : Z := 18.
Definition E2 : Z := 19.
Definition E3 : Z := 20.
Definition T1 : Z := 21.
Definition T2 : Z := 22.
Definition T3 : Z := 23.
Definition F1 : Z := 24.
Definition F2 : Z := 25.
Definition F3 : Z := 26.
Definition F4 : Z := 27.
Definition N1 : Z := 28.
Definition N2 : Z := 29.
Definition N3 : Z := 30.
Definition NR_STATES : Z := 31.
Definition Ba : Z := 32.
Definition Bd : Z := 33.
Definition Bf : Z := 34.
Definition Bm : Z := 35.
Definition Bn : Z := 36.
Definition Bo : Z := 37.
Definition Bs : Z := 38.
Definition Bt : Z := 39.
Definition Bz : Z := 40.
Definition Fa : Z := 41.
Definition Fo : Z := 42.
Definition Pl : Z := 43.
Definition Pm : Z := 44.
Definition Ps : Z := 45.
Definition Pq : Z := 46.

Definition ascii_classes : list Z := [
    __; __; __; __; __; __; __; __;
    __; C_WHITE; C_WHITE; __; __; C_WHITE; __; __;
    __; __; __; __; __; __; __; __;
    __; __; __; __; __; __; __; __;
    C_SPACE; C_ETC; C_QUOTE; C_ETC; C_ETC; C_ETC; C_ETC; C_ETC;
    C_ETC; C_ETC; C_ETC; C_PLUS; C_COMMA; C_MINUS; C_POINT; C_SLASH;
    C_ZERO; C_DIGIT; C_DIGIT; C_DIGIT; C_DIGIT; C_DIGIT; C_DIGIT; C_DIGIT;
    C_DIGIT; C_DIGIT; C_COLON; C_ETC; C_ETC; C_ETC; C_ETC; C_ETC;
    C_ETC; C_ABCDF; C_ABCDF; C_ABCDF; C_ABCDF; C_E; C_ABCDF; C_ETC;
    C_ETC; C_ETC; C_ETC; C_ETC; C_ETC; C_ETC; C_ETC; C_ETC;
    C_ETC; C_ETC; C_ETC; C_ETC; C_ETC; C_ETC; C_ETC; C_ETC;
    C_ETC; C_ETC; C_ETC; C_LSQRB; C_BACKS; C_RSQRB; C_ETC; C_ETC;
    C_ETC; C_LOW_A; C_LOW_B; C_LOW_C; C_LOW_D; C_LOW_E; C_LOW_F; C_ETC;
    C_ETC; C_ETC; C_ETC; C_ETC; C_LOW_L; C_ETC; C_LOW_N; C_ETC;
    C_ETC; C_ETC; C_LOW_R; C_LOW_S; C_LOW_T; C_LOW_U; C_ETC; C_ETC;
    C_ETC; C_ETC; C_ETC; C_LCURB; C_ETC; C_RCURB; C_ETC; C_ETC
  ].

(** Rows are the states [GO] .. [N3]; columns are the classes [C_SPACE] ..
    [C_ETC], in the order of their declaration. *)
Definition state_transition_table : list Z := [
    GO;GO;Bo;__;Ba;__;__;__;Bs;__;__;__;Bm;__;Bz;Bd;__;__;__;__;__;Bf;__;Bn;__;__;Bt;__;__;__;__;
    Ps;Ps;__;Fo;__;Fa;__;Pm;__;__;__;__;__;__;__;__;__;__;__;__;__;__;__;__;__;__;__;__;__;__;__;
    OB;OB;__;Fo;__;__;__;__;Bs;__;__;__;__;__;__;__;__;__;__;__;__;__;__;__;__;__;__;__;__;__;__;
    KE;KE;__;__;__;__;__;__;Bs;__;__;__;__;__;__;__;__;__;__;__;__;__;__;__;__;__;__;__;__;__;__;
    Ps;Ps;__;__;__;__;Pl;__;__;__;__;__;__;__;__;__;__;__;__;__;__;__;__;__;__;__;__;__;__;__;__;
    VA;VA;Bo;__;Ba;__;__;__;Bs;__;__;__;Bm;__;Bz;Bd;__;__;__;__;__;Bf;__;Bn;__;__;Bt;__;__;__;__;
    AR;AR;Bo;__;Ba;Fa;__;__;Bs;__;__;__;Bm;__;Bz;Bd;__;__;__;__;__;Bf;__;Bn;__;__;Bt;__;__;__;__;
    ST;__;ST;ST;ST;ST;ST;ST;Pq;ES;ST;ST;ST;ST;ST;ST;ST;ST;ST;ST;ST;ST;ST;ST;ST;ST;ST;ST;ST;ST;ST;
    __;__;__;__;__;__;__;__;Bs;ST;ST;__;__;__;__;__;__;ST;__;__;__;ST;__;ST;ST;__;ST;U1;__;__;__;
    __;__;__;__;__;__;__;__;__;__;__;__;__;__;U2;U2;U2;U2;U2;U2;U2;U2;__;__;__;__;__;__;U2;U2;__;
    __;__;__;__;__;__;__;__;__;__;__;__;__;__;U3;U3;U3;U3;U3;U3;U3;U3;__;__;__;__;__;__;U3;U3;__;
    __;__;__;__;__;__;__;__;__;__;__;__;__;__;U4;U4;U4;U4;U4;U4;U4;U4;__;__;__;__;__;__;U4;U4;__;
    __;__;__;__;__;__;__;__;__;__;__;__;__;__;ST;ST;ST;ST;ST;ST;ST;ST;__;__;__;__;__;__;ST;ST;__;
    __;__;__;__;__;__;__;__;__;__;__;__;__;__;ZE;IN;__;__;__;__;__;__;__;__;__;__;__;__;__;__;__;
    OK;OK;__;Fo;__;Fa;__;Pm;__;__;__;__;__;FR;__;__;__;__;__;__;E1;__;__;__;__;__;__;__;__;E1;__;
    Ps;Ps;__;Fo;__;Fa;__;Pm;__;__;__;__;__;FR;IN;IN;__;__;__;__;E1;__;__;__;__;__;__;__;__;E1;__;
    __;__;__;__;__;__;__;__;__;__;__;__;__;__;FS;FS;__;__;__;__;__;__;__;__;__;__;__;__;__;__;__;
    OK;OK;__;Fo;__;Fa;__;Pm;__;__;__;__;__;__;FS;FS;__;__;__;__;E1;__;__;__;__;__;__;__;__;E1;__;
    __;__;__;__;__;__;__;__;__;__;__;E2;E2;__;E3;E3;__;__;__;__;__;__;__;__;__;__;__;__;__;__;__;
    __;__;__;__;__;__;__;__;__;__;__;__;__;__;E3;E3;__;__;__;__;__;__;__;__;__;__;__;__;__;__;__;
    OK;OK;__;Fo;__;Fa;__;Pm;__;__;__;__;__;__;E3;E3;__;__;__;__;__;__;__;__;__;__;__;__;__;__;__;
    __;__;__;__;__;__;__;__;__;__;__;__;__;__;__;__;__;__;__;__;__;__;__;__;T2;__;__;__;__;__;__;
    __;__;__;__;__;__;__;__;__;__;__;__;__;__;__;__;__;__;__;__;__;__;__;__;__;__;__;T3;__;__;__;
    __;__;__;__;__;__;__;__;__;__;__;__;__;__;__;__;__;__;__;__;OK;__;__;__;__;__;__;__;__;__;__;
    __;__;__;__;__;__;__;__;__;__;__;__;__;__;__;__;F2;__;__;__;__;__;__;__;__;__;__;__;__;__;__;
    __;__;__;__;__;__;__;__;__;__;__;__;__;__;__;__;__;__;__;__;__;__;F3;__;__;__;__;__;__;__;__;
    __;__;__;__;__;__;__;__;__;__;__;__;__;__;__;__;__;__;__;__;__;__;__;__;__;F4;__;__;__;__;__;
    __;__;__;__;__;__;__;__;__;__;__;__;__;__;__;__;__;__;__;__;OK;__;__;__;__;__;__;__;__;__;__;
    __;__;__;__;__;__;__;__;__;__;__;__;__;__;__;__;__;__;__;__;__;__;__;__;__;__;__;N2;__;__;__;
    __;__;__;__;__;__;__;__;__;__;__;__;__;__;__;__;__;__;__;__;__;__;N3;__;__;__;__;__;__;__;__;
    __;__;__;__;__;__;__;__;__;__;__;__;__;__;__;__;__;__;__;__;__;__;OK;__;__;__;__;__;__;__;__
  ].

(** [ch] is a [uint8_t]; the table holds 128 entries. *)
Definition classify_char (ch : byte) : Z :=
  let ch := Z.of_N (Byte.to_N ch) in
  if ch >=? 128 then C_ETC
  else nth (Z.to_nat ch) ascii_classes 0.

(** A cell of the table; an index beyond its [NR_STATES * NR_CLASSES] cells
    is a read outside the array. *)
Definition lookup_state (state char_class : Z) : outcome Z :=
  let i := state * NR_CLASSES + char_class in
  if i <? 0 then Undefined
  else match state_transition_table !! Z.to_nat i with
       | Some cell => Done cell
       | None => Undefined
       end.

(** ** Token flags *)

Definition token_is_sealed (token : mu_json_token_t) : bool :=
  negb (Z.land (Token.flags token) MU_JSON_TOKEN_FLAG_IS_SEALED =? 0).

Definition token_is_first (token : mu_json_token_t) : bool :=
  negb (Z.land (Token.flags token) MU_JSON_TOKEN_FLAG_IS_FIRST =? 0).

Definition token_is_last (token : mu_json_token_t) : bool :=
  negb (Z.land (Token.flags token) MU_JSON_TOKEN_FLAG_IS_LAST =? 0).

Definition set_flag (token : mu_json_token_t) (flag : Z) : mu_json_token_t :=
  Token.mk (Token.json token) (Token.type token)
           (Z.lor (Token.flags token) flag) (Token.depth token).

Definition seal_token (token : mu_json_token_t) : mu_json_token_t :=
  set_flag token MU_JSON_TOKEN_FLAG_IS_SEALED.

Definition set_is_first (token : mu_json_token_t) : mu_json_token_t :=
  set_flag token MU_JSON_TOKEN_FLAG_IS_FIRST.

Definition set_is_last (token : mu_json_token_t) : mu_json_token_t :=
  set_flag token MU_JSON_TOKEN_FLAG_IS_LAST.

Definition set_json (token : mu_json_token_t) (s : mu_str_t) : mu_json_token_t :=
  Token.mk s (Token.type token) (Token.flags token) (Token.depth token).

Definition is_container (token : mu_json_token_t) : bool :=
  bool_decide (Token.type token = MU_JSON_TOKEN_TYPE_ARRAY)
  || bool_decide (Token.type token = MU_JSON_TOKEN_TYPE_OBJECT).

(** ** Accessors and navigation (public functions of mu_json.c)

    [ts] is the token store the pointers point into. *)

Section Navigation.

Variable ts : list mu_json_token_t.

(** [*token] for a pointer that is not [NULL]. *)
Definition deref (i : nat) : outcome mu_json_token_t :=
  match ts !! i with
  | Some t => Done t
  | None => Undefined
  end.

(** The loops below move a pointer by one record per round and stay inside
    the store, so one round more than there are records is enough. *)
Definition nav_fuel : nat := S (length ts).

(** The result stands for the view [&token->json] points to. *)
Definition mu_json_token_slice (token : token_ptr) : outcome (option mu_str_t) :=
  match token with
  | NULL => Done None
  | At i => t ← deref i; Done (Some (Token.json t))
  end.

Definition mu_json_token_type (token : token_ptr) : outcome mu_json_token_type_t :=
  match token with
  | NULL => Done MU_JSON_TOKEN_TYPE_UNKNOWN
  | At i => t ← deref i; Done (Token.type t)
  end.

Definition mu_json_token_depth (token : token_ptr) : outcome Z :=
  match token with
  | NULL => Done (-1)
  | At i => t ← deref i; Done (Token.depth t)
  end.

Definition mu_json_token_is_first (token : token_ptr) : outcome bool :=
  match token with
  | NULL => Done false
  | At i => t ← deref i; Done (token_is_first t)
  end.

Definition mu_json_token_is_last (token : token_ptr) : outcome bool :=
  match token with
  | NULL => Done false
  | At i => t ← deref i; Done (token_is_last t)
  end.

(** [&token[-1]] of the first record of the store is no pointer at all. *)
Definition mu_json_token_prev (token : token_ptr) : outcome token_ptr :=
  match token with
  | NULL => Done NULL
  | At i =>
      t ← deref i;
      if token_is_first t then Done NULL
      else match i with
           | O => Undefined
           | S j => Done (At j)
           end
  end.

Definition mu_json_token_next (token : token_ptr) : outcome token_ptr :=
  match token with
  | NULL => Done NULL
  | At i =>
      t ← deref i;
      if token_is_last t then Done NULL else Done (At (S i))
  end.

Fixpoint root_loop (fuel : nat) (token : token_ptr) : outcome token_ptr :=
  match fuel with
  | O => Timeout
  | S fuel =>
      match token with
      | NULL => Undefined
      | At i =>
          t ← deref i;
          if token_is_first t then Done token
          else token ← mu_json_token_prev token; root_loop fuel token
      end
  end.

Definition mu_json_token_root (token : token_ptr) : outcome token_ptr :=
  match token with
  | NULL => Done NULL
  | At _ => root_loop nav_fuel token
  end.

(** do { prev = prev(prev); } while (prev != NULL && depth(prev) >= depth) *)
Fixpoint parent_loop (fuel : nat) (depth : Z) (prev : token_ptr)
  : outcome token_ptr :=
  match fuel with
  | O => Timeout
  | S fuel =>
      prev ← mu_json_token_prev prev;
      match prev with
      | NULL => Done NULL
      | At _ =>
          d ← mu_json_token_depth prev;
          if d >=? depth then parent_loop fuel depth prev else Done prev
      end
  end.

Definition mu_json_token_parent (token : token_ptr) : outcome token_ptr :=
  match token with
  | NULL => Done NULL
  | At _ =>
      depth ← mu_json_token_depth token;
      parent_loop nav_fuel depth token
  end.

Definition mu_json_token_child (token : token_ptr) : outcome token_ptr :=
  match token with
  | NULL => Done NULL
  | At _ =>
      depth ← mu_json_token_depth token;
      next ← mu_json_token_next token;
      dn ← mu_json_token_depth next;
      if dn >? depth then Done next else Done NULL
  end.

Fixpoint prev_sibling_loop (fuel : nat) (token prev : token_ptr)
  : outcome token_ptr :=
  match fuel with
  | O => Timeout
  | S fuel =>
      match prev with
      | NULL => Done NULL
      | At _ =>
          dp ← mu_json_token_depth prev;
          dt ← mu_json_token_depth token;
          if dp <? dt then Done NULL
          else if dp =? dt then Done prev
          else prev ← mu_json_token_prev prev;
               prev_sibling_loop fuel token prev
      end
  end.

Definition mu_json_token_prev_sibling (token : token_ptr) : outcome token_ptr :=
  match token with
  | NULL => Done NULL
  | At _ =>
      prev ← mu_json_token_prev token;
      prev_sibling_loop nav_fuel token prev
  end.

Fixpoint next_sibling_loop (fuel : nat) (token next : token_ptr)
  : outcome token_ptr :=
  match fuel with
  | O => Timeout
  | S fuel =>
      match next with
      | NULL => Done NULL
      | At _ =>
          dn ← mu_json_token_depth next;
          dt ← mu_json_token_depth token;
          if dn <? dt then Done NULL
          else if dn =? dt then Done next
          else next ← mu_json_token_next next;
               next_sibling_loop fuel token next
      end
  end.

Definition mu_json_token_next_sibling (token : token_ptr) : outcome token_ptr :=
  match token with
  | NULL => Done NULL
  | At _ =>
      next ← mu_json_token_next token;
      next_sibling_loop nav_fuel token next
  end.

(** *** Private helpers of the parser that only read the store *)

Fixpoint child_count_loop (fuel : nat) (token : token_ptr) (count : Z)
  (child : token_ptr) : outcome Z :=
  match fuel with
  | O => Timeout
  | S fuel =>
      if decide (child = token) then Done count
      else
        let count := count + 1 in
        child ← mu_json_token_next_sibling child;
        if decide (child = NULL) then Done 0
        else child_count_loop fuel token count child
  end.

Definition child_count (container token : token_ptr) : outcome Z :=
  if decide (container = token) then Done 0
  else
    child ← mu_json_token_child container;
    child_count_loop nav_fuel token 1 child.

Definition select_state (token : token_ptr)
  (not_in_container in_array in_object_key in_object_value : Z) : outcome Z :=
  container ← mu_json_token_parent token;
  match token, container with
  | NULL, _ => Done __
  | _, NULL => Done not_in_container
  | _, At c =>
      ct ← deref c;
      if decide (Token.type ct = MU_JSON_TOKEN_TYPE_ARRAY) then Done in_array
      else
        n ← child_count container token;
        if Z.land n 1 =? 0 then Done in_object_key
        else Done in_object_value
  end.

End Navigation.

(** ** The parser *)

Module Parser.

Record parser_t : Type := mk {
  json : mu_str_t;                 (* the JSON source string *)
  tokens : list mu_json_token_t;   (* the records written so far *)
  max_tokens : nat;                (* number of tokens in token store *)
  depth : Z;                       (* current parse tree depth *)
  char_pos : Z;                    (* position of char being parsed *)
  state : Z;                       (* parser state *)
  error : mu_json_err_t            (* error status *)
}.

Definition token_count (p : parser_t) : Z := Z.of_nat (length (tokens p)).

Definition with_tokens (p : parser_t) (ts : list mu_json_token_t) : parser_t :=
  mk (json p) ts (max_tokens p) (depth p) (char_pos p) (state p) (error p).

Definition with_depth (p : parser_t) (d : Z) : parser_t :=
  mk (json p) (tokens p) (max_tokens p) d (char_pos p) (state p) (error p).

Definition with_char_pos (p : parser_t) (c : Z) : parser_t :=
  mk (json p) (tokens p) (max_tokens p) (depth p) c (state p) (error p).

Definition with_state (p : parser_t) (s : Z) : parser_t :=
  mk (json p) (tokens p) (max_tokens p) (depth p) (char_pos p) s (error p).

Definition with_error (p : parser_t) (e : mu_json_err_t) : parser_t :=
  mk (json p) (tokens p) (max_tokens p) (depth p) (char_pos p) (state p) e.

Definition with_max_tokens (p : parser_t) (m : nat) : parser_t :=
  mk (json p) (tokens p) m (depth p) (char_pos p) (state p) (error p).

End Parser.

Abbreviation parser_t := Parser.parser_t.

Definition set_state (parser : parser_t) (state : Z) : parser_t :=
  Parser.with_state parser state.

Definition tos (parser : parser_t) : token_ptr :=
  if Parser.token_count parser =? 0 then NULL
  else At (Z.to_nat (Parser.token_count parser - 1)).

(** The new record is [tokens[token_count++]]; [memset] clears it. *)
Definition begin_token (parser : parser_t) (type : mu_json_token_type_t)
  : bool * parser_t :=
  if Parser.token_count parser >=? Z.of_nat (Parser.max_tokens parser)
  then (false, parser)
  else
    let token_count := Parser.token_count parser + 1 in
    let token :=
      Token.mk (MuStr.mu_str_slice (Parser.json parser)
                  (Parser.char_pos parser) MuStr.MU_STR_END)
               type 0 0 in
    let token := if token_count =? 1 then set_is_first token else token in
    let token :=
      set_flag token
        (if token_count =? 1 then MU_JSON_TOKEN_FLAG_IS_FIRST else 0) in
    let token :=
      Token.mk (Token.json token) (Token.type token) (Token.flags token)
               (int16_of_int (Parser.depth parser)) in
    (true, Parser.with_tokens parser (Parser.tokens parser ++ [token])).

Definition std_alloc (parser : parser_t) (type : mu_json_token_type_t) (s : Z)
  : parser_t :=
  let '(ok, parser) := begin_token parser type in
  if ok then Parser.with_state parser s
  else Parser.with_error parser MU_JSON_ERR_NO_TOKENS.

Definition finish_token (parser : parser_t) (token : token_ptr)
  (incl_delim : bool) : outcome parser_t :=
  match token with
  | NULL => Done parser
  | At i =>
      t ← deref (Parser.tokens parser) i;
      if token_is_sealed t then Done parser
      else
        let start_index :=
          MuStr.mu_str_length (Parser.json parser)
          - MuStr.mu_str_length (Token.json t) in
        let end_index :=
          if incl_delim then Parser.char_pos parser + 1
          else Parser.char_pos parser in
        let t :=
          set_json t (MuStr.mu_str_slice (Parser.json parser)
                        start_index end_index) in
        Done (Parser.with_tokens parser
                (<[i := seal_token t]> (Parser.tokens parser)))
  end.

(** The bodies of the [Fa] and [Fo] cases, which differ in the token type
    they compare with only. *)
Definition finish_container (parser : parser_t) (type : mu_json_token_type_t)
  : outcome parser_t :=
  let token := tos parser in
  ty ← mu_json_token_type (Parser.tokens parser) token;
  parser ←
    (if decide (ty ≠ type) then
       parser ← finish_token parser token false;
       container ← mu_json_token_parent (Parser.tokens parser) token;
       finish_token parser container true
     else
       match token with
       | NULL => Undefined
       | At i =>
           t ← deref (Parser.tokens parser) i;
           if token_is_sealed t then
             container ← mu_json_token_parent (Parser.tokens parser) token;
             finish_token parser container true
           else finish_token parser token true
       end);
  let parser := Parser.with_depth parser (Parser.depth parser - 1) in
  Done (set_state parser OK).

(** What the loop of [parse] does with the cell [next_state]: a plain
    transition, or the [switch] over the actions. *)
Definition perform (parser : parser_t) (next_state : Z) : outcome parser_t :=
  if (next_state >=? 0) && (next_state <? NR_STATES) then
    Done (set_state parser next_state)
  else if next_state =? Ba then
    let parser := std_alloc parser MU_JSON_TOKEN_TYPE_ARRAY AR in
    Done (Parser.with_depth parser (Parser.depth parser + 1))
  else if next_state =? Bd then
    Done (std_alloc parser MU_JSON_TOKEN_TYPE_NUMBER IN)
  else if next_state =? Bf then
    Done (std_alloc parser MU_JSON_TOKEN_TYPE_FALSE F1)
  else if next_state =? Bm then
    Done (std_alloc parser MU_JSON_TOKEN_TYPE_NUMBER MI)
  else if next_state =? Bn then
    Done (std_alloc parser MU_JSON_TOKEN_TYPE_NULL N1)
  else if next_state =? Bo then
    let parser := std_alloc parser MU_JSON_TOKEN_TYPE_OBJECT OB in
    Done (Parser.with_depth parser (Parser.depth parser + 1))
  else if next_state =? Bs then
    Done (std_alloc parser MU_JSON_TOKEN_TYPE_STRING ST)
  else if next_state =? Bt then
    Done (std_alloc parser MU_JSON_TOKEN_TYPE_TRUE T1)
  else if next_state =? Bz then
    Done (std_alloc parser MU_JSON_TOKEN_TYPE_NUMBER ZE)
  else if next_state =? Fa then
    finish_container parser MU_JSON_TOKEN_TYPE_ARRAY
  else if next_state =? Fo then
    finish_container parser MU_JSON_TOKEN_TYPE_OBJECT
  else if next_state =? Pl then
    let token := tos parser in
    parser ← finish_token parser token false;
    s ← select_state (Parser.tokens parser) token __ __ __ VA;
    Done (set_state parser s)
  else if next_state =? Pm then
    let token := tos parser in
    parser ← finish_token parser token false;
    s ← select_state (Parser.tokens parser) token __ VA KE __;
    Done (set_state parser s)
  else if next_state =? Ps then
    match tos parser with
    | NULL => Undefined
    | At i as token =>
        t ← deref (Parser.tokens parser) i;
        parser ← (if negb (is_container t)
                  then finish_token parser token false
                  else Done parser);
        s ← select_state (Parser.tokens parser) token OK OK OK
              (Parser.state parser);
        Done (set_state parser s)
    end
  else if next_state =? Pq then
    let token := tos parser in
    parser ← finish_token parser token true;
    s ← select_state (Parser.tokens parser) token OK OK OK CO;
    Done (set_state parser s)
  else
    Done (Parser.with_error parser MU_JSON_ERR_BAD_FORMAT).

(** The body of the loop of [parse] from [lookup_state] to the end of the
    [switch]. *)
Definition dispatch (parser : parser_t) (char_class : Z) : outcome parser_t :=
  next_state ← lookup_state (Parser.state parser) char_class;
  perform parser next_state.

Definition advance (parser : parser_t) : parser_t :=
  Parser.with_char_pos parser (Parser.char_pos parser + 1).

(** The [while (!eos)] loop of [parse]; [mem] is the memory the source
    string points into. *)
Fixpoint parse_loop (mem : list byte) (fuel : nat) (parser : parser_t)
  : outcome parser_t :=
  match fuel with
  | O => Timeout
  | S fuel =>
      if negb (Parser.error parser =? MU_JSON_ERR_NONE) then Done parser
      else
        b ← MuStr.mu_str_get_byte mem (Parser.json parser)
              (Parser.char_pos parser);
        match b with
        | None =>
            parser ← dispatch parser C_SPACE;
            Done (advance parser)
        | Some ch =>
            let char_class := classify_char ch in
            if char_class <? 0 then
              Done (Parser.with_error parser MU_JSON_ERR_BAD_FORMAT)
            else
              parser ← dispatch parser char_class;
              parse_loop mem fuel (advance parser)
        end
  end.

(** What [parse] does once the loop is left: the value it returns and the
    store it leaves behind. *)
Definition endgame (parser : parser_t) : outcome (Z * list mu_json_token_t) :=
  if negb (Parser.error parser =? MU_JSON_ERR_NONE) then
    Done (Parser.error parser, Parser.tokens parser)
  else if negb (Parser.depth parser =? 0) then
    Done (MU_JSON_ERR_INCOMPLETE, Parser.tokens parser)
  else if negb (Parser.state parser =? OK) then
    Done (MU_JSON_ERR_BAD_FORMAT, Parser.tokens parser)
  else
    match tos parser with
    | NULL => Done (Parser.token_count parser, Parser.tokens parser)
    | At i as token =>
        t ← deref (Parser.tokens parser) i;
        let parser :=
          Parser.with_tokens parser
            (<[i := set_is_last t]> (Parser.tokens parser)) in
        root ← mu_json_token_root (Parser.tokens parser) (tos parser);
        parser ← finish_token parser root false;
        Done (Parser.token_count parser, Parser.tokens parser)
    end.

Definition parser_init (json_input : mu_str_t) (max_tokens : nat) : parser_t :=
  Parser.mk json_input [] max_tokens 0 0 GO MU_JSON_ERR_NONE.

(** One round per byte and one for the end of the string. *)
Definition parse_fuel (json_input : mu_str_t) : nat :=
  S (Z.to_nat (MuStr.length json_input)).

Definition parse (mem : list byte) (max_tokens : nat) (json_input : mu_str_t)
  : outcome (Z * list mu_json_token_t) :=
  parser ← parse_loop mem (parse_fuel json_input)
             (parser_init json_input max_tokens);
  endgame parser.

(** The three public entry points.  [mu_json_parse_mu_str] takes the view
    as it is; [mu_json_parse_buffer] makes it of a buffer and its length;
    [mu_json_parse_c_str] takes the length from the first zero byte, and a
    string without one is read past its end. *)
Definition mu_json_parse_mu_str (mem : list byte) (max_tokens : nat)
  (mu_json : mu_str_t) : outcome (Z * list mu_json_token_t) :=
  parse mem max_tokens mu_json.

Fixpoint strlen (str : list byte) : outcome Z :=
  match str with
  | [] => Undefined
  | x00 :: _ => Done 0
  | _ :: str => len ← strlen str; Done (len + 1)
  end.

Definition mu_json_parse_c_str (max_tokens : nat) (json : list byte)
  : outcome (Z * list mu_json_token_t) :=
  len ← strlen json;
  parse json max_tokens (MuStr.mu_str_init 0 len).

Definition mu_json_parse_buffer (max_tokens : nat) (buf : list byte)
  : outcome (Z * list mu_json_token_t) :=
  parse buf max_tokens (MuStr.mu_str_init 0 (Z.of_nat (length buf))).

(** ** Reading results *)

Definition bytes (s : string) : list byte := list_byte_of_string s.

(** The bytes a view covers. *)
Definition slice_bytes (mem : list byte) (s : mu_str_t) : list byte :=
  take (Z.to_nat (MuStr.length s)) (drop (Z.to_nat (MuStr.buf s)) mem).

Definition summary (mem : list byte) (t : mu_json_token_t)
  : mu_json_token_type_t * Z * string :=
  (Token.type t, Token.depth t,
   string_of_list_byte (slice_bytes mem (Token.json t))).

Definition Q : string := String (ascii_of_nat 34) EmptyString.

(** ** More of mu_str.c

    The functions below read the memory [mem] through addresses counted
    from its start, as the views do.  Where the length of a view is stored
    into an [int], in [str_compare_aux] and in the parsers of numbers, the
    narrowing is written out; elsewhere lengths and indices are below
    [INT_MAX], so that [int] and [size_t] agree on them.  The one place
    where a negative [int] is stored as a [size_t], in [mu_str_split], is
    written out for a [size_t] of 64 bits.  An [int] and an [unsigned int]
    have 32 bits. *)

Definition MU_STR_NOT_FOUND : Z := 2147483647.

(** [*p] for the address [p]. *)
Definition load (mem : list byte) (addr : Z) : outcome byte :=
  if addr <? 0 then Undefined
  else match mem !! Z.to_nat addr with
       | Some b => Done b
       | None => Undefined
       end.

(** The value of a [uint8_t]. *)
Definition byte_val (b : byte) : Z := Z.of_N (Byte.to_N b).

(** The value an [int] takes when it is stored into a [size_t]. *)
Definition size_t_of_int (z : Z) : Z := z mod 2 ^ 64.

(** The value a [size_t] takes when it is stored into an [int], as in
    [int len = str->length]: its low 32 bits, read as a signed number. *)
Definition int_of_size_t (z : Z) : Z := (z + 2 ^ 31) mod 2 ^ 32 - 2 ^ 31.

(** The value an [int] takes when it is stored into a signed type of [w]
    bits, for [w] below 32. *)
Definition narrow (w : Z) (z : Z) : Z :=
  (z + 2 ^ (w - 1)) mod 2 ^ w - 2 ^ (w - 1).

(** [mu_str_split] writes two views, [left] and [right]. *)
Definition mu_str_split (src : mu_str_t) (index : Z) : mu_str_t * mu_str_t :=
  let src_len := MuStr.length src in
  let index :=
    if index <? 0 then src_len + index
    else if (index >? src_len) || (index =? MuStr.MU_STR_END) then src_len
    else index in
  (MuStr.mu_str_init (MuStr.buf src) (size_t_of_int index),
   MuStr.mu_str_init (MuStr.buf src + index) (size_t_of_int (src_len - index))).

(** The [for] loop of [str_compare_aux], from the index [i] on and with [n]
    rounds to go: the first difference [b2[i] - b1[i]] that is not zero. *)
Fixpoint str_compare_loop (mem : list byte) (b1 b2 : Z) (i : Z) (n : nat)
  : outcome (option Z) :=
  match n with
  | O => Done None
  | S n =>
      x2 ← load mem (b2 + i);
      x1 ← load mem (b1 + i);
      let d := byte_val x2 - byte_val x1 in
      if negb (d =? 0) then Done (Some d)
      else str_compare_loop mem b1 b2 (i + 1) n
  end.

(** [len1] and [len2] are [int]s; a difference of theirs that is no [int]
    has no defined value. *)
Definition str_compare_aux (mem : list byte) (s1 : mu_str_t) (b2 : Z)
  (len2 : Z) : outcome Z :=
  let b1 := MuStr.buf s1 in
  let len1 := int_of_size_t (MuStr.length s1) in
  let len := if len1 <? len2 then len1 else len2 in
  d ← str_compare_loop mem b1 b2 0 (Z.to_nat len);
  match d with
  | Some d => Done d
  | None =>
      let r := len2 - len1 in
      if (- 2 ^ 31 <=? r) && (r <=? 2 ^ 31 - 1) then Done r else Undefined
  end.

Definition mu_str_compare (mem : list byte) (s1 s2 : mu_str_t) : outcome Z :=
  str_compare_aux mem s1 (MuStr.buf s2) (int_of_size_t (MuStr.length s2)).

(** [memchr] and [memrchr]: the result is the index [i] of [&p[i]], or
    [None] for [NULL]. *)
Fixpoint memchr_loop (mem : list byte) (s : Z) (c : byte) (i : Z) (n : nat)
  : outcome (option Z) :=
  match n with
  | O => Done None
  | S n =>
      b ← load mem (s + i);
      if Byte.eqb b c then Done (Some i)
      else memchr_loop mem s c (i + 1) n
  end.

Definition memchr (mem : list byte) (s : Z) (c : byte) (n : Z)
  : outcome (option Z) :=
  memchr_loop mem s c 0 (Z.to_nat n).

(** [n] is [i + 1] for the index [i] of the round. *)
Fixpoint memrchr_loop (mem : list byte) (s : Z) (c : byte) (n : nat)
  : outcome (option Z) :=
  match n with
  | O => Done None
  | S i =>
      b ← load mem (s + Z.of_nat i);
      if Byte.eqb b c then Done (Some (Z.of_nat i))
      else memrchr_loop mem s c i
  end.

Definition memrchr (mem : list byte) (s : Z) (c : byte) (n : Z)
  : outcome (option Z) :=
  memrchr_loop mem s c (Z.to_nat n).

Definition mu_str_find_byte (mem : list byte) (s : mu_str_t) (b : byte)
  : outcome Z :=
  p ← memchr mem (MuStr.buf s) b (MuStr.length s);
  match p with
  | Some i => Done i
  | None => Done MU_STR_NOT_FOUND
  end.

Definition mu_str_rfind_byte (mem : list byte) (s : mu_str_t) (b : byte)
  : outcome Z :=
  p ← memrchr mem (MuStr.buf s) b (MuStr.length s);
  match p with
  | Some i => Done i
  | None => Done MU_STR_NOT_FOUND
  end.

(** A [mu_str_predicate_t], with the [arg] it is called with. *)
Definition mu_str_predicate_t : Type := byte → bool.

Fixpoint find_loop (mem : list byte) (s : Z) (predicate : mu_str_predicate_t)
  (match_if : bool) (i : Z) (n : nat) : outcome Z :=
  match n with
  | O => Done MU_STR_NOT_FOUND
  | S n =>
      b ← load mem (s + i);
      if Bool.eqb (predicate b) match_if then Done i
      else find_loop mem s predicate match_if (i + 1) n
  end.

Definition find_aux (mem : list byte) (s : Z) (length : Z)
  (predicate : mu_str_predicate_t) (match_if : bool) : outcome Z :=
  find_loop mem s predicate match_if 0 (Z.to_nat length).

Fixpoint rfind_loop (mem : list byte) (s : Z) (predicate : mu_str_predicate_t)
  (match_if : bool) (n : nat) : outcome Z :=
  match n with
  | O => Done MU_STR_NOT_FOUND
  | S i =>
      b ← load mem (s + Z.of_nat i);
      if Bool.eqb (predicate b) match_if then Done (Z.of_nat i)
      else rfind_loop mem s predicate match_if i
  end.

Definition rfind_aux (mem : list byte) (s : Z) (length : Z)
  (predicate : mu_str_predicate_t) (match_if : bool) : outcome Z :=
  rfind_loop mem s predicate match_if (Z.to_nat length).

Definition mu_str_find (mem : list byte) (s : mu_str_t)
  (predicate : mu_str_predicate_t) (match_if : bool) : outcome Z :=
  find_aux mem (MuStr.buf s) (MuStr.length s) predicate match_if.

Definition mu_str_rfind (mem : list byte) (s : mu_str_t)
  (predicate : mu_str_predicate_t) (match_if : bool) : outcome Z :=
  rfind_aux mem (MuStr.buf s) (MuStr.length s) predicate match_if.

Definition mu_str_ltrim (mem : list byte) (str : mu_str_t)
  (predicate : mu_str_predicate_t) : outcome mu_str_t :=
  idx ← mu_str_find mem str predicate false;
  if idx =? MU_STR_NOT_FOUND then Done (MuStr.mu_str_slice str 0 0)
  else Done (MuStr.mu_str_slice str idx MuStr.MU_STR_END).

Definition mu_str_rtrim (mem : list byte) (str : mu_str_t)
  (predicate : mu_str_predicate_t) : outcome mu_str_t :=
  idx ← mu_str_rfind mem str predicate false;
  if idx =? MU_STR_NOT_FOUND then Done (MuStr.mu_str_slice str 0 0)
  else Done (MuStr.mu_str_slice str 0 (idx + 1)).

Definition mu_str_trim (mem : list byte) (str : mu_str_t)
  (predicate : mu_str_predicate_t) : outcome mu_str_t :=
  dst ← mu_str_ltrim mem str predicate;
  mu_str_rtrim mem dst predicate.

Definition mu_str_is_whitespace : mu_str_predicate_t := fun byte =>
  Byte.eqb byte x20 || Byte.eqb byte x09 || Byte.eqb byte x0a
  || Byte.eqb byte x0d || Byte.eqb byte x0c || Byte.eqb byte x0b.

Definition mu_str_is_digit : mu_str_predicate_t := fun byte =>
  (byte_val byte >=? 48) && (byte_val byte <=? 57).

Definition mu_str_is_hex : mu_str_predicate_t := fun byte =>
  (byte_val byte >=? 48) && (byte_val byte <=? 57)
  || (byte_val byte >=? 97) && (byte_val byte <=? 102)
  || (byte_val byte >=? 65) && (byte_val byte <=? 70).

(** [DEFINE_UINT_PARSER] for an unsigned type of [w] bits: the [while] loop
    with [n] bytes to go, at the address [buf] and with the value [v].  The
    sum is taken in [int] or in the type itself and stored in the type. *)
Fixpoint uint_parser_loop (w : Z) (mem : list byte) (buf : Z) (n : nat)
  (v : Z) : outcome Z :=
  match n with
  | O => Done v
  | S n =>
      b ← load mem buf;
      if mu_str_is_digit b then
        uint_parser_loop w mem (buf + 1) n
          ((v * 10 + (byte_val b - 48)) mod 2 ^ w)
      else Done v
  end.

Definition uint_parser (w : Z) (mem : list byte) (str : mu_str_t)
  : outcome Z :=
  let len := int_of_size_t (MuStr.length str) in
  uint_parser_loop w mem (MuStr.buf str) (Z.to_nat len) 0.

Definition mu_str_parse_unsigned_int := uint_parser 32.
Definition mu_str_parse_uint8 := uint_parser 8.
Definition mu_str_parse_uint16 := uint_parser 16.
Definition mu_str_parse_uint32 := uint_parser 32.
Definition mu_str_parse_uint64 := uint_parser 64.

(** The value of a hexadecimal digit; [None] for another byte. *)
Definition hex_value (ch : byte) : option Z :=
  if (byte_val ch >=? 48) && (byte_val ch <=? 57)
  then Some (byte_val ch - 48)
  else if (byte_val ch >=? 97) && (byte_val ch <=? 102)
  then Some (byte_val ch - 97 + 10)
  else if (byte_val ch >=? 65) && (byte_val ch <=? 70)
  then Some (byte_val ch - 65 + 10)
  else None.

Fixpoint parse_hex_loop (mem : list byte) (buf : Z) (n : nat) (v : Z)
  : outcome Z :=
  match n with
  | O => Done v
  | S n =>
      ch ← load mem buf;
      match hex_value ch with
      | Some d =>
          let v := Z.shiftl v 4 mod 2 ^ 32 in
          let v := (v + d) mod 2 ^ 32 in
          parse_hex_loop mem (buf + 1) n v
      | None => Done v
      end
  end.

Definition mu_str_parse_hex (mem : list byte) (str : mu_str_t) : outcome Z :=
  let len := int_of_size_t (MuStr.length str) in
  parse_hex_loop mem (MuStr.buf str) (Z.to_nat len) 0.

(** [DEFINE_INT_PARSER] for a signed type of [w] bits.  For [int8_t] and
    [int16_t] the sum [v * 10 + digit] is taken in [int], where it fits, and
    stored in the narrower type; for [int], [int32_t] and [int64_t] it is
    taken in the type itself, and a sum beyond [2 ^ (w - 1) - 1] overflows:
    the model gives no result then. *)
Fixpoint int_parser_loop (w : Z) (mem : list byte) (buf : Z) (n : nat)
  (v : Z) : outcome Z :=
  match n with
  | O => Done v
  | S n =>
      b ← load mem buf;
      if mu_str_is_digit b then
        let v := v * 10 + (byte_val b - 48) in
        if w <? 32 then int_parser_loop w mem (buf + 1) n (narrow w v)
        else if v <=? 2 ^ (w - 1) - 1
        then int_parser_loop w mem (buf + 1) n v
        else Undefined
      else Done v
  end.

(** [-v] is taken in [int] and returned in the type as well. *)
Definition int_parser (w : Z) (mem : list byte) (str : mu_str_t)
  : outcome Z :=
  let buf := MuStr.buf str in
  let len := int_of_size_t (MuStr.length str) in
  (if len >=? 1 then b ← load mem buf; Done (Byte.eqb b x2d)
   else Done false) ≫= fun is_negative : bool =>
  let len := if is_negative then len - 1 else len in
  let buf := if is_negative then buf + 1 else buf in
  v ← int_parser_loop w mem buf (Z.to_nat len) 0;
  Done (if is_negative then (if w <? 32 then narrow w (- v) else - v)
        else v).

Definition mu_str_parse_int := int_parser 32.
Definition mu_str_parse_int8 := int_parser 8.
Definition mu_str_parse_int16 := int_parser 16.
Definition mu_str_parse_int32 := int_parser 32.
Definition mu_str_parse_int64 := int_parser 64.

(** * Notions used in the properties *)

(** ** Steps of the parser *)

#[global] Instance outcome_fmap : FMap outcome := fun A B f m =>
  match m with
  | Done a => Done (f a)
  | Undefined => Undefined
  | Timeout => Timeout
  end.

(** The actions that allocate: the type of the token, the state entered and
    the change of depth. *)
Definition begin_action (next_state : Z)
  : option (mu_json_token_type_t * Z * Z) :=
  if next_state =? Ba then Some (MU_JSON_TOKEN_TYPE_ARRAY, AR, 1)
  else if next_state =? Bd then Some (MU_JSON_TOKEN_TYPE_NUMBER, IN, 0)
  else if next_state =? Bf then Some (MU_JSON_TOKEN_TYPE_FALSE, F1, 0)
  else if next_state =? Bm then Some (MU_JSON_TOKEN_TYPE_NUMBER, MI, 0)
  else if next_state =? Bn then Some (MU_JSON_TOKEN_TYPE_NULL, N1, 0)
  else if next_state =? Bo then Some (MU_JSON_TOKEN_TYPE_OBJECT, OB, 1)
  else if next_state =? Bs then Some (MU_JSON_TOKEN_TYPE_STRING, ST, 0)
  else if next_state =? Bt then Some (MU_JSON_TOKEN_TYPE_TRUE, T1, 0)
  else if next_state =? Bz then Some (MU_JSON_TOKEN_TYPE_NUMBER, ZE, 0)
  else None.

(** The record [begin_token] writes. *)
Definition new_token (p : parser_t) (ty : mu_json_token_type_t)
  : mu_json_token_t :=
  Token.mk (MuStr.mu_str_slice (Parser.json p) (Parser.char_pos p)
              MuStr.MU_STR_END)
           ty
           (if Parser.token_count p + 1 =? 1 then 1 else 0)
           (int16_of_int (Parser.depth p)).

(** The parser after a begin action that found room, and after one that
    did not. *)
Definition alloc_ok (p : parser_t) (ty : mu_json_token_type_t) (s d : Z)
  : parser_t :=
  Parser.with_depth
    (Parser.with_state
       (Parser.with_tokens p (Parser.tokens p ++ [new_token p ty])) s)
    (Parser.depth p + d).

Definition alloc_failed (p : parser_t) (d : Z) : parser_t :=
  Parser.with_depth (Parser.with_error p MU_JSON_ERR_NO_TOKENS)
    (Parser.depth p + d).

(** Every action is a sequence of the following primitive changes; the flag
    tells whether allocations are among them. *)
Inductive pstep (alloc : bool) : parser_t → parser_t → Prop :=
| pstep_refl p : pstep alloc p p
| pstep_state p s : pstep alloc p (Parser.with_state p s)
| pstep_depth p d : pstep alloc p (Parser.with_depth p d)
| pstep_error p :
    pstep alloc p (Parser.with_error p MU_JSON_ERR_BAD_FORMAT)
| pstep_finish p token incl p' :
    finish_token p token incl = Done p' → pstep alloc p p'
| pstep_alloc p ty s : alloc = true → pstep alloc p (std_alloc p ty s)
| pstep_trans p q r : pstep alloc p q → pstep alloc q r → pstep alloc p r.

Create HintDb pstep.

#[global] Hint Constructors pstep : pstep.

(** A computation that does not stop for want of rounds. *)
Definition terminates {A} (m : outcome A) : Prop := m ≠ Timeout.

(** ** Invariants of the store *)

(** While the parser runs, the first record and no other carries [IS_FIRST]
    and no record carries [IS_LAST]. *)
Definition open_store (ts : list mu_json_token_t) : Prop :=
  ∀ i t, ts !! i = Some t →
         token_is_first t = bool_decide (i = 0%nat) ∧ token_is_last t = false.

(** After a successful parse the last record carries [IS_LAST] as well. *)
Definition bookends (ts : list mu_json_token_t) : Prop :=
  ∀ i t, ts !! i = Some t →
         token_is_first t = bool_decide (i = 0%nat) ∧
         token_is_last t = bool_decide (S i = length ts).

(** The parser is in its start state or has written a record. *)
Definition started (p : parser_t) : Prop :=
  Parser.state p = GO ∨ Parser.tokens p ≠ [].

(** The four ways [parse] returns, from the parser [p] the loop leaves. *)
Inductive parse_result (p : parser_t) (r : Z) (ts : list mu_json_token_t)
  : Prop :=
| parse_error :
    Parser.error p ≠ MU_JSON_ERR_NONE → r = Parser.error p →
    r = MU_JSON_ERR_BAD_FORMAT ∨ r = MU_JSON_ERR_NO_TOKENS →
    parse_result p r ts
| parse_incomplete :
    Parser.error p = MU_JSON_ERR_NONE → Parser.depth p ≠ 0 →
    r = MU_JSON_ERR_INCOMPLETE → parse_result p r ts
| parse_bad_state :
    Parser.error p = MU_JSON_ERR_NONE → Parser.depth p = 0 →
    Parser.state p ≠ OK → r = MU_JSON_ERR_BAD_FORMAT → parse_result p r ts
| parse_success :
    Parser.error p = MU_JSON_ERR_NONE → Parser.depth p = 0 →
    Parser.state p = OK →
    r = Parser.token_count p → 1 ≤ r → r = Z.of_nat (length ts) →
    bookends ts → parse_result p r ts.

(** ** The tree in the store *)

(** The depth of the record at index [i]. *)
Definition depth_at (ts : list mu_json_token_t) (i : nat) : Z :=
  match ts !! i with
  | Some t => Token.depth t
  | None => 0
  end.

(** [s] and [t] are neighbours among the records of one depth: nothing
    between them is as shallow as they are. *)
Definition siblings (ts : list mu_json_token_t) (s t : nat) : Prop :=
  (s < t < length ts)%nat ∧
  depth_at ts s = depth_at ts t ∧
  ∀ m, (s < m < t)%nat → depth_at ts t < depth_at ts m.

(** [r] is the nearest record before [i] that is shallower than [d], the
    depth of [i]; [NULL] when there is none. *)
Definition nearest_shallower (ts : list mu_json_token_t) (d : Z) (i : nat)
  (r : token_ptr) : Prop :=
  match r with
  | NULL => ∀ j, (j < i)%nat → d ≤ depth_at ts j
  | At p => (p < i)%nat ∧ depth_at ts p < d ∧
            ∀ j, (p < j < i)%nat → d ≤ depth_at ts j
  end.

(** The absent token, or a record of the store. *)
Definition valid_ptr (ts : list mu_json_token_t) (r : token_ptr) : Prop :=
  match r with
  | NULL => True
  | At i => (i < length ts)%nat
  end.

(** The seven navigation functions. *)
Definition navigation
  : list (list mu_json_token_t → token_ptr → outcome token_ptr) :=
  [ mu_json_token_prev; mu_json_token_next; mu_json_token_root;
    mu_json_token_parent; mu_json_token_child;
    mu_json_token_prev_sibling; mu_json_token_next_sibling ].

(** ** Inputs *)

Definition quoted (s : string) : string := (Q ++ s ++ Q)%string.

(** Scenario S1:  {"a":111, "b":[222, true], "c":{}}   with one leading and
    two trailing spaces. *)
Definition S1_text : string :=
  (" {" ++ quoted "a" ++ ":111, " ++ quoted "b" ++ ":[222, true], "
   ++ quoted "c" ++ ":{}}  ")%string.

Definition S1_input : list byte := bytes S1_text.

Definition S1_expected : list (mu_json_token_type_t * Z * string) :=
  [ (MU_JSON_TOKEN_TYPE_OBJECT, 0,
     ("{" ++ quoted "a" ++ ":111, " ++ quoted "b" ++ ":[222, true], "
      ++ quoted "c" ++ ":{}}")%string);
    (MU_JSON_TOKEN_TYPE_STRING, 1, quoted "a");
    (MU_JSON_TOKEN_TYPE_NUMBER, 1, "111"%string);
    (MU_JSON_TOKEN_TYPE_STRING, 1, quoted "b");
    (MU_JSON_TOKEN_TYPE_ARRAY, 1, "[222, true]"%string);
    (MU_JSON_TOKEN_TYPE_NUMBER, 2, "222"%string);
    (MU_JSON_TOKEN_TYPE_TRUE, 2, "true"%string);
    (MU_JSON_TOKEN_TYPE_STRING, 1, quoted "c");
    (MU_JSON_TOKEN_TYPE_OBJECT, 1, "{}"%string) ].

(** The store S1 leaves behind. *)
Definition S1_store : list mu_json_token_t :=
  Eval vm_compute in
    match mu_json_parse_buffer 9 S1_input with
    | Done (_, ts) => ts
    | _ => []
    end.

(** Three nested arrays around a number: [[[1]]] *)
Definition nested_input : list byte := bytes "[[[1]]]".

(** An array in an array, followed by a space: [[1]]  *)
Definition trailing_input : list byte := bytes "[[1]] ".

(** A zero with a space after it, in an array: [0 ] *)
Definition spaced_zero_input : list byte := bytes "[0 ]".

(** An object whose third child is a number in the place of a key:
    {"a":[1],2} *)
Definition keyless_input : list byte :=
  bytes ("{" ++ quoted "a" ++ ":[1],2}")%string.

(** An object that is not closed: {"a":1 *)
Definition unterminated_object : list byte :=
  bytes ("{" ++ quoted "a" ++ ":1")%string.

(** An array that is not closed: [1 *)
Definition unterminated_array : list byte := bytes "[1".

(** Space, tab, line feed and carriage return. *)
Definition is_whitespace (b : byte) : bool :=
  match b with
  | x20 | x09 | x0a | x0d => true
  | _ => false
  end.

(** A byte of a string body that is neither the closing quote, nor a
    backslash, nor a control character. *)
Definition plain_string_byte (b : byte) : bool :=
  (32 <=? Z.of_N (Byte.to_N b)) && negb (Byte.eqb b x22)
  && negb (Byte.eqb b x5c).

(** ** Reading a store *)

(** The text of the slice of the record at index [i]. *)
Definition slice_text (mem : list byte) (ts : list mu_json_token_t) (i : nat)
  : option string :=
  t ← ts !! i;
  Some (string_of_list_byte (slice_bytes mem (Token.json t))).

Definition sealed_at (ts : list mu_json_token_t) (i : nat) : option bool :=
  token_is_sealed <$> ts !! i.

(** ** The capacity claim *)

(** A valid parse of [buf] produces [n] tokens: with some capacity the
    parser returns the count [n]. *)
Definition valid_parse (buf : list byte) (n : Z) : Prop :=
  0 ≤ n ∧ ∃ capacity ts, mu_json_parse_buffer capacity buf = Done (n, ts).

Definition returns_NO_TOKENS (k : nat) (buf : list byte) : Prop :=
  ∃ ts, mu_json_parse_buffer k buf = Done (MU_JSON_ERR_NO_TOKENS, ts).

(** The capacity claim with its "if and only if". *)
Definition capacity_iff : Prop :=
  ∀ (buf : list byte) (k : nat),
    returns_NO_TOKENS k buf ↔ ∃ n, valid_parse buf n ∧ Z.of_nat k < n.

(** ** The depths in the store *)

(** What the navigation functions read of a record. *)
Definition shape (t : mu_json_token_t) : mu_json_token_type_t * Z :=
  (Token.type t, Token.depth t).

(** A record may be followed by one a level below it when it is a
    container only. *)
Definition step_up (t : mu_json_token_t) : Z :=
  if is_container t then 1 else 0.

(** The first record is at depth 0 and the depth rises by one at a time,
    from a container to the record after it. *)
Definition depth_steps (ts : list mu_json_token_t) : Prop :=
  (∀ t, ts !! 0%nat = Some t → Token.depth t = 0) ∧
  ∀ i t t', ts !! i = Some t → ts !! S i = Some t' →
            Token.depth t' ≤ Token.depth t + step_up t.

(** The depth of the parser while it reads the view [J]: it is bounded by
    the number of bytes read, and by what the last record allows. *)
Definition depth_inv (J : mu_str_t) (p : parser_t) : Prop :=
  Parser.json p = J ∧ 0 ≤ Parser.char_pos p ∧
  depth_steps (Parser.tokens p) ∧
  (Parser.error p = MU_JSON_ERR_NONE →
   started p ∧
   - Parser.char_pos p ≤ Parser.depth p ≤ Parser.char_pos p ∧
   (Parser.tokens p = [] → Parser.depth p = 0) ∧
   ∀ t, last (Parser.tokens p) = Some t →
        Parser.depth p ≤ Token.depth t + step_up t).

(** ** The slices in the store *)

(** The bytes a token of each type may start with. *)
Definition opening_byte (ty : mu_json_token_type_t) (b : byte) : bool :=
  match ty with
  | MU_JSON_TOKEN_TYPE_ARRAY => Byte.eqb b x5b
  | MU_JSON_TOKEN_TYPE_OBJECT => Byte.eqb b x7b
  | MU_JSON_TOKEN_TYPE_STRING => Byte.eqb b x22
  | MU_JSON_TOKEN_TYPE_NUMBER =>
      Byte.eqb b x2d
      || (48 <=? Z.of_N (Byte.to_N b)) && (Z.of_N (Byte.to_N b) <=? 57)
  | MU_JSON_TOKEN_TYPE_TRUE => Byte.eqb b x74
  | MU_JSON_TOKEN_TYPE_FALSE => Byte.eqb b x66
  | MU_JSON_TOKEN_TYPE_NULL => Byte.eqb b x6e
  | MU_JSON_TOKEN_TYPE_UNKNOWN | MU_JSON_TOKEN_TYPE_INTEGER => false
  end.

(** The same, by the class of the byte. *)
Definition opening_class (ty : mu_json_token_type_t) (c : Z) : bool :=
  match ty with
  | MU_JSON_TOKEN_TYPE_ARRAY => c =? C_LSQRB
  | MU_JSON_TOKEN_TYPE_OBJECT => c =? C_LCURB
  | MU_JSON_TOKEN_TYPE_STRING => c =? C_QUOTE
  | MU_JSON_TOKEN_TYPE_NUMBER => (c =? C_MINUS) || (c =? C_ZERO) || (c =? C_DIGIT)
  | MU_JSON_TOKEN_TYPE_TRUE => c =? C_LOW_T
  | MU_JSON_TOKEN_TYPE_FALSE => c =? C_LOW_F
  | MU_JSON_TOKEN_TYPE_NULL => c =? C_LOW_N
  | MU_JSON_TOKEN_TYPE_UNKNOWN | MU_JSON_TOKEN_TYPE_INTEGER => false
  end.

(** A cell of the table that begins a token stands in the column of a
    class that opens a token of that type; [i] is the index of the cell. *)
Definition begin_cell_ok (cell : nat * Z) : bool :=
  match begin_action cell.2 with
  | Some (ty, _, _) => opening_class ty (Z.of_nat cell.1 mod NR_CLASSES)
  | None => true
  end.

(** The slice of a record while the parser is at [char_pos] in the view
    [J]: it starts at a byte the parser has read, one that opens a token of
    the type of the record; an open record reaches to the end of [J] and a
    sealed one holds a byte at least and ends within [J]. *)
Definition slice_inv (mem : list byte) (J : mu_str_t) (char_pos : Z)
  (t : mu_json_token_t) : Prop :=
  let b := MuStr.buf (Token.json t) in
  let n := MuStr.length (Token.json t) in
  MuStr.buf J ≤ b < MuStr.buf J + MuStr.length J ∧
  b - MuStr.buf J < char_pos ∧
  (if token_is_sealed t
   then 1 ≤ n ∧ b + n ≤ MuStr.buf J + MuStr.length J
   else n = MuStr.buf J + MuStr.length J - b) ∧
  ∃ ch, mem !! Z.to_nat b = Some ch ∧ opening_byte (Token.type t) ch = true.

Definition slices_inv (mem : list byte) (J : mu_str_t) (p : parser_t) : Prop :=
  Parser.json p = J ∧ 0 ≤ Parser.char_pos p ∧
  Forall (slice_inv mem J (Parser.char_pos p)) (Parser.tokens p).

(** The slice of a record lies in the view [J], is not empty and starts
    with a byte that opens a token of the type of the record. *)
Definition slice_ok (mem : list byte) (J : mu_str_t) (t : mu_json_token_t)
  : Prop :=
  let b := MuStr.buf (Token.json t) in
  let n := MuStr.length (Token.json t) in
  MuStr.buf J ≤ b ∧ 1 ≤ n ∧ b + n ≤ MuStr.buf J + MuStr.length J ∧
  ∃ ch, mem !! Z.to_nat b = Some ch ∧ opening_byte (Token.type t) ch = true.

(** The address of the first byte of a record. *)
Definition start (t : mu_json_token_t) : Z := MuStr.buf (Token.json t).

(** Each record starts after the one before it. *)
Definition starts_increase (ts : list mu_json_token_t) : Prop :=
  ∀ i t t', ts !! i = Some t → ts !! S i = Some t' → start t < start t'.

(** ** More inputs *)

(** No byte of the buffer is zero. *)
Definition no_zero_byte (buf : list byte) : bool :=
  forallb (fun b => negb (Byte.eqb b x00)) buf.

(** The digits 0 to 9. *)
Definition is_digit (b : byte) : bool :=
  (48 <=? Z.of_N (Byte.to_N b)) && (Z.of_N (Byte.to_N b) <=? 57).

(** A control character that is not white space. *)
Definition is_control (b : byte) : bool :=
  (Z.of_N (Byte.to_N b) <? 32) && negb (is_whitespace b).

(** ** Views at another address *)

(** The view [s], [b] bytes further on. *)
Definition move_str (b : Z) (s : mu_str_t) : mu_str_t :=
  MuStr.mk (MuStr.buf s + b) (MuStr.length s).

Definition move_token (b : Z) (t : mu_json_token_t) : mu_json_token_t :=
  set_json t (move_str b (Token.json t)).

Definition move_parser (b : Z) (p : parser_t) : parser_t :=
  Parser.mk (move_str b (Parser.json p)) (move_token b <$> Parser.tokens p)
    (Parser.max_tokens p) (Parser.depth p) (Parser.char_pos p)
    (Parser.state p) (Parser.error p).

(** The value [parse] returns, and the store with every slice moved. *)
Definition move_result (b : Z) (res : Z * list mu_json_token_t)
  : Z * list mu_json_token_t :=
  (res.1, move_token b <$> res.2).

(** The parser [p] seen from [k] bytes before its view: the view starts
    [k] bytes earlier and the parser has read [k] bytes more. *)
Definition skip_parser (k : Z) (p : parser_t) : parser_t :=
  Parser.mk
    (MuStr.mk (MuStr.buf (Parser.json p) - k)
       (MuStr.length (Parser.json p) + k))
    (Parser.tokens p) (Parser.max_tokens p) (Parser.depth p)
    (Parser.char_pos p + k) (Parser.state p) (Parser.error p).

(** ** Notions for the properties of mu_str.c *)

(** The view lies in the memory. *)
Definition in_memory (mem : list byte) (s : mu_str_t) : Prop :=
  0 ≤ MuStr.buf s ∧ 0 ≤ MuStr.length s ∧
  MuStr.buf s + MuStr.length s ≤ Z.of_nat (length mem).

(** The number a string of decimal digits stands for. *)
Definition decimal_value (ds : list byte) : Z :=
  fold_left (fun v b => v * 10 + (byte_val b - 48)) ds 0.

(** The number a string of hexadecimal digits stands for. *)
Definition hex_number (ds : list byte) : Z :=
  fold_left (fun v b => v * 16 + default 0 (hex_value b)) ds 0.

(** The first byte of [l], if there is one, does not satisfy [f]. *)
Definition head_fails (f : byte → bool) (l : list byte) : Prop :=
  ∀ b, head l = Some b → f b = false.

(** The last byte of [l], if there is one, does not satisfy [f]. *)
Definition last_fails (f : byte → bool) (l : list byte) : Prop :=
  ∀ b, last l = Some b → f b = false.

(** A minus sign, or nothing. *)
Definition sign_bytes (negative : bool) : list byte :=
  if negative then [x2d] else [].

(** ** The children of a container *)

#[global] Instance outcome_eq_dec {A} `{EqDecision A} : EqDecision (outcome A).
Proof. solve_decision. Defined.

(** The number of records up to the index [t] whose parent is the record
    at the index [c]. *)
Definition children_upto (ts : list mu_json_token_t) (c t : nat) : nat :=
  length (filter (fun j => mu_json_token_parent ts (At j) = Done (At c))
            (seq 0 (S t))).

(** The number of records after the index [s] and up to the index [t] that
    are at the depth [d]. *)
Definition at_depth_between (ts : list mu_json_token_t) (d : Z) (s t : nat)
  : nat :=
  length (filter (fun j => depth_at ts j = d) (seq (S s) (t - s))).

(** ** The nesting of a JSON text

    What follows reads the text alone, by the grammar of JSON: a quotation
    mark opens and closes a string, a backslash in a string takes the next
    byte with it, and outside the strings an opening bracket or brace goes a
    level down and a closing one comes a level up. *)

Module Json.

Inductive mode : Type :=
| Outside
| InString
| Escaped.

#[global] Instance mode_eq_dec : EqDecision mode.
Proof. solve_decision. Defined.

(** The mode and the level after the byte [b], from those before it. *)
Definition scan (st : mode * Z) (b : byte) : mode * Z :=
  match st.1 with
  | Escaped => (InString, st.2)
  | InString =>
      if Byte.eqb b x5c then (Escaped, st.2)
      else if Byte.eqb b x22 then (Outside, st.2)
      else (InString, st.2)
  | Outside =>
      if Byte.eqb b x22 then (InString, st.2)
      else if Byte.eqb b x5b || Byte.eqb b x7b then (Outside, st.2 + 1)
      else if Byte.eqb b x5d || Byte.eqb b x7d then (Outside, st.2 - 1)
      else (Outside, st.2)
  end.

(** The mode and the level before the byte at the position [p]. *)
Definition before (text : list byte) (p : nat) : mode * Z :=
  fold_left scan (take p text) (Outside, 0).

(** The number of brackets and braces that are open before the position
    [p]. *)
Definition level (text : list byte) (p : nat) : Z := (before text p).2.

(** The position [p] lies inside the brackets the byte at the position [s]
    opens: what is open before [s], and one level more, is open all the way
    from the byte after [s] to [p]. *)
Definition inside (text : list byte) (s p : nat) : Prop :=
  (s < p)%nat ∧ ∀ q, (s < q ≤ p)%nat → level text s < level text q.

End Json.

(** The levels of the text are numbers an [int16_t] holds. *)
Definition nesting_fits (text : list byte) : bool :=
  forallb (fun p => (-32768 <=? Json.level text p)
                    && (Json.level text p <=? 32767))
    (seq 0 (S (length text))).

(** No byte of the text is a control character other than tab, line feed
    and carriage return. *)
Definition no_control_bytes (text : list byte) : bool :=
  forallb (fun b => negb (is_control b)) text.

(** The record [td] is a descendant of the record [tc] in the text parsed
    from the address 0: its first byte lies inside the brackets that the
    first byte of [tc] opens. *)
Definition descendant (text : list byte) (tc td : mu_json_token_t) : Prop :=
  Json.inside text (Z.to_nat (start tc)) (Z.to_nat (start td)).

(** The claim of preorder containment, for the buffers that satisfy [P]. *)
Definition preorder_containment (P : list byte → Prop) : Prop :=
  ∀ (buf : list byte) (max_tokens : nat) (r : Z)
    (ts : list mu_json_token_t) (c : nat) (tc : mu_json_token_t),
    P buf →
    mu_json_parse_buffer max_tokens buf = Done (r, ts) → 0 ≤ r →
    ts !! c = Some tc → is_container tc = true →
    (∀ d td, ts !! d = Some td → descendant buf tc td →
             (c < d)%nat ∧ Token.depth tc < Token.depth td) ∧
    (∀ e te, ts !! e = Some te → (c < e)%nat →
             ¬ descendant buf tc te →
             (∀ j tj, (c < j < e)%nat → ts !! j = Some tj →
                      descendant buf tc tj) →
             Token.depth te ≤ Token.depth tc).

(** The mode the scan of the text is in when the parser is in the state
    [s]. *)
Definition mode_of_state (s : Z) : Json.mode :=
  if s =? ES then Json.Escaped
  else if (s =? ST) || (U1 <=? s) && (s <=? U4) then Json.InString
  else Json.Outside.

(** What the cell [n], read in the state [s], does to the mode and to the
    depth; [None] for a cell that stops the parser. *)
Definition cell_effect (s n : Z) : option (Json.mode * Z) :=
  if (0 <=? n) && (n <? NR_STATES) then Some (mode_of_state n, 0)
  else match begin_action n with
       | Some (_, s', d) => Some (mode_of_state s', d)
       | None =>
           if (n =? Fa) || (n =? Fo) then Some (Json.Outside, -1)
           else if (n =? Pl) || (n =? Pm) || (n =? Pq)
           then Some (Json.Outside, 0)
           else if n =? Ps then Some (mode_of_state s, 0)
           else None
       end.

(** The cell the state [s] reads for the byte [b] does to the mode and to
    the depth what the byte does in the scan of the text; a state that reads
    [Ps] is outside the strings. *)
Definition scan_cell_ok (s : Z) (b : byte) : bool :=
  match lookup_state s (classify_char b) with
  | Done n =>
      match cell_effect s n with
      | Some e =>
          bool_decide (Json.scan (mode_of_state s, 0) b = e)
          && implb (n =? Ps) (bool_decide (mode_of_state s = Json.Outside))
      | None => true
      end
  | _ => true
  end.

(** The invariant of the loop of [parse] on the text [text], read from
    the address 0: the depth of a record is the level of the text at its
    first byte, no bracket opens between a record and the next one, and the
    parser is in the mode and at the level of the text. *)
Definition nesting_inv (text : list byte) (p : parser_t) : Prop :=
  (∀ i t, Parser.tokens p !! i = Some t →
          Token.depth t
          = int16_of_int (Json.level text (Z.to_nat (start t)))) ∧
  (∀ i t t', Parser.tokens p !! i = Some t →
             Parser.tokens p !! S i = Some t' →
             ∀ q, (Z.to_nat (start t) < q ≤ Z.to_nat (start t'))%nat →
                  Json.level text (Z.to_nat (start t')) ≤ Json.level text q) ∧
  (Parser.error p = MU_JSON_ERR_NONE →
   Json.before text (Z.to_nat (Parser.char_pos p))
   = (mode_of_state (Parser.state p), Parser.depth p) ∧
   ∀ t, last (Parser.tokens p) = Some t →
        ∀ q, (Z.to_nat (start t) < q ≤ Z.to_nat (Parser.char_pos p))%nat →
             Parser.depth p ≤ Json.level text q).

(** ** Two texts for the nesting

    An opening bracket, a quotation mark, the letter a, the control
    character 1, and then the text [1]] : the string is never closed. *)
Definition control_input : list byte :=
  [x5b; x22; x61; x01; x5b; x31; x5d; x5d].

(** The store it leaves behind. *)
Definition control_store : list mu_json_token_t :=
  Eval vm_compute in
    match mu_json_parse_buffer 4 control_input with
    | Done (_, ts) => ts
    | _ => []
    end.

(** A number in [n] arrays: [n] opening brackets, the digit 1 and [n]
    closing brackets. *)
Definition deep_input (n : nat) : list byte :=
  replicate n x5b ++ x31 :: replicate n x5d.

(** The record of the array that opens at the position [i] of a text of
    [L] bytes, before it is sealed. *)
Definition open_array (L : Z) (i : nat) : mu_json_token_t :=
  Token.mk (MuStr.mk (Z.of_nat i) (L - Z.of_nat i)) MU_JSON_TOKEN_TYPE_ARRAY
    (if decide (i = 0%nat) then 1 else 0) (int16_of_int (Z.of_nat i)).

Definition open_arrays (L : Z) (k : nat) : list mu_json_token_t :=
  open_array L <$> seq 0 k.

(** The store once the innermost array of [deep_input (S m)] is closed:
    the number and the array around it are sealed. *)
Definition deep_store (L : Z) (m : nat) : list mu_json_token_t :=
  open_arrays L m
  ++ [seal_token (set_json (open_array L m) (MuStr.mk (Z.of_nat m) 3));
      Token.mk (MuStr.mk (Z.of_nat (S m)) 1) MU_JSON_TOKEN_TYPE_NUMBER 4
        (int16_of_int (Z.of_nat (S m)))].

(** The parser on the text [deep_input (S m)] of [L] bytes: after the
    first [k] opening brackets, and after the digit and [S j] closing
    brackets. *)
Definition deep_opened (L : Z) (cap k : nat) : parser_t :=
  Parser.mk (MuStr.mk 0 L) (open_arrays L k) cap (Z.of_nat k) (Z.of_nat k)
    (if decide (k = 0%nat) then GO else AR) MU_JSON_ERR_NONE.

Definition deep_closed (L : Z) (m cap j : nat) : parser_t :=
  Parser.mk (MuStr.mk 0 L) (deep_store L m) cap (Z.of_nat m - Z.of_nat j)
    (Z.of_nat (S m) + 2 + Z.of_nat j) OK MU_JSON_ERR_NONE.

(** * Properties *)

#[global] Arguments nav_fuel : simpl never.
#[global] Arguments deref : simpl never.
#[global] Arguments mu_json_token_slice : simpl never.
#[global] Arguments mu_json_token_type : simpl never.
#[global] Arguments mu_json_token_depth : simpl never.
#[global] Arguments mu_json_token_is_first : simpl never.
#[global] Arguments mu_json_token_is_last : simpl never.
#[global] Arguments mu_json_token_prev : simpl never.
#[global] Arguments mu_json_token_next : simpl never.
#[global] Arguments mu_json_token_root : simpl never.
#[global] Arguments mu_json_token_parent : simpl never.
#[global] Arguments mu_json_token_child : simpl never.
#[global] Arguments mu_json_token_prev_sibling : simpl never.
#[global] Arguments mu_json_token_next_sibling : simpl never.
#[global] Arguments child_count : simpl never.
#[global] Arguments select_state : simpl never.
#[global] Arguments tos : simpl never.
#[global] Arguments begin_token : simpl never.
#[global] Arguments std_alloc : simpl never.
#[global] Arguments finish_token : simpl never.
#[global] Arguments finish_container : simpl never.
#[global] Arguments perform : simpl never.
#[global] Arguments dispatch : simpl never.
#[global] Arguments lookup_state : simpl never.
#[global] Arguments classify_char : simpl never.
#[global] Arguments endgame : simpl never.

(** ** Outcomes *)

Lemma bind_Done {A B} (m : outcome A) (f : A → outcome B) (b : B) :
  m ≫= f = Done b → ∃ a, m = Done a ∧ f a = Done b.
Proof. destruct m; cbn; [eauto | discriminate | discriminate]. Qed.

(** Split a hypothesis [x ← m; k = Done b] into [m = Done a] and
    [k a = Done b]. *)
Tactic Notation "inv_bind" hyp(H) "as" ident(a) ident(Ha) :=
  apply bind_Done in H; destruct H as (a & Ha & H).

Tactic Notation "inv_bind" hyp(H) :=
  let a := fresh "a" in
  let Ha := fresh "Ha" in
  inv_bind H as a Ha.

Lemma deref_Done (ts : list mu_json_token_t) i t :
  deref ts i = Done t ↔ ts !! i = Some t.
Proof.
  unfold deref. destruct (ts !! i); split; intros H; congruence.
Qed.

Lemma deref_lt (ts : list mu_json_token_t) i :
  (i < length ts)%nat → ∃ t, ts !! i = Some t ∧ deref ts i = Done t.
Proof.
  intros Hi. destruct (lookup_lt_is_Some_2 ts i Hi) as [t Ht].
  exists t. split; [done | by apply deref_Done].
Qed.

(** ** Flags *)

Lemma land_lor_other f a b :
  Z.land a b = 0 → Z.land (Z.lor f a) b = Z.land f b.
Proof. intros H. by rewrite Z.land_lor_distr_l, H, Z.lor_0_r. Qed.

Lemma land_lor_same f a :
  a ≠ 0 → Z.land (Z.lor f a) a ≠ 0.
Proof.
  intros Ha H. rewrite Z.land_lor_distr_l, Z.land_diag in H.
  apply Z.lor_eq_0_iff in H. tauto.
Qed.

Lemma token_is_first_seal t : token_is_first (seal_token t) = token_is_first t.
Proof. unfold token_is_first; cbn. by rewrite land_lor_other. Qed.

Lemma token_is_last_seal t : token_is_last (seal_token t) = token_is_last t.
Proof. unfold token_is_last; cbn. by rewrite land_lor_other. Qed.

Lemma token_is_first_set_last t :
  token_is_first (set_is_last t) = token_is_first t.
Proof. unfold token_is_first; cbn. by rewrite land_lor_other. Qed.

Lemma token_is_last_set_last t : token_is_last (set_is_last t) = true.
Proof.
  unfold token_is_last; cbn.
  apply negb_true_iff, Z.eqb_neq, land_lor_same. discriminate.
Qed.

Lemma token_is_sealed_seal t : token_is_sealed (seal_token t) = true.
Proof.
  unfold token_is_sealed; cbn.
  apply negb_true_iff, Z.eqb_neq, land_lor_same. discriminate.
Qed.

Lemma token_is_sealed_set_last t :
  token_is_sealed (set_is_last t) = token_is_sealed t.
Proof. unfold token_is_sealed; cbn. by rewrite land_lor_other. Qed.

(** ** Tactics for the tests on cells and states *)

Create HintDb cells.

#[global] Hint Unfold GO OK OB KE CO VA AR ST ES U1 U2 U3 U4 MI ZE IN FR FS
  E1 E2 E3 T1 T2 T3 F1 F2 F3 F4 N1 N2 N3 NR_STATES
  Ba Bd Bf Bm Bn Bo Bs Bt Bz Fa Fo Pl Pm Ps Pq __ NR_CLASSES C_SPACE
  MU_JSON_ERR_NONE MU_JSON_ERR_BAD_FORMAT MU_JSON_ERR_NO_TOKENS
  MU_JSON_ERR_INCOMPLETE : cells.

(** Turn the boolean tests of the hypotheses into (in)equations. *)
Ltac ztests :=
  repeat match goal with
  | H : negb _ = true |- _ => apply negb_true_iff in H
  | H : negb _ = false |- _ => apply negb_false_iff in H
  | H : (_ && _) = true |- _ => apply andb_true_iff in H; destruct H
  | H : (_ && _) = false |- _ => apply andb_false_iff in H
  | H : (_ || _) = true |- _ => apply orb_true_iff in H
  | H : (_ || _) = false |- _ => apply orb_false_iff in H; destruct H
  | H : (_ =? _) = true |- _ => apply Z.eqb_eq in H
  | H : (_ =? _) = false |- _ => apply Z.eqb_neq in H
  | H : (_ <? _) = true |- _ => apply Z.ltb_lt in H
  | H : (_ <? _) = false |- _ => apply Z.ltb_ge in H
  | H : (_ >=? _) = true |- _ => apply Z.geb_le in H
  | H : (_ >=? _) = false |- _ => rewrite Z.geb_leb in H; apply Z.leb_gt in H
  | H : (_ >? _) = true |- _ => apply Z.gtb_lt in H
  | H : (_ >? _) = false |- _ => rewrite Z.gtb_ltb in H; apply Z.ltb_ge in H
  end.

(** Close a branch whose tests on a cell contradict each other. *)
Ltac cells_lia := ztests; autounfold with cells in *; lia.

(** Case analysis on the first computation of a chain of binds. *)
Ltac outcome_head m :=
  lazymatch m with
  | mbind _ ?m' => outcome_head m'
  | fmap _ ?m' => outcome_head m'
  | (if ?b then _ else _) => destruct b
  | Done _ => fail
  | Undefined => fail
  | Timeout => fail
  | _ => destruct m
  end.

Ltac outcome_cases :=
  match goal with
  | |- context [mbind _ ?m] => outcome_head m; cbn
  end.

(** ** The store capacity is read by [begin_token] only *)

Lemma with_depth_add_0 (p : parser_t) :
  Parser.with_depth p (Parser.depth p + 0) = p.
Proof. destruct p; unfold Parser.with_depth; cbn. by rewrite Z.add_0_r. Qed.

Lemma perform_begin p n ty s d :
  begin_action n = Some (ty, s, d) →
  perform p n =
    Done (Parser.with_depth (std_alloc p ty s)
            (Parser.depth (std_alloc p ty s) + d)).
Proof.
  unfold begin_action, perform. intros H.
  repeat (case_match; simplify_eq); try cells_lia;
    rewrite ?with_depth_add_0; reflexivity.
Qed.

Lemma finish_token_with_max p m token incl :
  finish_token (Parser.with_max_tokens p m) token incl =
  (fun q => Parser.with_max_tokens q m) <$> finish_token p token incl.
Proof.
  unfold finish_token. destruct token as [|i]; [done|]. cbn.
  destruct (deref (Parser.tokens p) i); [|done..]. cbn.
  by destruct (token_is_sealed a).
Qed.

Lemma finish_container_with_max p m ty :
  finish_container (Parser.with_max_tokens p m) ty =
  (fun q => Parser.with_max_tokens q m) <$> finish_container p ty.
Proof.
  unfold finish_container.
  change (tos (Parser.with_max_tokens p m)) with (tos p).
  change (Parser.tokens (Parser.with_max_tokens p m)) with (Parser.tokens p).
  destruct (mu_json_token_type (Parser.tokens p) (tos p)) as [ty'| |];
    [|done..]. cbn.
  destruct (decide (ty' ≠ ty)).
  - rewrite finish_token_with_max.
    destruct (finish_token p (tos p) false) as [q| |]; [|done..]. cbn.
    destruct (mu_json_token_parent (Parser.tokens q) (tos p)) as [c| |];
      [|done..]. cbn.
    rewrite finish_token_with_max.
    by destruct (finish_token q c true).
  - destruct (tos p) as [|i]; [done|].
    destruct (deref (Parser.tokens p) i) as [t| |]; [|done..]. cbn.
    destruct (token_is_sealed t).
    + destruct (mu_json_token_parent (Parser.tokens p) (At i)) as [c| |];
        [|done..]. cbn.
      rewrite finish_token_with_max.
      by destruct (finish_token p c true).
    + rewrite finish_token_with_max.
      by destruct (finish_token p (At i) true).
Qed.

Lemma perform_with_max p m n :
  begin_action n = None →
  perform (Parser.with_max_tokens p m) n =
  (fun q => Parser.with_max_tokens q m) <$> perform p n.
Proof.
  unfold begin_action, perform. intros H.
  change (tos (Parser.with_max_tokens p m)) with (tos p).
  repeat (case_match; simplify_eq); try cells_lia; try done;
    rewrite ?finish_container_with_max, ?finish_token_with_max; try done.
  all: change (Parser.tokens (Parser.with_max_tokens p m))
         with (Parser.tokens p).
  all: repeat (outcome_cases; try done).
Qed.

(** ** What one round of the loop may change *)

Lemma finish_container_pstep alloc p ty p' :
  finish_container p ty = Done p' → pstep alloc p p'.
Proof.
  unfold finish_container. intros H.
  inv_bind H as ty' Hty. inv_bind H as q Hq. simplify_eq.
  unfold set_state.
  eapply pstep_trans; [|eapply pstep_trans; [apply pstep_depth|apply pstep_state]].
  destruct (decide (ty' ≠ ty)).
  - inv_bind Hq as q1 Hq1. inv_bind Hq as c Hc. eauto with pstep.
  - destruct (tos p) as [|i]; [done|].
    inv_bind Hq as t Ht. destruct (token_is_sealed t).
    + inv_bind Hq as c Hc. eauto with pstep.
    + eauto with pstep.
Qed.

Lemma perform_pstep_gen alloc p n p' :
  alloc = true ∨ begin_action n = None →
  perform p n = Done p' → pstep alloc p p'.
Proof.
  unfold perform, begin_action, set_state. intros Ha H.
  repeat case_match; simplify_eq;
    try (by destruct Ha; [subst alloc; eauto with pstep|done]);
    eauto using finish_container_pstep with pstep.
  - inv_bind H as q Hq. inv_bind H as s Hs. simplify_eq. eauto with pstep.
  - inv_bind H as q Hq. inv_bind H as s Hs. simplify_eq. eauto with pstep.
  - inv_bind H as t Ht. inv_bind H as q Hq. inv_bind H as s Hs. simplify_eq.
    destruct (negb (is_container t)); simplify_eq; eauto with pstep.
  - inv_bind H as q Hq. inv_bind H as s Hs. simplify_eq. eauto with pstep.
Qed.

Lemma perform_pstep p n p' : perform p n = Done p' → pstep true p p'.
Proof. apply perform_pstep_gen. by left. Qed.

(** The two primitive changes of the store. *)

Lemma finish_token_inv p token incl p' :
  finish_token p token incl = Done p' →
  p' = p ∨
  ∃ i t s, token = At i ∧ Parser.tokens p !! i = Some t ∧
           token_is_sealed t = false ∧
           p' = Parser.with_tokens p
                  (<[i := seal_token (set_json t s)]> (Parser.tokens p)).
Proof.
  unfold finish_token. intros H. destruct token as [|i]; [left; congruence|].
  inv_bind H as t Ht. apply deref_Done in Ht.
  destruct (token_is_sealed t) eqn:Hs; simplify_eq; [by left|].
  right. eauto 10.
Qed.

Lemma begin_token_eq p ty :
  begin_token p ty =
  if Parser.token_count p >=? Z.of_nat (Parser.max_tokens p) then (false, p)
  else (true, Parser.with_tokens p (Parser.tokens p ++ [new_token p ty])).
Proof.
  unfold begin_token, new_token.
  destruct (_ >=? _); [done|].
  by destruct (_ =? 1).
Qed.

Lemma std_alloc_eq p ty s :
  std_alloc p ty s =
  if Parser.token_count p >=? Z.of_nat (Parser.max_tokens p)
  then Parser.with_error p MU_JSON_ERR_NO_TOKENS
  else Parser.with_state
         (Parser.with_tokens p (Parser.tokens p ++ [new_token p ty])) s.
Proof.
  unfold std_alloc. rewrite begin_token_eq. by destruct (_ >=? _).
Qed.

(** *** Fields no action writes *)

Lemma pstep_frame alloc p p' :
  pstep alloc p p' →
  Parser.json p' = Parser.json p ∧
  Parser.max_tokens p' = Parser.max_tokens p ∧
  Parser.char_pos p' = Parser.char_pos p.
Proof.
  induction 1 as [| | | |p token incl p' H| p ty s _ | p q r _ IH1 _ IH2];
    try done.
  - apply finish_token_inv in H as [->|(i&t&s&_&_&_&->)]; done.
  - rewrite std_alloc_eq. by destruct (_ >=? _).
  - destruct IH1 as (?&?&?), IH2 as (?&?&?). repeat split; congruence.
Qed.

Lemma pstep_length alloc p p' :
  pstep alloc p p' →
  (length (Parser.tokens p) ≤ length (Parser.tokens p'))%nat.
Proof.
  induction 1 as [| | | |p token incl p' H| p ty s _ | p q r _ IH1 _ IH2];
    try done.
  - apply finish_token_inv in H as [->|(i&t&s&_&_&_&->)]; [done|].
    cbn. by rewrite length_insert.
  - rewrite std_alloc_eq. destruct (_ >=? _); cbn; [done|].
    rewrite length_app. lia.
  - lia.
Qed.

Lemma pstep_length_eq p p' :
  pstep false p p' → length (Parser.tokens p') = length (Parser.tokens p).
Proof.
  induction 1 as [| | | |p token incl p' H| p ty s ? | p q r _ IH1 _ IH2];
    try done.
  - apply finish_token_inv in H as [->|(i&t&s&_&_&_&->)]; [done|].
    cbn. by rewrite length_insert.
  - congruence.
Qed.

(** An error, once set, is one of the two the loop can raise. *)
Lemma pstep_error_cases alloc p p' :
  pstep alloc p p' →
  Parser.error p' = Parser.error p ∨
  Parser.error p' = MU_JSON_ERR_BAD_FORMAT ∨
  Parser.error p' = MU_JSON_ERR_NO_TOKENS.
Proof.
  induction 1 as [| | | |p token incl p' H| p ty s _ | p q r _ IH1 _ IH2];
    try (by left); try (by right; left).
  - apply finish_token_inv in H as [->|(i&t&s&_&_&_&->)]; by left.
  - rewrite std_alloc_eq. destruct (_ >=? _); cbn; [by right; right|by left].
  - destruct IH2 as [->|[->| ->]]; tauto.
Qed.

(** ** The bookend flags *)

Lemma open_store_nil : open_store [].
Proof. intros i t H. by rewrite lookup_nil in H. Qed.

Lemma open_store_reseal ts i t s :
  ts !! i = Some t →
  open_store ts → open_store (<[i := seal_token (set_json t s)]> ts).
Proof.
  intros Hi Hts j t' Hj.
  destruct (decide (i = j)) as [->|Hne].
  - rewrite list_lookup_insert_eq in Hj by (by eapply lookup_lt_Some).
    simplify_eq. rewrite token_is_first_seal, token_is_last_seal.
    apply (Hts j t Hi).
  - rewrite list_lookup_insert_ne in Hj by done. by apply Hts.
Qed.

Lemma new_token_flags p ty :
  token_is_first (new_token p ty)
    = bool_decide (length (Parser.tokens p) = 0%nat) ∧
  token_is_last (new_token p ty) = false ∧
  token_is_sealed (new_token p ty) = false.
Proof.
  unfold new_token, Parser.token_count, token_is_first, token_is_last,
    token_is_sealed; cbn.
  destruct (Z.of_nat (length (Parser.tokens p)) + 1 =? 1) eqn:E; ztests.
  - by rewrite bool_decide_eq_true_2 by lia.
  - by rewrite bool_decide_eq_false_2 by lia.
Qed.

Lemma open_store_snoc ts t :
  open_store ts →
  token_is_first t = bool_decide (length ts = 0%nat) →
  token_is_last t = false →
  open_store (ts ++ [t]).
Proof.
  intros Hts Hf Hl i t' Hi.
  apply lookup_app_Some in Hi as [Hi|[Hge Hi]]; [by apply Hts|].
  apply list_lookup_singleton_Some in Hi as [Hi ->].
  split; [|done]. rewrite Hf.
  apply bool_decide_ext. lia.
Qed.

Lemma pstep_open_store alloc p p' :
  pstep alloc p p' → open_store (Parser.tokens p) → open_store (Parser.tokens p').
Proof.
  induction 1 as [| | | |p token incl p' H| p ty s _ | p q r _ IH1 _ IH2];
    try done; [| |by auto].
  - apply finish_token_inv in H as [->|(i&t&s&_&Hi&_&->)]; [done|].
    cbn. by apply open_store_reseal.
  - rewrite std_alloc_eq. destruct (_ >=? _); cbn; [done|].
    intros Hp. destruct (new_token_flags p ty) as (Hf&Hl&_).
    by apply open_store_snoc.
Qed.

(** ** The tables *)

Lemma ascii_classes_length : length ascii_classes = 128%nat.
Proof. reflexivity. Qed.

Lemma state_transition_table_length :
  Z.of_nat (length state_transition_table) = NR_STATES * NR_CLASSES.
Proof. reflexivity. Qed.

Lemma classify_char_range b :
  0 ≤ classify_char b ≤ 30 ∨ classify_char b = __.
Proof. destruct b; vm_compute; intuition congruence. Qed.

(** ** Invariants of the loop *)

Lemma dispatch_pstep p c p' : dispatch p c = Done p' → pstep true p p'.
Proof.
  unfold dispatch. intros H. inv_bind H as n Hn. by eapply perform_pstep.
Qed.

Lemma advance_tokens p : Parser.tokens (advance p) = Parser.tokens p.
Proof. done. Qed.

(** A property that holds at the start and that every round keeps holds
    when the loop is left.  The class of a round is one [classify_char]
    returns, or [C_SPACE] at the end of the string. *)
Lemma parse_loop_invariant (I : parser_t → Prop) mem :
  (∀ p c p',
      I p → Parser.error p = MU_JSON_ERR_NONE →
      0 ≤ c ≤ 30 ∨ c = __ →
      dispatch p c = Done p' → I (advance p')) →
  ∀ fuel p q, I p → parse_loop mem fuel p = Done q → I q.
Proof.
  intros Hstep fuel. induction fuel as [|fuel IH]; intros p q Hp H; [done|].
  cbn in H. destruct (negb _) eqn:He; [by simplify_eq|]. ztests.
  inv_bind H as b Hb. destruct b as [ch|].
  - pose proof (classify_char_range ch) as Hc.
    destruct (classify_char ch <? 0) eqn:Hneg.
    { ztests. unfold __ in Hc. lia. }
    inv_bind H as p' Hp'. eapply IH; [|done]. eauto.
  - inv_bind H as p' Hp'. simplify_eq.
    eapply Hstep; [done..| |done]. left. by vm_compute.
Qed.

Lemma parse_loop_open_store mem fuel p q :
  open_store (Parser.tokens p) →
  parse_loop mem fuel p = Done q → open_store (Parser.tokens q).
Proof.
  apply (parse_loop_invariant (fun p => open_store (Parser.tokens p))).
  intros p0 c p' Hp0 _ _ Hd. rewrite advance_tokens.
  eapply pstep_open_store; [|done]. by eapply dispatch_pstep.
Qed.

Lemma parse_loop_error mem fuel p q :
  Parser.error p = MU_JSON_ERR_NONE →
  parse_loop mem fuel p = Done q →
  Parser.error q = MU_JSON_ERR_NONE ∨
  Parser.error q = MU_JSON_ERR_BAD_FORMAT ∨
  Parser.error q = MU_JSON_ERR_NO_TOKENS.
Proof.
  intros Hp.
  apply (parse_loop_invariant (fun p =>
    Parser.error p = MU_JSON_ERR_NONE ∨
    Parser.error p = MU_JSON_ERR_BAD_FORMAT ∨
    Parser.error p = MU_JSON_ERR_NO_TOKENS)); [|by left].
  intros p0 c p' _ He _ Hd.
  apply dispatch_pstep, pstep_error_cases in Hd.
  change (Parser.error (advance p')) with (Parser.error p').
  rewrite He in Hd. tauto.
Qed.

(** *** No state but [GO] is reached without a token *)

Lemma lookup_state_GO c n :
  0 ≤ c ≤ 30 ∨ c = __ →
  lookup_state GO c = Done n →
  n = GO ∨ n = __ ∨ is_Some (begin_action n).
Proof.
  intros [Hc| ->] H.
  - assert (∃ k, c = Z.of_nat k ∧ (k < 31)%nat) as (k & -> & Hk).
    { exists (Z.to_nat c). lia. }
    do 31 (destruct k as [|k];
           [vm_compute in H; simplify_eq; vm_compute; eauto|]).
    lia.
  - vm_compute in H. simplify_eq. auto.
Qed.

Lemma dispatch_started p c p' :
  started p → 0 ≤ c ≤ 30 ∨ c = __ →
  dispatch p c = Done p' → started (advance p').
Proof.
  intros [Hgo|Hne] Hc H.
  - unfold dispatch in H. inv_bind H as n Hn. rewrite Hgo in Hn.
    apply (lookup_state_GO _ _ Hc) in Hn as [->|[->|[[[ty s] d] Hb]]].
    + vm_compute in H. simplify_eq. by left.
    + unfold perform in H. cbn in H. simplify_eq. by left.
    + rewrite (perform_begin _ _ _ _ _ Hb), std_alloc_eq in H. simplify_eq.
      destruct (_ >=? _); cbn; [by left|right].
      intros E. by apply app_eq_nil in E as [_ ?].
  - right. apply dispatch_pstep, pstep_length in H.
    rewrite advance_tokens. intros E. rewrite E in H. cbn in H.
    destruct (Parser.tokens p); [done|cbn in H; lia].
Qed.

Lemma parse_loop_started mem fuel p q :
  started p → parse_loop mem fuel p = Done q → started q.
Proof.
  apply (parse_loop_invariant started). eauto using dispatch_started.
Qed.

(** ** Navigation in a store with proper bookends *)

Section NavigationFacts.

Variable ts : list mu_json_token_t.
Hypothesis Hbook : bookends ts.

Lemma depth_At i :
  (i < length ts)%nat → mu_json_token_depth ts (At i) = Done (depth_at ts i).
Proof.
  intros Hi. destruct (deref_lt ts i Hi) as (t & Ht & Hd).
  unfold mu_json_token_depth, depth_at. by rewrite Hd, Ht.
Qed.

Lemma prev_At i :
  (i < length ts)%nat →
  mu_json_token_prev ts (At i) =
  Done (match i with O => NULL | S j => At j end).
Proof.
  intros Hi. destruct (deref_lt ts i Hi) as (t & Ht & Hd).
  unfold mu_json_token_prev. rewrite Hd. cbn.
  destruct (Hbook i t Ht) as [-> _].
  destruct i; [by rewrite bool_decide_eq_true_2|by rewrite bool_decide_eq_false_2].
Qed.

Lemma next_At i :
  (i < length ts)%nat →
  mu_json_token_next ts (At i) =
  Done (if decide (S i = length ts) then NULL else At (S i)).
Proof.
  intros Hi. destruct (deref_lt ts i Hi) as (t & Ht & Hd).
  unfold mu_json_token_next. rewrite Hd. cbn.
  destruct (Hbook i t Ht) as [_ ->].
  case_decide; [by rewrite bool_decide_eq_true_2|by rewrite bool_decide_eq_false_2].
Qed.

Lemma root_loop_At fuel i :
  (i < length ts)%nat → (i < fuel)%nat →
  root_loop ts fuel (At i) = Done (At 0%nat).
Proof.
  revert fuel. induction i as [|i IH]; intros fuel Hi Hfuel;
    (destruct fuel as [|fuel]; [lia|]); cbn;
    destruct (deref_lt ts _ Hi) as (t & Ht & Hd); rewrite Hd; cbn;
    destruct (Hbook _ t Ht) as [-> _].
  - by rewrite bool_decide_eq_true_2.
  - rewrite bool_decide_eq_false_2 by done.
    rewrite prev_At by done. cbn. apply IH; lia.
Qed.

Lemma root_At i :
  (i < length ts)%nat → mu_json_token_root ts (At i) = Done (At 0%nat).
Proof.
  intros Hi. unfold mu_json_token_root, nav_fuel. apply root_loop_At; lia.
Qed.

Lemma parent_loop_At fuel d i :
  (i < length ts)%nat → (i < fuel)%nat →
  ∃ r, parent_loop ts fuel d (At i) = Done r ∧ nearest_shallower ts d i r.
Proof.
  revert fuel. induction i as [|i IH]; intros fuel Hi Hfuel;
    (destruct fuel as [|fuel]; [lia|]); cbn; rewrite prev_At by done; cbn.
  - exists NULL. split; [done|]. intros j Hj. lia.
  - rewrite depth_At by lia. cbn.
    destruct (depth_at ts i >=? d) eqn:E; ztests.
    + destruct (IH fuel) as (r & -> & Hr); [lia..|].
      exists r. split; [done|].
      destruct r as [|p]; cbn in *.
      * intros j Hj. destruct (decide (j = i)) as [->|]; [done|].
        apply Hr. lia.
      * destruct Hr as (Hp & Hdp & Hr). split_and!; [lia|done|].
        intros j Hj. destruct (decide (j = i)) as [->|]; [done|].
        apply Hr. lia.
    + exists (At i). split; [done|]. cbn. split_and!; [lia|lia|].
      intros j Hj. lia.
Qed.

Lemma parent_At i :
  (i < length ts)%nat →
  ∃ r, mu_json_token_parent ts (At i) = Done r ∧
       nearest_shallower ts (depth_at ts i) i r.
Proof.
  intros Hi. unfold mu_json_token_parent. rewrite depth_At by done. cbn.
  apply parent_loop_At; unfold nav_fuel; lia.
Qed.

Lemma nearest_shallower_valid d i r :
  (i < length ts)%nat → nearest_shallower ts d i r → valid_ptr ts r.
Proof. destruct r as [|p]; cbn; [done|]. lia. Qed.

Lemma child_At i :
  (i < length ts)%nat →
  mu_json_token_child ts (At i) =
  Done (if decide ((S i < length ts)%nat ∧ depth_at ts i < depth_at ts (S i))
        then At (S i) else NULL).
Proof.
  intros Hi. unfold mu_json_token_child.
  rewrite depth_At, next_At by done. cbn.
  destruct (decide (S i = length ts)) as [E|E]; cbn.
  - unfold mu_json_token_depth. cbn.
    rewrite decide_False by lia.
    by destruct (-1 >? depth_at ts i).
  - rewrite depth_At by lia. cbn.
    destruct (depth_at ts (S i) >? depth_at ts i) eqn:E'; ztests.
    + by rewrite decide_True by lia.
    + by rewrite decide_False by lia.
Qed.

End NavigationFacts.

Section SiblingFacts.

Variable ts : list mu_json_token_t.
Hypothesis Hbook : bookends ts.

Lemma sibling_loop_NULL_prev fuel token :
  (0 < fuel)%nat → prev_sibling_loop ts fuel token NULL = Done NULL.
Proof. destruct fuel; [lia|done]. Qed.

Lemma sibling_loop_NULL_next fuel token :
  (0 < fuel)%nat → next_sibling_loop ts fuel token NULL = Done NULL.
Proof. destruct fuel; [lia|done]. Qed.

Lemma prev_sibling_loop_At fuel t j :
  (j < t < length ts)%nat → (S j < fuel)%nat →
  (∀ m, (j < m < t)%nat → depth_at ts t < depth_at ts m) →
  ∃ r, prev_sibling_loop ts fuel (At t) (At j) = Done r ∧
       (r = NULL ∨ ∃ s, r = At s ∧ siblings ts s t).
Proof.
  revert fuel. induction j as [|j IH]; intros fuel Hj Hfuel Hbetween;
    (destruct fuel as [|fuel]; [lia|]); cbn;
    rewrite !depth_At by lia; cbn;
    (destruct (_ <? _) eqn:Hlt; [by eauto|]);
    (destruct (_ =? _) eqn:Heq;
     [ztests; eexists; split; [done|]; right; eexists; split; [done|];
      by repeat split; try lia |]);
    rewrite (prev_At ts Hbook) by lia; cbn; ztests.
  - rewrite sibling_loop_NULL_prev by lia. eauto.
  - apply IH; [lia..|]. intros m Hm.
    destruct (decide (m = S j)) as [->|]; [lia|]. apply Hbetween. lia.
Qed.

Lemma prev_sibling_loop_complete s t k fuel :
  siblings ts s t → (s + k < t)%nat → (k < fuel)%nat →
  prev_sibling_loop ts fuel (At t) (At (s + k)) = Done (At s).
Proof.
  intros (Hst & Hd & Hbetween). revert fuel.
  induction k as [|k IH]; intros fuel Hk Hfuel;
    (destruct fuel as [|fuel]; [lia|]); cbn;
    rewrite !depth_At by lia; cbn.
  - rewrite Nat.add_0_r, Hd, Z.ltb_irrefl, Z.eqb_refl. done.
  - specialize (Hbetween (s + S k)%nat ltac:(lia)).
    destruct (_ <? _) eqn:Hlt; [ztests; lia|].
    destruct (_ =? _) eqn:Heq; [ztests; lia|].
    rewrite (prev_At ts Hbook) by lia.
    replace (s + S k)%nat with (S (s + k)) by lia. cbn.
    apply IH; lia.
Qed.

Lemma prev_sibling_At t :
  (t < length ts)%nat →
  ∃ r, mu_json_token_prev_sibling ts (At t) = Done r ∧
       (r = NULL ∨ ∃ s, r = At s ∧ siblings ts s t).
Proof.
  intros Ht. unfold mu_json_token_prev_sibling.
  rewrite (prev_At ts Hbook) by done. cbn. destruct t as [|j].
  - rewrite sibling_loop_NULL_prev by (unfold nav_fuel; lia). eauto.
  - apply prev_sibling_loop_At; [unfold nav_fuel; lia..|]. intros m Hm. lia.
Qed.

Lemma prev_sibling_complete s t :
  siblings ts s t → mu_json_token_prev_sibling ts (At t) = Done (At s).
Proof.
  intros Hs. pose proof Hs as (Hst & _).
  unfold mu_json_token_prev_sibling.
  rewrite (prev_At ts Hbook) by lia. destruct t as [|j]; [lia|]. cbn.
  replace j with (s + (j - s))%nat at 2 by lia.
  apply prev_sibling_loop_complete; [done|unfold nav_fuel; lia..].
Qed.

Lemma next_sibling_loop_At fuel t j :
  (t < j < length ts)%nat → (length ts - j < fuel)%nat →
  (∀ m, (t < m < j)%nat → depth_at ts t < depth_at ts m) →
  ∃ r, next_sibling_loop ts fuel (At t) (At j) = Done r ∧
       (r = NULL ∨ ∃ u, r = At u ∧ siblings ts t u).
Proof.
  revert j. induction fuel as [|fuel IH]; intros j Hj Hfuel Hbetween; [lia|].
  cbn. rewrite !depth_At by lia. cbn.
  destruct (_ <? _) eqn:Hlt; [by eauto|].
  destruct (_ =? _) eqn:Heq.
  { ztests. eexists; split; [done|]. right. eexists; split; [done|].
    repeat split; try lia. intros m Hm. rewrite Heq. by apply Hbetween. }
  rewrite (next_At ts Hbook) by lia. cbn. ztests.
  case_decide.
  - rewrite sibling_loop_NULL_next by lia. eauto.
  - apply IH; [lia..|]. intros m Hm.
    destruct (decide (m = j)) as [->|]; [lia|]. apply Hbetween. lia.
Qed.

Lemma next_sibling_loop_complete t u fuel j :
  siblings ts t u → (t < j ≤ u)%nat → (u - j < fuel)%nat →
  next_sibling_loop ts fuel (At t) (At j) = Done (At u).
Proof.
  intros (Htu & Hd & Hbetween). revert j.
  induction fuel as [|fuel IH]; intros j Hj Hfuel; [lia|].
  cbn. rewrite !depth_At by lia. cbn.
  destruct (decide (j = u)) as [->|Hne].
  - rewrite Hd, Z.ltb_irrefl, Z.eqb_refl. done.
  - specialize (Hbetween j ltac:(lia)).
    destruct (_ <? _) eqn:Hlt; [ztests; lia|].
    destruct (_ =? _) eqn:Heq; [ztests; lia|].
    rewrite (next_At ts Hbook) by lia. cbn.
    rewrite decide_False by lia.
    apply IH; lia.
Qed.

Lemma next_sibling_At t :
  (t < length ts)%nat →
  ∃ r, mu_json_token_next_sibling ts (At t) = Done r ∧
       (r = NULL ∨ ∃ u, r = At u ∧ siblings ts t u).
Proof.
  intros Ht. unfold mu_json_token_next_sibling.
  rewrite (next_At ts Hbook) by done. cbn. case_decide.
  - rewrite sibling_loop_NULL_next by (unfold nav_fuel; lia). eauto.
  - apply next_sibling_loop_At; [unfold nav_fuel; lia..|]. intros m Hm. lia.
Qed.

Lemma next_sibling_complete t u :
  siblings ts t u → mu_json_token_next_sibling ts (At t) = Done (At u).
Proof.
  intros Hs. pose proof Hs as (Htu & _).
  unfold mu_json_token_next_sibling.
  rewrite (next_At ts Hbook) by lia. cbn.
  rewrite decide_False by lia.
  apply next_sibling_loop_complete; [done|unfold nav_fuel; lia..].
Qed.

End SiblingFacts.

(** ** The tree the navigation functions see *)

Lemma depth_Done_lt ts i d :
  mu_json_token_depth ts (At i) = Done d → (i < length ts)%nat.
Proof.
  unfold mu_json_token_depth. intros H. inv_bind H as t Ht.
  apply deref_Done in Ht. by eapply lookup_lt_Some.
Qed.

Lemma prev_Done_lt ts i r :
  mu_json_token_prev ts (At i) = Done r → (i < length ts)%nat.
Proof.
  unfold mu_json_token_prev. intros H. inv_bind H as t Ht.
  apply deref_Done in Ht. by eapply lookup_lt_Some.
Qed.

Lemma next_Done_lt ts i r :
  mu_json_token_next ts (At i) = Done r → (i < length ts)%nat.
Proof.
  unfold mu_json_token_next. intros H. inv_bind H as t Ht.
  apply deref_Done in Ht. by eapply lookup_lt_Some.
Qed.

Section TreeFacts.

Variable ts : list mu_json_token_t.
Hypothesis Hbook : bookends ts.

Lemma parent_Done d r :
  mu_json_token_parent ts (At d) = Done r →
  (d < length ts)%nat ∧ nearest_shallower ts (depth_at ts d) d r.
Proof.
  intros H. assert (d < length ts)%nat as Hd.
  { unfold mu_json_token_parent in H. inv_bind H as x Hx.
    by eapply depth_Done_lt. }
  split; [done|].
  destruct (parent_At ts Hbook d Hd) as (r' & Hr' & Hspec). congruence.
Qed.

Lemma child_parent c k :
  mu_json_token_child ts (At c) = Done (At k) →
  mu_json_token_parent ts (At k) = Done (At c).
Proof.
  intros H. assert (c < length ts)%nat as Hc.
  { unfold mu_json_token_child in H. inv_bind H as x Hx.
    by eapply depth_Done_lt. }
  rewrite (child_At ts Hbook c Hc) in H.
  destruct (decide _) as [[Hk Hdepth]|]; simplify_eq.
  destruct (parent_At ts Hbook (S c) Hk) as (r & -> & Hspec).
  destruct r as [|p]; cbn in Hspec.
  - specialize (Hspec c). lia.
  - destruct Hspec as (Hp & Hlt & Hge).
    destruct (decide (p = c)) as [->|Hne]; [done|].
    specialize (Hge c). lia.
Qed.

Lemma prev_next_sibling t s :
  mu_json_token_prev_sibling ts (At t) = Done (At s) →
  mu_json_token_next_sibling ts (At s) = Done (At t).
Proof.
  intros H. assert (t < length ts)%nat as Ht.
  { unfold mu_json_token_prev_sibling in H. inv_bind H as x Hx.
    by eapply prev_Done_lt. }
  destruct (prev_sibling_At ts Hbook t Ht) as (r & Hr & [->|(s' & -> & Hs)]);
    [congruence|].
  rewrite H in Hr. simplify_eq. by apply next_sibling_complete.
Qed.

Lemma next_prev_sibling t u :
  mu_json_token_next_sibling ts (At t) = Done (At u) →
  mu_json_token_prev_sibling ts (At u) = Done (At t).
Proof.
  intros H. assert (t < length ts)%nat as Ht.
  { unfold mu_json_token_next_sibling in H. inv_bind H as x Hx.
    by eapply next_Done_lt. }
  destruct (next_sibling_At ts Hbook t Ht) as (r & Hr & [->|(u' & -> & Hs)]);
    [congruence|].
  rewrite H in Hr. simplify_eq. by apply prev_sibling_complete.
Qed.

Lemma navigation_total token :
  valid_ptr ts token →
  Forall (fun f => ∃ r, f ts token = Done r ∧ valid_ptr ts r) navigation.
Proof.
  intros Hv. destruct token as [|i].
  { repeat constructor; by exists NULL. }
  cbn in Hv. repeat apply Forall_cons_2; [..|apply Forall_nil_2].
  - rewrite (prev_At ts Hbook i Hv). eexists; split; [done|].
    destruct i; cbn; lia.
  - rewrite (next_At ts Hbook i Hv). eexists; split; [done|].
    case_decide; cbn; lia.
  - rewrite (root_At ts Hbook i Hv). eexists; split; [done|]. cbn. lia.
  - destruct (parent_At ts Hbook i Hv) as (r & -> & Hspec).
    eexists; split; [done|]. by eapply nearest_shallower_valid.
  - rewrite (child_At ts Hbook i Hv). eexists; split; [done|].
    case_decide; cbn; [lia|done].
  - destruct (prev_sibling_At ts Hbook i Hv) as (r & -> & [->|(s & -> & Hs)]);
      eexists; (split; [done|]); [done|]. destruct Hs as (? & _). cbn. lia.
  - destruct (next_sibling_At ts Hbook i Hv) as (r & -> & [->|(u & -> & Hs)]);
      eexists; (split; [done|]); [done|]. destruct Hs as (? & _). cbn. lia.
Qed.

End TreeFacts.


(** ** The end of [parse] *)

Lemma bookends_reseal ts i t s :
  ts !! i = Some t →
  bookends ts → bookends (<[i := seal_token (set_json t s)]> ts).
Proof.
  intros Hi Hts j t' Hj. rewrite length_insert.
  destruct (decide (i = j)) as [->|Hne].
  - rewrite list_lookup_insert_eq in Hj by (by eapply lookup_lt_Some).
    simplify_eq. rewrite token_is_first_seal, token_is_last_seal.
    apply (Hts j t Hi).
  - rewrite list_lookup_insert_ne in Hj by done. by apply Hts.
Qed.

Lemma bookends_set_last ts t :
  ts !! (length ts - 1)%nat = Some t →
  open_store ts → bookends (<[(length ts - 1)%nat := set_is_last t]> ts).
Proof.
  intros Hi Hts j t' Hj. rewrite length_insert.
  pose proof (lookup_lt_Some _ _ _ Hi) as Hlt.
  destruct (decide ((length ts - 1)%nat = j)) as [<-|Hne].
  - rewrite list_lookup_insert_eq in Hj by done. simplify_eq.
    rewrite token_is_first_set_last, token_is_last_set_last.
    split; [apply (Hts _ _ Hi)|]. symmetry. apply bool_decide_eq_true_2. lia.
  - rewrite list_lookup_insert_ne in Hj by done.
    destruct (Hts j t' Hj) as [-> ->]. split; [done|].
    symmetry. apply bool_decide_eq_false_2.
    apply lookup_lt_Some in Hj. lia.
Qed.

Lemma tos_At (p : parser_t) :
  Parser.tokens p ≠ [] → tos p = At (length (Parser.tokens p) - 1)%nat.
Proof.
  intros Hne. unfold tos, Parser.token_count.
  destruct (Parser.tokens p) as [|t ts]; [done|].
  cbn [length]. destruct (_ =? 0) eqn:E; [ztests; lia|].
  f_equal. lia.
Qed.

Lemma tos_NULL (p : parser_t) : Parser.tokens p = [] → tos p = NULL.
Proof. intros E. unfold tos, Parser.token_count. by rewrite E. Qed.

Lemma endgame_success p :
  open_store (Parser.tokens p) →
  Parser.error p = MU_JSON_ERR_NONE → Parser.depth p = 0 →
  Parser.state p = OK → Parser.tokens p ≠ [] →
  ∃ ts, endgame p = Done (Z.of_nat (length (Parser.tokens p)), ts) ∧
        length ts = length (Parser.tokens p) ∧ bookends ts.
Proof.
  intros Hopen He Hd Hs Hne. unfold endgame.
  rewrite He, Hd, Hs. cbn.
  rewrite (tos_At p Hne).
  set (n := length (Parser.tokens p)).
  assert (0 < n)%nat as Hn.
  { subst n. destruct (Parser.tokens p); [done|cbn; lia]. }
  destruct (deref_lt (Parser.tokens p) (n - 1)) as (t & Ht & ->); [lia|].
  cbn.
  set (ts1 := <[(n - 1)%nat := set_is_last t]> (Parser.tokens p)).
  assert (bookends ts1) as Hb1 by (by apply bookends_set_last).
  assert (length ts1 = n) as Hlen1 by (subst ts1; by rewrite length_insert).
  rewrite tos_At; cbn; [|intros E; rewrite E in Hlen1; cbn in Hlen1; lia].
  fold ts1. rewrite Hlen1, (root_At ts1 Hb1) by lia. cbn.
  destruct (finish_token (Parser.with_tokens p ts1) (At 0%nat) false)
    as [p2| |] eqn:Hf.
  - apply finish_token_inv in Hf as [->|(i&t0&s&_&Hi&_&->)]; cbn.
    + unfold Parser.token_count. cbn. rewrite Hlen1. eauto.
    + cbn in Hi. unfold Parser.token_count. cbn.
      rewrite length_insert, Hlen1. eexists. split; [done|].
      rewrite length_insert. split; [done|]. by apply bookends_reseal.
  - unfold finish_token in Hf. cbn in Hf.
    destruct (deref_lt ts1 0) as (t0 & _ & Ht0); [lia|].
    rewrite Ht0 in Hf. cbn in Hf. by destruct (token_is_sealed t0).
  - unfold finish_token in Hf. cbn in Hf.
    destruct (deref_lt ts1 0) as (t0 & _ & Ht0); [lia|].
    rewrite Ht0 in Hf. cbn in Hf. by destruct (token_is_sealed t0).
Qed.

Lemma parse_inv mem max_tokens json_input r ts :
  parse mem max_tokens json_input = Done (r, ts) →
  ∃ p, parse_loop mem (parse_fuel json_input)
         (parser_init json_input max_tokens) = Done p ∧
       length ts = length (Parser.tokens p) ∧
       parse_result p r ts.
Proof.
  unfold parse. intros H. inv_bind H as p Hp. exists p. split; [done|].
  assert (Parser.error (parser_init json_input max_tokens)
          = MU_JSON_ERR_NONE) as He by done.
  apply (parse_loop_error _ _ _ _ He) in Hp as He'.
  assert (open_store (Parser.tokens (parser_init json_input max_tokens)))
    as Ho0 by apply open_store_nil.
  apply (parse_loop_open_store _ _ _ _ Ho0) in Hp as Ho. clear Ho0.
  assert (started (parser_init json_input max_tokens)) as Hst by (by left).
  apply (parse_loop_started _ _ _ _ Hst) in Hp as Hst'.
  clear He Hst.
  destruct (negb (Parser.error p =? MU_JSON_ERR_NONE)) eqn:E1.
  { unfold endgame in H. rewrite E1 in H.
    simplify_eq. ztests. split; [done|]. apply parse_error; [done|done|tauto]. }
  clear He'.
  destruct (negb (Parser.depth p =? 0)) eqn:E2.
  { unfold endgame in H. rewrite E1, E2 in H.
    simplify_eq. ztests. split; [done|]. by apply parse_incomplete. }
  destruct (negb (Parser.state p =? OK)) eqn:E3.
  { unfold endgame in H. rewrite E1, E2, E3 in H.
    simplify_eq. ztests. split; [done|]. by apply parse_bad_state. }
  ztests. destruct Hst' as [Hgo|Hne]; [rewrite Hgo in E3; done|].
  destruct (endgame_success p Ho E1 E2 E3 Hne) as (ts' & Hend & Hlen & Hb).
  rewrite Hend in H. simplify_eq. split; [done|].
  apply parse_success; try done.
  - destruct (Parser.tokens p); [done|cbn; lia].
  - by rewrite Hlen.
Qed.

Lemma parse_bookends mem max_tokens json_input r ts :
  parse mem max_tokens json_input = Done (r, ts) → 0 ≤ r → bookends ts.
Proof.
  intros H Hr. apply parse_inv in H as (p & _ & _ & Hres).
  destruct Hres as [? ? [?|?]| | |He Hd Hs Hcount Hge Hlen Hb];
    [cells_lia..|done].
Qed.

(** ** Runs that differ in the capacity of the store *)

Lemma perform_begin_max p m n ty s d :
  begin_action n = Some (ty, s, d) →
  perform (Parser.with_max_tokens p m) n =
  Done (Parser.with_max_tokens
          (if Parser.token_count p >=? Z.of_nat m then alloc_failed p d
           else alloc_ok p ty s d) m).
Proof.
  intros H. rewrite (perform_begin _ _ _ _ _ H), std_alloc_eq.
  change (Parser.token_count (Parser.with_max_tokens p m))
    with (Parser.token_count p).
  change (Parser.max_tokens (Parser.with_max_tokens p m)) with m.
  by destruct (_ >=? _).
Qed.

Lemma parse_loop_stuck mem fuel p q :
  Parser.error p ≠ MU_JSON_ERR_NONE →
  parse_loop mem fuel p = Done q → q = p.
Proof.
  intros He H. destruct fuel as [|fuel]; [done|]. cbn in H.
  destruct (negb _) eqn:E; [by simplify_eq|]. ztests. done.
Qed.

Lemma parse_loop_length mem fuel p q :
  parse_loop mem fuel p = Done q →
  (length (Parser.tokens p) ≤ length (Parser.tokens q))%nat.
Proof.
  intros H.
  apply (parse_loop_invariant
           (fun x => (length (Parser.tokens p) ≤ length (Parser.tokens x))%nat)
           mem) with (fuel := fuel) (p := p); [|lia|done].
  intros p0 c p' Hp0 _ _ Hd. rewrite advance_tokens.
  apply dispatch_pstep, pstep_length in Hd. lia.
Qed.

Lemma with_max_tokens_id (p : parser_t) m :
  Parser.max_tokens p = m → Parser.with_max_tokens p m = p.
Proof. intros <-. by destruct p. Qed.

(** One round, run with capacity [A] and with capacity [B]. *)
Lemma dispatch_capacity p A B c p1 :
  dispatch (Parser.with_max_tokens p A) c = Done p1 →
  Parser.error p1 ≠ MU_JSON_ERR_NO_TOKENS →
  (length (Parser.tokens p1) ≤ B)%nat →
  dispatch (Parser.with_max_tokens p B) c = Done (Parser.with_max_tokens p1 B).
Proof.
  unfold dispatch.
  change (Parser.state (Parser.with_max_tokens p A)) with (Parser.state p).
  change (Parser.state (Parser.with_max_tokens p B)) with (Parser.state p).
  intros H He Hlen. inv_bind H as n Hn. rewrite Hn. cbn.
  destruct (begin_action n) as [[[ty s] d]|] eqn:Hb.
  - rewrite (perform_begin_max p A n ty s d Hb) in H.
    rewrite (perform_begin_max p B n ty s d Hb). simplify_eq.
    unfold Parser.token_count in *.
    destruct (_ >=? Z.of_nat A) eqn:EA; cbn in *.
    + done.
    + rewrite length_app in Hlen. cbn in Hlen.
      destruct (_ >=? Z.of_nat B) eqn:EB; [ztests; lia|done].
  - rewrite (perform_with_max p A n Hb) in H.
    rewrite (perform_with_max p B n Hb).
    destruct (perform p n) as [p1'| |]; cbn in *; by simplify_eq.
Qed.

Lemma parse_loop_capacity mem fuel p A B q :
  parse_loop mem fuel (Parser.with_max_tokens p A) = Done q →
  Parser.error q ≠ MU_JSON_ERR_NO_TOKENS →
  (length (Parser.tokens q) ≤ B)%nat →
  parse_loop mem fuel (Parser.with_max_tokens p B)
  = Done (Parser.with_max_tokens q B).
Proof.
  revert p. induction fuel as [|fuel IH]; intros p H He Hlen; [done|].
  cbn in H |- *.
  change (Parser.error (Parser.with_max_tokens p A)) with (Parser.error p) in H.
  change (Parser.error (Parser.with_max_tokens p B)) with (Parser.error p).
  destruct (negb (Parser.error p =? MU_JSON_ERR_NONE)) eqn:E;
    [by simplify_eq|].
  change (MuStr.mu_str_get_byte mem
            (Parser.json (Parser.with_max_tokens p B))
            (Parser.char_pos (Parser.with_max_tokens p B)))
    with (MuStr.mu_str_get_byte mem
            (Parser.json (Parser.with_max_tokens p A))
            (Parser.char_pos (Parser.with_max_tokens p A))).
  inv_bind H as b Hb. rewrite Hb. cbn. destruct b as [ch|].
  - destruct (classify_char ch <? 0); [by simplify_eq|].
    inv_bind H as p1 Hp1.
    assert (Parser.max_tokens p1 = A) as Hmax.
    { apply dispatch_pstep, pstep_frame in Hp1. tauto. }
    assert (Parser.error p1 ≠ MU_JSON_ERR_NO_TOKENS) as He1.
    { intros E1. apply parse_loop_stuck in H; [|cbn; by rewrite E1].
      subst q. done. }
    pose proof (parse_loop_length _ _ _ _ H) as Hlen1.
    rewrite advance_tokens in Hlen1.
    rewrite (dispatch_capacity _ _ B _ _ Hp1) by (done || lia). cbn.
    rewrite <- (with_max_tokens_id p1 A Hmax) in H.
    apply (IH (advance p1)); done.
  - inv_bind H as p1 Hp1. simplify_eq.
    rewrite (dispatch_capacity _ _ B _ _ Hp1) by done. done.
Qed.

(** One round, run with capacity [A] and with a capacity [k] that the store
    has not outgrown yet: both runs agree, or the run with [k] finds the
    store full. *)
Lemma dispatch_overflow p A k c p1 :
  dispatch (Parser.with_max_tokens p A) c = Done p1 →
  Parser.error p1 = MU_JSON_ERR_NONE →
  (length (Parser.tokens p) ≤ k)%nat →
  ((length (Parser.tokens p1) ≤ k)%nat ∧
   dispatch (Parser.with_max_tokens p k) c
   = Done (Parser.with_max_tokens p1 k)) ∨
  ((k < length (Parser.tokens p1))%nat ∧
   ∃ p1', dispatch (Parser.with_max_tokens p k) c = Done p1' ∧
          Parser.error p1' = MU_JSON_ERR_NO_TOKENS).
Proof.
  intros H He Hk.
  destruct (decide (length (Parser.tokens p1) ≤ k)%nat) as [Hle|Hgt].
  { left. split; [done|]. eapply dispatch_capacity; [done| |done].
    by rewrite He. }
  right. split; [lia|]. revert H. unfold dispatch.
  change (Parser.state (Parser.with_max_tokens p A)) with (Parser.state p).
  change (Parser.state (Parser.with_max_tokens p k)) with (Parser.state p).
  intros H. inv_bind H as n Hn. rewrite Hn. cbn.
  destruct (begin_action n) as [[[ty s] d]|] eqn:Hb.
  - rewrite (perform_begin_max p A n ty s d Hb) in H.
    rewrite (perform_begin_max p k n ty s d Hb). simplify_eq.
    unfold Parser.token_count in *.
    destruct (_ >=? Z.of_nat A) eqn:EA; cbn in *; [done|].
    destruct (_ >=? Z.of_nat k) eqn:EB; [by eauto|].
    rewrite length_app in Hgt. cbn in Hgt. ztests. lia.
  - apply perform_pstep_gen with (alloc := false) in H; [|by right].
    apply pstep_length_eq in H. cbn in H. lia.
Qed.

Lemma parse_loop_overflow mem fuel p A k q :
  parse_loop mem fuel (Parser.with_max_tokens p A) = Done q →
  Parser.error q = MU_JSON_ERR_NONE →
  (length (Parser.tokens p) ≤ k < length (Parser.tokens q))%nat →
  ∃ q', parse_loop mem fuel (Parser.with_max_tokens p k) = Done q' ∧
        Parser.error q' = MU_JSON_ERR_NO_TOKENS.
Proof.
  revert p. induction fuel as [|fuel IH]; intros p H He Hk; [done|].
  cbn in H |- *.
  change (Parser.error (Parser.with_max_tokens p A)) with (Parser.error p) in H.
  change (Parser.error (Parser.with_max_tokens p k)) with (Parser.error p).
  destruct (negb (Parser.error p =? MU_JSON_ERR_NONE)) eqn:E.
  { simplify_eq. cbn in Hk. lia. }
  change (MuStr.mu_str_get_byte mem
            (Parser.json (Parser.with_max_tokens p k))
            (Parser.char_pos (Parser.with_max_tokens p k)))
    with (MuStr.mu_str_get_byte mem
            (Parser.json (Parser.with_max_tokens p A))
            (Parser.char_pos (Parser.with_max_tokens p A))).
  inv_bind H as b Hb. rewrite Hb. cbn. destruct b as [ch|].
  - destruct (classify_char ch <? 0); [by simplify_eq|].
    inv_bind H as p1 Hp1.
    assert (Parser.max_tokens p1 = A) as Hmax.
    { apply dispatch_pstep, pstep_frame in Hp1. tauto. }
    assert (Parser.error p1 = MU_JSON_ERR_NONE) as He1.
    { destruct (decide (Parser.error p1 = MU_JSON_ERR_NONE)) as [|Hne];
        [done|].
      apply parse_loop_stuck in H; [|done]. subst q. done. }
    destruct (dispatch_overflow _ _ k _ _ Hp1 He1) as
      [[Hle ->]|[Hgt (p1' & -> & He1')]]; [lia| |]; cbn.
    + rewrite <- (with_max_tokens_id p1 A Hmax) in H.
      apply (IH (advance p1)); [done..|]. rewrite advance_tokens. lia.
    + destruct fuel as [|fuel]; [done|]. cbn. rewrite He1'. cbn. eauto.
  - inv_bind H as p1 Hp1. simplify_eq.
    destruct (dispatch_overflow _ _ k _ _ Hp1 He) as
      [[Hle ->]|[Hgt (p1' & -> & He1')]]; [lia| |]; cbn.
    + rewrite advance_tokens in Hk. lia.
    + eauto.
Qed.

(** *** The two consequences for [parse] *)

Lemma parser_init_with_max json_input m m' :
  Parser.with_max_tokens (parser_init json_input m) m'
  = parser_init json_input m'.
Proof. done. Qed.

Lemma endgame_with_max p m :
  endgame (Parser.with_max_tokens p m) = endgame p.
Proof.
  unfold endgame.
  change (tos (Parser.with_max_tokens p m)) with (tos p).
  cbn. repeat (case_match; try done).
  outcome_cases; [|done..].
  change (tos (Parser.with_tokens (Parser.with_max_tokens p m) ?ts))
    with (tos (Parser.with_tokens p ts)).
  outcome_cases; [|done..].
  change (Parser.with_tokens (Parser.with_max_tokens p m) ?ts)
    with (Parser.with_max_tokens (Parser.with_tokens p ts) m).
  rewrite finish_token_with_max.
  by outcome_cases.
Qed.

(** A parse that does not run out of tokens is the same with any capacity
    that holds the tokens it wrote. *)
Lemma parse_capacity mem A B json_input r ts :
  parse mem A json_input = Done (r, ts) →
  r ≠ MU_JSON_ERR_NO_TOKENS → (length ts ≤ B)%nat →
  parse mem B json_input = Done (r, ts).
Proof.
  intros H Hr HB. pose proof H as Hparse.
  apply parse_inv in H as (p & Hp & Hlen & Hres).
  unfold parse in Hparse. rewrite Hp in Hparse. cbn in Hparse.
  rewrite <- (parser_init_with_max json_input B A) in Hp.
  apply parse_loop_capacity with (B := B) in Hp.
  - unfold parse. rewrite parser_init_with_max in Hp. rewrite Hp. cbn.
    by rewrite endgame_with_max.
  - destruct Hres as [? ? _| He| He|He]; [congruence|by rewrite He..].
  - lia.
Qed.

(** A parse that succeeds with more tokens than the store holds stops with
    [NO_TOKENS] in that store. *)
Lemma parse_overflow mem A k json_input r ts :
  parse mem A json_input = Done (r, ts) → 0 ≤ r → Z.of_nat k < r →
  ∃ ts', parse mem k json_input = Done (MU_JSON_ERR_NO_TOKENS, ts').
Proof.
  intros H Hr Hk.
  apply parse_inv in H as (p & Hp & _ & Hres).
  destruct Hres as [? ? [?|?]| | |He Hd Hs Hcount Hge Hlen Hb];
    try cells_lia.
  rewrite <- (parser_init_with_max json_input k A) in Hp.
  apply parse_loop_overflow with (k := k) in Hp as (q' & Hq' & He');
    [|done|].
  - unfold parse. rewrite parser_init_with_max in Hq'. rewrite Hq'. cbn.
    unfold endgame. rewrite He'. cbn. eauto.
  - cbn. unfold Parser.token_count in Hcount. lia.
Qed.

(** ** Runs of bytes that leave the state alone *)

Lemma perform_pure p n :
  0 ≤ n < NR_STATES → perform p n = Done (set_state p n).
Proof.
  intros Hn. unfold perform.
  destruct ((n >=? 0) && (n <? NR_STATES)) eqn:E; [done|]. cells_lia.
Qed.

Lemma set_state_id (p : parser_t) : set_state p (Parser.state p) = p.
Proof. by destruct p. Qed.

(** From [char_pos] on, every byte and the end of the string map the state
    [s] to itself: the loop runs to the end and changes [char_pos] only. *)
Lemma parse_loop_idle mem fuel p s :
  Parser.json p = MuStr.mk 0 (Z.of_nat (length mem)) →
  Parser.state p = s → Parser.error p = MU_JSON_ERR_NONE →
  0 ≤ s < NR_STATES →
  lookup_state s C_SPACE = Done s →
  (∀ i b, (Z.to_nat (Parser.char_pos p) ≤ i)%nat → mem !! i = Some b →
          lookup_state s (classify_char b) = Done s) →
  0 ≤ Parser.char_pos p ≤ Z.of_nat (length mem) →
  (length mem - Z.to_nat (Parser.char_pos p) < fuel)%nat →
  parse_loop mem fuel p
  = Done (Parser.with_char_pos p (Z.of_nat (length mem) + 1)).
Proof.
  intros Hjson Hs He Hrange Hspace. revert p Hjson Hs He.
  induction fuel as [|fuel IH]; intros p Hjson Hs He Hbytes Hpos Hfuel; [lia|].
  cbn. rewrite He. cbn.
  unfold MuStr.mu_str_get_byte. rewrite Hjson. cbn.
  destruct (Parser.char_pos p <? 0) eqn:E0; [ztests; lia|]. cbn.
  destruct (Parser.char_pos p >=? Z.of_nat (length mem)) eqn:E1; ztests; cbn.
  - unfold dispatch. rewrite Hs, Hspace. cbn.
    rewrite perform_pure by done. cbn. rewrite <- Hs, set_state_id.
    unfold advance. do 2 f_equal. lia.
  - destruct (lookup_lt_is_Some_2 mem (Z.to_nat (Parser.char_pos p)))
      as [b Hb]; [lia|].
    rewrite Z.add_0_l, Hb. cbn.
    destruct (classify_char b <? 0) eqn:Hneg.
    { ztests. pose proof (classify_char_range b). cells_lia. }
    unfold dispatch. rewrite Hs, (Hbytes _ b (Nat.le_refl _) Hb). cbn.
    rewrite perform_pure by done. cbn. rewrite <- Hs, set_state_id.
    rewrite IH; try done.
    + intros i b' Hi. apply Hbytes. cbn in Hi. lia.
    + cbn. lia.
    + cbn. lia.
Qed.

(** ** Whitespace and string bodies *)

Lemma is_whitespace_GO b :
  is_whitespace b = true → lookup_state GO (classify_char b) = Done GO.
Proof. destruct b; intros H; try discriminate H; reflexivity. Qed.

Lemma plain_string_byte_ST b :
  plain_string_byte b = true → lookup_state ST (classify_char b) = Done ST.
Proof. destruct b; intros H; try discriminate H; reflexivity. Qed.

Lemma whitespace_only max_tokens buf :
  Forall (fun b => is_whitespace b = true) buf →
  mu_json_parse_buffer max_tokens buf = Done (MU_JSON_ERR_BAD_FORMAT, []).
Proof.
  intros Hws. unfold mu_json_parse_buffer, parse.
  rewrite (parse_loop_idle _ _ _ GO); try done.
  - intros i b _ Hb. apply is_whitespace_GO.
    by eapply (proj1 (Forall_lookup _ _) Hws).
  - cbn. lia.
  - unfold parse_fuel. cbn. lia.
Qed.

Lemma parse_loop_S mem fuel p :
  parse_loop mem (S fuel) p =
  if negb (Parser.error p =? MU_JSON_ERR_NONE) then Done p
  else
    b ← MuStr.mu_str_get_byte mem (Parser.json p) (Parser.char_pos p);
    match b with
    | None => parser ← dispatch p C_SPACE; Done (advance parser)
    | Some ch =>
        let char_class := classify_char ch in
        if char_class <? 0 then
          Done (Parser.with_error p MU_JSON_ERR_BAD_FORMAT)
        else parser ← dispatch p char_class; parse_loop mem fuel (advance parser)
    end.
Proof. reflexivity. Qed.

Lemma parse_loop_step mem fuel p ch p1 :
  Parser.error p = MU_JSON_ERR_NONE →
  MuStr.mu_str_get_byte mem (Parser.json p) (Parser.char_pos p)
  = Done (Some ch) →
  dispatch p (classify_char ch) = Done p1 →
  parse_loop mem (S fuel) p = parse_loop mem fuel (advance p1).
Proof.
  intros He Hb Hd. rewrite parse_loop_S, He, Hb. cbn.
  destruct (classify_char ch <? 0) eqn:Hneg.
  { ztests. pose proof (classify_char_range ch). cells_lia. }
  by rewrite Hd.
Qed.

Lemma unterminated_string capacity body :
  (1 ≤ capacity)%nat →
  Forall (fun b => plain_string_byte b = true) body →
  ∃ ts, mu_json_parse_buffer capacity (x22 :: body)
        = Done (MU_JSON_ERR_BAD_FORMAT, ts).
Proof.
  intros Hcap Hbody. unfold mu_json_parse_buffer, parse.
  set (mem := x22 :: body).
  set (p0 := parser_init _ _).
  set (p1 := alloc_ok p0 MU_JSON_TOKEN_TYPE_STRING ST 0).
  assert (parse_fuel (MuStr.mu_str_init 0 (Z.of_nat (length mem)))
          = S (S (length body))) as ->.
  { unfold parse_fuel. cbn. lia. }
  rewrite (parse_loop_step mem _ p0 x22 p1); [|done| |].
  - rewrite (parse_loop_idle _ _ _ ST); try done.
    + cbn. eauto.
    + intros i b Hi Hb. apply plain_string_byte_ST.
      cbn in Hi. destruct i as [|i]; [lia|]. cbn in Hb.
      by eapply (proj1 (Forall_lookup _ _) Hbody).
    + cbn. lia.
    + cbn. lia.
  - reflexivity.
  - unfold dispatch.
    change (lookup_state (Parser.state p0) (classify_char x22))
      with (Done Bs).
    cbn [mbind outcome_bind].
    rewrite (perform_begin _ Bs MU_JSON_TOKEN_TYPE_STRING ST 0 eq_refl).
    rewrite std_alloc_eq.
    change (Parser.token_count p0) with 0.
    change (Parser.max_tokens p0) with capacity.
    destruct (0 >=? Z.of_nat capacity) eqn:E'; [ztests; lia|].
    reflexivity.
Qed.

(** ** The loop bounds suffice *)

Lemma terminates_bind {A B} (m : outcome A) (f : A → outcome B) :
  terminates m → (∀ a, m = Done a → terminates (f a)) → terminates (m ≫= f).
Proof. destruct m; cbn; intros Hm Hf; [by apply Hf|done|done]. Qed.

Section Terminates.

Variable ts : list mu_json_token_t.

Lemma deref_terminates i : terminates (deref ts i).
Proof. unfold deref. by destruct (ts !! i). Qed.

Lemma depth_terminates p : terminates (mu_json_token_depth ts p).
Proof.
  destruct p as [|i]; [done|]. unfold mu_json_token_depth.
  apply terminates_bind; [apply deref_terminates|done].
Qed.

Lemma type_terminates p : terminates (mu_json_token_type ts p).
Proof.
  destruct p as [|i]; [done|]. unfold mu_json_token_type.
  apply terminates_bind; [apply deref_terminates|done].
Qed.

Lemma prev_terminates p : terminates (mu_json_token_prev ts p).
Proof.
  destruct p as [|i]; [done|]. unfold mu_json_token_prev.
  apply terminates_bind; [apply deref_terminates|].
  intros t _. destruct (token_is_first t); [done|by destruct i].
Qed.

Lemma next_terminates p : terminates (mu_json_token_next ts p).
Proof.
  destruct p as [|i]; [done|]. unfold mu_json_token_next.
  apply terminates_bind; [apply deref_terminates|].
  intros t _. by destruct (token_is_last t).
Qed.

Lemma prev_Done_At i r :
  mu_json_token_prev ts (At i) = Done r → r = NULL ∨ ∃ j, i = S j ∧ r = At j.
Proof.
  unfold mu_json_token_prev. intros H. inv_bind H as t Ht.
  destruct (token_is_first t); simplify_eq; [by left|].
  destruct i; simplify_eq. eauto.
Qed.

Lemma next_Done_At i r :
  mu_json_token_next ts (At i) = Done r →
  (i < length ts)%nat ∧ (r = NULL ∨ r = At (S i)).
Proof.
  unfold mu_json_token_next. intros H. inv_bind H as t Ht.
  apply deref_Done, lookup_lt_Some in Ht.
  destruct (token_is_last t); simplify_eq; auto.
Qed.

Lemma root_loop_terminates fuel i :
  (i < fuel)%nat → terminates (root_loop ts fuel (At i)).
Proof.
  revert i. induction fuel as [|fuel IH]; intros i Hi; [lia|]. cbn.
  apply terminates_bind; [apply deref_terminates|]. intros t Ht.
  destruct (token_is_first t) eqn:Hf; [done|].
  unfold mu_json_token_prev. rewrite Ht. cbn. rewrite Hf.
  destruct i as [|j]; [done|]. cbn. apply IH. lia.
Qed.

Lemma parent_loop_terminates fuel d i :
  (i < fuel)%nat → terminates (parent_loop ts fuel d (At i)).
Proof.
  revert i. induction fuel as [|fuel IH]; intros i Hi; [lia|]. cbn.
  apply terminates_bind; [apply prev_terminates|]. intros r Hr.
  apply prev_Done_At in Hr as [->|(j & -> & ->)]; [done|].
  apply terminates_bind; [apply depth_terminates|]. intros dj _.
  destruct (dj >=? d); [|done]. apply IH. lia.
Qed.

Lemma prev_sibling_loop_terminates fuel token prev :
  (match prev with NULL => 0 | At j => S j end < fuel)%nat →
  terminates (prev_sibling_loop ts fuel token prev).
Proof.
  revert prev. induction fuel as [|fuel IH]; intros prev Hfuel; [lia|]. cbn.
  destruct prev as [|j]; [done|].
  apply terminates_bind; [apply depth_terminates|]. intros dp _.
  apply terminates_bind; [apply depth_terminates|]. intros dt _.
  destruct (dp <? dt); [done|]. destruct (dp =? dt); [done|].
  apply terminates_bind; [apply prev_terminates|]. intros r Hr.
  apply IH. apply prev_Done_At in Hr as [->|(j' & -> & ->)]; lia.
Qed.

Lemma next_sibling_loop_terminates fuel token next :
  (match next with NULL => 0 | At j => S (length ts - j) end < fuel)%nat →
  terminates (next_sibling_loop ts fuel token next).
Proof.
  revert next. induction fuel as [|fuel IH]; intros next Hfuel; [lia|]. cbn.
  destruct next as [|j]; [done|].
  apply terminates_bind; [apply depth_terminates|]. intros dn _.
  apply terminates_bind; [apply depth_terminates|]. intros dt _.
  destruct (dn <? dt); [done|]. destruct (dn =? dt); [done|].
  apply terminates_bind; [apply next_terminates|]. intros r Hr.
  apply IH. apply next_Done_At in Hr as (Hj & [->| ->]); lia.
Qed.

Lemma next_sibling_loop_ge fuel token j u :
  next_sibling_loop ts fuel token (At j) = Done (At u) → (j ≤ u)%nat.
Proof.
  revert j. induction fuel as [|fuel IH]; intros j H; [done|]. cbn in H.
  inv_bind H as dn Hdn. inv_bind H as dt Hdt.
  destruct (dn <? dt); [done|]. destruct (dn =? dt); [by simplify_eq|].
  inv_bind H as r Hr. apply next_Done_At in Hr as (Hj & [->| ->]).
  - by destruct fuel.
  - apply IH in H. lia.
Qed.

Lemma root_terminates p : terminates (mu_json_token_root ts p).
Proof.
  destruct p as [|i]; [done|]. unfold mu_json_token_root.
  destruct (decide (i < length ts)%nat).
  - apply root_loop_terminates. unfold nav_fuel. lia.
  - unfold nav_fuel. cbn. unfold deref.
    by rewrite lookup_ge_None_2 by lia.
Qed.

Lemma parent_terminates p : terminates (mu_json_token_parent ts p).
Proof.
  destruct p as [|i]; [done|]. unfold mu_json_token_parent.
  apply terminates_bind; [apply depth_terminates|]. intros d Hd.
  apply depth_Done_lt in Hd.
  apply parent_loop_terminates. unfold nav_fuel. lia.
Qed.

Lemma child_terminates p : terminates (mu_json_token_child ts p).
Proof.
  destruct p as [|i]; [done|]. unfold mu_json_token_child.
  apply terminates_bind; [apply depth_terminates|]. intros d _.
  apply terminates_bind; [apply next_terminates|]. intros r _.
  apply terminates_bind; [apply depth_terminates|]. intros dn _.
  by destruct (dn >? d).
Qed.

Lemma prev_sibling_terminates p :
  terminates (mu_json_token_prev_sibling ts p).
Proof.
  destruct p as [|i]; [done|]. unfold mu_json_token_prev_sibling.
  apply terminates_bind; [apply prev_terminates|]. intros r Hr.
  apply prev_sibling_loop_terminates. unfold nav_fuel.
  pose proof (prev_Done_lt _ _ _ Hr).
  apply prev_Done_At in Hr as [->|(j & -> & ->)]; lia.
Qed.

Lemma next_sibling_terminates p :
  terminates (mu_json_token_next_sibling ts p).
Proof.
  destruct p as [|i]; [done|]. unfold mu_json_token_next_sibling.
  apply terminates_bind; [apply next_terminates|]. intros r Hr.
  apply next_sibling_loop_terminates. unfold nav_fuel.
  apply next_Done_At in Hr as (Hi & [->| ->]); lia.
Qed.

Lemma next_sibling_gt i u :
  mu_json_token_next_sibling ts (At i) = Done (At u) → (i < u)%nat.
Proof.
  unfold mu_json_token_next_sibling. intros H. inv_bind H as r Hr.
  apply next_Done_At in Hr as (Hi & [->| ->]).
  - unfold nav_fuel in H. cbn in H. done.
  - apply next_sibling_loop_ge in H. lia.
Qed.

Lemma child_count_loop_terminates fuel token count child :
  (match child with NULL => 0 | At c => length ts - c end < fuel)%nat →
  terminates (child_count_loop ts fuel token count child).
Proof.
  revert count child.
  induction fuel as [|fuel IH]; intros count child Hfuel; [lia|]. cbn.
  destruct (decide (child = token)); [done|].
  apply terminates_bind; [apply next_sibling_terminates|]. intros r Hr.
  destruct (decide (r = NULL)); [done|]. apply IH.
  destruct r as [|u]; [done|]. destruct child as [|c]; [done|].
  pose proof (next_sibling_gt _ _ Hr).
  unfold mu_json_token_next_sibling in Hr. inv_bind Hr as x Hx.
  apply next_Done_lt in Hx. lia.
Qed.

Lemma child_count_terminates container token :
  terminates (child_count ts container token).
Proof.
  unfold child_count. destruct (decide (container = token)); [done|].
  apply terminates_bind; [apply child_terminates|]. intros r _.
  apply child_count_loop_terminates. unfold nav_fuel.
  destruct r; lia.
Qed.

Lemma select_state_terminates token a b c d :
  terminates (select_state ts token a b c d).
Proof.
  unfold select_state.
  apply terminates_bind; [apply parent_terminates|]. intros container _.
  destruct token as [|i]; [done|]. destruct container as [|k]; [done|].
  apply terminates_bind; [apply deref_terminates|]. intros ct _.
  destruct (decide _); [done|].
  apply terminates_bind; [apply child_count_terminates|]. intros cnt _.
  by destruct (Z.land cnt 1 =? 0).
Qed.

End Terminates.

Lemma finish_token_terminates p token incl :
  terminates (finish_token p token incl).
Proof.
  unfold finish_token. destruct token as [|i]; [done|].
  apply terminates_bind; [apply deref_terminates|]. intros t _.
  by destruct (token_is_sealed t).
Qed.

Lemma finish_container_terminates p ty : terminates (finish_container p ty).
Proof.
  unfold finish_container.
  apply terminates_bind; [apply type_terminates|]. intros ty' _.
  apply terminates_bind; [|done].
  destruct (decide (ty' ≠ ty)).
  - apply terminates_bind; [apply finish_token_terminates|]. intros q _.
    apply terminates_bind; [apply parent_terminates|]. intros c _.
    apply finish_token_terminates.
  - destruct (tos p) as [|i]; [done|].
    apply terminates_bind; [apply deref_terminates|]. intros t _.
    destruct (token_is_sealed t); [|apply finish_token_terminates].
    apply terminates_bind; [apply parent_terminates|]. intros c _.
    apply finish_token_terminates.
Qed.

Lemma perform_terminates p n : terminates (perform p n).
Proof.
  unfold perform.
  repeat case_match; try done; try apply finish_container_terminates.
  - apply terminates_bind; [apply finish_token_terminates|]. intros q _.
    apply terminates_bind; [apply select_state_terminates|done].
  - apply terminates_bind; [apply finish_token_terminates|]. intros q _.
    apply terminates_bind; [apply select_state_terminates|done].
  - apply terminates_bind; [apply deref_terminates|]. intros t _.
    apply terminates_bind.
    + destruct (negb (is_container t)); [apply finish_token_terminates|done].
    + intros q _. apply terminates_bind; [apply select_state_terminates|done].
  - apply terminates_bind; [apply finish_token_terminates|]. intros q _.
    apply terminates_bind; [apply select_state_terminates|done].
Qed.

Lemma dispatch_terminates p c : terminates (dispatch p c).
Proof.
  unfold dispatch. apply terminates_bind.
  - unfold lookup_state. repeat case_match; done.
  - intros n _. apply perform_terminates.
Qed.

Lemma get_byte_terminates mem s i : terminates (MuStr.mu_str_get_byte mem s i).
Proof. unfold MuStr.mu_str_get_byte. repeat case_match; done. Qed.

Lemma get_byte_Some mem s i b :
  MuStr.mu_str_get_byte mem s i = Done (Some b) → 0 ≤ i < MuStr.length s.
Proof.
  unfold MuStr.mu_str_get_byte.
  destruct (_ || _) eqn:E; [done|]. intros _. ztests. lia.
Qed.

Lemma parse_loop_terminates mem fuel p :
  (Z.to_nat (MuStr.length (Parser.json p) - Parser.char_pos p) < fuel)%nat →
  terminates (parse_loop mem fuel p).
Proof.
  revert p. induction fuel as [|fuel IH]; intros p Hfuel; [lia|]. cbn.
  destruct (negb _); [done|].
  apply terminates_bind; [apply get_byte_terminates|]. intros b Hb.
  destruct b as [ch|].
  - destruct (_ <? 0); [done|].
    apply terminates_bind; [apply dispatch_terminates|]. intros q Hq.
    apply IH. apply get_byte_Some in Hb.
    apply dispatch_pstep, pstep_frame in Hq as (Hj & _ & Hc).
    cbn. rewrite Hj, Hc. lia.
  - apply terminates_bind; [apply dispatch_terminates|done].
Qed.

Lemma endgame_terminates p : terminates (endgame p).
Proof.
  unfold endgame. repeat case_match; try done.
  apply terminates_bind; [apply deref_terminates|]. intros t _.
  apply terminates_bind; [apply root_terminates|]. intros r _.
  apply terminates_bind; [apply finish_token_terminates|done].
Qed.

(** [parse] never comes back for want of rounds. *)
Lemma parse_terminates mem max_tokens json_input :
  terminates (parse mem max_tokens json_input).
Proof.
  unfold parse. apply terminates_bind; [|intros p _; apply endgame_terminates].
  apply parse_loop_terminates. unfold parse_fuel. cbn. lia.
Qed.

(** * Further properties *)

(** ** The store never outgrows its capacity *)

Lemma pstep_capacity alloc p p' :
  pstep alloc p p' →
  (length (Parser.tokens p) ≤ Parser.max_tokens p)%nat ∧
  (Parser.error p = MU_JSON_ERR_NO_TOKENS →
   length (Parser.tokens p) = Parser.max_tokens p) →
  (length (Parser.tokens p') ≤ Parser.max_tokens p')%nat ∧
  (Parser.error p' = MU_JSON_ERR_NO_TOKENS →
   length (Parser.tokens p') = Parser.max_tokens p').
Proof.
  induction 1 as [| | | |p token incl p' H| p ty s _ | p q r _ IH1 _ IH2];
    try done.
  - intros [Hle _]. split; [done|]. cbn. cells_lia.
  - apply finish_token_inv in H as [->|(i&t&s&_&_&_&->)]; [done|].
    cbn. by rewrite length_insert.
  - intros [Hle He]. rewrite std_alloc_eq. unfold Parser.token_count.
    destruct (_ >=? _) eqn:E; cbn; ztests.
    + split; [done|]. intros _. lia.
    + rewrite length_app. cbn. split; [lia|]. intros He'. specialize (He He'). lia.
  - auto.
Qed.

Lemma parse_loop_store_bound mem fuel p q :
  (length (Parser.tokens p) ≤ Parser.max_tokens p)%nat →
  Parser.error p = MU_JSON_ERR_NONE →
  parse_loop mem fuel p = Done q →
  Parser.max_tokens q = Parser.max_tokens p ∧
  (length (Parser.tokens q) ≤ Parser.max_tokens q)%nat ∧
  (Parser.error q = MU_JSON_ERR_NO_TOKENS →
   length (Parser.tokens q) = Parser.max_tokens q).
Proof.
  intros Hle He.
  apply (parse_loop_invariant (fun q =>
    Parser.max_tokens q = Parser.max_tokens p ∧
    (length (Parser.tokens q) ≤ Parser.max_tokens q)%nat ∧
    (Parser.error q = MU_JSON_ERR_NO_TOKENS →
     length (Parser.tokens q) = Parser.max_tokens q))).
  - intros p0 c p' (Hm & Hb) _ _ Hd. apply dispatch_pstep in Hd.
    pose proof (pstep_frame _ _ _ Hd) as (_ & Hm' & _).
    split; [cbn; congruence|]. by apply (pstep_capacity _ _ _ Hd).
  - split; [done|]. split; [done|]. rewrite He. cells_lia.
Qed.

Lemma parse_store_bound mem max_tokens json_input r ts :
  parse mem max_tokens json_input = Done (r, ts) →
  (length ts ≤ max_tokens)%nat ∧
  (r = MU_JSON_ERR_NO_TOKENS → length ts = max_tokens) ∧
  (0 ≤ r → r = Z.of_nat (length ts)).
Proof.
  intros H. apply parse_inv in H as (p & Hp & Hlen & Hres).
  apply parse_loop_store_bound in Hp as (Hm & Hle & Hno); [|cbn; lia|done].
  cbn in Hm. rewrite Hm in *. rewrite Hlen.
  split; [done|].
  destruct Hres as [? Hr Hcase| | |]; split; try done; try cells_lia.
Qed.

(** X1. The parser never writes more records than the store holds.  Whatever
    [parse] returns, the store has at most [max_tokens] records; a count
    that is returned is the number of records written; and when the parser
    gives up with [MU_JSON_ERR_NO_TOKENS] every slot of the store has been
    written. *)
Theorem X1_store_bound mem max_tokens json_input r ts :
  parse mem max_tokens json_input = Done (r, ts) →
  (length ts ≤ max_tokens)%nat ∧
  (r = MU_JSON_ERR_NO_TOKENS → length ts = max_tokens) ∧
  (0 ≤ r → r = Z.of_nat (length ts)).
Proof. apply parse_store_bound. Qed.

Lemma X1_store_bound_witness :
  (length S1_store ≤ 9)%nat ∧
  (9 = MU_JSON_ERR_NO_TOKENS → length S1_store = 9%nat) ∧
  (0 ≤ 9 → 9 = Z.of_nat (length S1_store)).
Proof.
  apply (X1_store_bound S1_input 9
           (MuStr.mu_str_init 0 (Z.of_nat (length S1_input))) 9 S1_store).
  vm_compute. reflexivity.
Defined.

(** ** Stores of different capacities *)

(** X2. The capacity of the store does not change the result once the
    records fit.  If [parse] returns anything but [MU_JSON_ERR_NO_TOKENS]
    with a store of [A] records, it returns the same value and writes the
    same records with every capacity [B] that holds the records written, and
    so with every capacity above [A]. *)
Theorem X2_capacity_independence mem A B json_input r ts :
  parse mem A json_input = Done (r, ts) →
  r ≠ MU_JSON_ERR_NO_TOKENS →
  (length ts ≤ B)%nat ∨ (A ≤ B)%nat →
  parse mem B json_input = Done (r, ts).
Proof.
  intros H Hr HB. eapply parse_capacity; [done..|].
  destruct HB as [?|HB]; [done|].
  apply parse_store_bound in H as (Hle & _). lia.
Qed.

Lemma X2_capacity_independence_witness :
  mu_json_parse_buffer 100 S1_input = Done (9, S1_store).
Proof.
  apply (X2_capacity_independence S1_input 9 100
           (MuStr.mu_str_init 0 (Z.of_nat (length S1_input))) 9 S1_store).
  - vm_compute. reflexivity.
  - vm_compute. discriminate.
  - right. lia.
Defined.

(** ** The first and the last record *)

(** X3. After a successful parse [mu_json_token_is_first] is true of the
    record at index 0 and of no other, and [mu_json_token_is_last] is true of
    the last record written and of no other. *)
Theorem X3_first_and_last mem max_tokens json_input r ts :
  parse mem max_tokens json_input = Done (r, ts) → 0 ≤ r →
  ∀ i, (i < length ts)%nat →
    mu_json_token_is_first ts (At i) = Done (bool_decide (i = 0%nat)) ∧
    mu_json_token_is_last ts (At i) = Done (bool_decide (S i = length ts)).
Proof.
  intros H Hr i Hi. apply parse_bookends in H; [|done].
  destruct (deref_lt ts i Hi) as (t & Ht & Hd).
  unfold mu_json_token_is_first, mu_json_token_is_last. rewrite Hd. cbn.
  by destruct (H i t Ht) as [-> ->].
Qed.

Lemma X3_first_and_last_witness :
  mu_json_token_is_first S1_store (At 8%nat) = Done false ∧
  mu_json_token_is_last S1_store (At 8%nat) = Done true.
Proof.
  apply (X3_first_and_last S1_input 9
           (MuStr.mu_str_init 0 (Z.of_nat (length S1_input))) 9 S1_store).
  - vm_compute. reflexivity.
  - lia.
  - vm_compute. lia.
Defined.

(** ** Walking the store in index order *)

(** X4. After a successful parse the sequential navigation functions walk
    the store in index order: [mu_json_token_root] of every record is the
    record at index 0, [mu_json_token_prev] is the record before it ([NULL]
    at index 0) and [mu_json_token_next] the record after it ([NULL] at the
    last record). *)
Theorem X4_sequence mem max_tokens json_input r ts :
  parse mem max_tokens json_input = Done (r, ts) → 0 ≤ r →
  ∀ i, (i < length ts)%nat →
    mu_json_token_root ts (At i) = Done (At 0%nat) ∧
    mu_json_token_prev ts (At i) =
      Done (match i with O => NULL | S j => At j end) ∧
    mu_json_token_next ts (At i) =
      Done (if decide (S i = length ts) then NULL else At (S i)).
Proof.
  intros H Hr i Hi. apply parse_bookends in H; [|done].
  split_and!; [by apply root_At|by apply prev_At|by apply next_At].
Qed.

Lemma X4_sequence_witness :
  mu_json_token_root S1_store (At 5%nat) = Done (At 0%nat) ∧
  mu_json_token_prev S1_store (At 5%nat) = Done (At 4%nat) ∧
  mu_json_token_next S1_store (At 5%nat) = Done (At 6%nat).
Proof.
  apply (X4_sequence S1_input 9
           (MuStr.mu_str_init 0 (Z.of_nat (length S1_input))) 9 S1_store).
  - vm_compute. reflexivity.
  - lia.
  - vm_compute. lia.
Defined.

(** ** Siblings *)

Lemma nearest_shallower_unique ts d i r r' :
  nearest_shallower ts d i r → nearest_shallower ts d i r' → r = r'.
Proof.
  destruct r as [|p], r' as [|p']; cbn; [done| | |].
  - intros H (Hp & Hd & _). specialize (H p' Hp). lia.
  - intros (Hp & Hd & _) H. specialize (H p Hp). lia.
  - intros (Hp & Hd & Hb) (Hp' & Hd' & Hb'). f_equal.
    destruct (lt_eq_lt_dec p p') as [[Hlt|?]|Hlt]; [|done|].
    + specialize (Hb p'). lia.
    + specialize (Hb' p). lia.
Qed.

Lemma nearest_shallower_siblings ts t u r :
  siblings ts t u →
  nearest_shallower ts (depth_at ts t) t r →
  nearest_shallower ts (depth_at ts u) u r.
Proof.
  intros (Hlt & Hd & Hbetween). rewrite <- Hd.
  assert (∀ j, (t ≤ j < u)%nat → depth_at ts t ≤ depth_at ts j) as Hge.
  { intros j Hj. destruct (decide (j = t)) as [->|]; [lia|].
    specialize (Hbetween j). lia. }
  destruct r as [|p]; cbn.
  - intros H j Hj. destruct (decide (j < t)%nat); [by apply H|].
    apply Hge. lia.
  - intros (Hp & Hdp & H). split_and!; [lia|done|].
    intros j Hj. destruct (decide (j < t)%nat); [apply H; lia|].
    apply Hge. lia.
Qed.

(** X5. After a successful parse the next sibling of a token comes later in
    the store, has the depth of the token and has the same parent. *)
Theorem X5_siblings_share_parent mem max_tokens json_input r ts t u :
  parse mem max_tokens json_input = Done (r, ts) → 0 ≤ r →
  mu_json_token_next_sibling ts (At t) = Done (At u) →
  (t < u)%nat ∧
  mu_json_token_depth ts (At u) = mu_json_token_depth ts (At t) ∧
  mu_json_token_parent ts (At u) = mu_json_token_parent ts (At t).
Proof.
  intros H Hr Hs. apply parse_bookends in H; [|done].
  assert (t < length ts)%nat as Ht.
  { destruct (decide (t < length ts)%nat); [done|].
    unfold mu_json_token_next_sibling in Hs.
    unfold mu_json_token_next, deref in Hs.
    rewrite lookup_ge_None_2 in Hs by lia. done. }
  destruct (next_sibling_At ts H t Ht) as (r0 & Hr0 & Hcase).
  rewrite Hs in Hr0. simplify_eq.
  destruct Hcase as [?|(u' & ? & Hsib)]; simplify_eq.
  pose proof Hsib as ((Htu & Hu) & Hd & _).
  split; [done|]. rewrite !depth_At by lia. split; [by rewrite Hd|].
  destruct (parent_At ts H t Ht) as (rt & Hpt & Hnt).
  destruct (parent_At ts H u' Hu) as (ru & Hpu & Hnu).
  rewrite Hpt, Hpu. f_equal.
  eapply nearest_shallower_unique; [done|].
  by apply nearest_shallower_siblings with (t := t).
Qed.

Lemma X5_siblings_share_parent_witness :
  (1 < 2)%nat ∧
  mu_json_token_depth S1_store (At 2%nat) = mu_json_token_depth S1_store (At 1%nat) ∧
  mu_json_token_parent S1_store (At 2%nat) = mu_json_token_parent S1_store (At 1%nat).
Proof.
  apply (X5_siblings_share_parent S1_input 9
           (MuStr.mu_str_init 0 (Z.of_nat (length S1_input))) 9 S1_store).
  - vm_compute. reflexivity.
  - lia.
  - vm_compute. reflexivity.
Defined.

(** ** A round of the loop, with the byte it read *)

Lemma parse_loop_invariant_byte (I : parser_t → Prop) mem :
  (∀ p b p',
      I p → Parser.error p = MU_JSON_ERR_NONE →
      MuStr.mu_str_get_byte mem (Parser.json p) (Parser.char_pos p) = Done b →
      dispatch p (match b with
                  | Some ch => classify_char ch
                  | None => C_SPACE
                  end) = Done p' →
      I (advance p')) →
  ∀ fuel p q, I p → parse_loop mem fuel p = Done q → I q.
Proof.
  intros Hstep fuel. induction fuel as [|fuel IH]; intros p q Hp H; [done|].
  cbn in H. destruct (negb _) eqn:He; [by simplify_eq|]. ztests.
  inv_bind H as b Hb. destruct b as [ch|].
  - pose proof (classify_char_range ch) as Hc.
    destruct (classify_char ch <? 0) eqn:Hneg.
    { ztests. unfold __ in Hc. lia. }
    inv_bind H as p' Hp'. eapply IH; [|done].
    by apply (Hstep p (Some ch) p').
  - inv_bind H as p' Hp'. simplify_eq.
    by apply (Hstep p None p').
Qed.

Lemma get_byte_Some_range mem J i ch :
  MuStr.mu_str_get_byte mem J i = Done (Some ch) →
  0 ≤ i < MuStr.length J ∧ mem !! Z.to_nat (MuStr.buf J + i) = Some ch.
Proof.
  unfold MuStr.mu_str_get_byte. destruct (_ || _) eqn:E; [done|].
  ztests. intros Hm. split; [lia|].
  destruct (mem !! _); by simplify_eq.
Qed.

(** No cell of the column of [C_SPACE], the class of the end of the
    string, begins a token. *)
Lemma lookup_state_SPACE s n :
  lookup_state s C_SPACE = Done n → begin_action n = None.
Proof.
  intros H.
  assert (0 ≤ s < 31) as Hs.
  { unfold lookup_state in H. destruct (_ <? 0) eqn:E; [done|]. ztests.
    destruct (state_transition_table !! _) eqn:El; [|done].
    apply lookup_lt_Some in El.
    pose proof state_transition_table_length as Hl.
    unfold NR_STATES, NR_CLASSES, C_SPACE in *. lia. }
  assert (∃ k, s = Z.of_nat k ∧ (k < 31)%nat) as (k & -> & Hk).
  { exists (Z.to_nat s). lia. }
  do 31 (destruct k as [|k];
         [vm_compute in H; simplify_eq; vm_compute; eauto|]).
  lia.
Qed.

(** ** Sealing leaves types and depths alone *)

Lemma pstep_shape p p' :
  pstep false p p' →
  shape <$> Parser.tokens p' = shape <$> Parser.tokens p.
Proof.
  induction 1 as [| | | |p token incl p' H| p ty s ? | p q r _ IH1 _ IH2];
    try done.
  - apply finish_token_inv in H as [->|(i&t&s&_&Hi&_&->)]; [done|].
    cbn. rewrite list_fmap_insert. apply list_insert_id.
    by rewrite list_lookup_fmap, Hi.
  - congruence.
Qed.

Lemma shape_lookup (ts ts' : list mu_json_token_t) i t' :
  shape <$> ts' = shape <$> ts → ts' !! i = Some t' →
  ∃ t, ts !! i = Some t ∧ shape t = shape t'.
Proof.
  intros E Hi.
  assert ((shape <$> ts) !! i = Some (shape t')) as H.
  { by rewrite <- E, list_lookup_fmap, Hi. }
  rewrite list_lookup_fmap in H.
  destruct (ts !! i) as [t|]; [|done]. exists t.
  cbv [fmap option_fmap option_map] in H. split; congruence.
Qed.

Lemma step_up_shape t t' : shape t = shape t' → step_up t = step_up t'.
Proof.
  unfold shape, step_up, is_container. intros [= Et Ed]. by rewrite Et.
Qed.

Lemma depth_steps_shape (ts ts' : list mu_json_token_t) :
  shape <$> ts' = shape <$> ts → depth_steps ts → depth_steps ts'.
Proof.
  intros E [H0 Hs]. split.
  - intros t' Ht'. destruct (shape_lookup _ _ _ _ E Ht') as (t & Ht & Hsh).
    injection Hsh as _ Hd. rewrite <- (H0 t Ht). congruence.
  - intros i t1' t2' H1 H2.
    destruct (shape_lookup _ _ _ _ E H1) as (t1 & Ht1 & Hsh1).
    destruct (shape_lookup _ _ _ _ E H2) as (t2 & Ht2 & Hsh2).
    specialize (Hs i t1 t2 Ht1 Ht2).
    rewrite <- (step_up_shape _ _ Hsh1).
    injection Hsh1 as _ Hd1. injection Hsh2 as _ Hd2. lia.
Qed.

Lemma last_shape (ts ts' : list mu_json_token_t) t' :
  shape <$> ts' = shape <$> ts → last ts' = Some t' →
  ∃ t, last ts = Some t ∧ shape t = shape t'.
Proof.
  intros E. rewrite !last_lookup.
  assert (length ts' = length ts) as ->.
  { by rewrite <- (length_fmap shape ts'), E, length_fmap. }
  by apply shape_lookup.
Qed.

(** ** The depth of the parser *)

Lemma finish_token_depth p token incl p' :
  finish_token p token incl = Done p' → Parser.depth p' = Parser.depth p.
Proof.
  intros H. by apply finish_token_inv in H as [->|(i&t&s&_&_&_&->)].
Qed.

Lemma finish_container_depth p ty p' :
  finish_container p ty = Done p' → Parser.depth p' = Parser.depth p - 1.
Proof.
  unfold finish_container. intros H.
  inv_bind H as ty' Hty. inv_bind H as q Hq. simplify_eq. cbn.
  f_equal.
  destruct (decide (ty' ≠ ty)).
  - inv_bind Hq as q1 Hq1. inv_bind Hq as c Hc.
    apply finish_token_depth in Hq1, Hq. congruence.
  - destruct (tos p) as [|i]; [done|].
    inv_bind Hq as t Ht. destruct (token_is_sealed t).
    + inv_bind Hq as c Hc. by apply finish_token_depth in Hq.
    + by apply finish_token_depth in Hq.
Qed.

Lemma perform_depth p n p' :
  begin_action n = None → perform p n = Done p' →
  Parser.depth p' = Parser.depth p ∨ Parser.depth p' = Parser.depth p - 1.
Proof.
  unfold perform, begin_action, set_state. intros Hb H.
  repeat case_match; simplify_eq; try (by left);
    try (right; by eapply finish_container_depth).
  - inv_bind H as q Hq. inv_bind H as s Hs. simplify_eq. left.
    by apply finish_token_depth in Hq.
  - inv_bind H as q Hq. inv_bind H as s Hs. simplify_eq. left.
    by apply finish_token_depth in Hq.
  - inv_bind H as t Ht. inv_bind H as q Hq. inv_bind H as s Hs. simplify_eq.
    left. destruct (negb (is_container t)); simplify_eq; [|done].
    by apply finish_token_depth in Hq.
  - inv_bind H as q Hq. inv_bind H as s Hs. simplify_eq. left.
    by apply finish_token_depth in Hq.
Qed.

Lemma begin_action_step_up n ty s d p :
  begin_action n = Some (ty, s, d) → d = step_up (new_token p ty).
Proof.
  unfold begin_action. intros H.
  repeat case_match; simplify_eq; reflexivity.
Qed.

Lemma int16_of_int_id z : -32768 ≤ z ≤ 32767 → int16_of_int z = z.
Proof.
  intros Hz. unfold int16_of_int. rewrite Z.mod_small by lia. lia.
Qed.

Lemma depth_steps_nil : depth_steps [].
Proof. split; intros *; by rewrite lookup_nil. Qed.

Lemma depth_steps_snoc ts t' :
  depth_steps ts →
  (ts = [] → Token.depth t' = 0) →
  (∀ t, last ts = Some t → Token.depth t' ≤ Token.depth t + step_up t) →
  depth_steps (ts ++ [t']).
Proof.
  intros [H0 Hs] Hnil Hlast. split.
  - intros t Ht. destruct ts as [|t0 ts]; cbn in Ht; simplify_eq.
    + by apply Hnil.
    + by apply H0.
  - intros i t1 t2 H1 H2.
    destruct (decide (S i < length ts)%nat) as [Hlt|Hge].
    + rewrite lookup_app_l in H1, H2 by lia. by eapply Hs.
    + apply lookup_lt_Some in H2 as Hlt. rewrite length_app in Hlt. cbn in Hlt.
      assert (S i = length ts) as Hi by lia.
      rewrite lookup_app_l in H1 by lia.
      rewrite Hi, lookup_app_r in H2 by lia.
      rewrite Nat.sub_diag in H2. cbn in H2. simplify_eq.
      apply Hlast. rewrite last_lookup, <- Hi. done.
Qed.

Lemma depth_inv_advance J p :
  Parser.json p = J → 0 ≤ Parser.char_pos p + 1 →
  depth_steps (Parser.tokens p) →
  (Parser.error p = MU_JSON_ERR_NONE →
   started p ∧
   - (Parser.char_pos p + 1) ≤ Parser.depth p ≤ Parser.char_pos p + 1 ∧
   (Parser.tokens p = [] → Parser.depth p = 0) ∧
   ∀ t, last (Parser.tokens p) = Some t →
        Parser.depth p ≤ Token.depth t + step_up t) →
  depth_inv J (advance p).
Proof. intros. by split_and!. Qed.

Lemma round_class b :
  0 ≤ match b with Some ch => classify_char ch | None => C_SPACE end ≤ 30 ∨
  match b with Some ch => classify_char ch | None => C_SPACE end = __.
Proof. destruct b; [apply classify_char_range|left; by vm_compute]. Qed.

Lemma dispatch_depth_inv mem J p b p' :
  MuStr.length J ≤ 32768 →
  depth_inv J p → Parser.error p = MU_JSON_ERR_NONE →
  MuStr.mu_str_get_byte mem (Parser.json p) (Parser.char_pos p) = Done b →
  dispatch p (match b with
              | Some ch => classify_char ch
              | None => C_SPACE
              end) = Done p' →
  depth_inv J (advance p').
Proof.
  intros HJ (Hj & Hcp & Hsteps & Hrun) He Hb Hd.
  destruct (Hrun He) as (Hst & Hdep & Hnil & Hlast). clear Hrun.
  assert (started p') as Hst'.
  { by apply (dispatch_started _ _ _ Hst (round_class b)) in Hd. }
  pose proof (dispatch_pstep _ _ _ Hd) as Hp.
  pose proof (pstep_frame _ _ _ Hp) as (Hj' & _ & Hcp').
  apply depth_inv_advance; [congruence|lia|..];
    unfold dispatch in Hd; inv_bind Hd as n Hn;
    destruct (begin_action n) as [[[ty s] d]|] eqn:Hba.
  - (* a token begins: a byte has been read *)
    destruct b as [ch|]; [|apply lookup_state_SPACE in Hn; congruence].
    apply get_byte_Some_range in Hb as [Hrange _]. rewrite Hj in Hrange.
    rewrite (perform_begin _ _ _ _ _ Hba), std_alloc_eq in Hd.
    assert (Token.depth (new_token p ty) = Parser.depth p) as Hnew.
    { cbn. apply int16_of_int_id. lia. }
    destruct (_ >=? _); simplify_eq; cbn; [done|].
    apply depth_steps_snoc; [done|rewrite Hnew; auto|].
    intros t Ht. rewrite Hnew. auto.
  - pose proof (perform_pstep_gen false _ _ _ (or_intror Hba) Hd) as Hp0.
    apply (depth_steps_shape (Parser.tokens p)); [|done].
    by apply pstep_shape.
  - destruct b as [ch|]; [|apply lookup_state_SPACE in Hn; congruence].
    apply get_byte_Some_range in Hb as [Hrange _]. rewrite Hj in Hrange.
    rewrite (perform_begin _ _ _ _ _ Hba), std_alloc_eq in Hd.
    pose proof (begin_action_step_up _ _ _ _ p Hba) as Hd'.
    assert (Token.depth (new_token p ty) = Parser.depth p) as Hnew.
    { cbn. apply int16_of_int_id. lia. }
    assert (0 ≤ d ≤ 1) as Hd01.
    { rewrite Hd'. unfold step_up. destruct (is_container _); lia. }
    destruct (_ >=? _); simplify_eq; cbn; [cells_lia|].
    intros _. split_and!; [done|lia|lia| |].
    + intros E. by apply app_eq_nil in E as [_ ?].
    + intros t. rewrite last_snoc. intros [= <-]. rewrite Hnew. lia.
  - pose proof (perform_pstep_gen false _ _ _ (or_intror Hba) Hd) as Hp0.
    pose proof (pstep_shape _ _ Hp0) as Hsh.
    pose proof (pstep_length_eq _ _ Hp0) as Hlen.
    pose proof (perform_depth _ _ _ Hba Hd) as Hdp.
    intros _. split_and!; [done|lia|lia| |].
    + intros E. rewrite E in Hlen. cbn in Hlen.
      destruct (Parser.tokens p) eqn:Ets; [|done].
      destruct Hst as [Hgo|?]; [|done].
      rewrite Hgo in Hn.
      apply (lookup_state_GO _ _ (round_class b)) in Hn as [->|[->|[x Hx]]];
        [| |congruence].
      * vm_compute in Hd. simplify_eq. cbn. auto.
      * unfold perform in Hd. cbn in Hd. simplify_eq. cbn. auto.
    + intros t' Ht'.
      destruct (last_shape _ _ _ Hsh Ht') as (t & Ht & Hsht).
      specialize (Hlast t Ht). rewrite <- (step_up_shape _ _ Hsht).
      injection Hsht as _ Hdt. lia.
Qed.

Lemma parse_loop_depth_inv mem J fuel p q :
  MuStr.length J ≤ 32768 →
  depth_inv J p → parse_loop mem fuel p = Done q → depth_inv J q.
Proof.
  intros HJ. apply (parse_loop_invariant_byte (depth_inv J)).
  intros p0 b p' Hp0 He Hb Hd. by eapply dispatch_depth_inv.
Qed.

Lemma endgame_shape p r ts :
  endgame p = Done (r, ts) → shape <$> ts = shape <$> Parser.tokens p.
Proof.
  unfold endgame. intros H.
  repeat (case_match; simplify_eq); try done.
  inv_bind H as t Ht. inv_bind H as root Hroot. inv_bind H as q Hq.
  simplify_eq. apply deref_Done in Ht.
  assert (pstep false
            (Parser.with_tokens p (<[i:=set_is_last t]> (Parser.tokens p))) q)
    as Hp by (by eapply pstep_finish).
  rewrite (pstep_shape _ _ Hp). cbn.
  rewrite list_fmap_insert. apply list_insert_id.
  by rewrite list_lookup_fmap, Ht.
Qed.

Lemma parse_depth_steps mem max_tokens json_input r ts :
  MuStr.length json_input ≤ 32768 →
  parse mem max_tokens json_input = Done (r, ts) → depth_steps ts.
Proof.
  intros HJ H. unfold parse in H. inv_bind H as p Hp.
  apply (parse_loop_depth_inv _ json_input) in Hp as (_ & _ & Hs & _);
    [|done|].
  - apply endgame_shape in H. by apply (depth_steps_shape (Parser.tokens p)).
  - split_and!; [done|done|apply depth_steps_nil|].
    intros _. split_and!; [by left|cbn; lia|cbn; lia|done|done].
Qed.

(** X6. For an input of at most 32768 bytes, whatever [parse] returns, the
    first record is at depth 0 and the depth of a record exceeds that of the
    record before it by one at most, and only when that record is an array
    or an object. *)
Theorem X6_depth_steps mem max_tokens json_input r ts :
  MuStr.length json_input ≤ 32768 →
  parse mem max_tokens json_input = Done (r, ts) →
  (∀ t, ts !! 0%nat = Some t → Token.depth t = 0) ∧
  ∀ i t t', ts !! i = Some t → ts !! S i = Some t' →
            Token.depth t' ≤ Token.depth t + (if is_container t then 1 else 0).
Proof. intros HJ H. by apply (parse_depth_steps _ _ _ _ _ HJ) in H. Qed.

Lemma X6_depth_steps_witness :
  (∀ t, S1_store !! 0%nat = Some t → Token.depth t = 0) ∧
  ∀ i t t', S1_store !! i = Some t → S1_store !! S i = Some t' →
            Token.depth t' ≤ Token.depth t + (if is_container t then 1 else 0).
Proof.
  apply (X6_depth_steps S1_input 9
           (MuStr.mu_str_init 0 (Z.of_nat (length S1_input))) 9).
  - vm_compute. discriminate.
  - vm_compute. reflexivity.
Defined.

(** ** Parents are containers *)

Lemma depth_at_lookup ts i t : ts !! i = Some t → depth_at ts i = Token.depth t.
Proof. unfold depth_at. by intros ->. Qed.

Lemma nearest_shallower_container ts i p :
  depth_steps ts → (i < length ts)%nat →
  nearest_shallower ts (depth_at ts i) i (At p) →
  ∃ t, ts !! p = Some t ∧ is_container t = true ∧
       depth_at ts i = Token.depth t + 1.
Proof.
  intros [_ Hs] Hi (Hp & Hd & Hb).
  destruct (lookup_lt_is_Some_2 ts p) as [t Ht]; [lia|].
  destruct (lookup_lt_is_Some_2 ts (S p)) as [t' Ht']; [lia|].
  specialize (Hs p t t' Ht Ht').
  rewrite (depth_at_lookup _ _ _ Ht) in Hd.
  assert (depth_at ts i ≤ Token.depth t') as Hge.
  { destruct (decide (S p = i)) as [<-|Hne].
    - by rewrite (depth_at_lookup _ _ _ Ht').
    - rewrite <- (depth_at_lookup _ _ _ Ht'). apply Hb. lia. }
  exists t. unfold step_up in Hs. destruct (is_container t); [|lia].
  split_and!; [done|done|lia].
Qed.

(** X7. For an input of at most 32768 bytes and after a successful parse,
    the parent [mu_json_token_parent] returns is an array or an object, and
    it is exactly one level above the token. *)
Theorem X7_parent_is_container mem max_tokens json_input r ts i p :
  MuStr.length json_input ≤ 32768 →
  parse mem max_tokens json_input = Done (r, ts) → 0 ≤ r →
  mu_json_token_parent ts (At i) = Done (At p) →
  ∃ ty d,
    mu_json_token_type ts (At p) = Done ty ∧
    (ty = MU_JSON_TOKEN_TYPE_ARRAY ∨ ty = MU_JSON_TOKEN_TYPE_OBJECT) ∧
    mu_json_token_depth ts (At p) = Done d ∧
    mu_json_token_depth ts (At i) = Done (d + 1).
Proof.
  intros HJ H Hr Hpar.
  pose proof (parse_depth_steps _ _ _ _ _ HJ H) as Hsteps.
  apply parse_bookends in H; [|done].
  apply (parent_Done ts H) in Hpar as [Hi Hn].
  destruct (nearest_shallower_container _ _ _ Hsteps Hi Hn)
    as (t & Ht & Hc & Hd).
  exists (Token.type t), (Token.depth t).
  pose proof (lookup_lt_Some _ _ _ Ht) as Hp.
  rewrite !depth_At by done. rewrite Hd, (depth_at_lookup _ _ _ Ht).
  unfold mu_json_token_type. rewrite (proj2 (deref_Done ts p t) Ht). cbn.
  split_and!; try done.
  unfold is_container in Hc. apply orb_true_iff in Hc as [Hc|Hc];
    apply bool_decide_eq_true_1 in Hc; auto.
Qed.

Lemma X7_parent_is_container_witness :
  ∃ ty d,
    mu_json_token_type S1_store (At 4%nat) = Done ty ∧
    (ty = MU_JSON_TOKEN_TYPE_ARRAY ∨ ty = MU_JSON_TOKEN_TYPE_OBJECT) ∧
    mu_json_token_depth S1_store (At 4%nat) = Done d ∧
    mu_json_token_depth S1_store (At 6%nat) = Done (d + 1).
Proof.
  apply (X7_parent_is_container S1_input 9
           (MuStr.mu_str_init 0 (Z.of_nat (length S1_input))) 9).
  - vm_compute. discriminate.
  - vm_compute. reflexivity.
  - lia.
  - vm_compute. reflexivity.
Defined.

(** X8. For an input of at most 32768 bytes and after a successful parse,
    a token that is neither an array nor an object has no child:
    [mu_json_token_child] returns [NULL]. *)
Theorem X8_scalars_are_leaves mem max_tokens json_input r ts i ty :
  MuStr.length json_input ≤ 32768 →
  parse mem max_tokens json_input = Done (r, ts) → 0 ≤ r →
  mu_json_token_type ts (At i) = Done ty →
  ty ≠ MU_JSON_TOKEN_TYPE_ARRAY → ty ≠ MU_JSON_TOKEN_TYPE_OBJECT →
  mu_json_token_child ts (At i) = Done NULL.
Proof.
  intros HJ H Hr Hty Ha Ho.
  pose proof (parse_depth_steps _ _ _ _ _ HJ H) as [_ Hsteps].
  apply parse_bookends in H; [|done].
  unfold mu_json_token_type in Hty. inv_bind Hty as t Ht. simplify_eq.
  apply deref_Done in Ht. pose proof (lookup_lt_Some _ _ _ Ht) as Hi.
  rewrite (child_At ts H) by done.
  destruct (decide _) as [[Hlt Hd]|]; [|done].
  destruct (lookup_lt_is_Some_2 ts (S i) Hlt) as [t' Ht'].
  specialize (Hsteps i t t' Ht Ht').
  rewrite (depth_at_lookup _ _ _ Ht), (depth_at_lookup _ _ _ Ht') in Hd.
  unfold step_up, is_container in Hsteps.
  rewrite !bool_decide_eq_false_2 in Hsteps by done. cbn in Hsteps. lia.
Qed.

Lemma X8_scalars_are_leaves_witness :
  mu_json_token_child S1_store (At 3%nat) = Done NULL.
Proof.
  apply (X8_scalars_are_leaves S1_input 9
           (MuStr.mu_str_init 0 (Z.of_nat (length S1_input))) 9 S1_store
           3 MU_JSON_TOKEN_TYPE_STRING).
  - vm_compute. discriminate.
  - vm_compute. reflexivity.
  - lia.
  - vm_compute. reflexivity.
  - discriminate.
  - discriminate.
Defined.

(** ** Where a token may begin *)

Lemma begin_cells :
  Forall (fun cell => Is_true (begin_cell_ok cell))
    (imap pair state_transition_table).
Proof. apply (bool_decide_unpack _). by vm_compute. Qed.

Lemma begin_cell i n ty s d :
  state_transition_table !! i = Some n →
  begin_action n = Some (ty, s, d) →
  opening_class ty (Z.of_nat i mod NR_CLASSES) = true.
Proof.
  intros Hi Hb.
  pose proof (proj1 (Forall_lookup _ _) begin_cells i (i, n)) as H.
  rewrite list_lookup_imap, Hi in H. specialize (H eq_refl).
  unfold begin_cell_ok in H. cbn in H. rewrite Hb in H.
  by apply Is_true_eq_true.
Qed.

Lemma opening_class_byte ty ch :
  opening_class ty (classify_char ch mod NR_CLASSES) = true →
  opening_byte ty ch = true.
Proof. destruct ty, ch; vm_compute; congruence. Qed.

Lemma lookup_state_begin s ch n ty s' d :
  lookup_state s (classify_char ch) = Done n →
  begin_action n = Some (ty, s', d) →
  opening_byte ty ch = true.
Proof.
  unfold lookup_state. intros H Hb.
  destruct (_ <? 0) eqn:E; [done|]. ztests.
  destruct (state_transition_table !! _) as [cell|] eqn:Hi; [|done].
  simplify_eq. apply (begin_cell _ _ _ _ _ Hi) in Hb.
  apply opening_class_byte.
  rewrite Z2Nat.id in Hb by done.
  by rewrite Z.add_comm, Z.mod_add in Hb by done.
Qed.

(** ** What [finish_token] writes *)

Lemma finish_token_slice p token incl p' :
  finish_token p token incl = Done p' →
  p' = p ∨
  ∃ i t, token = At i ∧ Parser.tokens p !! i = Some t ∧
         token_is_sealed t = false ∧
         p' = Parser.with_tokens p
                (<[i := seal_token
                          (set_json t
                             (MuStr.mu_str_slice (Parser.json p)
                                (MuStr.length (Parser.json p)
                                 - MuStr.length (Token.json t))
                                (if incl then Parser.char_pos p + 1
                                 else Parser.char_pos p)))]>
                   (Parser.tokens p)).
Proof.
  unfold finish_token. intros H. destruct token as [|i]; [left; congruence|].
  inv_bind H as t Ht. apply deref_Done in Ht.
  destruct (token_is_sealed t) eqn:Hs; simplify_eq; [by left|].
  right. eauto 10.
Qed.

Lemma slice_inv_mono mem J c c' t :
  c ≤ c' → slice_inv mem J c t → slice_inv mem J c' t.
Proof.
  intros Hc (H1 & H2 & H3 & H4). unfold slice_inv.
  split_and!; (lia || done).
Qed.

Lemma slice_inv_seal mem J c e t :
  MuStr.length J < MuStr.MU_STR_END →
  c ≤ e →
  token_is_sealed t = false →
  slice_inv mem J c t →
  slice_inv mem J c
    (seal_token
       (set_json t
          (MuStr.mu_str_slice J
             (MuStr.length J - MuStr.length (Token.json t)) e))).
Proof.
  intros HJ He Hs ((Hb1 & Hb2) & Hc & Hn & Hch).
  rewrite Hs in Hn.
  unfold slice_inv. rewrite token_is_sealed_seal. cbn.
  unfold MuStr.mu_str_slice, MuStr.mu_str_init, MuStr.MU_STR_END in *. cbn.
  repeat (case_match; ztests; cbn); split_and!; try lia; try done.
  all: replace (MuStr.buf J + (MuStr.length J - MuStr.length (Token.json t)))
         with (MuStr.buf (Token.json t)) by lia; done.
Qed.

Lemma finish_token_slices mem J p token incl p' :
  MuStr.length J < MuStr.MU_STR_END →
  slices_inv mem J p →
  finish_token p token incl = Done p' → slices_inv mem J p'.
Proof.
  intros HJ (Hj & Hcp & Hall) H.
  apply finish_token_slice in H as [->|(i & t & -> & Hi & Hs & ->)]; [done|].
  split_and!; [done..|]. cbn. apply Forall_insert; [done|].
  rewrite Hj. apply slice_inv_seal; [done| |done|].
  - destruct incl; lia.
  - by apply (proj1 (Forall_lookup _ _) Hall i t).
Qed.

Lemma pstep_slices mem J p p' :
  MuStr.length J < MuStr.MU_STR_END →
  pstep false p p' → slices_inv mem J p → slices_inv mem J p'.
Proof.
  intros HJ.
  induction 1 as [| | | |p token incl p' H| p ty s ? | p q r _ IH1 _ IH2];
    try done.
  - intros Hp. by eapply finish_token_slices.
  - auto.
Qed.

Lemma new_token_slice mem J p ty ch :
  MuStr.length J < MuStr.MU_STR_END →
  Parser.json p = J →
  0 ≤ Parser.char_pos p < MuStr.length J →
  mem !! Z.to_nat (MuStr.buf J + Parser.char_pos p) = Some ch →
  opening_byte ty ch = true →
  slice_inv mem J (Parser.char_pos p + 1) (new_token p ty).
Proof.
  intros HJ Hj Hcp Hch Hty.
  assert (Token.json (new_token p ty) =
          MuStr.mk (MuStr.buf J + Parser.char_pos p)
                   (MuStr.length J - Parser.char_pos p)) as Hjson.
  { cbn. rewrite Hj.
    unfold MuStr.mu_str_slice, MuStr.mu_str_init, MuStr.MU_STR_END in *.
    repeat (case_match; ztests; cbn); try lia; f_equal; lia. }
  assert (token_is_sealed (new_token p ty) = false) as Hs.
  { unfold token_is_sealed. cbn. by destruct (_ =? 1). }
  unfold slice_inv. rewrite Hs, Hjson. cbn.
  split_and!; try lia. eauto.
Qed.

Lemma slices_inv_advance mem J p :
  Parser.json p = J → 0 ≤ Parser.char_pos p + 1 →
  Forall (slice_inv mem J (Parser.char_pos p + 1)) (Parser.tokens p) →
  slices_inv mem J (advance p).
Proof. intros. by split_and!. Qed.

Lemma dispatch_slices mem J p b p' :
  MuStr.length J < MuStr.MU_STR_END →
  slices_inv mem J p →
  MuStr.mu_str_get_byte mem (Parser.json p) (Parser.char_pos p) = Done b →
  dispatch p (match b with
              | Some ch => classify_char ch
              | None => C_SPACE
              end) = Done p' →
  slices_inv mem J (advance p').
Proof.
  intros HJ Hinv Hb Hd. pose proof Hinv as (Hj & Hcp & Hall).
  pose proof (dispatch_pstep _ _ _ Hd) as Hp.
  pose proof (pstep_frame _ _ _ Hp) as (Hj' & _ & Hcp').
  apply slices_inv_advance; [congruence|lia|]. rewrite Hcp'.
  unfold dispatch in Hd. inv_bind Hd as n Hn.
  destruct (begin_action n) as [[[ty s] d]|] eqn:Hba.
  - destruct b as [ch|]; [|apply lookup_state_SPACE in Hn; congruence].
    apply get_byte_Some_range in Hb as [Hrange Hch]. rewrite Hj in Hrange, Hch.
    rewrite (perform_begin _ _ _ _ _ Hba), std_alloc_eq in Hd.
    assert (Forall (slice_inv mem J (Parser.char_pos p + 1)) (Parser.tokens p))
      as Hall'.
    { eapply Forall_impl; [done|]. intros t. apply slice_inv_mono. lia. }
    destruct (_ >=? _); simplify_eq; cbn; [done|].
    apply Forall_app. split; [done|]. apply Forall_singleton.
    apply (new_token_slice mem _ p ty ch); try done.
    by eapply lookup_state_begin.
  - pose proof (perform_pstep_gen false _ _ _ (or_intror Hba) Hd) as Hp0.
    apply (pstep_slices mem J _ _ HJ Hp0) in Hinv as (_ & _ & Hall').
    rewrite Hcp' in Hall'.
    eapply Forall_impl; [done|]. intros t. apply slice_inv_mono. lia.
Qed.

Lemma parse_loop_slices mem J fuel p q :
  MuStr.length J < MuStr.MU_STR_END →
  slices_inv mem J p → parse_loop mem fuel p = Done q → slices_inv mem J q.
Proof.
  intros HJ. apply (parse_loop_invariant_byte (slices_inv mem J)).
  intros p0 b p' Hp0 He Hb Hd. by eapply dispatch_slices.
Qed.

Lemma endgame_slices mem J p r ts :
  MuStr.length J < MuStr.MU_STR_END →
  slices_inv mem J p → endgame p = Done (r, ts) →
  Forall (slice_inv mem J (Parser.char_pos p)) ts.
Proof.
  intros HJ Hinv. pose proof Hinv as (Hj & Hcp & Hall).
  unfold endgame. intros H.
  repeat (case_match; simplify_eq); try done.
  inv_bind H as t Ht. inv_bind H as root Hroot. inv_bind H as q Hq.
  apply deref_Done in Ht.
  assert (slices_inv mem (Parser.json p)
            (Parser.with_tokens p (<[i:=set_is_last t]> (Parser.tokens p))))
    as Hinv'.
  { split_and!; [done..|]. cbn. apply Forall_insert; [done|].
    pose proof (proj1 (Forall_lookup _ _) Hall i t Ht)
      as ((H4 & H4') & H5 & H6 & H7).
    unfold slice_inv. rewrite token_is_sealed_set_last. cbn.
    by split_and!. }
  pose proof (pstep_frame false _ _ (pstep_finish _ _ _ _ _ Hq))
    as (_ & _ & Hcq).
  apply (finish_token_slices mem _ _ _ _ _ HJ Hinv') in Hq as (_ & _ & Hq).
  rewrite Hcq in Hq. simplify_eq. exact Hq.
Qed.

Lemma slice_inv_ok mem J c t : slice_inv mem J c t → slice_ok mem J t.
Proof.
  intros ((H1 & H2) & _ & H3 & H4). unfold slice_ok.
  destruct (token_is_sealed t); split_and!; try done; lia.
Qed.

Lemma parse_slices mem max_tokens json_input r ts :
  MuStr.length json_input < MuStr.MU_STR_END →
  parse mem max_tokens json_input = Done (r, ts) →
  Forall (slice_ok mem json_input) ts.
Proof.
  intros HJ H. unfold parse in H. inv_bind H as p Hp.
  apply (parse_loop_slices mem json_input) in Hp; [|done|].
  - apply (endgame_slices mem json_input _ _ _ HJ Hp) in H.
    eapply Forall_impl; [done|]. intros t. apply slice_inv_ok.
  - split_and!; [done|done|]. cbn. constructor.
Qed.

(** X9. For an input shorter than [INT_MAX] bytes, whatever [parse]
    returns, the slice of every record lies within the input view and holds
    one byte at least. *)
Theorem X9_slices_in_bounds mem max_tokens json_input r ts i t :
  MuStr.length json_input < MuStr.MU_STR_END →
  parse mem max_tokens json_input = Done (r, ts) →
  ts !! i = Some t →
  MuStr.buf json_input ≤ MuStr.buf (Token.json t) ∧
  1 ≤ MuStr.length (Token.json t) ∧
  MuStr.buf (Token.json t) + MuStr.length (Token.json t)
    ≤ MuStr.buf json_input + MuStr.length json_input.
Proof.
  intros HJ H Hi. apply (parse_slices _ _ _ _ _ HJ) in H.
  apply (proj1 (Forall_lookup _ _) H i t) in Hi as (H1 & H2 & H3 & _).
  done.
Qed.

Lemma X9_slices_in_bounds_witness :
  0 ≤ 16 ∧ 1 ≤ 3 ∧ 16 + 3 ≤ 0 + 37.
Proof.
  apply (X9_slices_in_bounds S1_input 9
           (MuStr.mu_str_init 0 (Z.of_nat (length S1_input))) 9 S1_store
           5 (Token.mk (MuStr.mk 16 3) MU_JSON_TOKEN_TYPE_NUMBER 4 2)).
  - vm_compute. reflexivity.
  - vm_compute. reflexivity.
  - vm_compute. reflexivity.
Defined.

(** X10. For an input shorter than [INT_MAX] bytes, whatever [parse]
    returns, the slice of every record starts at a byte that opens a token
    of the type of the record: a bracket for an array, a brace for an
    object, a quote for a string, a minus sign or a digit for a number and
    the letters t, f and n for true, false and null.  No record has the type
    UNKNOWN or INTEGER. *)
Theorem X10_opening_byte mem max_tokens json_input r ts i t :
  MuStr.length json_input < MuStr.MU_STR_END →
  parse mem max_tokens json_input = Done (r, ts) →
  ts !! i = Some t →
  (∃ ch, mem !! Z.to_nat (MuStr.buf (Token.json t)) = Some ch ∧
         opening_byte (Token.type t) ch = true) ∧
  Token.type t ≠ MU_JSON_TOKEN_TYPE_UNKNOWN ∧
  Token.type t ≠ MU_JSON_TOKEN_TYPE_INTEGER.
Proof.
  intros HJ H Hi. apply (parse_slices _ _ _ _ _ HJ) in H.
  apply (proj1 (Forall_lookup _ _) H i t) in Hi as (_ & _ & _ & H4).
  split; [done|]. destruct H4 as (ch & _ & Hty).
  split; intros E; rewrite E in Hty; discriminate Hty.
Qed.

Lemma X10_opening_byte_witness :
  (∃ ch, S1_input !! Z.to_nat 16 = Some ch ∧
         opening_byte MU_JSON_TOKEN_TYPE_NUMBER ch = true) ∧
  MU_JSON_TOKEN_TYPE_NUMBER ≠ MU_JSON_TOKEN_TYPE_UNKNOWN ∧
  MU_JSON_TOKEN_TYPE_NUMBER ≠ MU_JSON_TOKEN_TYPE_INTEGER.
Proof.
  apply (X10_opening_byte S1_input 9
           (MuStr.mu_str_init 0 (Z.of_nat (length S1_input))) 9 S1_store
           5 (Token.mk (MuStr.mk 16 3) MU_JSON_TOKEN_TYPE_NUMBER 4 2)).
  - vm_compute. reflexivity.
  - vm_compute. reflexivity.
  - vm_compute. reflexivity.
Defined.

(** ** The records are in the order of their first bytes *)

Lemma finish_token_starts mem J p token incl p' :
  MuStr.length J < MuStr.MU_STR_END →
  slices_inv mem J p →
  finish_token p token incl = Done p' →
  start <$> Parser.tokens p' = start <$> Parser.tokens p.
Proof.
  intros HJ (Hj & Hcp & Hall) H.
  apply finish_token_slice in H as [->|(i & t & -> & Hi & Hs & ->)]; [done|].
  cbn. rewrite list_fmap_insert. apply list_insert_id.
  rewrite list_lookup_fmap, Hi. cbn. f_equal.
  pose proof (proj1 (Forall_lookup _ _) Hall i t Hi)
    as ((Hb1 & Hb2) & Hc & Hn & _).
  rewrite Hs in Hn. rewrite Hj. unfold start. cbn.
  unfold MuStr.mu_str_slice, MuStr.mu_str_init, MuStr.MU_STR_END in *.
  repeat (case_match; ztests; cbn); lia.
Qed.

Lemma pstep_starts mem J p p' :
  MuStr.length J < MuStr.MU_STR_END →
  pstep false p p' → slices_inv mem J p →
  start <$> Parser.tokens p' = start <$> Parser.tokens p.
Proof.
  intros HJ.
  induction 1 as [| | | |p token incl p' H| p ty s ? | p q r Hpq IH1 _ IH2];
    try done.
  - intros Hp. by eapply finish_token_starts.
  - intros Hp. rewrite IH2, IH1; [done..|]. by eapply pstep_slices.
Qed.

Lemma start_lookup (ts ts' : list mu_json_token_t) i t' :
  start <$> ts' = start <$> ts → ts' !! i = Some t' →
  ∃ t, ts !! i = Some t ∧ start t = start t'.
Proof.
  intros E Hi.
  assert ((start <$> ts) !! i = Some (start t')) as H.
  { by rewrite <- E, list_lookup_fmap, Hi. }
  rewrite list_lookup_fmap in H.
  destruct (ts !! i) as [t|]; [|done]. exists t.
  cbv [fmap option_fmap option_map] in H. split; congruence.
Qed.

Lemma starts_increase_fmap (ts ts' : list mu_json_token_t) :
  start <$> ts' = start <$> ts → starts_increase ts → starts_increase ts'.
Proof.
  intros E Hs i t1' t2' H1 H2.
  destruct (start_lookup _ _ _ _ E H1) as (t1 & Ht1 & <-).
  destruct (start_lookup _ _ _ _ E H2) as (t2 & Ht2 & <-).
  by eapply Hs.
Qed.

Lemma starts_increase_snoc ts t' :
  starts_increase ts →
  (∀ t, last ts = Some t → start t < start t') →
  starts_increase (ts ++ [t']).
Proof.
  intros Hs Hlast i t1 t2 H1 H2.
  destruct (decide (S i < length ts)%nat) as [Hlt|Hge].
  - rewrite lookup_app_l in H1, H2 by lia. by eapply Hs.
  - apply lookup_lt_Some in H2 as Hlt. rewrite length_app in Hlt. cbn in Hlt.
    assert (S i = length ts) as Hi by lia.
    rewrite lookup_app_l in H1 by lia.
    rewrite Hi, lookup_app_r in H2 by lia.
    rewrite Nat.sub_diag in H2. cbn in H2. simplify_eq.
    apply Hlast. rewrite last_lookup, <- Hi. done.
Qed.

Lemma dispatch_starts mem J p b p' :
  MuStr.length J < MuStr.MU_STR_END →
  slices_inv mem J p → starts_increase (Parser.tokens p) →
  MuStr.mu_str_get_byte mem (Parser.json p) (Parser.char_pos p) = Done b →
  dispatch p (match b with
              | Some ch => classify_char ch
              | None => C_SPACE
              end) = Done p' →
  starts_increase (Parser.tokens p').
Proof.
  intros HJ Hinv Hs Hb Hd. pose proof Hinv as (Hj & Hcp & Hall).
  unfold dispatch in Hd. inv_bind Hd as n Hn.
  destruct (begin_action n) as [[[ty s] d]|] eqn:Hba.
  - destruct b as [ch|]; [|apply lookup_state_SPACE in Hn; congruence].
    apply get_byte_Some_range in Hb as [Hrange Hch]. rewrite Hj in Hrange, Hch.
    rewrite (perform_begin _ _ _ _ _ Hba), std_alloc_eq in Hd.
    destruct (_ >=? _); simplify_eq; cbn; [done|].
    apply starts_increase_snoc; [done|]. intros t Ht.
    rewrite last_lookup in Ht.
    pose proof (proj1 (Forall_lookup _ _) Hall _ t Ht) as (_ & Hc & _).
    pose proof (new_token_slice mem _ p ty ch HJ eq_refl Hrange Hch)
      as Hnew.
    apply (lookup_state_begin _ _ _ _ _ _ Hn) in Hba.
    destruct (Hnew Hba) as ((Hn1 & _) & _ & Hn3 & _).
    assert (token_is_sealed (new_token p ty) = false) as Hsealed.
    { unfold token_is_sealed. cbn. by destruct (_ =? 1). }
    rewrite Hsealed in Hn3. unfold start in *.
    assert (MuStr.buf (Token.json (new_token p ty))
            = MuStr.buf (Parser.json p) + Parser.char_pos p) as ->; [|lia].
    cbn. unfold MuStr.mu_str_slice, MuStr.mu_str_init, MuStr.MU_STR_END in *.
    repeat (case_match; ztests; cbn); lia.
  - pose proof (perform_pstep_gen false _ _ _ (or_intror Hba) Hd) as Hp0.
    apply (starts_increase_fmap (Parser.tokens p)); [|done].
    by eapply pstep_starts.
Qed.

Lemma parse_loop_starts mem J fuel p q :
  MuStr.length J < MuStr.MU_STR_END →
  slices_inv mem J p ∧ starts_increase (Parser.tokens p) →
  parse_loop mem fuel p = Done q →
  slices_inv mem J q ∧ starts_increase (Parser.tokens q).
Proof.
  intros HJ.
  apply (parse_loop_invariant_byte
           (fun p => slices_inv mem J p ∧ starts_increase (Parser.tokens p))).
  intros p0 b p' [Hp0 Hs0] He Hb Hd.
  split; [by eapply dispatch_slices|].
  rewrite advance_tokens. by eapply dispatch_starts.
Qed.

Lemma endgame_starts mem J p r ts :
  MuStr.length J < MuStr.MU_STR_END →
  slices_inv mem J p → endgame p = Done (r, ts) →
  start <$> ts = start <$> Parser.tokens p.
Proof.
  intros HJ Hinv. pose proof Hinv as (Hj & Hcp & Hall).
  unfold endgame. intros H.
  repeat (case_match; simplify_eq); try done.
  inv_bind H as t Ht. inv_bind H as root Hroot. inv_bind H as q Hq.
  apply deref_Done in Ht.
  assert (slices_inv mem (Parser.json p)
            (Parser.with_tokens p (<[i:=set_is_last t]> (Parser.tokens p))))
    as Hinv'.
  { split_and!; [done..|]. cbn. apply Forall_insert; [done|].
    pose proof (proj1 (Forall_lookup _ _) Hall i t Ht)
      as ((H4 & H4') & H5 & H6 & H7).
    unfold slice_inv. rewrite token_is_sealed_set_last. cbn.
    by split_and!. }
  apply (finish_token_starts mem _ _ _ _ _ HJ Hinv') in Hq.
  simplify_eq. rewrite Hq. cbn.
  rewrite list_fmap_insert. apply list_insert_id.
  by rewrite list_lookup_fmap, Ht.
Qed.

Lemma parse_starts mem max_tokens json_input r ts :
  MuStr.length json_input < MuStr.MU_STR_END →
  parse mem max_tokens json_input = Done (r, ts) → starts_increase ts.
Proof.
  intros HJ H. unfold parse in H. inv_bind H as p Hp.
  apply (parse_loop_starts mem json_input) in Hp as [Hinv Hs]; [|done|].
  - apply (endgame_starts mem json_input _ _ _ HJ Hinv) in H.
    by apply (starts_increase_fmap (Parser.tokens p)).
  - split; [split_and!; [done|done|constructor]|].
    intros i t t' Hi. cbn in Hi. by rewrite lookup_nil in Hi.
Qed.

Lemma starts_increase_lt ts i j t t' :
  starts_increase ts → (i < j)%nat →
  ts !! i = Some t → ts !! j = Some t' → start t < start t'.
Proof.
  intros Hs Hij Hi. revert t'.
  induction j as [|j IH]; intros t' Hj; [lia|].
  destruct (lookup_lt_is_Some_2 ts j) as [tj Htj].
  { apply lookup_lt_Some in Hj. lia. }
  specialize (Hs j tj t' Htj Hj).
  destruct (decide (i = j)) as [->|Hne]; [by simplify_eq|].
  specialize (IH ltac:(lia) tj Htj). lia.
Qed.

(** X11. For an input shorter than [INT_MAX] bytes, whatever [parse]
    returns, the records are in the order of the input: a record that comes
    later in the store starts at a later byte. *)
Theorem X11_document_order mem max_tokens json_input r ts i j t t' :
  MuStr.length json_input < MuStr.MU_STR_END →
  parse mem max_tokens json_input = Done (r, ts) →
  ts !! i = Some t → ts !! j = Some t' → (i < j)%nat →
  MuStr.buf (Token.json t) < MuStr.buf (Token.json t').
Proof.
  intros HJ H Hi Hj Hij. apply (parse_starts _ _ _ _ _ HJ) in H.
  by apply (starts_increase_lt ts i j t t').
Qed.

Lemma X11_document_order_witness : 6 < 16.
Proof.
  apply (X11_document_order S1_input 9
           (MuStr.mu_str_init 0 (Z.of_nat (length S1_input))) 9 S1_store
           2 5 (Token.mk (MuStr.mk 6 3) MU_JSON_TOKEN_TYPE_NUMBER 4 1)
           (Token.mk (MuStr.mk 16 3) MU_JSON_TOKEN_TYPE_NUMBER 4 2)).
  - vm_compute. reflexivity.
  - vm_compute. reflexivity.
  - vm_compute. reflexivity.
  - vm_compute. reflexivity.
  - lia.
Defined.

(** ** The memory outside the view is not read *)

Lemma get_byte_agree mem mem' J i :
  (∀ k, 0 ≤ k < MuStr.length J →
        mem !! Z.to_nat (MuStr.buf J + k) = mem' !! Z.to_nat (MuStr.buf J + k)) →
  MuStr.mu_str_get_byte mem J i = MuStr.mu_str_get_byte mem' J i.
Proof.
  intros H. unfold MuStr.mu_str_get_byte.
  destruct (_ || _) eqn:E; [done|]. ztests. rewrite H by lia. done.
Qed.

Lemma parse_loop_agree mem mem' J fuel p :
  (∀ k, 0 ≤ k < MuStr.length J →
        mem !! Z.to_nat (MuStr.buf J + k) = mem' !! Z.to_nat (MuStr.buf J + k)) →
  Parser.json p = J →
  parse_loop mem fuel p = parse_loop mem' fuel p.
Proof.
  intros H. revert p. induction fuel as [|fuel IH]; intros p Hj; [done|].
  rewrite !parse_loop_S. destruct (negb _); [done|].
  rewrite Hj, (get_byte_agree mem mem' J _ H).
  destruct (MuStr.mu_str_get_byte mem' J (Parser.char_pos p)) as [[ch|]| |];
    cbn; try done.
  destruct (_ <? 0); [done|].
  destruct (dispatch p (classify_char ch)) as [p'| |] eqn:Hd; cbn; try done.
  apply IH. apply dispatch_pstep, pstep_frame in Hd as (Hj' & _). cbn.
  congruence.
Qed.

Lemma parse_agree mem mem' max_tokens J :
  (∀ k, 0 ≤ k < MuStr.length J →
        mem !! Z.to_nat (MuStr.buf J + k) = mem' !! Z.to_nat (MuStr.buf J + k)) →
  parse mem max_tokens J = parse mem' max_tokens J.
Proof.
  intros H. unfold parse. by rewrite (parse_loop_agree mem mem' J).
Qed.

Lemma strlen_cons b str :
  b ≠ x00 → strlen (b :: str) = (len ← strlen str; Done (len + 1)).
Proof. intros Hb. by destruct b. Qed.

Lemma strlen_app buf rest :
  no_zero_byte buf = true →
  strlen (buf ++ x00 :: rest) = Done (Z.of_nat (length buf)).
Proof.
  induction buf as [|b buf IH]; [done|]. cbn [no_zero_byte forallb].
  intros [Hb Hbuf]%andb_true_iff.
  rewrite <- app_comm_cons, strlen_cons.
  - unfold no_zero_byte in IH. rewrite IH by done. cbn. f_equal. lia.
  - intros ->. done.
Qed.

(** X12. [mu_json_parse_c_str] on a buffer followed by a zero byte is
    [mu_json_parse_buffer] on the buffer, when the buffer holds no zero
    byte: same value, same records, whatever follows the zero byte. *)
Theorem X12_c_string_entry max_tokens buf rest :
  no_zero_byte buf = true →
  mu_json_parse_c_str max_tokens (buf ++ x00 :: rest)
  = mu_json_parse_buffer max_tokens buf.
Proof.
  intros Hbuf. unfold mu_json_parse_c_str, mu_json_parse_buffer.
  rewrite (strlen_app _ _ Hbuf). cbn.
  apply parse_agree. cbn. intros k Hk.
  rewrite lookup_app_l by lia. done.
Qed.

Lemma X12_c_string_entry_witness :
  mu_json_parse_c_str 9 (S1_input ++ [x00]) = mu_json_parse_buffer 9 S1_input.
Proof. apply (X12_c_string_entry 9 S1_input []). vm_compute. reflexivity. Defined.

Lemma slice_bytes_lookup mem J k :
  0 ≤ MuStr.buf J → 0 ≤ k < MuStr.length J →
  slice_bytes mem J !! Z.to_nat k = mem !! Z.to_nat (MuStr.buf J + k).
Proof.
  intros Hb Hk. unfold slice_bytes.
  rewrite lookup_take_lt by lia. rewrite lookup_drop. f_equal. lia.
Qed.

(** X13. The parser reads the bytes of the view it is given and no other:
    two memories that agree on the view give the same result. *)
Theorem X13_view_only mem mem' max_tokens json_input :
  0 ≤ MuStr.buf json_input →
  slice_bytes mem json_input = slice_bytes mem' json_input →
  mu_json_parse_mu_str mem max_tokens json_input
  = mu_json_parse_mu_str mem' max_tokens json_input.
Proof.
  intros Hb H. apply parse_agree. intros k Hk.
  by rewrite <- !slice_bytes_lookup, H.
Qed.

Lemma X13_view_only_witness :
  mu_json_parse_mu_str (x5b :: S1_input ++ [x5d]) 9
    (MuStr.mk 1 (Z.of_nat (length S1_input)))
  = mu_json_parse_mu_str (x20 :: S1_input) 9
      (MuStr.mk 1 (Z.of_nat (length S1_input))).
Proof.
  apply X13_view_only.
  - vm_compute. discriminate.
  - vm_compute. reflexivity.
Defined.

(** ** A run of bytes that leave the state alone *)

Lemma parse_loop_run mem k fuel p s :
  Parser.json p = MuStr.mk 0 (Z.of_nat (length mem)) →
  Parser.state p = s → Parser.error p = MU_JSON_ERR_NONE →
  0 ≤ s < NR_STATES →
  (∀ i b, (Z.to_nat (Parser.char_pos p) ≤ i < Z.to_nat (Parser.char_pos p) + k)%nat →
          mem !! i = Some b → lookup_state s (classify_char b) = Done s) →
  0 ≤ Parser.char_pos p →
  Parser.char_pos p + Z.of_nat k ≤ Z.of_nat (length mem) →
  parse_loop mem (k + fuel) p
  = parse_loop mem fuel
      (Parser.with_char_pos p (Parser.char_pos p + Z.of_nat k)).
Proof.
  intros Hjson Hs He Hrange. revert p Hjson Hs He.
  induction k as [|k IH]; intros p Hjson Hs He Hbytes Hpos Hend.
  { cbn. rewrite Z.add_0_r. by destruct p. }
  destruct (lookup_lt_is_Some_2 mem (Z.to_nat (Parser.char_pos p)))
    as [b Hb]; [lia|].
  change (S k + fuel)%nat with (S (k + fuel)).
  rewrite (parse_loop_step mem _ p b p); [| done | |].
  - rewrite IH; try done; unfold advance; cbn.
    + do 2 f_equal. lia.
    + intros i b' Hi. apply Hbytes. lia.
    + lia.
    + lia.
  - unfold MuStr.mu_str_get_byte. rewrite Hjson. cbn.
    destruct (_ || _) eqn:E; [ztests; lia|].
    by rewrite Z.add_0_l, Hb.
  - unfold dispatch.
    rewrite Hs, (Hbytes (Z.to_nat (Parser.char_pos p)) b) by (done || lia).
    cbn.
    rewrite perform_pure by done. by rewrite <- Hs, set_state_id.
Qed.

(** ** Tokens at the top level *)

Lemma mu_str_slice_to_end L c :
  0 ≤ c ≤ L → c < MuStr.MU_STR_END →
  MuStr.mu_str_slice (MuStr.mk 0 L) c MuStr.MU_STR_END = MuStr.mk c (L - c).
Proof.
  intros Hc HL. unfold MuStr.mu_str_slice, MuStr.mu_str_init, MuStr.MU_STR_END in *.
  cbn. repeat (case_match; ztests; cbn); try lia; f_equal; lia.
Qed.

Lemma mu_str_slice_all L e :
  0 ≤ L → L ≤ e →
  MuStr.mu_str_slice (MuStr.mk 0 L) 0 e = MuStr.mk 0 L.
Proof.
  intros HL He. unfold MuStr.mu_str_slice, MuStr.mu_str_init, MuStr.MU_STR_END in *.
  cbn. repeat (case_match; ztests; cbn); try lia; f_equal; lia.
Qed.

(** The parser after the first byte of the buffer, when it begins a token
    of type [ty] and leads to the state [s]. *)
Lemma first_byte_begins mem fuel capacity ch n ty s :
  (1 ≤ capacity)%nat →
  mem !! 0%nat = Some ch →
  lookup_state GO (classify_char ch) = Done n →
  begin_action n = Some (ty, s, 0) →
  parse_loop mem (S fuel)
    (parser_init (MuStr.mk 0 (Z.of_nat (length mem))) capacity)
  = parse_loop mem fuel
      (Parser.mk (MuStr.mk 0 (Z.of_nat (length mem)))
         [Token.mk (MuStr.mk 0 (Z.of_nat (length mem))) ty 1 0]
         capacity 0 1 s MU_JSON_ERR_NONE).
Proof.
  intros Hcap Hch Hn Hb.
  set (L := Z.of_nat (length mem)).
  assert (0 < L) as HL.
  { subst L. apply lookup_lt_Some in Hch. lia. }
  rewrite (parse_loop_step mem _ _ ch
             (alloc_ok (parser_init (MuStr.mk 0 L) capacity) ty s 0)).
  - unfold alloc_ok, advance, new_token. cbn.
    rewrite mu_str_slice_to_end by (unfold MuStr.MU_STR_END; lia).
    by rewrite Z.sub_0_r.
  - done.
  - unfold MuStr.mu_str_get_byte, parser_init.
    cbn [Parser.json Parser.char_pos MuStr.length MuStr.buf].
    change (Z.to_nat (0 + 0)) with 0%nat. rewrite Hch.
    destruct (0 >=? L) eqn:E; [ztests; lia|]. done.
  - unfold dispatch. cbn. rewrite Hn. cbn.
    rewrite (perform_begin _ _ _ _ _ Hb), std_alloc_eq.
    change (Parser.token_count (parser_init (MuStr.mk 0 L) capacity)) with 0.
    change (Parser.max_tokens (parser_init (MuStr.mk 0 L) capacity))
      with capacity.
    destruct (0 >=? Z.of_nat capacity) eqn:E; [ztests; lia|].
    reflexivity.
Qed.

(** The last round of the loop and the end of [parse], for a single sealed
    token at the top level. *)
Lemma single_token_end mem fuel capacity L ty c :
  L ≤ c →
  0 ≤ L →
  (parser ← parse_loop mem (S fuel)
              (Parser.mk (MuStr.mk 0 L) [Token.mk (MuStr.mk 0 L) ty 5 0]
                 capacity 0 c OK MU_JSON_ERR_NONE);
   endgame parser)
  = Done (1, [Token.mk (MuStr.mk 0 L) ty 7 0]).
Proof.
  intros Hc HL. rewrite parse_loop_S. cbn.
  unfold MuStr.mu_str_get_byte. cbn.
  destruct (c <? 0) eqn:E0; [ztests; lia|].
  destruct (c >=? L) eqn:E1; [|ztests; lia]. cbn.
  by destruct ty.
Qed.

Lemma perform_Pq p :
  perform p Pq =
  (parser ← finish_token p (tos p) true;
   s ← select_state (Parser.tokens parser) (tos p) OK OK OK CO;
   Done (set_state parser s)).
Proof. reflexivity. Qed.

(** The closing quote of a string that is alone at the top level. *)
Lemma closing_quote capacity L c :
  0 ≤ L → L ≤ c + 1 →
  dispatch
    (Parser.mk (MuStr.mk 0 L)
       [Token.mk (MuStr.mk 0 L) MU_JSON_TOKEN_TYPE_STRING 1 0]
       capacity 0 c ST MU_JSON_ERR_NONE)
    (classify_char x22)
  = Done (Parser.mk (MuStr.mk 0 L)
            [Token.mk (MuStr.mk 0 L) MU_JSON_TOKEN_TYPE_STRING 5 0]
            capacity 0 c OK MU_JSON_ERR_NONE).
Proof.
  intros HL Hc. unfold dispatch.
  change (lookup_state _ _) with (Done Pq). cbn [mbind outcome_bind].
  rewrite perform_Pq. unfold finish_token, deref.
  change (tos _) with (At 0%nat). cbn.
  unfold MuStr.mu_str_length. cbn.
  rewrite Z.sub_diag, mu_str_slice_all by lia.
  reflexivity.
Qed.

(** X14. A string without escapes, quotes or control characters between
    its two quotes, alone in a buffer shorter than [INT_MAX] bytes, parses
    to one token whatever its body is: a STRING at depth 0 that covers the
    whole buffer, quotes included, sealed, first and last. *)
Theorem X14_plain_string capacity body :
  (1 ≤ capacity)%nat →
  Z.of_nat (length (x22 :: body ++ [x22])) < MuStr.MU_STR_END →
  Forall (fun b => plain_string_byte b = true) body →
  mu_json_parse_buffer capacity (x22 :: body ++ [x22])
  = Done (1, [Token.mk (MuStr.mk 0 (Z.of_nat (length body) + 2))
                MU_JSON_TOKEN_TYPE_STRING 7 0]).
Proof.
  intros Hcap Hmax Hbody. unfold mu_json_parse_buffer, parse.
  set (mem := x22 :: body ++ [x22]) in *.
  assert (Z.of_nat (length mem) = Z.of_nat (length body) + 2) as HL.
  { subst mem. cbn [length]. rewrite length_app. cbn. lia. }
  assert (parse_fuel (MuStr.mu_str_init 0 (Z.of_nat (length mem)))
          = S (length body + 2)) as ->.
  { unfold parse_fuel, MuStr.mu_str_init. cbn [MuStr.length]. lia. }
  unfold MuStr.mu_str_init.
  rewrite (first_byte_begins mem _ capacity x22 Bs
             MU_JSON_TOKEN_TYPE_STRING ST); [|done..].
  set (L := Z.of_nat (length mem)) in *.
  set (p1 := Parser.mk _ _ _ _ _ _ _).
  rewrite (parse_loop_run mem (length body) 2 p1 ST); [|done..| | |].
  - change (Parser.with_char_pos p1 _)
      with (Parser.mk (MuStr.mk 0 L)
              [Token.mk (MuStr.mk 0 L) MU_JSON_TOKEN_TYPE_STRING 1 0]
              capacity 0 (1 + Z.of_nat (length body)) ST MU_JSON_ERR_NONE).
    rewrite (parse_loop_step mem 1 _ x22
               (Parser.mk (MuStr.mk 0 L)
                  [Token.mk (MuStr.mk 0 L) MU_JSON_TOKEN_TYPE_STRING 5 0]
                  capacity 0 (1 + Z.of_nat (length body)) OK
                  MU_JSON_ERR_NONE)).
    + unfold advance, Parser.with_char_pos.
      cbn [Parser.char_pos Parser.json Parser.tokens
           Parser.max_tokens Parser.depth Parser.state Parser.error].
      rewrite single_token_end by lia. by rewrite HL.
    + done.
    + unfold MuStr.mu_str_get_byte.
      cbn [Parser.json Parser.char_pos MuStr.length MuStr.buf].
      destruct (_ || _) eqn:E; [ztests; lia|].
      replace (Z.to_nat (0 + (1 + Z.of_nat (length body))))
        with (S (length body)) by lia.
      subst mem.
      change ((x22 :: body ++ [x22]) !! S (length body))
        with ((body ++ [x22]) !! length body).
      by rewrite lookup_app_r, Nat.sub_diag.
    + apply closing_quote; lia.
  - intros i b Hi Hb. apply plain_string_byte_ST. cbn in Hi.
    destruct i as [|i]; [lia|]. subst mem.
    change ((x22 :: body ++ [x22]) !! S i) with ((body ++ [x22]) !! i) in Hb.
    rewrite lookup_app_l in Hb by lia.
    by eapply (proj1 (Forall_lookup _ _) Hbody).
  - done.
  - change (Parser.char_pos p1) with 1. fold L. lia.
Qed.

Lemma X14_plain_string_witness :
  mu_json_parse_buffer 1 (x22 :: [x61; xc3; xa9; x20; x7f] ++ [x22])
  = Done (1, [Token.mk (MuStr.mk 0 (Z.of_nat 5 + 2))
                MU_JSON_TOKEN_TYPE_STRING 7 0]).
Proof.
  apply (X14_plain_string 1 [x61; xc3; xa9; x20; x7f]).
  - lia.
  - vm_compute. reflexivity.
  - repeat constructor.
Defined.

(** The parser stops at the first error. *)
Lemma parse_loop_stopped mem fuel p :
  Parser.error p ≠ MU_JSON_ERR_NONE → parse_loop mem (S fuel) p = Done p.
Proof.
  intros He. rewrite parse_loop_S.
  destruct (Parser.error p =? MU_JSON_ERR_NONE) eqn:E; [ztests; done|done].
Qed.

Lemma is_digit_ZE b :
  is_digit b = true → lookup_state ZE (classify_char b) = Done __.
Proof. destruct b; intros H; try discriminate H; reflexivity. Qed.

(** X15. A zero followed by a digit is rejected: on a buffer shorter than
    [INT_MAX] bytes that starts with 0 and a digit, [parse] returns
    [MU_JSON_ERR_BAD_FORMAT] whatever follows, leaving the one open NUMBER
    record the zero began. *)
Theorem X15_leading_zero capacity d rest :
  (1 ≤ capacity)%nat →
  Z.of_nat (length (x30 :: d :: rest)) < MuStr.MU_STR_END →
  is_digit d = true →
  mu_json_parse_buffer capacity (x30 :: d :: rest)
  = Done (MU_JSON_ERR_BAD_FORMAT,
          [Token.mk (MuStr.mk 0 (Z.of_nat (length rest) + 2))
             MU_JSON_TOKEN_TYPE_NUMBER 1 0]).
Proof.
  intros Hcap Hmax Hd. unfold mu_json_parse_buffer, parse.
  set (mem := x30 :: d :: rest) in *.
  assert (Z.of_nat (length mem) = Z.of_nat (length rest) + 2) as HL.
  { subst mem. cbn [length]. lia. }
  assert (parse_fuel (MuStr.mu_str_init 0 (Z.of_nat (length mem)))
          = S (S (S (length rest)))) as ->.
  { unfold parse_fuel, MuStr.mu_str_init. cbn [MuStr.length]. lia. }
  unfold MuStr.mu_str_init.
  rewrite (first_byte_begins mem _ capacity x30 Bz
             MU_JSON_TOKEN_TYPE_NUMBER ZE); [|done..].
  set (L := Z.of_nat (length mem)) in *.
  set (p1 := Parser.mk _ _ _ _ _ _ _).
  rewrite (parse_loop_step mem _ p1 d
             (Parser.with_error p1 MU_JSON_ERR_BAD_FORMAT) eq_refl);
    cycle 1.
  { unfold MuStr.mu_str_get_byte. cbn.
    destruct (_ >=? _) eqn:E; [ztests; lia|]. done. }
  { unfold dispatch. cbn [Parser.state p1].
    change (Parser.state p1) with ZE. by rewrite (is_digit_ZE _ Hd). }
  rewrite parse_loop_stopped by done. cbn [mbind outcome_bind].
  unfold endgame. cbn. by rewrite HL.
Qed.

Lemma X15_leading_zero_witness :
  mu_json_parse_buffer 4 (x30 :: x31 :: [x2c; x32])
  = Done (MU_JSON_ERR_BAD_FORMAT,
          [Token.mk (MuStr.mk 0 (Z.of_nat 2 + 2))
             MU_JSON_TOKEN_TYPE_NUMBER 1 0]).
Proof.
  apply (X15_leading_zero 4 x31 [x2c; x32]).
  - lia.
  - vm_compute. reflexivity.
  - reflexivity.
Defined.

(** ** Control characters *)

(** X16. A control character other than tab, line feed and carriage return
    is not rejected by its class: [classify_char] returns 255 for it, which
    is not negative, and the cell [lookup_state] then reads is the one of
    the comma, eight rows further down the table. *)
Theorem X16_control_bytes b :
  is_control b = true →
  (classify_char b <? 0) = false ∧
  ∀ s, lookup_state s (classify_char b) = lookup_state (s + 8) C_COMMA.
Proof.
  intros Hb.
  assert (classify_char b = __) as ->.
  { destruct b; try discriminate Hb; reflexivity. }
  split; [done|]. intros s. unfold lookup_state, __, NR_CLASSES, C_COMMA.
  by replace ((s + 8) * 31 + 7) with (s * 31 + 255) by lia.
Qed.

Lemma X16_control_bytes_witness :
  (classify_char x01 <? 0) = false ∧
  ∀ s, lookup_state s (classify_char x01) = lookup_state (s + 8) C_COMMA.
Proof. apply (X16_control_bytes x01). reflexivity. Defined.

(** ** Slices of a view *)

Lemma mu_str_slice_in_range src a b :
  MuStr.length src ≤ MuStr.MU_STR_END →
  0 ≤ a ≤ b → b ≤ MuStr.length src →
  MuStr.mu_str_slice src a b = MuStr.mk (MuStr.buf src + a) (b - a).
Proof.
  intros Hlen Ha Hb.
  unfold MuStr.mu_str_slice, MuStr.mu_str_init, MuStr.MU_STR_END in *.
  repeat (case_match; ztests; cbn); try lia; f_equal; lia.
Qed.

(** X17. For a source view of at most [INT_MAX] bytes [mu_str_slice]
    returns a view inside the source view, whatever the end index is, when
    the start index is not below minus the length of the source. *)
Theorem X17_slice_is_subview src start end_ :
  0 ≤ MuStr.length src ≤ MuStr.MU_STR_END → - MuStr.length src ≤ start →
  MuStr.buf src ≤ MuStr.buf (MuStr.mu_str_slice src start end_) ∧
  0 ≤ MuStr.length (MuStr.mu_str_slice src start end_) ∧
  MuStr.buf (MuStr.mu_str_slice src start end_)
  + MuStr.length (MuStr.mu_str_slice src start end_)
  ≤ MuStr.buf src + MuStr.length src.
Proof.
  intros Hlen Hstart.
  unfold MuStr.mu_str_slice, MuStr.mu_str_init, MuStr.MU_STR_END in *.
  repeat (case_match; ztests; cbn); lia.
Qed.

Lemma X17_slice_is_subview_witness :
  4 ≤ MuStr.buf (MuStr.mu_str_slice (MuStr.mk 4 10) (-3) 9) ∧
  0 ≤ MuStr.length (MuStr.mu_str_slice (MuStr.mk 4 10) (-3) 9) ∧
  MuStr.buf (MuStr.mu_str_slice (MuStr.mk 4 10) (-3) 9)
  + MuStr.length (MuStr.mu_str_slice (MuStr.mk 4 10) (-3) 9)
  ≤ 4 + 10.
Proof.
  apply (X17_slice_is_subview (MuStr.mk 4 10) (-3) 9).
  - vm_compute. split; discriminate.
  - vm_compute. discriminate.
Defined.

Lemma slice_bytes_mu_str_slice mem src a b :
  0 ≤ MuStr.buf src → MuStr.length src ≤ MuStr.MU_STR_END →
  0 ≤ a ≤ b → b ≤ MuStr.length src →
  slice_bytes mem (MuStr.mu_str_slice src a b)
  = take (Z.to_nat (b - a)) (drop (Z.to_nat a) (slice_bytes mem src)).
Proof.
  intros Hbuf Hlen Ha Hb. rewrite mu_str_slice_in_range by done.
  unfold slice_bytes. cbn.
  rewrite skipn_firstn_comm, take_take, drop_drop.
  f_equal; [lia|]. f_equal. lia.
Qed.

(** X18. For indices [0 <= a <= b <= length], [mu_str_slice] returns the
    view of the bytes [a] to [b - 1] of the source. *)
Theorem X18_slice_bytes mem src a b :
  0 ≤ MuStr.buf src → MuStr.length src ≤ MuStr.MU_STR_END →
  0 ≤ a ≤ b → b ≤ MuStr.length src →
  slice_bytes mem (MuStr.mu_str_slice src a b)
  = take (Z.to_nat (b - a)) (drop (Z.to_nat a) (slice_bytes mem src)).
Proof. apply slice_bytes_mu_str_slice. Qed.

Lemma X18_slice_bytes_witness :
  slice_bytes S1_input (MuStr.mu_str_slice (MuStr.mk 1 35) 5 8)
  = take (Z.to_nat (8 - 5))
      (drop (Z.to_nat 5) (slice_bytes S1_input (MuStr.mk 1 35))).
Proof.
  apply (X18_slice_bytes S1_input (MuStr.mk 1 35) 5 8).
  - vm_compute. discriminate.
  - vm_compute. discriminate.
  - lia.
  - vm_compute. discriminate.
Defined.

(** X19. Negative indices of [mu_str_slice] count from the end of the
    source, and [MU_STR_END] is the end of the source. *)
Theorem X19_slice_negative_indices src i j :
  MuStr.length src ≤ MuStr.MU_STR_END →
  0 < i ≤ MuStr.length src → 0 < j ≤ MuStr.length src →
  MuStr.mu_str_slice src (- i) (- j)
  = MuStr.mu_str_slice src (MuStr.length src - i) (MuStr.length src - j) ∧
  MuStr.mu_str_slice src (- i) MuStr.MU_STR_END
  = MuStr.mu_str_slice src (MuStr.length src - i) (MuStr.length src).
Proof.
  intros Hlen Hi Hj.
  unfold MuStr.mu_str_slice, MuStr.mu_str_init, MuStr.MU_STR_END in *.
  split; repeat (case_match; ztests; cbn); try lia; f_equal; lia.
Qed.

Lemma X19_slice_negative_indices_witness :
  MuStr.mu_str_slice (MuStr.mk 4 10) (- 3) (- 1)
  = MuStr.mu_str_slice (MuStr.mk 4 10) (10 - 3) (10 - 1) ∧
  MuStr.mu_str_slice (MuStr.mk 4 10) (- 3) MuStr.MU_STR_END
  = MuStr.mu_str_slice (MuStr.mk 4 10) (10 - 3) 10.
Proof.
  apply (X19_slice_negative_indices (MuStr.mk 4 10) 3 1).
  - vm_compute. discriminate.
  - vm_compute. split; [reflexivity|discriminate].
  - vm_compute. split; [reflexivity|discriminate].
Defined.

(** ** Navigation does not read the slices *)

Section Moved.

Variable b : Z.
Variable ts : list mu_json_token_t.

Lemma deref_move i :
  deref (move_token b <$> ts) i = move_token b <$> deref ts i.
Proof.
  unfold deref. rewrite list_lookup_fmap. by destruct (ts !! i).
Qed.

Lemma nav_fuel_move : nav_fuel (move_token b <$> ts) = nav_fuel ts.
Proof. unfold nav_fuel. by rewrite length_fmap. Qed.

Lemma depth_move token :
  mu_json_token_depth (move_token b <$> ts) token
  = mu_json_token_depth ts token.
Proof.
  destruct token as [|i]; [done|]. unfold mu_json_token_depth.
  rewrite deref_move. by destruct (deref ts i).
Qed.

Lemma type_move token :
  mu_json_token_type (move_token b <$> ts) token = mu_json_token_type ts token.
Proof.
  destruct token as [|i]; [done|]. unfold mu_json_token_type.
  rewrite deref_move. by destruct (deref ts i).
Qed.

Lemma prev_move token :
  mu_json_token_prev (move_token b <$> ts) token = mu_json_token_prev ts token.
Proof.
  destruct token as [|i]; [done|]. unfold mu_json_token_prev.
  rewrite deref_move. by destruct (deref ts i).
Qed.

Lemma next_move token :
  mu_json_token_next (move_token b <$> ts) token = mu_json_token_next ts token.
Proof.
  destruct token as [|i]; [done|]. unfold mu_json_token_next.
  rewrite deref_move. by destruct (deref ts i).
Qed.

Lemma root_loop_move fuel token :
  root_loop (move_token b <$> ts) fuel token = root_loop ts fuel token.
Proof.
  revert token. induction fuel as [|fuel IH]; intros token; [done|].
  cbn. destruct token as [|i]; [done|].
  rewrite deref_move. destruct (deref ts i) as [t| |]; [|done..]. cbn.
  change (token_is_first (move_token b t)) with (token_is_first t).
  destruct (token_is_first t); [done|].
  rewrite prev_move. destruct (mu_json_token_prev ts (At i)); cbn; auto.
Qed.

Lemma root_move token :
  mu_json_token_root (move_token b <$> ts) token = mu_json_token_root ts token.
Proof.
  destruct token as [|i]; [done|]. unfold mu_json_token_root.
  by rewrite nav_fuel_move, root_loop_move.
Qed.

Lemma parent_loop_move fuel d token :
  parent_loop (move_token b <$> ts) fuel d token = parent_loop ts fuel d token.
Proof.
  revert token. induction fuel as [|fuel IH]; intros token; [done|].
  cbn. rewrite prev_move.
  destruct (mu_json_token_prev ts token) as [[|j]| |]; cbn; try done.
  rewrite depth_move.
  destruct (mu_json_token_depth ts (At j)) as [dj| |]; cbn; try done.
  by rewrite IH.
Qed.

Lemma parent_move token :
  mu_json_token_parent (move_token b <$> ts) token
  = mu_json_token_parent ts token.
Proof.
  destruct token as [|i]; [done|]. unfold mu_json_token_parent.
  rewrite depth_move, nav_fuel_move.
  destruct (mu_json_token_depth ts (At i)); cbn; try done.
  apply parent_loop_move.
Qed.

Lemma child_move token :
  mu_json_token_child (move_token b <$> ts) token
  = mu_json_token_child ts token.
Proof.
  destruct token as [|i]; [done|]. unfold mu_json_token_child.
  rewrite depth_move, next_move.
  destruct (mu_json_token_depth ts (At i)); cbn; try done.
  destruct (mu_json_token_next ts (At i)); cbn; try done.
  by rewrite depth_move.
Qed.

Lemma next_sibling_loop_move fuel token next :
  next_sibling_loop (move_token b <$> ts) fuel token next
  = next_sibling_loop ts fuel token next.
Proof.
  revert next. induction fuel as [|fuel IH]; intros next; [done|].
  cbn. destruct next as [|j]; [done|]. rewrite !depth_move.
  destruct (mu_json_token_depth ts (At j)) as [dn| |]; cbn; try done.
  destruct (mu_json_token_depth ts token) as [dt| |]; cbn; try done.
  destruct (dn <? dt); [done|]. destruct (dn =? dt); [done|].
  rewrite next_move. destruct (mu_json_token_next ts (At j)); cbn; auto.
Qed.

Lemma next_sibling_move token :
  mu_json_token_next_sibling (move_token b <$> ts) token
  = mu_json_token_next_sibling ts token.
Proof.
  destruct token as [|i]; [done|]. unfold mu_json_token_next_sibling.
  rewrite next_move, nav_fuel_move.
  destruct (mu_json_token_next ts (At i)); cbn; try done.
  apply next_sibling_loop_move.
Qed.

Lemma child_count_loop_move fuel token count child :
  child_count_loop (move_token b <$> ts) fuel token count child
  = child_count_loop ts fuel token count child.
Proof.
  revert count child. induction fuel as [|fuel IH]; intros count child; [done|].
  cbn. destruct (decide (child = token)); [done|].
  rewrite next_sibling_move.
  destruct (mu_json_token_next_sibling ts child) as [c| |]; cbn; try done.
  destruct (decide (c = NULL)); [done|]. apply IH.
Qed.

Lemma child_count_move container token :
  child_count (move_token b <$> ts) container token
  = child_count ts container token.
Proof.
  unfold child_count. destruct (decide (container = token)); [done|].
  rewrite child_move, nav_fuel_move.
  destruct (mu_json_token_child ts container); cbn; try done.
  apply child_count_loop_move.
Qed.

Lemma select_state_move token s1 s2 s3 s4 :
  select_state (move_token b <$> ts) token s1 s2 s3 s4
  = select_state ts token s1 s2 s3 s4.
Proof.
  unfold select_state. rewrite parent_move.
  destruct (mu_json_token_parent ts token) as [[|c]| |]; cbn; try done.
  destruct token as [|i]; [done|].
  rewrite deref_move. destruct (deref ts c) as [ct| |]; cbn; try done.
  change (Token.type (move_token b ct)) with (Token.type ct).
  destruct (decide _); [done|]. by rewrite child_count_move.
Qed.

End Moved.

(** ** The parser at another address *)

Lemma mu_str_slice_move b s i j :
  MuStr.mu_str_slice (move_str b s) i j = move_str b (MuStr.mu_str_slice s i j).
Proof.
  unfold MuStr.mu_str_slice, move_str, MuStr.mu_str_init. cbn.
  f_equal. lia.
Qed.

Lemma tos_move b p : tos (move_parser b p) = tos p.
Proof. unfold tos, Parser.token_count. cbn. by rewrite length_fmap. Qed.

Lemma std_alloc_move b p ty s :
  std_alloc (move_parser b p) ty s = move_parser b (std_alloc p ty s).
Proof.
  rewrite !std_alloc_eq. unfold Parser.token_count. cbn.
  rewrite length_fmap. destruct (_ >=? _); [done|].
  unfold move_parser. cbn. rewrite fmap_app. cbn.
  do 3 f_equal. unfold new_token, move_token, set_json. cbn.
  unfold Parser.token_count. cbn. rewrite length_fmap.
  by rewrite mu_str_slice_move.
Qed.

Lemma finish_token_move b p token incl :
  finish_token (move_parser b p) token incl
  = move_parser b <$> finish_token p token incl.
Proof.
  unfold finish_token. destruct token as [|i]; [done|]. cbn.
  rewrite deref_move. destruct (deref (Parser.tokens p) i) as [t| |];
    [|done..].
  cbn. change (token_is_sealed (move_token b t)) with (token_is_sealed t).
  destruct (token_is_sealed t); [done|]. cbn.
  unfold move_parser. cbn. rewrite list_fmap_insert. do 3 f_equal.
  unfold move_token, seal_token, set_flag, set_json, MuStr.mu_str_length. cbn.
  by rewrite mu_str_slice_move.
Qed.

Lemma finish_container_move b p ty :
  finish_container (move_parser b p) ty
  = move_parser b <$> finish_container p ty.
Proof.
  unfold finish_container. rewrite tos_move.
  change (Parser.tokens (move_parser b p))
    with (move_token b <$> Parser.tokens p).
  rewrite type_move.
  destruct (mu_json_token_type (Parser.tokens p) (tos p)) as [ty'| |];
    [|done..]. cbn.
  destruct (decide (ty' ≠ ty)).
  - rewrite finish_token_move.
    destruct (finish_token p (tos p) false) as [q| |]; [|done..]. cbn.
    rewrite parent_move.
    destruct (mu_json_token_parent (Parser.tokens q) (tos p)) as [c| |];
      [|done..]. cbn.
    rewrite finish_token_move.
    by destruct (finish_token q c true).
  - destruct (tos p) as [|i]; [done|].
    rewrite deref_move.
    destruct (deref (Parser.tokens p) i) as [t| |]; [|done..]. cbn.
    change (token_is_sealed (move_token b t)) with (token_is_sealed t).
    destruct (token_is_sealed t).
    + rewrite parent_move.
      destruct (mu_json_token_parent (Parser.tokens p) (At i)) as [c| |];
        [|done..]. cbn.
      rewrite finish_token_move.
      by destruct (finish_token p c true).
    + rewrite finish_token_move.
      by destruct (finish_token p (At i) true).
Qed.

Lemma finish_select_move b p token incl s1 s2 s3 s4 :
  (parser ← finish_token (move_parser b p) token incl;
   s ← select_state (Parser.tokens parser) token s1 s2 s3 s4;
   Done (set_state parser s))
  = move_parser b <$>
      (parser ← finish_token p token incl;
       s ← select_state (Parser.tokens parser) token s1 s2 s3 s4;
       Done (set_state parser s)).
Proof.
  rewrite finish_token_move.
  destruct (finish_token p token incl) as [q| |]; [|done..]. cbn.
  change (Parser.tokens (move_parser b q))
    with (move_token b <$> Parser.tokens q).
  rewrite select_state_move.
  by destruct (select_state (Parser.tokens q) token s1 s2 s3 s4).
Qed.

Lemma perform_move b p n :
  perform (move_parser b p) n = move_parser b <$> perform p n.
Proof.
  unfold perform. rewrite tos_move.
  destruct ((n >=? 0) && (n <? NR_STATES)); [done|].
  repeat (destruct (n =? _);
          [first [ by rewrite std_alloc_move
                 | by rewrite finish_container_move
                 | by apply finish_select_move ]|]).
  destruct (n =? Ps);
    [|destruct (n =? Pq); [by apply finish_select_move|done]].
  destruct (tos p) as [|i]; [done|].
  change (Parser.tokens (move_parser b p))
    with (move_token b <$> Parser.tokens p).
  rewrite deref_move.
  destruct (deref (Parser.tokens p) i) as [t| |]; [|done..]. cbn.
  change (is_container (move_token b t)) with (is_container t).
  destruct (negb (is_container t)).
  - rewrite finish_token_move.
    destruct (finish_token p (At i) false) as [q| |]; [|done..]. cbn.
    change (Parser.tokens (move_parser b q))
      with (move_token b <$> Parser.tokens q).
    rewrite select_state_move.
    by destruct (select_state _ _ _ _ _ _).
  - cbn. change (Parser.tokens (move_parser b p))
      with (move_token b <$> Parser.tokens p).
    rewrite select_state_move.
    by destruct (select_state _ _ _ _ _ _).
Qed.

Lemma dispatch_move b p c :
  dispatch (move_parser b p) c = move_parser b <$> dispatch p c.
Proof.
  unfold dispatch. change (Parser.state (move_parser b p)) with (Parser.state p).
  destruct (lookup_state (Parser.state p) c); [|done..]. cbn.
  apply perform_move.
Qed.

Lemma get_byte_move mem b J i :
  0 ≤ b → 0 ≤ MuStr.buf J →
  MuStr.mu_str_get_byte mem (move_str b J) i
  = MuStr.mu_str_get_byte (drop (Z.to_nat b) mem) J i.
Proof.
  intros Hb HJ. unfold MuStr.mu_str_get_byte, move_str. cbn.
  destruct (_ || _) eqn:E; [done|]. ztests.
  rewrite lookup_drop.
  replace (Z.to_nat (MuStr.buf J + b + i))
    with (Z.to_nat b + Z.to_nat (MuStr.buf J + i))%nat by lia.
  done.
Qed.

Lemma parse_loop_move mem b fuel p :
  0 ≤ b → 0 ≤ MuStr.buf (Parser.json p) →
  parse_loop mem fuel (move_parser b p)
  = move_parser b <$> parse_loop (drop (Z.to_nat b) mem) fuel p.
Proof.
  intros Hb. revert p. induction fuel as [|fuel IH]; intros p HJ; [done|].
  rewrite !parse_loop_S.
  change (Parser.error (move_parser b p)) with (Parser.error p).
  destruct (negb _); [done|].
  change (Parser.json (move_parser b p)) with (move_str b (Parser.json p)).
  change (Parser.char_pos (move_parser b p)) with (Parser.char_pos p).
  rewrite get_byte_move by done.
  destruct (MuStr.mu_str_get_byte _ _ _) as [[ch|]| |]; cbn; try done.
  - destruct (_ <? 0); [done|]. rewrite dispatch_move.
    destruct (dispatch p (classify_char ch)) as [q| |] eqn:Hd; cbn;
      try done.
    apply (IH (advance q)). cbn.
    apply dispatch_pstep, pstep_frame in Hd as (-> & _). done.
  - rewrite dispatch_move. by destruct (dispatch p C_SPACE).
Qed.

Lemma endgame_move b p :
  endgame (move_parser b p) = move_result b <$> endgame p.
Proof.
  unfold endgame.
  change (Parser.error (move_parser b p)) with (Parser.error p).
  change (Parser.depth (move_parser b p)) with (Parser.depth p).
  change (Parser.state (move_parser b p)) with (Parser.state p).
  repeat (destruct (negb _); [done|]).
  rewrite tos_move. destruct (tos p) as [|i] eqn:Htos.
  { unfold Parser.token_count. cbn. by rewrite length_fmap. }
  change (Parser.tokens (move_parser b p))
    with (move_token b <$> Parser.tokens p).
  rewrite deref_move.
  destruct (deref (Parser.tokens p) i) as [t| |]; [|done..]. cbn.
  change (set_is_last (move_token b t)) with (move_token b (set_is_last t)).
  rewrite <- list_fmap_insert.
  set (p1 := Parser.with_tokens p _).
  change (Parser.with_tokens (move_parser b p) _) with (move_parser b p1).
  rewrite tos_move.
  change (Parser.tokens (move_parser b p1))
    with (move_token b <$> Parser.tokens p1).
  rewrite root_move.
  destruct (mu_json_token_root _ (tos p1)) as [root| |]; [|done..]. cbn.
  rewrite finish_token_move.
  destruct (finish_token p1 root false) as [q| |]; [|done..]. cbn.
  unfold move_result, Parser.token_count. cbn. by rewrite length_fmap.
Qed.

Lemma parse_move mem b max_tokens J :
  0 ≤ b → 0 ≤ MuStr.buf J →
  parse mem max_tokens (move_str b J)
  = move_result b <$> parse (drop (Z.to_nat b) mem) max_tokens J.
Proof.
  intros Hb HJ. unfold parse.
  change (parse_fuel (move_str b J)) with (parse_fuel J).
  change (parser_init (move_str b J) max_tokens)
    with (move_parser b (parser_init J max_tokens)).
  rewrite parse_loop_move by done.
  destruct (parse_loop _ _ _) as [p| |]; [|done..]. cbn.
  apply endgame_move.
Qed.

(** X20. Where the view lies in the memory does not matter to the parser:
    [mu_json_parse_mu_str] on a view that lies in the memory returns what
    [mu_json_parse_buffer] returns on the bytes of the view, with every
    slice moved by the address of the view. *)
Theorem X20_view_position mem max_tokens b len :
  0 ≤ b → 0 ≤ len → b + len ≤ Z.of_nat (length mem) →
  mu_json_parse_mu_str mem max_tokens (MuStr.mk b len)
  = move_result b <$>
      mu_json_parse_buffer max_tokens (slice_bytes mem (MuStr.mk b len)).
Proof.
  intros Hb Hlen Hmem. unfold mu_json_parse_mu_str, mu_json_parse_buffer.
  assert (length (slice_bytes mem (MuStr.mk b len)) = Z.to_nat len) as ->.
  { unfold slice_bytes. cbn. rewrite length_take, length_drop. lia. }
  rewrite Z2Nat.id by done. unfold MuStr.mu_str_init.
  change (MuStr.mk b len) with (move_str b (MuStr.mk 0 len)) at 1.
  rewrite parse_move by done. f_equal.
  apply parse_agree. cbn. intros k Hk. unfold slice_bytes. cbn.
  by rewrite lookup_take_lt by lia.
Qed.

Lemma X20_view_position_witness :
  mu_json_parse_mu_str (x5b :: S1_input ++ [x5d]) 9 (MuStr.mk 1 37)
  = move_result 1 <$>
      mu_json_parse_buffer 9
        (slice_bytes (x5b :: S1_input ++ [x5d]) (MuStr.mk 1 37)).
Proof.
  apply (X20_view_position (x5b :: S1_input ++ [x5d]) 9 1 37).
  - lia.
  - lia.
  - vm_compute. discriminate.
Defined.

(** ** Bytes skipped before the first token *)

Lemma mu_str_slice_skip k J s e :
  0 ≤ k → MuStr.length J + k < MuStr.MU_STR_END → 0 ≤ s → 0 ≤ e →
  MuStr.mu_str_slice
    (MuStr.mk (MuStr.buf J - k) (MuStr.length J + k)) (s + k) (e + k)
  = MuStr.mu_str_slice J s e.
Proof.
  intros Hk HJ Hs He.
  unfold MuStr.mu_str_slice, MuStr.mu_str_init, MuStr.MU_STR_END in *. cbn.
  repeat (case_match; ztests; cbn); try lia; f_equal; lia.
Qed.

Lemma mu_str_slice_skip_end k J s :
  0 ≤ k → MuStr.length J + k < MuStr.MU_STR_END → 0 ≤ s →
  MuStr.mu_str_slice
    (MuStr.mk (MuStr.buf J - k) (MuStr.length J + k)) (s + k)
    MuStr.MU_STR_END
  = MuStr.mu_str_slice J s MuStr.MU_STR_END.
Proof.
  intros Hk HJ Hs.
  unfold MuStr.mu_str_slice, MuStr.mu_str_init, MuStr.MU_STR_END in *. cbn.
  repeat (case_match; ztests; cbn); try lia; f_equal; lia.
Qed.

Lemma advance_skip k p : advance (skip_parser k p) = skip_parser k (advance p).
Proof.
  unfold advance, skip_parser, Parser.with_char_pos. cbn. f_equal. lia.
Qed.

Section Skipped.

Variable mem : list byte.
Variable J : mu_str_t.
Variable k : Z.
Hypothesis Hk : 0 ≤ k.
Hypothesis HJ : MuStr.length J + k < MuStr.MU_STR_END.

Lemma std_alloc_skip p ty s :
  slices_inv mem J p →
  std_alloc (skip_parser k p) ty s = skip_parser k (std_alloc p ty s).
Proof.
  intros (Hj & Hcp & _). rewrite !std_alloc_eq.
  change (Parser.token_count (skip_parser k p)) with (Parser.token_count p).
  change (Parser.max_tokens (skip_parser k p)) with (Parser.max_tokens p).
  destruct (_ >=? _); [done|].
  unfold skip_parser. cbn. do 3 f_equal.
  unfold new_token. cbn. rewrite Hj.
  by rewrite mu_str_slice_skip_end.
Qed.

Lemma finish_token_skip p token incl :
  slices_inv mem J p →
  finish_token (skip_parser k p) token incl
  = skip_parser k <$> finish_token p token incl.
Proof.
  intros (Hj & Hcp & Hall).
  unfold finish_token. destruct token as [|i]; [done|]. cbn.
  destruct (deref (Parser.tokens p) i) as [t| |] eqn:Ht; [|done..]. cbn.
  destruct (token_is_sealed t) eqn:Hs; [done|]. cbn.
  apply deref_Done in Ht.
  pose proof (proj1 (Forall_lookup _ _) Hall i t Ht)
    as ((Hb1 & Hb2) & _ & Hn & _).
  rewrite Hs in Hn.
  unfold MuStr.mu_str_length. cbn. rewrite Hj.
  replace (MuStr.length J + k - MuStr.length (Token.json t))
    with (MuStr.length J - MuStr.length (Token.json t) + k) by lia.
  destruct incl.
  - replace (Parser.char_pos p + k + 1) with (Parser.char_pos p + 1 + k)
      by lia.
    rewrite mu_str_slice_skip by lia. done.
  - rewrite mu_str_slice_skip by lia. done.
Qed.

Lemma finish_container_skip p ty :
  slices_inv mem J p →
  finish_container (skip_parser k p) ty
  = skip_parser k <$> finish_container p ty.
Proof.
  intros Hp.
  assert (MuStr.length J < MuStr.MU_STR_END) as HJ' by lia.
  unfold finish_container.
  change (tos (skip_parser k p)) with (tos p).
  change (Parser.tokens (skip_parser k p)) with (Parser.tokens p).
  destruct (mu_json_token_type (Parser.tokens p) (tos p)) as [ty'| |];
    [|done..]. cbn.
  destruct (decide (ty' ≠ ty)).
  - rewrite finish_token_skip by done.
    destruct (finish_token p (tos p) false) as [q| |] eqn:Hq; [|done..]. cbn.
    change (Parser.tokens (skip_parser k q)) with (Parser.tokens q).
    destruct (mu_json_token_parent (Parser.tokens q) (tos p)) as [c| |];
      [|done..]. cbn.
    rewrite finish_token_skip by (by eapply finish_token_slices).
    by destruct (finish_token q c true).
  - destruct (tos p) as [|i]; [done|].
    destruct (deref (Parser.tokens p) i) as [t| |]; [|done..]. cbn.
    destruct (token_is_sealed t).
    + destruct (mu_json_token_parent (Parser.tokens p) (At i)) as [c| |];
        [|done..]. cbn.
      rewrite finish_token_skip by done.
      by destruct (finish_token p c true).
    + rewrite finish_token_skip by done.
      by destruct (finish_token p (At i) true).
Qed.

Lemma finish_select_skip p token incl s1 s2 s3 s4 :
  slices_inv mem J p →
  (parser ← finish_token (skip_parser k p) token incl;
   s ← select_state (Parser.tokens parser) token s1 s2 s3 s4;
   Done (set_state parser s))
  = skip_parser k <$>
      (parser ← finish_token p token incl;
       s ← select_state (Parser.tokens parser) token s1 s2 s3 s4;
       Done (set_state parser s)).
Proof.
  intros Hp. rewrite finish_token_skip by done.
  destruct (finish_token p token incl) as [q| |]; [|done..]. cbn.
  change (Parser.tokens (skip_parser k q)) with (Parser.tokens q).
  by destruct (select_state (Parser.tokens q) token s1 s2 s3 s4).
Qed.

Lemma perform_skip p n :
  slices_inv mem J p →
  perform (skip_parser k p) n = skip_parser k <$> perform p n.
Proof.
  intros Hp. unfold perform. change (tos (skip_parser k p)) with (tos p).
  destruct ((n >=? 0) && (n <? NR_STATES)); [done|].
  repeat (destruct (n =? _);
          [first [ by rewrite std_alloc_skip
                 | by rewrite finish_container_skip
                 | by apply finish_select_skip ]|]).
  destruct (n =? Ps);
    [|destruct (n =? Pq); [by apply finish_select_skip|done]].
  destruct (tos p) as [|i]; [done|].
  change (Parser.tokens (skip_parser k p)) with (Parser.tokens p).
  destruct (deref (Parser.tokens p) i) as [t| |]; [|done..]. cbn.
  destruct (negb (is_container t)).
  - rewrite finish_token_skip by done.
    destruct (finish_token p (At i) false) as [q| |]; [|done..]. cbn.
    change (Parser.tokens (skip_parser k q)) with (Parser.tokens q).
    by destruct (select_state _ _ _ _ _ _).
  - cbn. change (Parser.tokens (skip_parser k p)) with (Parser.tokens p).
    by destruct (select_state _ _ _ _ _ _).
Qed.

Lemma dispatch_skip p c :
  slices_inv mem J p →
  dispatch (skip_parser k p) c = skip_parser k <$> dispatch p c.
Proof.
  intros Hp. unfold dispatch.
  change (Parser.state (skip_parser k p)) with (Parser.state p).
  destruct (lookup_state (Parser.state p) c); [|done..]. cbn.
  by apply perform_skip.
Qed.

Lemma get_byte_skip p :
  slices_inv mem J p →
  MuStr.mu_str_get_byte mem (Parser.json (skip_parser k p))
    (Parser.char_pos (skip_parser k p))
  = MuStr.mu_str_get_byte mem (Parser.json p) (Parser.char_pos p).
Proof.
  intros (Hj & Hcp & _). unfold MuStr.mu_str_get_byte. cbn.
  set (cp := Parser.char_pos p) in *.
  set (len := MuStr.length (Parser.json p)).
  assert ((cp + k <? 0) || (cp + k >=? len + k)
          = (cp <? 0) || (cp >=? len)) as ->.
  { rewrite !Z.geb_leb.
    destruct (Z.ltb_spec (cp + k) 0), (Z.leb_spec (len + k) (cp + k)),
      (Z.ltb_spec cp 0), (Z.leb_spec len cp); try lia; reflexivity. }
  destruct (_ || _); [done|].
  replace (MuStr.buf (Parser.json p) - k + (cp + k))
    with (MuStr.buf (Parser.json p) + cp) by lia.
  done.
Qed.

Lemma parse_loop_skip fuel p :
  slices_inv mem J p →
  parse_loop mem fuel (skip_parser k p)
  = skip_parser k <$> parse_loop mem fuel p.
Proof.
  assert (MuStr.length J < MuStr.MU_STR_END) as HJ' by lia.
  revert p. induction fuel as [|fuel IH]; intros p Hp; [done|].
  rewrite !parse_loop_S.
  change (Parser.error (skip_parser k p)) with (Parser.error p).
  destruct (negb _); [done|].
  rewrite get_byte_skip by done.
  destruct (MuStr.mu_str_get_byte _ _ _) as [[ch|]| |] eqn:Hb; cbn;
    try done.
  - destruct (_ <? 0); [done|]. rewrite dispatch_skip by done.
    destruct (dispatch p (classify_char ch)) as [q| |] eqn:Hd; cbn;
      try done.
    rewrite advance_skip. apply IH.
    by apply (dispatch_slices mem J p (Some ch)).
  - rewrite dispatch_skip by done.
    destruct (dispatch p C_SPACE) as [q| |]; cbn; try done.
    by rewrite advance_skip.
Qed.

Lemma endgame_skip p :
  slices_inv mem J p → endgame (skip_parser k p) = endgame p.
Proof.
  intros Hp. pose proof Hp as (Hj & Hcp & Hall).
  assert (MuStr.length J < MuStr.MU_STR_END) as HJ' by lia.
  unfold endgame.
  change (Parser.error (skip_parser k p)) with (Parser.error p).
  change (Parser.depth (skip_parser k p)) with (Parser.depth p).
  change (Parser.state (skip_parser k p)) with (Parser.state p).
  repeat (destruct (negb _); [done|]).
  change (tos (skip_parser k p)) with (tos p).
  destruct (tos p) as [|i] eqn:Htos; [done|].
  change (Parser.tokens (skip_parser k p)) with (Parser.tokens p).
  destruct (deref (Parser.tokens p) i) as [t| |] eqn:Ht; [|done..]. cbn.
  apply deref_Done in Ht.
  set (p1 := Parser.with_tokens p _).
  change (Parser.with_tokens (skip_parser k p) _) with (skip_parser k p1).
  change (tos (skip_parser k p1)) with (tos p1).
  destruct (mu_json_token_root _ (tos p1)) as [root| |]; [|done..]. cbn.
  rewrite finish_token_skip.
  - by destruct (finish_token p1 root false).
  - split_and!; [done..|]. cbn. apply Forall_insert; [done|].
    pose proof (proj1 (Forall_lookup _ _) Hall i t Ht)
      as ((H4 & H4') & H5 & H6 & H7).
    unfold slice_inv. rewrite token_is_sealed_set_last. cbn.
    by split_and!.
Qed.

End Skipped.

(** X21. White space before the text is skipped: for a buffer shorter than
    [INT_MAX] bytes that starts with spaces, tabs, line feeds and carriage
    returns, [mu_json_parse_buffer] returns what it returns without them,
    with every slice moved by their number. *)
Theorem X21_leading_whitespace max_tokens ws buf :
  Forall (fun b => is_whitespace b = true) ws →
  Z.of_nat (length (ws ++ buf)) < MuStr.MU_STR_END →
  mu_json_parse_buffer max_tokens (ws ++ buf)
  = move_result (Z.of_nat (length ws)) <$> mu_json_parse_buffer max_tokens buf.
Proof.
  intros Hws Hlen. unfold mu_json_parse_buffer, MuStr.mu_str_init.
  set (mem := ws ++ buf) in *. set (k := length ws). set (L := length buf).
  assert (length mem = (k + L)%nat) as Hmem by apply length_app.
  rewrite Hmem in Hlen.
  set (J := MuStr.mk (Z.of_nat k) (Z.of_nat L)).
  assert (slices_inv mem J (parser_init J max_tokens)) as Hinit.
  { split_and!; [done|done|constructor]. }
  transitivity (parse mem max_tokens J).
  - unfold parse.
    replace (parse_fuel (MuStr.mk 0 (Z.of_nat (length mem))))
      with (k + parse_fuel J)%nat
      by (unfold parse_fuel, J; cbn [MuStr.length]; lia).
    rewrite (parse_loop_run mem k _ _ GO); try done.
    + replace (Parser.with_char_pos _ _)
        with (skip_parser (Z.of_nat k) (parser_init J max_tokens)).
      2:{ unfold skip_parser, parser_init, Parser.with_char_pos. cbn.
          rewrite Hmem. do 2 f_equal; lia. }
      rewrite (parse_loop_skip mem J) by (done || cbn; lia).
      destruct (parse_loop mem (parse_fuel J) (parser_init J max_tokens))
        as [p| |] eqn:Hp; [|done..]. cbn.
      apply (endgame_skip mem J); [lia|cbn; lia|].
      apply (parse_loop_slices mem J) in Hp; [done| |done].
      cbn. unfold MuStr.MU_STR_END in *. lia.
    + intros i b Hi Hb. apply is_whitespace_GO. cbn in Hi.
      subst mem. rewrite lookup_app_l in Hb by (fold k; lia).
      by eapply (proj1 (Forall_lookup _ _) Hws).
    + cbn. lia.
  - change J with (move_str (Z.of_nat k) (MuStr.mk 0 (Z.of_nat L))).
    rewrite parse_move by (done || lia). f_equal.
    subst mem k. by rewrite Nat2Z.id, drop_app_length.
Qed.

Lemma X21_leading_whitespace_witness :
  mu_json_parse_buffer 3 ([x20; x0a; x09] ++ nested_input)
  = move_result (Z.of_nat (length [x20; x0a; x09]))
      <$> mu_json_parse_buffer 3 nested_input.
Proof.
  apply (X21_leading_whitespace 3 [x20; x0a; x09] nested_input).
  - repeat constructor.
  - vm_compute. reflexivity.
Defined.

(** ** mu_str.c: views and the bytes they cover *)

Lemma size_t_of_int_id z :
  0 ≤ z ≤ MuStr.MU_STR_END → size_t_of_int z = z.
Proof.
  unfold size_t_of_int, MuStr.MU_STR_END. intros Hz.
  apply Z.mod_small. lia.
Qed.

Lemma int_of_size_t_id z :
  0 ≤ z ≤ MuStr.MU_STR_END → int_of_size_t z = z.
Proof.
  unfold int_of_size_t, MuStr.MU_STR_END. intros Hz.
  rewrite Z.mod_small; lia.
Qed.

Lemma slice_bytes_length mem s :
  in_memory mem s → length (slice_bytes mem s) = Z.to_nat (MuStr.length s).
Proof.
  intros (Hb & Hl & Hm). unfold slice_bytes.
  rewrite length_take, length_drop. lia.
Qed.

(** The byte at the index [i] of a view that lies in the memory. *)
Lemma load_slice_bytes mem s (i : nat) b :
  0 ≤ MuStr.buf s →
  slice_bytes mem s !! i = Some b →
  load mem (MuStr.buf s + Z.of_nat i) = Done b.
Proof.
  intros Hb Hi. unfold slice_bytes in Hi.
  apply lookup_take_Some in Hi as [Hi _]. rewrite lookup_drop in Hi.
  unfold load. destruct (_ <? 0) eqn:E; [ztests; lia|].
  replace (Z.to_nat (MuStr.buf s + Z.of_nat i))
    with (Z.to_nat (MuStr.buf s) + i)%nat by lia.
  by rewrite Hi.
Qed.

(** X22. [mu_str_split] at an index not below minus the length of the
    source returns the two slices [mu_str_slice src 0 index] and
    [mu_str_slice src index MU_STR_END], and the bytes of the two views,
    one after the other, are the bytes of the source. *)
Theorem X22_split_is_two_slices mem src index :
  0 ≤ MuStr.buf src →
  0 ≤ MuStr.length src ≤ MuStr.MU_STR_END →
  - MuStr.length src ≤ index →
  mu_str_split src index
  = (MuStr.mu_str_slice src 0 index,
     MuStr.mu_str_slice src index MuStr.MU_STR_END) ∧
  slice_bytes mem (mu_str_split src index).1
  ++ slice_bytes mem (mu_str_split src index).2
  = slice_bytes mem src.
Proof.
  intros Hb Hlen Hi.
  assert (∃ k, 0 ≤ k ≤ MuStr.length src ∧
               mu_str_split src index
               = (MuStr.mk (MuStr.buf src) k,
                  MuStr.mk (MuStr.buf src + k) (MuStr.length src - k)) ∧
               MuStr.mu_str_slice src 0 index = MuStr.mk (MuStr.buf src) k ∧
               MuStr.mu_str_slice src index MuStr.MU_STR_END
               = MuStr.mk (MuStr.buf src + k) (MuStr.length src - k))
    as (k & Hk & -> & -> & ->).
  { unfold mu_str_split, MuStr.mu_str_slice, MuStr.mu_str_init.
    destruct (index <? 0) eqn:E0; ztests.
    - exists (MuStr.length src + index). rewrite !size_t_of_int_id by lia.
      unfold MuStr.MU_STR_END in *.
      repeat (case_match; ztests; cbn); split_and!; try lia; try done;
        f_equal; lia.
    - destruct ((index >? MuStr.length src) || (index =? MuStr.MU_STR_END))
        eqn:E1.
      + exists (MuStr.length src). rewrite !size_t_of_int_id by lia.
        unfold MuStr.MU_STR_END in *.
        repeat (case_match; ztests; cbn); split_and!; try lia; try done;
          f_equal; lia.
      + exists index. ztests. rewrite !size_t_of_int_id by lia.
        unfold MuStr.MU_STR_END in *.
        repeat (case_match; ztests; cbn); split_and!; try lia; try done;
          f_equal; lia. }
  split; [done|]. cbn. unfold slice_bytes. cbn.
  replace (Z.to_nat (MuStr.buf src + k))
    with (Z.to_nat (MuStr.buf src) + Z.to_nat k)%nat by lia.
  rewrite <- drop_drop, take_take_drop. f_equal. lia.
Qed.

Lemma X22_split_is_two_slices_witness :
  mu_str_split (MuStr.mk 1 35) (-5)
  = (MuStr.mu_str_slice (MuStr.mk 1 35) 0 (-5),
     MuStr.mu_str_slice (MuStr.mk 1 35) (-5) MuStr.MU_STR_END) ∧
  slice_bytes S1_input (mu_str_split (MuStr.mk 1 35) (-5)).1
  ++ slice_bytes S1_input (mu_str_split (MuStr.mk 1 35) (-5)).2
  = slice_bytes S1_input (MuStr.mk 1 35).
Proof.
  apply (X22_split_is_two_slices S1_input (MuStr.mk 1 35) (-5)).
  - vm_compute. discriminate.
  - vm_compute. split; discriminate.
  - vm_compute. discriminate.
Defined.

(** ** mu_str.c: comparison *)

Lemma byte_val_inj x y : byte_val x = byte_val y → x = y.
Proof.
  unfold byte_val. intros H. apply N2Z.inj in H.
  pose proof (Byte.of_to_N x) as Hx. rewrite H, Byte.of_to_N in Hx.
  congruence.
Qed.

Lemma str_compare_loop_spec mem b1 b2 (l1 l2 : list byte) n i :
  (∀ j b, l1 !! j = Some b → load mem (b1 + Z.of_nat j) = Done b) →
  (∀ j b, l2 !! j = Some b → load mem (b2 + Z.of_nat j) = Done b) →
  (i + n ≤ length l1)%nat → (i + n ≤ length l2)%nat →
  (str_compare_loop mem b1 b2 (Z.of_nat i) n = Done None ∧
   str_compare_loop mem b2 b1 (Z.of_nat i) n = Done None ∧
   take n (drop i l1) = take n (drop i l2)) ∨
  (∃ d, d ≠ 0 ∧
        str_compare_loop mem b1 b2 (Z.of_nat i) n = Done (Some d) ∧
        str_compare_loop mem b2 b1 (Z.of_nat i) n = Done (Some (- d)) ∧
        take n (drop i l1) ≠ take n (drop i l2)).
Proof.
  intros H1 H2. revert i. induction n as [|n IH]; intros i Hl1 Hl2.
  { left. by rewrite !take_0. }
  destruct (lookup_lt_is_Some_2 l1 i) as [x1 Hx1]; [lia|].
  destruct (lookup_lt_is_Some_2 l2 i) as [x2 Hx2]; [lia|].
  cbn [str_compare_loop].
  rewrite (H1 _ _ Hx1), (H2 _ _ Hx2). cbn.
  rewrite (drop_S _ _ _ Hx1), (drop_S _ _ _ Hx2). cbn [take].
  destruct (byte_val x2 - byte_val x1 =? 0) eqn:E; ztests.
  - assert (x1 = x2) as -> by (apply byte_val_inj; lia).
    rewrite Z.sub_diag. cbn.
    replace (Z.of_nat i + 1) with (Z.of_nat (S i)) by lia.
    destruct (IH (S i)) as [(Ha & Hb & Hc)|(d & Hd & Ha & Hb & Hc)];
      [lia|lia| |].
    + left. rewrite Ha, Hb, Hc. done.
    + right. exists d. rewrite Ha, Hb. split_and!; try done.
      intros [= E']. done.
  - right. exists (byte_val x2 - byte_val x1). cbn.
    destruct (byte_val x1 - byte_val x2 =? 0) eqn:E'; ztests; [lia|]. cbn.
    split_and!; try done.
    + do 2 f_equal. lia.
    + intros [= ->]. lia.
Qed.

(** X23. For two views of at most [INT_MAX] bytes that lie in the memory
    [mu_str_compare] returns 0 exactly when they cover the same bytes, and
    exchanging the two views negates the result. *)
Theorem X23_compare mem s1 s2 :
  in_memory mem s1 → in_memory mem s2 →
  MuStr.length s1 ≤ MuStr.MU_STR_END → MuStr.length s2 ≤ MuStr.MU_STR_END →
  ∃ r, mu_str_compare mem s1 s2 = Done r ∧
       mu_str_compare mem s2 s1 = Done (- r) ∧
       (r = 0 ↔ slice_bytes mem s1 = slice_bytes mem s2).
Proof.
  intros Hm1 Hm2 Hmax1 Hmax2.
  pose proof (slice_bytes_length _ _ Hm1) as Hl1.
  pose proof (slice_bytes_length _ _ Hm2) as Hl2.
  destruct Hm1 as (Hb1 & Hn1 & _), Hm2 as (Hb2 & Hn2 & _).
  unfold mu_str_compare, str_compare_aux.
  rewrite !int_of_size_t_id by done.
  set (len1 := MuStr.length s1) in *. set (len2 := MuStr.length s2) in *.
  assert (∀ r, - MuStr.MU_STR_END ≤ r ≤ MuStr.MU_STR_END →
               (- 2 ^ 31 <=? r) && (r <=? 2 ^ 31 - 1) = true) as Hint.
  { unfold MuStr.MU_STR_END. intros r Hr.
    apply andb_true_iff. split; apply Z.leb_le; lia. }
  set (l1 := slice_bytes mem s1) in *. set (l2 := slice_bytes mem s2) in *.
  assert ((if len2 <? len1 then len2 else len1)
          = (if len1 <? len2 then len1 else len2)) as ->.
  { destruct (Z.ltb_spec len2 len1), (Z.ltb_spec len1 len2); lia. }
  set (n := Z.to_nat (if len1 <? len2 then len1 else len2)).
  assert (n = Nat.min (length l1) (length l2)) as Hn.
  { subst n. destruct (Z.ltb_spec len1 len2); lia. }
  destruct (str_compare_loop_spec mem (MuStr.buf s1) (MuStr.buf s2) l1 l2
              n 0) as [(Ha & Hb & Hc)|(d & Hd & Ha & Hb & Hc)].
  - intros j b. by apply load_slice_bytes.
  - intros j b. by apply load_slice_bytes.
  - lia.
  - lia.
  - change (Z.of_nat 0) with 0 in *. rewrite Ha, Hb.
    cbn [mbind outcome_bind]. rewrite !Hint by lia.
    exists (len2 - len1). split_and!; [done|f_equal; lia|].
    rewrite !drop_0 in Hc. split.
    + intros E. assert (length l1 = length l2) as El by lia.
      rewrite <- (take_ge l1 n), <- (take_ge l2 n) by lia. done.
    + intros E. rewrite E in Hl1. lia.
  - change (Z.of_nat 0) with 0 in *. rewrite Ha, Hb. cbn.
    exists d. split_and!; [done|done|].
    split; [done|]. intros E. rewrite !drop_0, E in Hc. done.
Qed.

Lemma X23_compare_witness :
  ∃ r, mu_str_compare S1_input (MuStr.mk 2 3) (MuStr.mk 11 3) = Done r ∧
       mu_str_compare S1_input (MuStr.mk 11 3) (MuStr.mk 2 3) = Done (- r) ∧
       (r = 0 ↔ slice_bytes S1_input (MuStr.mk 2 3)
                = slice_bytes S1_input (MuStr.mk 11 3)).
Proof.
  apply (X23_compare S1_input (MuStr.mk 2 3) (MuStr.mk 11 3)).
  - vm_compute. split_and!; discriminate.
  - vm_compute. split_and!; discriminate.
  - vm_compute. discriminate.
  - vm_compute. discriminate.
Defined.

(** ** mu_str.c: searching *)

Lemma find_loop_spec mem s f m (l : list byte) n i :
  (∀ j b, l !! j = Some b → load mem (s + Z.of_nat j) = Done b) →
  (i + n ≤ length l)%nat →
  (find_loop mem s f m (Z.of_nat i) n = Done MU_STR_NOT_FOUND ∧
   ∀ j b, (i ≤ j < i + n)%nat → l !! j = Some b → f b ≠ m) ∨
  (∃ k b, (i ≤ k < i + n)%nat ∧
          find_loop mem s f m (Z.of_nat i) n = Done (Z.of_nat k) ∧
          l !! k = Some b ∧ f b = m ∧
          ∀ j b', (i ≤ j < k)%nat → l !! j = Some b' → f b' ≠ m).
Proof.
  intros Hload. revert i. induction n as [|n IH]; intros i Hl.
  { left. split; [done|]. intros j b Hj. lia. }
  destruct (lookup_lt_is_Some_2 l i) as [x Hx]; [lia|].
  cbn [find_loop]. rewrite (Hload _ _ Hx). cbn.
  destruct (Bool.eqb (f x) m) eqn:E.
  - apply Bool.eqb_prop in E. right. exists i, x.
    split_and!; [lia|lia|done|done|done|]. intros j b' Hj. lia.
  - apply Bool.eqb_false_iff in E.
    replace (Z.of_nat i + 1) with (Z.of_nat (S i)) by lia.
    destruct (IH (S i)) as [(Ha & Hb)|(k & b & Hk & Ha & Hb & Hc & Hd)];
      [lia| |].
    + left. split; [done|]. intros j b Hj Hjb.
      destruct (decide (j = i)) as [->|]; [by simplify_eq|].
      apply (Hb j); [lia|done].
    + right. exists k, b. split_and!; [lia|lia|done|done|done|].
      intros j b' Hj Hjb.
      destruct (decide (j = i)) as [->|]; [by simplify_eq|].
      apply (Hd j); [lia|done].
Qed.

Lemma rfind_loop_spec mem s f m (l : list byte) n :
  (∀ j b, l !! j = Some b → load mem (s + Z.of_nat j) = Done b) →
  (n ≤ length l)%nat →
  (rfind_loop mem s f m n = Done MU_STR_NOT_FOUND ∧
   ∀ j b, (j < n)%nat → l !! j = Some b → f b ≠ m) ∨
  (∃ k b, (k < n)%nat ∧
          rfind_loop mem s f m n = Done (Z.of_nat k) ∧
          l !! k = Some b ∧ f b = m ∧
          ∀ j b', (k < j < n)%nat → l !! j = Some b' → f b' ≠ m).
Proof.
  intros Hload. induction n as [|n IH]; intros Hl.
  { left. split; [done|]. intros j b Hj. lia. }
  destruct (lookup_lt_is_Some_2 l n) as [x Hx]; [lia|].
  cbn [rfind_loop]. rewrite (Hload _ _ Hx). cbn.
  destruct (Bool.eqb (f x) m) eqn:E.
  - apply Bool.eqb_prop in E. right. exists n, x.
    split_and!; [lia|done|done|done|]. intros j b' Hj. lia.
  - apply Bool.eqb_false_iff in E.
    destruct IH as [(Ha & Hb)|(k & b & Hk & Ha & Hb & Hc & Hd)]; [lia| |].
    + left. split; [done|]. intros j b Hj Hjb.
      destruct (decide (j = n)) as [->|]; [by simplify_eq|].
      apply (Hb j); [lia|done].
    + right. exists k, b. split_and!; [lia|done|done|done|].
      intros j b' Hj Hjb.
      destruct (decide (j = n)) as [->|]; [by simplify_eq|].
      apply (Hd j); [lia|done].
Qed.

Lemma memchr_loop_spec mem s c (l : list byte) n i :
  (∀ j b, l !! j = Some b → load mem (s + Z.of_nat j) = Done b) →
  (i + n ≤ length l)%nat →
  (memchr_loop mem s c (Z.of_nat i) n = Done None ∧
   ∀ j, (i ≤ j < i + n)%nat → l !! j ≠ Some c) ∨
  (∃ k, (i ≤ k < i + n)%nat ∧
        memchr_loop mem s c (Z.of_nat i) n = Done (Some (Z.of_nat k)) ∧
        l !! k = Some c ∧
        ∀ j, (i ≤ j < k)%nat → l !! j ≠ Some c).
Proof.
  intros Hload. revert i. induction n as [|n IH]; intros i Hl.
  { left. split; [done|]. intros j Hj. lia. }
  destruct (lookup_lt_is_Some_2 l i) as [x Hx]; [lia|].
  cbn [memchr_loop]. rewrite (Hload _ _ Hx). cbn.
  destruct (Byte.eqb x c) eqn:E.
  - apply Byte.byte_dec_bl in E as ->. right. exists i.
    split_and!; [lia|lia|done|done|]. intros j Hj. lia.
  - apply Byte.eqb_false in E.
    replace (Z.of_nat i + 1) with (Z.of_nat (S i)) by lia.
    destruct (IH (S i)) as [(Ha & Hb)|(k & Hk & Ha & Hb & Hc)]; [lia| |].
    + left. split; [done|]. intros j Hj.
      destruct (decide (j = i)) as [->|]; [congruence|].
      apply Hb. lia.
    + right. exists k. split_and!; [lia|lia|done|done|].
      intros j Hj.
      destruct (decide (j = i)) as [->|]; [congruence|].
      apply Hc. lia.
Qed.

Lemma memrchr_loop_spec mem s c (l : list byte) n :
  (∀ j b, l !! j = Some b → load mem (s + Z.of_nat j) = Done b) →
  (n ≤ length l)%nat →
  (memrchr_loop mem s c n = Done None ∧
   ∀ j, (j < n)%nat → l !! j ≠ Some c) ∨
  (∃ k, (k < n)%nat ∧
        memrchr_loop mem s c n = Done (Some (Z.of_nat k)) ∧
        l !! k = Some c ∧
        ∀ j, (k < j < n)%nat → l !! j ≠ Some c).
Proof.
  intros Hload. induction n as [|n IH]; intros Hl.
  { left. split; [done|]. intros j Hj. lia. }
  destruct (lookup_lt_is_Some_2 l n) as [x Hx]; [lia|].
  cbn [memrchr_loop]. rewrite (Hload _ _ Hx). cbn.
  destruct (Byte.eqb x c) eqn:E.
  - apply Byte.byte_dec_bl in E as ->. right. exists n.
    split_and!; [lia|done|done|]. intros j Hj. lia.
  - apply Byte.eqb_false in E.
    destruct IH as [(Ha & Hb)|(k & Hk & Ha & Hb & Hc)]; [lia| |].
    + left. split; [done|]. intros j Hj.
      destruct (decide (j = n)) as [->|]; [congruence|].
      apply Hb. lia.
    + right. exists k. split_and!; [lia|done|done|].
      intros j Hj.
      destruct (decide (j = n)) as [->|]; [congruence|].
      apply Hc. lia.
Qed.

(** X24. For a view that lies in the memory [mu_str_find_byte] returns the
    index of the first byte of the view equal to the byte asked for, and
    [mu_str_rfind_byte] the index of the last one; both return
    [MU_STR_NOT_FOUND] when the view does not hold the byte. *)
Theorem X24_find_byte mem s c :
  in_memory mem s → MuStr.length s ≤ MU_STR_NOT_FOUND →
  (∃ r, mu_str_find_byte mem s c = Done r ∧
        (r = MU_STR_NOT_FOUND ∧ c ∉ slice_bytes mem s ∨
         0 ≤ r < MuStr.length s ∧
         slice_bytes mem s !! Z.to_nat r = Some c ∧
         ∀ j, (j < Z.to_nat r)%nat → slice_bytes mem s !! j ≠ Some c)) ∧
  (∃ r, mu_str_rfind_byte mem s c = Done r ∧
        (r = MU_STR_NOT_FOUND ∧ c ∉ slice_bytes mem s ∨
         0 ≤ r < MuStr.length s ∧
         slice_bytes mem s !! Z.to_nat r = Some c ∧
         ∀ j, (Z.to_nat r < j)%nat → slice_bytes mem s !! j ≠ Some c)).
Proof.
  intros Hm Hlen. pose proof (slice_bytes_length _ _ Hm) as Hl.
  destruct Hm as (Hb & Hn & _).
  set (l := slice_bytes mem s) in *.
  assert (∀ j b, l !! j = Some b →
                 load mem (MuStr.buf s + Z.of_nat j) = Done b) as Hload.
  { intros j b. by apply load_slice_bytes. }
  split.
  - unfold mu_str_find_byte, memchr.
    destruct (memchr_loop_spec mem (MuStr.buf s) c l
                (Z.to_nat (MuStr.length s)) 0 Hload)
      as [(Ha & Hnone)|(k & Hk & Ha & Hkc & Hfirst)]; [lia| |];
      change (Z.of_nat 0) with 0 in Ha; rewrite Ha; cbn.
    + eexists. split; [done|]. left. split; [done|].
      intros (j & Hj)%list_elem_of_lookup.
      apply (Hnone j); [|done]. apply lookup_lt_Some in Hj. lia.
    + eexists. split; [done|]. right. rewrite Nat2Z.id.
      split_and!; [lia|lia|done|]. intros j Hj. apply Hfirst. lia.
  - unfold mu_str_rfind_byte, memrchr.
    destruct (memrchr_loop_spec mem (MuStr.buf s) c l
                (Z.to_nat (MuStr.length s)) Hload)
      as [(Ha & Hnone)|(k & Hk & Ha & Hkc & Hlast)]; [lia| |];
      rewrite Ha; cbn.
    + eexists. split; [done|]. left. split; [done|].
      intros (j & Hj)%list_elem_of_lookup.
      apply (Hnone j); [|done]. apply lookup_lt_Some in Hj. lia.
    + eexists. split; [done|]. right. rewrite Nat2Z.id.
      split_and!; [lia|lia|done|]. intros j Hj.
      destruct (decide (j < length l)%nat).
      * apply Hlast. lia.
      * rewrite lookup_ge_None_2 by lia. done.
Qed.

Lemma X24_find_byte_witness :
  (∃ r, mu_str_find_byte S1_input (MuStr.mk 1 35) x22 = Done r ∧
        (r = MU_STR_NOT_FOUND ∧ x22 ∉ slice_bytes S1_input (MuStr.mk 1 35) ∨
         0 ≤ r < MuStr.length (MuStr.mk 1 35) ∧
         slice_bytes S1_input (MuStr.mk 1 35) !! Z.to_nat r = Some x22 ∧
         ∀ j, (j < Z.to_nat r)%nat →
              slice_bytes S1_input (MuStr.mk 1 35) !! j ≠ Some x22)) ∧
  (∃ r, mu_str_rfind_byte S1_input (MuStr.mk 1 35) x22 = Done r ∧
        (r = MU_STR_NOT_FOUND ∧ x22 ∉ slice_bytes S1_input (MuStr.mk 1 35) ∨
         0 ≤ r < MuStr.length (MuStr.mk 1 35) ∧
         slice_bytes S1_input (MuStr.mk 1 35) !! Z.to_nat r = Some x22 ∧
         ∀ j, (Z.to_nat r < j)%nat →
              slice_bytes S1_input (MuStr.mk 1 35) !! j ≠ Some x22)).
Proof.
  apply (X24_find_byte S1_input (MuStr.mk 1 35) x22).
  - vm_compute. split_and!; discriminate.
  - vm_compute. discriminate.
Defined.

(** ** mu_str.c: trimming *)

Lemma not_false_true (b : bool) : b ≠ false → b = true.
Proof. by destruct b. Qed.

Lemma mu_str_ltrim_spec mem str f :
  in_memory mem str → MuStr.length str ≤ MuStr.MU_STR_END →
  ∃ r k, mu_str_ltrim mem str f = Done r ∧ in_memory mem r ∧
         MuStr.length r ≤ MuStr.length str ∧
         slice_bytes mem r = drop k (slice_bytes mem str) ∧
         Forall (fun b => f b = true) (take k (slice_bytes mem str)) ∧
         head_fails f (drop k (slice_bytes mem str)).
Proof.
  intros Hm Hlen. pose proof (slice_bytes_length _ _ Hm) as Hl.
  pose proof Hm as (Hb & Hn & Hmem).
  set (l := slice_bytes mem str) in *.
  assert (∀ j b, l !! j = Some b →
                 load mem (MuStr.buf str + Z.of_nat j) = Done b) as Hload.
  { intros j b. by apply load_slice_bytes. }
  unfold mu_str_ltrim, mu_str_find, find_aux.
  destruct (find_loop_spec mem (MuStr.buf str) f false l
              (Z.to_nat (MuStr.length str)) 0 Hload)
    as [(Ha & Hnone)|(k & b & Hk & Ha & Hkb & Hfb & Hfirst)]; [lia| |];
    change (Z.of_nat 0) with 0 in Ha; rewrite Ha; cbn.
  - exists (MuStr.mu_str_slice str 0 0), (length l).
    rewrite (mu_str_slice_in_range str 0 0) by lia.
    split_and!; [done|split_and!; cbn; lia|cbn; lia| | |].
    + rewrite drop_all. unfold slice_bytes. cbn. by rewrite take_0.
    + rewrite take_ge by lia. apply Forall_lookup. intros j b Hj.
      apply not_false_true, (Hnone j); [|done].
      apply lookup_lt_Some in Hj. lia.
    + rewrite drop_all. by intros b.
  - destruct (Z.of_nat k =? MU_STR_NOT_FOUND) eqn:E.
    { ztests. unfold MU_STR_NOT_FOUND, MuStr.MU_STR_END in *. lia. }
    exists (MuStr.mu_str_slice str (Z.of_nat k) MuStr.MU_STR_END), k.
    assert (MuStr.mu_str_slice str (Z.of_nat k) MuStr.MU_STR_END
            = MuStr.mu_str_slice str (Z.of_nat k) (MuStr.length str)) as Hs.
    { unfold MuStr.mu_str_slice, MuStr.mu_str_init, MuStr.MU_STR_END in *.
      repeat (case_match; ztests; cbn); try lia; f_equal; lia. }
    split_and!; [done| | | | |].
    + rewrite Hs, mu_str_slice_in_range by lia. split_and!; cbn; lia.
    + rewrite Hs, mu_str_slice_in_range by lia. cbn. lia.
    + rewrite Hs, slice_bytes_mu_str_slice by lia. fold l.
      rewrite Nat2Z.id. apply take_ge. rewrite length_drop. lia.
    + apply Forall_lookup. intros j b' Hj.
      apply lookup_take_Some in Hj as [Hj Hjk].
      apply not_false_true, (Hfirst j); [lia|done].
    + intros b'. rewrite (drop_S _ _ _ Hkb). cbn. by intros [= <-].
Qed.

Lemma mu_str_rtrim_spec mem str f :
  in_memory mem str → MuStr.length str ≤ MuStr.MU_STR_END →
  ∃ r k, mu_str_rtrim mem str f = Done r ∧ in_memory mem r ∧
         slice_bytes mem r = take k (slice_bytes mem str) ∧
         Forall (fun b => f b = true) (drop k (slice_bytes mem str)) ∧
         last_fails f (take k (slice_bytes mem str)).
Proof.
  intros Hm Hlen. pose proof (slice_bytes_length _ _ Hm) as Hl.
  pose proof Hm as (Hb & Hn & Hmem).
  set (l := slice_bytes mem str) in *.
  assert (∀ j b, l !! j = Some b →
                 load mem (MuStr.buf str + Z.of_nat j) = Done b) as Hload.
  { intros j b. by apply load_slice_bytes. }
  unfold mu_str_rtrim, mu_str_rfind, rfind_aux.
  destruct (rfind_loop_spec mem (MuStr.buf str) f false l
              (Z.to_nat (MuStr.length str)) Hload)
    as [(Ha & Hnone)|(k & b & Hk & Ha & Hkb & Hfb & Hlast)]; [lia| |];
    rewrite Ha; cbn.
  - exists (MuStr.mu_str_slice str 0 0), 0%nat.
    rewrite (mu_str_slice_in_range str 0 0) by lia.
    split_and!; [done|split_and!; cbn; lia| | |].
    + unfold slice_bytes. cbn. by rewrite !take_0.
    + rewrite drop_0. apply Forall_lookup. intros j b Hj.
      apply not_false_true, (Hnone j); [|done].
      apply lookup_lt_Some in Hj. lia.
    + rewrite take_0. by intros b.
  - destruct (Z.of_nat k =? MU_STR_NOT_FOUND) eqn:E.
    { ztests. unfold MU_STR_NOT_FOUND, MuStr.MU_STR_END in *. lia. }
    exists (MuStr.mu_str_slice str 0 (Z.of_nat k + 1)), (S k).
    split_and!; [done| | | |].
    + rewrite mu_str_slice_in_range by lia. split_and!; cbn; lia.
    + rewrite slice_bytes_mu_str_slice by lia. fold l.
      rewrite drop_0. f_equal. lia.
    + apply Forall_lookup. intros j b' Hj. rewrite lookup_drop in Hj.
      apply not_false_true, (Hlast (S k + j)%nat); [|done].
      apply lookup_lt_Some in Hj. lia.
    + intros b'. rewrite (take_S_r _ _ _ Hkb), last_snoc. by intros [= <-].
Qed.

(** X25. For a view that lies in the memory [mu_str_trim] returns the view
    without its leading and trailing bytes that satisfy the predicate: the
    bytes removed at either end all satisfy it, and the first and the last
    byte of the result, if any, do not. *)
Theorem X25_trim mem str f :
  in_memory mem str → MuStr.length str ≤ MuStr.MU_STR_END →
  ∃ r pre post,
    mu_str_trim mem str f = Done r ∧
    slice_bytes mem str = pre ++ slice_bytes mem r ++ post ∧
    Forall (fun b => f b = true) pre ∧
    Forall (fun b => f b = true) post ∧
    head_fails f (slice_bytes mem r) ∧
    last_fails f (slice_bytes mem r).
Proof.
  intros Hm Hlen.
  destruct (mu_str_ltrim_spec mem str f Hm Hlen)
    as (r1 & k1 & Hl1 & Hm1 & Hlen1 & Hb1 & Hpre & Hhead).
  destruct (mu_str_rtrim_spec mem r1 f Hm1)
    as (r2 & k2 & Hl2 & Hm2 & Hb2 & Hpost & Hlast); [lia|].
  unfold mu_str_trim. rewrite Hl1. cbn. rewrite Hl2.
  set (l := slice_bytes mem str) in *.
  exists r2, (take k1 l), (drop k2 (drop k1 l)).
  rewrite Hb2, Hb1 in *.
  split_and!; [done| |done|done| |done].
  - by rewrite take_drop, take_drop.
  - intros b Hb. apply Hhead.
    destruct k2 as [|k2]; [by rewrite take_0 in Hb|].
    destruct (drop k1 l); [done|]. done.
Qed.

Lemma X25_trim_witness :
  ∃ r pre post,
    mu_str_trim S1_input (MuStr.mk 0 37) mu_str_is_whitespace = Done r ∧
    slice_bytes S1_input (MuStr.mk 0 37)
    = pre ++ slice_bytes S1_input r ++ post ∧
    Forall (fun b => mu_str_is_whitespace b = true) pre ∧
    Forall (fun b => mu_str_is_whitespace b = true) post ∧
    head_fails mu_str_is_whitespace (slice_bytes S1_input r) ∧
    last_fails mu_str_is_whitespace (slice_bytes S1_input r).
Proof.
  apply (X25_trim S1_input (MuStr.mk 0 37) mu_str_is_whitespace).
  - vm_compute. split_and!; discriminate.
  - vm_compute. discriminate.
Defined.

(** ** mu_str.c: numbers *)

Lemma decimal_step_mod (ds : list byte) a m :
  0 < m →
  fold_left (fun v b => v * 10 + (byte_val b - 48)) ds (a mod m) mod m
  = fold_left (fun v b => v * 10 + (byte_val b - 48)) ds a mod m.
Proof.
  intros Hm. revert a. induction ds as [|d ds IH]; intros a; cbn.
  - by rewrite Z.mod_mod by lia.
  - rewrite <- IH, <- (IH (a * 10 + _)). f_equal. f_equal.
    rewrite Z.add_mod, Z.mul_mod, Z.mod_mod by lia.
    by rewrite <- Z.mul_mod, <- Z.add_mod by lia.
Qed.

Lemma uint_parser_loop_spec w mem buf (ds rest : list byte) v :
  0 < w →
  (∀ j b, (ds ++ rest) !! j = Some b → load mem (buf + Z.of_nat j) = Done b) →
  Forall (fun b => mu_str_is_digit b = true) ds →
  head_fails mu_str_is_digit rest →
  0 ≤ v < 2 ^ w →
  uint_parser_loop w mem buf (length (ds ++ rest)) v
  = Done (fold_left (fun v b => v * 10 + (byte_val b - 48)) ds v mod 2 ^ w).
Proof.
  intros Hw Hload Hds Hrest. revert buf v Hload.
  induction Hds as [|d ds Hd Hds IH]; intros buf v Hload Hv.
  - cbn. rewrite Z.mod_small by done.
    destruct rest as [|b rest]; [done|]. cbn.
    assert (load mem buf = Done b) as ->.
    { rewrite <- (Hload 0%nat b eq_refl). f_equal. lia. }
    cbn. by rewrite (Hrest b eq_refl).
  - cbn [app length uint_parser_loop].
    assert (load mem buf = Done d) as ->.
    { rewrite <- (Hload 0%nat d eq_refl). f_equal. lia. }
    cbn [mbind outcome_bind]. rewrite Hd.
    rewrite IH.
    + cbn [fold_left]. f_equal. apply decimal_step_mod.
      apply Z.pow_pos_nonneg; lia.
    + intros j b Hj. specialize (Hload (S j) b Hj).
      rewrite <- Hload. f_equal. lia.
    + apply Z.mod_pos_bound. apply Z.pow_pos_nonneg; lia.
Qed.

Lemma uint_parser_spec w mem str ds rest :
  0 < w → in_memory mem str → MuStr.length str ≤ MuStr.MU_STR_END →
  slice_bytes mem str = ds ++ rest →
  Forall (fun b => mu_str_is_digit b = true) ds →
  head_fails mu_str_is_digit rest →
  uint_parser w mem str = Done (decimal_value ds mod 2 ^ w).
Proof.
  intros Hw Hm Hmax Hbytes Hds Hrest. unfold uint_parser, decimal_value.
  rewrite int_of_size_t_id by (destruct Hm as (_ & ? & _); done).
  rewrite <- (slice_bytes_length mem str Hm), Hbytes.
  destruct Hm as (Hb & _).
  apply uint_parser_loop_spec; try done.
  - intros j b Hj. rewrite <- Hbytes in Hj. by apply load_slice_bytes.
  - split; [done|]. apply Z.pow_pos_nonneg; lia.
Qed.

(** X26. On a view of at most [INT_MAX] bytes the parsers of unsigned
    numbers, [mu_str_parse_uint8], [mu_str_parse_uint16],
    [mu_str_parse_unsigned_int], [mu_str_parse_uint32] and
    [mu_str_parse_uint64], return the value of the decimal digits the view
    starts with, reduced modulo two to the power of the width of the
    type. *)
Theorem X26_parse_unsigned mem str ds rest :
  in_memory mem str → MuStr.length str ≤ MuStr.MU_STR_END →
  slice_bytes mem str = ds ++ rest →
  Forall (fun b => mu_str_is_digit b = true) ds →
  head_fails mu_str_is_digit rest →
  mu_str_parse_uint8 mem str = Done (decimal_value ds mod 2 ^ 8) ∧
  mu_str_parse_uint16 mem str = Done (decimal_value ds mod 2 ^ 16) ∧
  mu_str_parse_unsigned_int mem str = Done (decimal_value ds mod 2 ^ 32) ∧
  mu_str_parse_uint32 mem str = Done (decimal_value ds mod 2 ^ 32) ∧
  mu_str_parse_uint64 mem str = Done (decimal_value ds mod 2 ^ 64).
Proof.
  intros Hm Hmax Hbytes Hds Hrest.
  split_and!; by apply (uint_parser_spec _ mem str ds rest).
Qed.

Lemma X26_parse_unsigned_witness :
  mu_str_parse_uint8 S1_input (MuStr.mk 16 4)
  = Done (decimal_value [x32; x32; x32] mod 2 ^ 8) ∧
  mu_str_parse_uint16 S1_input (MuStr.mk 16 4)
  = Done (decimal_value [x32; x32; x32] mod 2 ^ 16) ∧
  mu_str_parse_unsigned_int S1_input (MuStr.mk 16 4)
  = Done (decimal_value [x32; x32; x32] mod 2 ^ 32) ∧
  mu_str_parse_uint32 S1_input (MuStr.mk 16 4)
  = Done (decimal_value [x32; x32; x32] mod 2 ^ 32) ∧
  mu_str_parse_uint64 S1_input (MuStr.mk 16 4)
  = Done (decimal_value [x32; x32; x32] mod 2 ^ 64).
Proof.
  apply (X26_parse_unsigned S1_input (MuStr.mk 16 4) [x32; x32; x32] [x2c]).
  - vm_compute. split_and!; discriminate.
  - vm_compute. discriminate.
  - vm_compute. reflexivity.
  - repeat constructor.
  - intros b [= <-]. reflexivity.
Defined.

Lemma hex_step_mod (ds : list byte) a m :
  0 < m →
  fold_left (fun v b => v * 16 + default 0 (hex_value b)) ds (a mod m) mod m
  = fold_left (fun v b => v * 16 + default 0 (hex_value b)) ds a mod m.
Proof.
  intros Hm. revert a. induction ds as [|d ds IH]; intros a; cbn.
  - by rewrite Z.mod_mod by lia.
  - rewrite <- IH, <- (IH (a * 16 + _)). f_equal. f_equal.
    rewrite Z.add_mod, Z.mul_mod, Z.mod_mod by lia.
    by rewrite <- Z.mul_mod, <- Z.add_mod by lia.
Qed.

Lemma parse_hex_loop_spec mem buf (ds rest : list byte) v :
  (∀ j b, (ds ++ rest) !! j = Some b → load mem (buf + Z.of_nat j) = Done b) →
  Forall (fun b => is_Some (hex_value b)) ds →
  (∀ b, head rest = Some b → hex_value b = None) →
  0 ≤ v < 2 ^ 32 →
  parse_hex_loop mem buf (length (ds ++ rest)) v
  = Done (fold_left (fun v b => v * 16 + default 0 (hex_value b)) ds v
          mod 2 ^ 32).
Proof.
  intros Hload Hds Hrest. revert buf v Hload.
  induction Hds as [|d ds Hd Hds IH]; intros buf v Hload Hv.
  - cbn. rewrite Z.mod_small by done.
    destruct rest as [|b rest]; [done|]. cbn.
    assert (load mem buf = Done b) as ->.
    { rewrite <- (Hload 0%nat b eq_refl). f_equal. lia. }
    cbn. by rewrite (Hrest b eq_refl).
  - cbn [app length parse_hex_loop].
    assert (load mem buf = Done d) as ->.
    { rewrite <- (Hload 0%nat d eq_refl). f_equal. lia. }
    cbn [mbind outcome_bind]. destruct Hd as [x Hx]. rewrite Hx.
    rewrite IH.
    + cbn [fold_left]. rewrite Hx. cbn [default]. f_equal.
      rewrite Z.shiftl_mul_pow2 by lia. change (2 ^ 4) with 16.
      rewrite Z.add_mod_idemp_l by lia. apply hex_step_mod. lia.
    + intros j b Hj. specialize (Hload (S j) b Hj).
      rewrite <- Hload. f_equal. lia.
    + apply Z.mod_pos_bound. lia.
Qed.

(** X27. On a view of at most [INT_MAX] bytes [mu_str_parse_hex] returns
    the value of the hexadecimal digits the view starts with, reduced modulo
    [2 ^ 32]. *)
Theorem X27_parse_hex mem str ds rest :
  in_memory mem str → MuStr.length str ≤ MuStr.MU_STR_END →
  slice_bytes mem str = ds ++ rest →
  Forall (fun b => mu_str_is_hex b = true) ds →
  head_fails mu_str_is_hex rest →
  mu_str_parse_hex mem str = Done (hex_number ds mod 2 ^ 32).
Proof.
  intros Hm Hmax Hbytes Hds Hrest. unfold mu_str_parse_hex, hex_number.
  rewrite int_of_size_t_id by (destruct Hm as (_ & ? & _); done).
  rewrite <- (slice_bytes_length mem str Hm), Hbytes.
  destruct Hm as (Hb & _).
  assert (∀ b, is_Some (hex_value b) ↔ mu_str_is_hex b = true) as Hhex.
  { intros b. unfold hex_value, mu_str_is_hex.
    destruct (_ && _); [by split; eauto|].
    destruct (_ && _); [by split; eauto|].
    destruct (_ && _); [by split; eauto|].
    split; [by intros [? ?]|done]. }
  apply parse_hex_loop_spec; try done.
  - intros j b Hj. rewrite <- Hbytes in Hj. by apply load_slice_bytes.
  - eapply Forall_impl; [done|]. intros b. apply Hhex.
  - intros b Hb'. specialize (Hrest b Hb').
    destruct (hex_value b) eqn:E; [|done].
    assert (mu_str_is_hex b = true) by (apply Hhex; eauto). congruence.
Qed.

Lemma X27_parse_hex_witness :
  mu_str_parse_hex [x31; x61; x46; x67] (MuStr.mk 0 4)
  = Done (hex_number [x31; x61; x46] mod 2 ^ 32).
Proof.
  apply (X27_parse_hex [x31; x61; x46; x67] (MuStr.mk 0 4)
           [x31; x61; x46] [x67]).
  - vm_compute. split_and!; discriminate.
  - vm_compute. discriminate.
  - vm_compute. reflexivity.
  - repeat constructor.
  - intros b [= <-]. reflexivity.
Defined.

(** ** mu_str.c: signed numbers *)

Lemma digit_value b :
  mu_str_is_digit b = true → 0 ≤ byte_val b - 48 ≤ 9.
Proof. unfold mu_str_is_digit. intros H. ztests. lia. Qed.

Lemma decimal_fold_ge (ds : list byte) a :
  Forall (fun b => mu_str_is_digit b = true) ds → 0 ≤ a →
  a ≤ fold_left (fun v b => v * 10 + (byte_val b - 48)) ds a.
Proof.
  intros Hds. revert a. induction Hds as [|d ds Hd Hds IH]; intros a Ha; cbn.
  - lia.
  - apply digit_value in Hd. etrans; [|apply IH]; lia.
Qed.

Lemma narrow_id w z :
  0 < w → - 2 ^ (w - 1) ≤ z ≤ 2 ^ (w - 1) - 1 → narrow w z = z.
Proof.
  intros Hw Hz. unfold narrow.
  replace (2 ^ w) with (2 * 2 ^ (w - 1)).
  - rewrite Z.mod_small; lia.
  - rewrite <- Z.pow_succ_r by lia. f_equal. lia.
Qed.

Lemma narrow_mod w a b :
  0 < w → a mod 2 ^ w = b mod 2 ^ w → narrow w a = narrow w b.
Proof.
  intros Hw H. unfold narrow. f_equal.
  assert (0 < 2 ^ w) by (apply Z.pow_pos_nonneg; lia).
  by rewrite <- Z.add_mod_idemp_l, H, Z.add_mod_idemp_l by lia.
Qed.

Lemma narrow_mod_eq w a : 0 < w → narrow w a mod 2 ^ w = a mod 2 ^ w.
Proof.
  intros Hw. unfold narrow.
  assert (0 < 2 ^ w) by (apply Z.pow_pos_nonneg; lia).
  rewrite Zminus_mod_idemp_l. f_equal. lia.
Qed.

(** The loop for [int8_t] and [int16_t]. *)
Lemma int_parser_loop_narrow w mem buf (ds rest : list byte) v :
  0 < w < 32 →
  (∀ j b, (ds ++ rest) !! j = Some b → load mem (buf + Z.of_nat j) = Done b) →
  Forall (fun b => mu_str_is_digit b = true) ds →
  head_fails mu_str_is_digit rest →
  narrow w v = v →
  int_parser_loop w mem buf (length (ds ++ rest)) v
  = Done (narrow w
            (fold_left (fun v b => v * 10 + (byte_val b - 48)) ds v)).
Proof.
  intros Hw Hload Hds Hrest. revert buf v Hload.
  assert (0 < 2 ^ w) as Hm by (apply Z.pow_pos_nonneg; lia).
  induction Hds as [|d ds Hd Hds IH]; intros buf v Hload Hv.
  - cbn [fold_left]. rewrite Hv.
    destruct rest as [|b rest]; [done|]. cbn.
    assert (load mem buf = Done b) as ->.
    { rewrite <- (Hload 0%nat b eq_refl). f_equal. lia. }
    cbn. by rewrite (Hrest b eq_refl).
  - cbn [app length int_parser_loop].
    assert (load mem buf = Done d) as ->.
    { rewrite <- (Hload 0%nat d eq_refl). f_equal. lia. }
    cbn [mbind outcome_bind]. rewrite Hd.
    destruct (w <? 32) eqn:E; [|apply Z.ltb_ge in E; lia].
    rewrite IH.
    + cbn [fold_left]. f_equal. apply narrow_mod; [lia|].
      rewrite <- decimal_step_mod, narrow_mod_eq by lia.
      by rewrite decimal_step_mod.
    + intros j b Hj. specialize (Hload (S j) b Hj).
      rewrite <- Hload. f_equal. lia.
    + apply narrow_mod; [lia|]. apply narrow_mod_eq. lia.
Qed.

(** The loop for [int], [int32_t] and [int64_t]. *)
Lemma int_parser_loop_spec w mem buf (ds rest : list byte) v :
  32 ≤ w →
  (∀ j b, (ds ++ rest) !! j = Some b → load mem (buf + Z.of_nat j) = Done b) →
  Forall (fun b => mu_str_is_digit b = true) ds →
  head_fails mu_str_is_digit rest →
  0 ≤ v →
  fold_left (fun v b => v * 10 + (byte_val b - 48)) ds v ≤ 2 ^ (w - 1) - 1 →
  int_parser_loop w mem buf (length (ds ++ rest)) v
  = Done (fold_left (fun v b => v * 10 + (byte_val b - 48)) ds v).
Proof.
  intros Hw Hload Hds Hrest. revert buf v Hload.
  induction Hds as [|d ds Hd Hds IH]; intros buf v Hload Hv Hmax.
  - cbn. destruct rest as [|b rest]; [done|]. cbn.
    assert (load mem buf = Done b) as ->.
    { rewrite <- (Hload 0%nat b eq_refl). f_equal. lia. }
    cbn. by rewrite (Hrest b eq_refl).
  - cbn [app length int_parser_loop].
    assert (load mem buf = Done d) as ->.
    { rewrite <- (Hload 0%nat d eq_refl). f_equal. lia. }
    cbn [mbind outcome_bind]. rewrite Hd. cbn [fold_left] in Hmax |- *.
    pose proof (digit_value _ Hd) as Hdv.
    pose proof (decimal_fold_ge ds (v * 10 + (byte_val d - 48)) Hds) as Hge.
    destruct (w <? 32) eqn:E32; [apply Z.ltb_lt in E32; lia|].
    destruct (_ <=? _) eqn:E; [|apply Z.leb_gt in E; lia].
    apply IH; [|lia|done].
    intros j b Hj. specialize (Hload (S j) b Hj).
    rewrite <- Hload. f_equal. lia.
Qed.

(** What [int_parser] does before and after its loop: the loop runs on the
    digits and on what follows them, and the sign is applied to its
    result. *)
Lemma int_parser_sign w mem str negative ds rest :
  in_memory mem str → MuStr.length str ≤ MuStr.MU_STR_END →
  slice_bytes mem str = sign_bytes negative ++ ds ++ rest →
  (negative = false → head (ds ++ rest) ≠ Some x2d) →
  ∃ buf,
    (∀ j b, (ds ++ rest) !! j = Some b →
            load mem (buf + Z.of_nat j) = Done b) ∧
    int_parser w mem str
    = (v ← int_parser_loop w mem buf (length (ds ++ rest)) 0;
       Done (if negative then (if w <? 32 then narrow w (- v) else - v)
             else v)).
Proof.
  intros Hm Hmax Hbytes Hsign.
  pose proof (slice_bytes_length mem str Hm) as Hlen.
  pose proof Hm as (Hb & Hn & _).
  assert (∀ j b, slice_bytes mem str !! j = Some b →
                 load mem (MuStr.buf str + Z.of_nat j) = Done b) as Hload.
  { intros j b. by apply load_slice_bytes. }
  rewrite Hbytes in Hlen, Hload.
  unfold int_parser. rewrite int_of_size_t_id by done.
  destruct negative; cbn [sign_bytes app] in *.
  - cbn [length] in Hlen. exists (MuStr.buf str + 1). split.
    { intros j b Hj. rewrite <- (Hload (S j) b Hj). f_equal. lia. }
    destruct (MuStr.length str >=? 1) eqn:E; [|ztests; lia].
    assert (load mem (MuStr.buf str) = Done x2d) as ->.
    { rewrite <- (Hload 0%nat x2d eq_refl). f_equal. lia. }
    cbn.
    by replace (Z.to_nat (MuStr.length str - 1)) with (length (ds ++ rest))
      by lia.
  - exists (MuStr.buf str). split; [done|].
    assert ((if MuStr.length str >=? 1
             then b ← load mem (MuStr.buf str); Done (Byte.eqb b x2d)
             else Done false) = Done false) as ->.
    { destruct (MuStr.length str >=? 1) eqn:E; [|done]. ztests.
      destruct (ds ++ rest) as [|b l] eqn:El; [cbn in Hlen; lia|].
      assert (load mem (MuStr.buf str) = Done b) as ->.
      { rewrite <- (Hload 0%nat b eq_refl). f_equal. lia. }
      cbn. destruct (Byte.eqb b x2d) eqn:Eb; [|done].
      apply Byte.byte_dec_bl in Eb as ->. by destruct Hsign. }
    cbn. by rewrite <- Hlen.
Qed.

Lemma int_parser_narrow w mem str negative ds rest :
  0 < w < 32 →
  in_memory mem str → MuStr.length str ≤ MuStr.MU_STR_END →
  slice_bytes mem str = sign_bytes negative ++ ds ++ rest →
  Forall (fun b => mu_str_is_digit b = true) ds →
  head_fails mu_str_is_digit rest →
  (negative = false → head (ds ++ rest) ≠ Some x2d) →
  int_parser w mem str
  = Done (narrow w (if negative then - decimal_value ds
                    else decimal_value ds)).
Proof.
  intros Hw Hm Hmax Hbytes Hds Hrest Hsign.
  destruct (int_parser_sign w mem str negative ds rest)
    as (buf & Hload & ->); [done..|].
  rewrite (int_parser_loop_narrow w mem buf ds rest); [|done..|].
  - cbn [mbind outcome_bind]. fold (decimal_value ds).
    destruct (w <? 32) eqn:E; [|apply Z.ltb_ge in E; lia].
    destruct negative; [|done]. f_equal. apply narrow_mod; [lia|].
    change (- narrow w (decimal_value ds))
      with (0 - narrow w (decimal_value ds)).
    change (- decimal_value ds) with (0 - decimal_value ds).
    rewrite <- Zminus_mod_idemp_r, narrow_mod_eq by lia.
    by rewrite Zminus_mod_idemp_r.
  - apply narrow_id; [lia|]. split.
    + assert (0 < 2 ^ (w - 1)) by (apply Z.pow_pos_nonneg; lia). lia.
    + assert (2 ^ 0 ≤ 2 ^ (w - 1)) by (apply Z.pow_le_mono_r; lia).
      change (2 ^ 0) with 1 in *. lia.
Qed.

Lemma int_parser_spec w mem str negative ds rest :
  32 ≤ w →
  in_memory mem str → MuStr.length str ≤ MuStr.MU_STR_END →
  slice_bytes mem str = sign_bytes negative ++ ds ++ rest →
  Forall (fun b => mu_str_is_digit b = true) ds →
  head_fails mu_str_is_digit rest →
  (negative = false → head (ds ++ rest) ≠ Some x2d) →
  decimal_value ds ≤ 2 ^ (w - 1) - 1 →
  int_parser w mem str
  = Done (if negative then - decimal_value ds else decimal_value ds).
Proof.
  intros Hw Hm Hmax Hbytes Hds Hrest Hsign Hfit.
  destruct (int_parser_sign w mem str negative ds rest)
    as (buf & Hload & ->); [done..|].
  rewrite (int_parser_loop_spec w mem buf ds rest); [|done..].
  cbn [mbind outcome_bind]. fold (decimal_value ds).
  by destruct (w <? 32) eqn:E; [apply Z.ltb_lt in E; lia|].
Qed.

(** X28. On a view of at most [INT_MAX] bytes that starts with decimal
    digits, after a minus sign or not, the parsers of signed numbers return
    the value of the digits, negated after a minus sign:
    [mu_str_parse_int8] and [mu_str_parse_int16] return it as it is when it
    is a number of the type, -128 and -32768 included, and reduced into the
    type whenever it is not; [mu_str_parse_int], [mu_str_parse_int32] and
    [mu_str_parse_int64] return it as long as the value of the digits is at
    most the greatest number of the type. *)
Theorem X28_parse_signed mem str negative ds rest :
  in_memory mem str → MuStr.length str ≤ MuStr.MU_STR_END →
  slice_bytes mem str = sign_bytes negative ++ ds ++ rest →
  Forall (fun b => mu_str_is_digit b = true) ds →
  head_fails mu_str_is_digit rest →
  (negative = false → head (ds ++ rest) ≠ Some x2d) →
  let value := if negative then - decimal_value ds else decimal_value ds in
  mu_str_parse_int8 mem str = Done (narrow 8 value) ∧
  mu_str_parse_int16 mem str = Done (narrow 16 value) ∧
  (- 2 ^ 7 ≤ value ≤ 2 ^ 7 - 1 → mu_str_parse_int8 mem str = Done value) ∧
  (- 2 ^ 15 ≤ value ≤ 2 ^ 15 - 1 →
   mu_str_parse_int16 mem str = Done value) ∧
  (decimal_value ds ≤ 2 ^ 31 - 1 → mu_str_parse_int mem str = Done value) ∧
  (decimal_value ds ≤ 2 ^ 31 - 1 → mu_str_parse_int32 mem str = Done value) ∧
  (decimal_value ds ≤ 2 ^ 63 - 1 → mu_str_parse_int64 mem str = Done value).
Proof.
  intros Hm Hmax Hbytes Hds Hrest Hsign value.
  assert (mu_str_parse_int8 mem str = Done (narrow 8 value)) as H8.
  { by apply (int_parser_narrow 8 mem str negative ds rest). }
  assert (mu_str_parse_int16 mem str = Done (narrow 16 value)) as H16.
  { by apply (int_parser_narrow 16 mem str negative ds rest). }
  split_and!; [done|done| | |..].
  - intros Hfit. rewrite H8. f_equal. by apply narrow_id.
  - intros Hfit. rewrite H16. f_equal. by apply narrow_id.
  - intros Hfit. by apply (int_parser_spec 32 mem str negative ds rest).
  - intros Hfit. by apply (int_parser_spec 32 mem str negative ds rest).
  - intros Hfit. by apply (int_parser_spec 64 mem str negative ds rest).
Qed.

(** The view holds -128 and a space. *)
Lemma X28_parse_signed_witness :
  let value := - decimal_value [x31; x32; x38] in
  mu_str_parse_int8 [x2d; x31; x32; x38; x20] (MuStr.mk 0 5)
  = Done (narrow 8 value) ∧
  mu_str_parse_int16 [x2d; x31; x32; x38; x20] (MuStr.mk 0 5)
  = Done (narrow 16 value) ∧
  (- 2 ^ 7 ≤ value ≤ 2 ^ 7 - 1 →
   mu_str_parse_int8 [x2d; x31; x32; x38; x20] (MuStr.mk 0 5) = Done value) ∧
  (- 2 ^ 15 ≤ value ≤ 2 ^ 15 - 1 →
   mu_str_parse_int16 [x2d; x31; x32; x38; x20] (MuStr.mk 0 5)
   = Done value) ∧
  (decimal_value [x31; x32; x38] ≤ 2 ^ 31 - 1 →
   mu_str_parse_int [x2d; x31; x32; x38; x20] (MuStr.mk 0 5) = Done value) ∧
  (decimal_value [x31; x32; x38] ≤ 2 ^ 31 - 1 →
   mu_str_parse_int32 [x2d; x31; x32; x38; x20] (MuStr.mk 0 5)
   = Done value) ∧
  (decimal_value [x31; x32; x38] ≤ 2 ^ 63 - 1 →
   mu_str_parse_int64 [x2d; x31; x32; x38; x20] (MuStr.mk 0 5)
   = Done value).
Proof.
  apply (X28_parse_signed [x2d; x31; x32; x38; x20] (MuStr.mk 0 5) true
           [x31; x32; x38] [x20]).
  - vm_compute. split_and!; discriminate.
  - vm_compute. discriminate.
  - vm_compute. reflexivity.
  - repeat constructor.
  - intros b [= <-]. reflexivity.
  - discriminate.
Defined.

(** ** Counting the children of a container *)

Lemma filter_ext_in {A} (P Q : A → Prop) `{∀ x, Decision (P x)}
  `{∀ x, Decision (Q x)} (l : list A) :
  (∀ x, x ∈ l → P x ↔ Q x) → filter P l = filter Q l.
Proof.
  induction l as [|x l IH]; intros Hl; [done|].
  rewrite !filter_cons.
  rewrite IH by (intros y Hy; apply Hl; by right).
  destruct (decide (P x)) as [HP|HP], (decide (Q x)) as [HQ|HQ]; try done;
    exfalso; apply (Hl x) in HP || apply (Hl x) in HQ; try done; by left.
Qed.

Lemma filter_none {A} (P : A → Prop) `{∀ x, Decision (P x)} (l : list A) :
  (∀ x, x ∈ l → ¬ P x) → filter P l = [].
Proof.
  induction l as [|x l IH]; intros Hl; [done|].
  rewrite filter_cons. destruct (decide (P x)) as [HP|HP].
  - exfalso. apply (Hl x); [by left|done].
  - apply IH. intros y Hy. apply Hl. by right.
Qed.

Lemma at_depth_between_refl ts d t : at_depth_between ts d t t = 0%nat.
Proof. unfold at_depth_between. by rewrite Nat.sub_diag. Qed.

(** The first record after [s] at the depth [d]. *)
Lemma first_at_depth ts d n :
  ∀ s t, (t - s = n)%nat → (s < t)%nat → depth_at ts t = d →
    ∃ u, (s < u ≤ t)%nat ∧ depth_at ts u = d ∧
         (∀ m, (s < m < u)%nat → depth_at ts m ≠ d) ∧
         at_depth_between ts d s t = S (at_depth_between ts d u t).
Proof.
  induction n as [|n IH]; intros s t Hn Hst Ht; [lia|].
  unfold at_depth_between.
  replace (t - s)%nat with (S (t - S s)) by lia. cbn [seq].
  rewrite filter_cons.
  destruct (decide (depth_at ts (S s) = d)) as [Hd|Hd].
  - exists (S s). split; [lia|]. split; [done|].
    split; [intros m Hm; lia|done].
  - assert (S s < t)%nat as Hlt.
    { destruct (decide (S s = t)) as [E|]; [|lia]. congruence. }
    destruct (IH (S s) t) as (u & Hu & Hud & Hfirst & Hcount);
      [lia|done|done|].
    exists u. split; [lia|]. split; [done|]. split.
    + intros m Hm. destruct (decide (m = S s)) as [->|]; [done|].
      apply Hfirst. lia.
    + unfold at_depth_between in Hcount. by rewrite Hcount.
Qed.

Section ChildCount.

Variable ts : list mu_json_token_t.
Hypothesis Hbook : bookends ts.

Lemma child_count_loop_spec d t n :
  ∀ s fuel count,
    (t - s = n)%nat → (s ≤ t < length ts)%nat → (n < fuel)%nat →
    depth_at ts s = d → depth_at ts t = d →
    (∀ m, (s < m < t)%nat → d ≤ depth_at ts m) →
    child_count_loop ts fuel (At t) count (At s)
    = Done (count + Z.of_nat (at_depth_between ts d s t)).
Proof.
  induction n as [n IH] using lt_wf_ind.
  intros s fuel count Hn Hst Hfuel Hs Ht Hbetween.
  destruct fuel as [|fuel]; [lia|]. cbn [child_count_loop].
  destruct (decide (At s = At t)) as [[= ->]|Hne].
  { rewrite at_depth_between_refl. f_equal. lia. }
  assert (s < t)%nat as Hlt.
  { destruct (decide (s = t)) as [->|]; [done|lia]. }
  destruct (first_at_depth ts d (t - s) s t eq_refl Hlt Ht)
    as (u & Hu & Hud & Hfirst & Hcount).
  assert (siblings ts s u) as Hsib.
  { split; [lia|]. split; [congruence|]. intros m Hm. rewrite Hud.
    assert (d ≤ depth_at ts m) by (apply Hbetween; lia).
    assert (depth_at ts m ≠ d) by (apply Hfirst; lia). lia. }
  rewrite (next_sibling_complete ts Hbook s u Hsib). cbn.
  destruct (decide (At u = NULL)); [done|].
  rewrite (IH (t - u)%nat ltac:(lia) u fuel (count + 1)); try done; try lia.
  - rewrite Hcount. f_equal. lia.
  - intros m Hm. apply Hbetween. lia.
Qed.

Hypothesis Hsteps : depth_steps ts.

(** The records after [c] and up to [t], a child of [c], whose parent is
    [c] are those at the depth of [t]. *)
Lemma parent_iff_depth c t j :
  (t < length ts)%nat →
  nearest_shallower ts (depth_at ts t) t (At c) →
  (c < j ≤ t)%nat →
  mu_json_token_parent ts (At j) = Done (At c)
  ↔ depth_at ts j = depth_at ts t.
Proof.
  intros Ht Hn Hj. pose proof Hn as (Hct & Hdc & Hbetween).
  destruct (nearest_shallower_container _ _ _ Hsteps Ht Hn)
    as (tc & Htc & _ & Hdt).
  split.
  - intros Hp. apply (parent_Done ts Hbook) in Hp as [Hjl Hnj].
    destruct (nearest_shallower_container _ _ _ Hsteps Hjl Hnj)
      as (tc' & Htc' & _ & Hdj).
    simplify_eq. lia.
  - intros Hd.
    destruct (parent_At ts Hbook j) as (r & Hr & Hnr); [lia|].
    rewrite Hr. f_equal.
    apply (nearest_shallower_unique ts (depth_at ts j) j); [done|].
    rewrite Hd. split_and!; [lia|done|]. intros i Hi. apply Hbetween. lia.
Qed.

Lemma children_upto_depth c t :
  (t < length ts)%nat →
  nearest_shallower ts (depth_at ts t) t (At c) →
  children_upto ts c t = at_depth_between ts (depth_at ts t) c t.
Proof.
  intros Ht Hn. pose proof Hn as (Hct & _).
  unfold children_upto, at_depth_between.
  replace (S t) with (S c + (t - c))%nat by lia.
  rewrite seq_app, filter_app, length_app. cbn [Nat.add].
  rewrite (filter_none _ (seq 0 (S c))).
  - cbn. f_equal. apply filter_ext_in.
    intros j Hj%elem_of_seq. apply parent_iff_depth; [done|done|lia].
  - intros j Hj%elem_of_seq Hp.
    apply (parent_Done ts Hbook) in Hp as [_ (Hlt & _)]. lia.
Qed.

Lemma child_count_spec c t :
  mu_json_token_parent ts (At t) = Done (At c) →
  child_count ts (At c) (At t) = Done (Z.of_nat (children_upto ts c t)).
Proof.
  intros Hp. apply (parent_Done ts Hbook) in Hp as [Ht Hn].
  pose proof Hn as (Hct & Hdc & Hbetween).
  rewrite (children_upto_depth c t Ht Hn).
  destruct (nearest_shallower_container _ _ _ Hsteps Ht Hn)
    as (tc & Htc & _ & Hdt).
  rewrite <- (depth_at_lookup _ _ _ Htc) in Hdt.
  unfold child_count. destruct (decide (At c = At t)) as [[= ->]|_]; [lia|].
  assert (depth_at ts c < depth_at ts (S c)) as Hchild.
  { destruct (decide (S c = t)) as [->|]; [lia|].
    specialize (Hbetween (S c)). lia. }
  rewrite (child_At ts Hbook) by lia.
  destruct (decide _) as [_|Hno]; [|exfalso; apply Hno; split; [lia|done]].
  cbn.
  assert (depth_at ts (S c) = depth_at ts t) as Hsc.
  { destruct (decide (S c = t)) as [->|]; [done|].
    destruct Hsteps as [_ Hs].
    destruct (lookup_lt_is_Some_2 ts (S c)) as [t1 Ht1]; [lia|].
    specialize (Hs c tc t1 Htc Ht1). unfold step_up in Hs.
    rewrite (depth_at_lookup _ _ _ Htc) in *.
    rewrite (depth_at_lookup _ _ _ Ht1) in *.
    specialize (Hbetween (S c)). rewrite (depth_at_lookup _ _ _ Ht1) in *.
    destruct (is_container tc); lia. }
  rewrite (child_count_loop_spec (depth_at ts t) t (t - S c) (S c));
    try done; try lia.
  - f_equal. unfold at_depth_between.
    replace (t - c)%nat with (S (t - S c)) by lia. cbn [seq].
    rewrite filter_cons. destruct (decide _); [|done]. cbn [length]. lia.
  - unfold nav_fuel. lia.
  - intros m Hm. apply Hbetween. lia.
Qed.

End ChildCount.

(** X29. For an input of at most 32768 bytes and after a successful parse,
    [child_count] of a container and one of its children is the position of
    the child among the children of the container: the number of records up
    to the child whose parent is the container. *)
Theorem X29_child_count mem max_tokens json_input r ts c t :
  MuStr.length json_input ≤ 32768 →
  parse mem max_tokens json_input = Done (r, ts) → 0 ≤ r →
  mu_json_token_parent ts (At t) = Done (At c) →
  child_count ts (At c) (At t) = Done (Z.of_nat (children_upto ts c t)).
Proof.
  intros HJ H Hr Hp.
  pose proof (parse_depth_steps _ _ _ _ _ HJ H) as Hsteps.
  apply parse_bookends in H; [|done].
  by apply child_count_spec.
Qed.

Lemma X29_child_count_witness :
  child_count S1_store (At 4%nat) (At 6%nat)
  = Done (Z.of_nat (children_upto S1_store 4 6)).
Proof.
  apply (X29_child_count S1_input 9
           (MuStr.mu_str_init 0 (Z.of_nat (length S1_input))) 9).
  - vm_compute. discriminate.
  - vm_compute. reflexivity.
  - lia.
  - vm_compute. reflexivity.
Defined.

Lemma land_1_even n : (Z.land n 1 =? 0) = Z.even n.
Proof.
  change 1 with (Z.ones 1) at 1. rewrite Z.land_ones by lia.
  change (2 ^ 1) with 2. by rewrite Zeven_mod.
Qed.

(** X30. For an input of at most 32768 bytes and after a successful parse,
    [select_state] of a token answers by the place of the token: the first
    state for a token without a parent, the second for a token in an array,
    and for a token in an object the third when the token is at an even
    position among the children of the object, the fourth when it is at an
    odd one. *)
Theorem X30_select_state mem max_tokens json_input r ts t s1 s2 s3 s4 :
  MuStr.length json_input ≤ 32768 →
  parse mem max_tokens json_input = Done (r, ts) → 0 ≤ r →
  (t < length ts)%nat →
  (mu_json_token_parent ts (At t) = Done NULL ∧
   select_state ts (At t) s1 s2 s3 s4 = Done s1) ∨
  (∃ c, mu_json_token_parent ts (At t) = Done (At c) ∧
        (mu_json_token_type ts (At c) = Done MU_JSON_TOKEN_TYPE_ARRAY ∧
         select_state ts (At t) s1 s2 s3 s4 = Done s2 ∨
         mu_json_token_type ts (At c) = Done MU_JSON_TOKEN_TYPE_OBJECT ∧
         select_state ts (At t) s1 s2 s3 s4
         = Done (if Z.even (Z.of_nat (children_upto ts c t))
                 then s3 else s4))).
Proof.
  intros HJ H Hr Ht.
  pose proof (parse_depth_steps _ _ _ _ _ HJ H) as Hsteps.
  apply parse_bookends in H; [|done].
  destruct (parent_At ts H t Ht) as (p & Hp & Hn).
  unfold select_state. rewrite Hp. cbn.
  destruct p as [|c]; [by left|]. right. exists c. split; [done|].
  destruct (nearest_shallower_container _ _ _ Hsteps Ht Hn)
    as (tc & Htc & Hc & _).
  unfold mu_json_token_type. rewrite (proj2 (deref_Done ts c tc) Htc). cbn.
  destruct (decide (Token.type tc = MU_JSON_TOKEN_TYPE_ARRAY)) as [->|Hna].
  - by left.
  - right. unfold is_container in Hc.
    rewrite (bool_decide_eq_false_2 _ Hna) in Hc. cbn in Hc.
    apply bool_decide_eq_true_1 in Hc. rewrite Hc. split; [done|].
    rewrite (child_count_spec ts H Hsteps c t Hp). cbn [mbind outcome_bind].
    rewrite land_1_even. by destruct (Z.even _).
Qed.

Lemma X30_select_state_witness :
  (mu_json_token_parent S1_store (At 3%nat) = Done NULL ∧
   select_state S1_store (At 3%nat) 10 20 30 40 = Done 10) ∨
  (∃ c, mu_json_token_parent S1_store (At 3%nat) = Done (At c) ∧
        (mu_json_token_type S1_store (At c) = Done MU_JSON_TOKEN_TYPE_ARRAY ∧
         select_state S1_store (At 3%nat) 10 20 30 40 = Done 20 ∨
         mu_json_token_type S1_store (At c) = Done MU_JSON_TOKEN_TYPE_OBJECT ∧
         select_state S1_store (At 3%nat) 10 20 30 40
         = Done (if Z.even (Z.of_nat (children_upto S1_store c 3))
                 then 30 else 40))).
Proof.
  apply (X30_select_state S1_input 9
           (MuStr.mu_str_init 0 (Z.of_nat (length S1_input))) 9).
  - vm_compute. discriminate.
  - vm_compute. reflexivity.
  - lia.
  - vm_compute. lia.
Defined.

(** ** The parser follows the nesting of the text *)

(** A check of every byte is a check of the 256 numbers they encode. *)
Lemma all_bytes (f : byte → bool) :
  forallb (fun n => match Byte.of_N (N.of_nat n) with
                    | Some b => f b
                    | None => true
                    end) (seq 0 256) = true →
  ∀ b, f b = true.
Proof.
  intros H b.
  assert (In (N.to_nat (Byte.to_N b)) (seq 0 256)) as Hin.
  { apply in_seq. pose proof (Byte.to_N_bounded b). lia. }
  pose proof (proj1 (forallb_forall _ _) H _ Hin) as Hb. cbv beta in Hb.
  by rewrite N2Nat.id, Byte.of_to_N in Hb.
Qed.

Lemma scan_cells_byte b :
  is_control b = false →
  forallb (fun s => scan_cell_ok (Z.of_nat s) b) (seq 0 31) = true.
Proof.
  intros Hb.
  pose proof (all_bytes (fun b =>
    is_control b || forallb (fun s => scan_cell_ok (Z.of_nat s) b) (seq 0 31)))
    as H.
  cbv beta in H. specialize (H ltac:(by vm_compute) b).
  by rewrite Hb in H.
Qed.

Lemma space_cells :
  forallb (fun s => match lookup_state (Z.of_nat s) C_SPACE with
                    | Done n =>
                        match cell_effect (Z.of_nat s) n with
                        | Some e =>
                            bool_decide (e = (mode_of_state (Z.of_nat s), 0))
                        | None => true
                        end
                    | _ => true
                    end) (seq 0 31) = true.
Proof. by vm_compute. Qed.

Lemma lookup_state_range s c n :
  0 ≤ c ≤ 30 → lookup_state s c = Done n → 0 ≤ s < 31.
Proof.
  unfold lookup_state. intros Hc H.
  destruct (_ <? 0) eqn:E; [done|]. ztests.
  destruct (state_transition_table !! _) eqn:El; [|done].
  apply lookup_lt_Some in El.
  pose proof state_transition_table_length as Hl.
  unfold NR_STATES, NR_CLASSES in *. lia.
Qed.

Lemma classify_char_plain b :
  is_control b = false → 0 ≤ classify_char b ≤ 30.
Proof.
  intros Hb.
  pose proof (all_bytes (fun b =>
    is_control b || (0 <=? classify_char b) && (classify_char b <=? 30))) as H.
  cbv beta in H. specialize (H ltac:(by vm_compute) b). rewrite Hb in H.
  cbn in H. apply andb_true_iff in H as [H1 H2]. lia.
Qed.

Lemma scan_cell s b n e :
  is_control b = false →
  lookup_state s (classify_char b) = Done n →
  cell_effect s n = Some e →
  Json.scan (mode_of_state s, 0) b = e ∧
  (n = Ps → mode_of_state s = Json.Outside).
Proof.
  intros Hb Hn He.
  pose proof (lookup_state_range _ _ _ (classify_char_plain b Hb) Hn) as Hs.
  assert (In (Z.to_nat s) (seq 0 31)) as Hin by (apply in_seq; lia).
  pose proof (proj1 (forallb_forall _ _) (scan_cells_byte b Hb) _ Hin) as H.
  cbv beta in H. rewrite Z2Nat.id in H by lia.
  unfold scan_cell_ok in H. rewrite Hn, He in H.
  apply andb_true_iff in H as [H1 H2].
  split; [by apply bool_decide_eq_true in H1|].
  intros ->. by apply bool_decide_eq_true in H2.
Qed.

Lemma space_cell s n e :
  lookup_state s C_SPACE = Done n →
  cell_effect s n = Some e → e = (mode_of_state s, 0).
Proof.
  intros Hn He.
  assert (0 ≤ s < 31) as Hs.
  { apply (lookup_state_range s C_SPACE n); [by vm_compute|done]. }
  assert (In (Z.to_nat s) (seq 0 31)) as Hin by (apply in_seq; lia).
  pose proof (proj1 (forallb_forall _ _) space_cells _ Hin) as H.
  cbv beta in H. rewrite Z2Nat.id in H by lia.
  rewrite Hn, He in H. by apply bool_decide_eq_true in H.
Qed.

Lemma select_state_cases ts token a b c d s :
  select_state ts token a b c d = Done s →
  s = __ ∨ s = a ∨ s = b ∨ s = c ∨ s = d.
Proof.
  unfold select_state. intros H. inv_bind H as container Hc.
  destruct token as [|i]; [simplify_eq; auto|].
  destruct container as [|k]; [simplify_eq; auto|].
  inv_bind H as ct Hct.
  destruct (decide _); [simplify_eq; auto|].
  inv_bind H as cnt Hcnt. destruct (_ =? 0); simplify_eq; auto.
Qed.

Lemma mode_of_select s a b c d :
  s = __ ∨ s = a ∨ s = b ∨ s = c ∨ s = d →
  mode_of_state a = Json.Outside → mode_of_state b = Json.Outside →
  mode_of_state c = Json.Outside → mode_of_state d = Json.Outside →
  mode_of_state s = Json.Outside.
Proof. intros [->|[->|[->|[->| ->]]]]; done. Qed.

(** What a cell does to the state and to the depth of the parser is what
    [cell_effect] says of it. *)
Lemma perform_effect p n p' :
  perform p n = Done p' →
  Parser.error p = MU_JSON_ERR_NONE → Parser.error p' = MU_JSON_ERR_NONE →
  (n = Ps → mode_of_state (Parser.state p) = Json.Outside) →
  ∃ e, cell_effect (Parser.state p) n = Some e ∧
       mode_of_state (Parser.state p') = e.1 ∧
       Parser.depth p' = Parser.depth p + e.2.
Proof.
  intros H He He' Hps.
  destruct (begin_action n) as [[[ty s] d]|] eqn:Hba.
  { rewrite (perform_begin _ _ _ _ _ Hba), std_alloc_eq in H.
    assert (cell_effect (Parser.state p) n = Some (mode_of_state s, d)) as ->.
    { unfold cell_effect. rewrite Hba.
      destruct ((0 <=? n) && (n <? NR_STATES)) eqn:E; [|done].
      unfold begin_action in Hba.
      repeat (case_match; simplify_eq); cells_lia. }
    eexists. split; [done|].
    destruct (_ >=? _); simplify_eq; [done..|]; cbn; split; done. }
  unfold cell_effect. rewrite Hba.
  unfold perform, begin_action, set_state in *.
  destruct ((n >=? 0) && (n <? NR_STATES)) eqn:E0.
  { simplify_eq. ztests.
    destruct ((0 <=? n) && (n <? NR_STATES)) eqn:E; [|cells_lia].
    eexists. split; [done|]. cbn. split; [done|lia]. }
  assert ((0 <=? n) && (n <? NR_STATES) = false) as ->.
  { destruct (0 <=? n) eqn:E1, (n <? NR_STATES) eqn:E2; try done.
    apply Z.leb_le in E1. ztests; lia. }
  repeat (case_match; simplify_eq); try cells_lia.
  - (* Fa *)
    eexists. split; [done|]. cbn.
    apply finish_container_depth in H as Hd. split; [|lia].
    unfold finish_container in H. inv_bind H as ty Hty.
    inv_bind H as q Hq. by simplify_eq.
  - (* Fo *)
    eexists. split; [done|]. cbn.
    apply finish_container_depth in H as Hd. split; [|lia].
    unfold finish_container in H. inv_bind H as ty Hty.
    inv_bind H as q Hq. by simplify_eq.
  - (* Pl *)
    inv_bind H as q Hq. inv_bind H as s Hs. simplify_eq.
    eexists. split; [done|]. cbn.
    apply finish_token_depth in Hq. split; [|lia].
    by apply select_state_cases, mode_of_select in Hs.
  - (* Pm *)
    inv_bind H as q Hq. inv_bind H as s Hs. simplify_eq.
    eexists. split; [done|]. cbn.
    apply finish_token_depth in Hq. split; [|lia].
    by apply select_state_cases, mode_of_select in Hs.
  - (* Ps *)
    inv_bind H as t Ht. inv_bind H as q Hq. inv_bind H as s Hs. simplify_eq.
    match goal with
    | E : (n =? Ps) = true |- _ => apply Z.eqb_eq in E; specialize (Hps E)
    end.
    assert (Parser.state q = Parser.state p ∧
            Parser.depth q = Parser.depth p) as [Hsq Hdq].
    { destruct (negb (is_container t)); simplify_eq; [|done].
      apply finish_token_inv in Hq as [->|(?&?&?&_&_&_&->)]; done. }
    eexists. split; [done|]. cbn. rewrite Hps. split; [|lia].
    rewrite Hsq in Hs. by apply select_state_cases, mode_of_select in Hs.
  - (* Pq *)
    inv_bind H as q Hq. inv_bind H as s Hs. simplify_eq.
    eexists. split; [done|]. cbn.
    apply finish_token_depth in Hq. split; [|lia].
    by apply select_state_cases, mode_of_select in Hs.
Qed.

Lemma before_S text p b :
  text !! p = Some b →
  Json.before text (S p) = Json.scan (Json.before text p) b.
Proof.
  intros Hb. unfold Json.before.
  by rewrite (take_S_r _ _ _ Hb), fold_left_app.
Qed.

Lemma before_end text p :
  (length text ≤ p)%nat → Json.before text (S p) = Json.before text p.
Proof. intros Hp. unfold Json.before. by rewrite !take_ge by lia. Qed.

Lemma scan_shift m d b :
  Json.scan (m, d) b
  = ((Json.scan (m, 0) b).1, d + (Json.scan (m, 0) b).2).
Proof.
  unfold Json.scan. cbn [fst snd].
  destruct m;
    repeat match goal with
           | |- context [if ?c then _ else _] => destruct c
           end; cbn [fst snd]; f_equal; lia.
Qed.

Lemma no_control_lookup text i b :
  no_control_bytes text = true → text !! i = Some b → is_control b = false.
Proof.
  unfold no_control_bytes. intros H Hb.
  apply negb_true_iff, (proj1 (forallb_forall _ _) H).
  apply list_elem_of_In. by apply list_elem_of_lookup_2 in Hb.
Qed.

(** The mode and the level after a round of the loop that leaves no
    error. *)
Lemma dispatch_before text p b p' :
  no_control_bytes text = true →
  Parser.json p = MuStr.mk 0 (Z.of_nat (length text)) →
  0 ≤ Parser.char_pos p →
  Json.before text (Z.to_nat (Parser.char_pos p))
  = (mode_of_state (Parser.state p), Parser.depth p) →
  Parser.error p = MU_JSON_ERR_NONE →
  MuStr.mu_str_get_byte text (Parser.json p) (Parser.char_pos p) = Done b →
  dispatch p (match b with
              | Some ch => classify_char ch
              | None => C_SPACE
              end) = Done p' →
  Parser.error p' = MU_JSON_ERR_NONE →
  Json.before text (S (Z.to_nat (Parser.char_pos p)))
  = (mode_of_state (Parser.state p'), Parser.depth p').
Proof.
  intros Hctl Hj Hcp Hbefore He Hb Hd He'.
  unfold dispatch in Hd. inv_bind Hd as n Hn.
  destruct b as [ch|].
  - apply get_byte_Some_range in Hb as [_ Hch]. rewrite Hj in Hch.
    cbn [MuStr.buf] in Hch. rewrite Z.add_0_l in Hch.
    pose proof (no_control_lookup _ _ _ Hctl Hch) as Hc.
    rewrite (before_S _ _ _ Hch), Hbefore, scan_shift.
    destruct (cell_effect (Parser.state p) n) as [e|] eqn:Hcell.
    + destruct (scan_cell _ _ _ _ Hc Hn Hcell) as [Hscan Hps].
      destruct (perform_effect _ _ _ Hd He He' Hps) as (e' & He1 & Hm & Hdp).
      rewrite Hcell in He1. injection He1 as <-.
      by rewrite Hscan, Hm, Hdp.
    + destruct (perform_effect _ _ _ Hd He He') as (e' & He1 & _).
      * intros ->. by vm_compute in Hcell.
      * congruence.
  - assert (length text ≤ Z.to_nat (Parser.char_pos p))%nat as Hend.
    { unfold MuStr.mu_str_get_byte in Hb. rewrite Hj in Hb.
      cbn [MuStr.length MuStr.buf] in Hb.
      destruct (_ || _) eqn:E; [|by destruct (text !! _)].
      ztests. lia. }
    rewrite (before_end _ _ Hend), Hbefore.
    destruct (cell_effect (Parser.state p) n) as [e|] eqn:Hcell.
    + destruct (scan_cell _ x20 _ _ eq_refl Hn Hcell) as [_ Hps].
      pose proof (space_cell _ _ _ Hn Hcell) as ->.
      destruct (perform_effect _ _ _ Hd He He' Hps) as (e' & He1 & Hm & Hdp).
      rewrite Hcell in He1. injection He1 as <-.
      cbn [fst snd] in *. rewrite Hm, Hdp. f_equal. lia.
    + destruct (perform_effect _ _ _ Hd He He') as (e' & He1 & _).
      * intros ->. by vm_compute in Hcell.
      * congruence.
Qed.

Lemma new_token_start L p ty :
  Parser.json p = MuStr.mk 0 L → L < MuStr.MU_STR_END →
  0 ≤ Parser.char_pos p ≤ L →
  start (new_token p ty) = Parser.char_pos p.
Proof.
  intros Hj HL Hcp. unfold start, new_token. cbn [Token.json].
  rewrite Hj, mu_str_slice_to_end by lia. done.
Qed.

Lemma dispatch_nesting text p b p' :
  Z.of_nat (length text) < MuStr.MU_STR_END →
  no_control_bytes text = true →
  slices_inv text (MuStr.mk 0 (Z.of_nat (length text))) p →
  nesting_inv text p →
  Parser.error p = MU_JSON_ERR_NONE →
  MuStr.mu_str_get_byte text (Parser.json p) (Parser.char_pos p) = Done b →
  dispatch p (match b with
              | Some ch => classify_char ch
              | None => C_SPACE
              end) = Done p' →
  nesting_inv text (advance p').
Proof.
  intros HL Hctl Hsl (Hdepths & Hpairs & Hrun) He Hb Hd.
  pose proof Hsl as (Hj & Hcp & _).
  destruct (Hrun He) as [Hbefore Hlast]. clear Hrun.
  pose proof (dispatch_before _ _ _ _ Hctl Hj Hcp Hbefore He Hb Hd) as Hb'.
  assert (Z.to_nat (Parser.char_pos p + 1) = S (Z.to_nat (Parser.char_pos p)))
    as Hnext by lia.
  assert (Json.level text (Z.to_nat (Parser.char_pos p)) = Parser.depth p)
    as Hlevel by (unfold Json.level; by rewrite Hbefore).
  pose proof (pstep_frame _ _ _ (dispatch_pstep _ _ _ Hd)) as (_ & _ & Hcp').
  unfold nesting_inv, advance. cbn [Parser.tokens Parser.error Parser.state
    Parser.depth Parser.char_pos Parser.with_char_pos].
  rewrite Hcp', Hnext.
  unfold dispatch in Hd. inv_bind Hd as n Hn.
  destruct (begin_action n) as [[[ty s] d]|] eqn:Hba.
  - (* a token begins *)
    destruct b as [ch|]; [|apply lookup_state_SPACE in Hn; congruence].
    apply get_byte_Some_range in Hb as [Hrange _]. rewrite Hj in Hrange.
    cbn [MuStr.length] in Hrange.
    rewrite (perform_begin _ _ _ _ _ Hba), std_alloc_eq in Hd.
    pose proof (new_token_start _ p ty Hj HL ltac:(lia)) as Hstart.
    destruct (_ >=? _); simplify_eq;
      cbn [Parser.tokens Parser.error Parser.state Parser.depth
           Parser.with_depth Parser.with_state Parser.with_tokens
           Parser.with_error] in *.
    { split_and!; [done|done|]. intros E. by vm_compute in E. }
    split_and!.
    + intros i t Hi. apply lookup_app_Some in Hi as [Hi|[_ Hi]]; [eauto|].
      apply list_lookup_singleton_Some in Hi as [_ <-].
      cbn [Token.depth new_token]. by rewrite Hstart, Hlevel.
    + intros i t t' Hi Hi'.
      apply lookup_app_Some in Hi' as [Hi'|[Hlen Hi']].
      * apply lookup_lt_Some in Hi' as Hlt.
        rewrite lookup_app_l in Hi by lia. eauto.
      * apply list_lookup_singleton_Some in Hi' as [Hi0 <-].
        rewrite lookup_app_l in Hi by lia.
        rewrite Hstart, Hlevel. intros q Hq. apply (Hlast t); [|done].
        rewrite last_lookup. rewrite <- Hi. f_equal. lia.
    + intros _. split; [by apply Hb'|].
      intros t. rewrite last_snoc. intros [= <-] q Hq.
      rewrite Hstart in Hq. assert (q = S (Z.to_nat (Parser.char_pos p)))
        as -> by lia.
      unfold Json.level. by rewrite Hb'.
  - (* no token begins *)
    pose proof (perform_pstep_gen false _ _ _ (or_intror Hba) Hd) as Hp.
    pose proof (pstep_shape _ _ Hp) as Hsh.
    pose proof (pstep_starts text (MuStr.mk 0 (Z.of_nat (length text))) _ _
                  HL Hp Hsl) as Hst.
    pose proof (perform_depth _ _ _ Hba Hd) as Hdp.
    assert (∀ i t', Parser.tokens p' !! i = Some t' →
              ∃ t, Parser.tokens p !! i = Some t ∧
                   Token.depth t = Token.depth t' ∧ start t = start t')
      as Hsame.
    { intros i t' Hi.
      destruct (shape_lookup _ _ _ _ Hsh Hi) as (t & Ht & Hs).
      destruct (start_lookup _ _ _ _ Hst Hi) as (t0 & Ht0 & Hs0).
      exists t. split_and!; [done| |congruence].
      by injection Hs. }
    split_and!.
    + intros i t' Hi. destruct (Hsame i t' Hi) as (t & Ht & <- & <-). eauto.
    + intros i t1' t2' H1 H2.
      destruct (Hsame _ _ H1) as (t1 & Ht1 & _ & <-).
      destruct (Hsame _ _ H2) as (t2 & Ht2 & _ & <-). eauto.
    + intros He'. split; [by apply Hb'|].
      intros t' Ht' q Hq. rewrite last_lookup in Ht'.
      destruct (Hsame _ _ Ht') as (t & Ht & _ & Hs). rewrite <- Hs in Hq.
      assert (length (Parser.tokens p') = length (Parser.tokens p)) as Hlen.
      { by rewrite <- (length_fmap shape), Hsh, length_fmap. }
      rewrite Hlen, <- last_lookup in Ht.
      destruct (decide (q = S (Z.to_nat (Parser.char_pos p)))) as [->|Hne].
      * unfold Json.level. by rewrite Hb'.
      * specialize (Hlast t Ht q ltac:(lia)). lia.
Qed.

Lemma parse_loop_nesting text fuel p q :
  Z.of_nat (length text) < MuStr.MU_STR_END →
  no_control_bytes text = true →
  slices_inv text (MuStr.mk 0 (Z.of_nat (length text))) p ∧
  nesting_inv text p →
  parse_loop text fuel p = Done q →
  slices_inv text (MuStr.mk 0 (Z.of_nat (length text))) q ∧
  nesting_inv text q.
Proof.
  intros HL Hctl.
  apply (parse_loop_invariant_byte (fun p =>
    slices_inv text (MuStr.mk 0 (Z.of_nat (length text))) p ∧
    nesting_inv text p)).
  intros p0 b p' [Hsl Hn] He Hb Hd. split.
  - by eapply dispatch_slices.
  - by eapply dispatch_nesting.
Qed.

(** In the store [parse] leaves behind, the depth of a record is the level
    of the text at its first byte, stored in an [int16_t], and the level of
    the text does not rise between the first byte of a record and that of
    the next one. *)
Lemma parse_nesting buf max_tokens r ts :
  Z.of_nat (length buf) < MuStr.MU_STR_END →
  no_control_bytes buf = true →
  mu_json_parse_buffer max_tokens buf = Done (r, ts) →
  (∀ i t, ts !! i = Some t →
          Token.depth t
          = int16_of_int (Json.level buf (Z.to_nat (start t)))) ∧
  (∀ i t t', ts !! i = Some t → ts !! S i = Some t' →
             ∀ q, (Z.to_nat (start t) < q ≤ Z.to_nat (start t'))%nat →
                  Json.level buf (Z.to_nat (start t')) ≤ Json.level buf q).
Proof.
  intros HL Hctl H. unfold mu_json_parse_buffer, parse in H.
  inv_bind H as p Hp. unfold MuStr.mu_str_init in *.
  apply (parse_loop_nesting buf) in Hp as [Hsl (Hdepths & Hpairs & _)];
    [|done|done|].
  - pose proof (endgame_shape _ _ _ H) as Hsh.
    pose proof (endgame_starts buf (MuStr.mk 0 (Z.of_nat (length buf))) _ _ _
                  HL Hsl H) as Hst.
    assert (∀ i t', ts !! i = Some t' →
              ∃ t, Parser.tokens p !! i = Some t ∧
                   Token.depth t = Token.depth t' ∧ start t = start t')
      as Hsame.
    { intros i t' Hi.
      destruct (shape_lookup _ _ _ _ Hsh Hi) as (t & Ht & Hs).
      destruct (start_lookup _ _ _ _ Hst Hi) as (t0 & Ht0 & Hs0).
      exists t. split_and!; [done| |congruence].
      by injection Hs. }
    split.
    + intros i t' Hi. destruct (Hsame i t' Hi) as (t & Ht & <- & <-). eauto.
    + intros i t1' t2' H1 H2.
      destruct (Hsame _ _ H1) as (t1 & Ht1 & _ & <-).
      destruct (Hsame _ _ H2) as (t2 & Ht2 & _ & <-). eauto.
  - split.
    + split_and!; [done|done|apply Forall_nil_2].
    + split_and!.
      * intros i t Hi. cbn in Hi. by rewrite lookup_nil in Hi.
      * intros i t t' Hi. cbn in Hi. by rewrite lookup_nil in Hi.
      * intros _. split; [done|]. intros t Ht. done.
Qed.

Lemma level_fits text p :
  nesting_fits text = true → -32768 ≤ Json.level text p ≤ 32767.
Proof.
  unfold nesting_fits. intros H.
  assert (∀ q, (q ≤ length text)%nat → -32768 ≤ Json.level text q ≤ 32767)
    as Hq.
  { intros q Hq.
    assert (In q (seq 0 (S (length text)))) as Hin by (apply in_seq; lia).
    apply (proj1 (forallb_forall _ _) H), andb_true_iff in Hin as [H1 H2].
    apply Z.leb_le in H1, H2. lia. }
  destruct (decide (p ≤ length text)%nat) as [|Hgt]; [auto|].
  replace (Json.level text p) with (Json.level text (length text)); [auto|].
  unfold Json.level, Json.before. by rewrite !take_ge by lia.
Qed.

(** Whether a position lies inside the brackets another one opens can be
    told by looking at the levels between them. *)
Lemma inside_dec text s p :
  (∀ q, (s < q ≤ p)%nat → Json.level text s < Json.level text q) ∨
  ∃ q, (s < q ≤ p)%nat ∧ Json.level text q ≤ Json.level text s.
Proof.
  induction p as [|p [IH|(q & Hq & Hle)]].
  - left. intros q Hq. lia.
  - destruct (decide (s < S p)%nat) as [Hs|Hs];
      [|left; intros q Hq; lia].
    destruct (decide (Json.level text s < Json.level text (S p)))
      as [Hlt|Hge].
    + left. intros q Hq.
      destruct (decide (q = S p)) as [->|Hne]; [done|]. apply IH. lia.
    + right. exists (S p). split; [lia|lia].
  - right. exists q. split; [lia|done].
Qed.

(** ** A text nested deeper than an [int16_t] counts *)

Lemma perform_Fa p :
  perform p Fa = finish_container p MU_JSON_TOKEN_TYPE_ARRAY.
Proof. reflexivity. Qed.

(** The parent of a record that is deeper than the record before it. *)
Lemma parent_prev ts j t t' :
  ts !! j = Some t → ts !! S j = Some t' →
  token_is_first t' = false → Token.depth t < Token.depth t' →
  mu_json_token_parent ts (At (S j)) = Done (At j).
Proof.
  intros Ht Ht' Hfirst Hd.
  unfold mu_json_token_parent, mu_json_token_depth, deref, nav_fuel.
  rewrite Ht'. cbn [mbind outcome_bind parent_loop].
  unfold mu_json_token_prev, mu_json_token_depth, deref.
  rewrite Ht'. cbn [mbind outcome_bind]. rewrite Hfirst.
  cbn [mbind outcome_bind]. rewrite Ht. cbn [mbind outcome_bind].
  destruct (_ >=? _) eqn:E; [ztests; lia|done].
Qed.

(** A sealed token is left alone. *)
Lemma finish_token_sealed p i t incl :
  Parser.tokens p !! i = Some t → token_is_sealed t = true →
  finish_token p (At i) incl = Done p.
Proof.
  intros Ht Hs. unfold finish_token, deref. rewrite Ht.
  cbn [mbind outcome_bind]. by rewrite Hs.
Qed.

(** An open token is cut at the position of the parser and sealed. *)
Lemma finish_token_open p i t incl :
  Parser.tokens p !! i = Some t → token_is_sealed t = false →
  finish_token p (At i) incl
  = Done (Parser.with_tokens p
            (<[i := seal_token
                      (set_json t
                         (MuStr.mu_str_slice (Parser.json p)
                            (MuStr.mu_str_length (Parser.json p)
                             - MuStr.mu_str_length (Token.json t))
                            (if incl then Parser.char_pos p + 1
                             else Parser.char_pos p)))]>
               (Parser.tokens p))).
Proof.
  intros Ht Hs. unfold finish_token, deref. rewrite Ht.
  cbn [mbind outcome_bind]. by rewrite Hs.
Qed.

(** The text [deep_input n]. *)
Lemma deep_length n :
  Z.of_nat (length (deep_input n)) = 2 * Z.of_nat n + 1.
Proof.
  unfold deep_input.
  rewrite length_app, length_replicate. cbn [length].
  rewrite length_replicate. lia.
Qed.

Lemma deep_lookup_open n i : (i < n)%nat → deep_input n !! i = Some x5b.
Proof.
  intros Hi. unfold deep_input.
  rewrite lookup_app_l by (rewrite length_replicate; lia).
  by apply lookup_replicate_2.
Qed.

Lemma deep_lookup_digit n : deep_input n !! n = Some x31.
Proof.
  unfold deep_input.
  rewrite lookup_app_r by (rewrite length_replicate; lia).
  by rewrite length_replicate, Nat.sub_diag.
Qed.

Lemma deep_lookup_close n i :
  (n < i ≤ 2 * n)%nat → deep_input n !! i = Some x5d.
Proof.
  intros Hi. unfold deep_input.
  rewrite lookup_app_r by (rewrite length_replicate; lia).
  rewrite length_replicate.
  destruct (i - n)%nat as [|k] eqn:E; [lia|].
  change (replicate n x5d !! k = Some x5d).
  apply lookup_replicate_2. lia.
Qed.

(** The levels of the text at its opening brackets. *)
Lemma deep_before n k :
  (k ≤ n)%nat → Json.before (deep_input n) k = (Json.Outside, Z.of_nat k).
Proof.
  induction k as [|k IH]; intros Hk; [done|].
  rewrite (before_S _ _ x5b) by (apply deep_lookup_open; lia).
  rewrite IH by lia. cbn. f_equal. lia.
Qed.

Lemma deep_no_control n : no_control_bytes (deep_input n) = true.
Proof.
  unfold no_control_bytes, deep_input. apply forallb_forall.
  intros b Hb. apply list_elem_of_In, elem_of_app in Hb as [Hb|Hb].
  - by apply elem_of_replicate in Hb as [-> _].
  - apply elem_of_cons in Hb as [->|Hb]; [done|].
    by apply elem_of_replicate in Hb as [-> _].
Qed.

Section Deep.

Variables (m cap : nat) (L : Z).
Hypothesis Hm : int16_of_int (Z.of_nat m) < int16_of_int (Z.of_nat (S m)).
Hypothesis Hcap : (S m < cap)%nat.
Hypothesis HLen : L = Z.of_nat (length (deep_input (S m))).
Hypothesis HL : L < MuStr.MU_STR_END.

Local Abbreviation n := (S m).
Local Abbreviation mem := (deep_input (S m)).
Local Abbreviation J := (MuStr.mk 0 L).

Lemma deep_length_L : L = 2 * Z.of_nat n + 1.
Proof using HLen. rewrite HLen. apply deep_length. Qed.

Lemma open_arrays_length k : length (open_arrays L k) = k.
Proof. unfold open_arrays. by rewrite length_fmap, length_seq. Qed.

Lemma open_arrays_S k :
  open_arrays L (S k) = open_arrays L k ++ [open_array L k].
Proof. unfold open_arrays. by rewrite seq_S, fmap_app. Qed.

Lemma open_arrays_lookup k i :
  (i < k)%nat → open_arrays L k !! i = Some (open_array L i).
Proof.
  intros Hi. unfold open_arrays.
  by rewrite list_lookup_fmap, lookup_seq_lt.
Qed.

(** A round of the loop on a byte of the text. *)
Lemma deep_step fuel p ch p1 :
  Parser.error p = MU_JSON_ERR_NONE → Parser.json p = J →
  0 ≤ Parser.char_pos p →
  mem !! Z.to_nat (Parser.char_pos p) = Some ch →
  dispatch p (classify_char ch) = Done p1 →
  parse_loop mem (S fuel) p = parse_loop mem fuel (advance p1).
Proof.
  intros He Hj Hcp Hch Hd. apply (parse_loop_step mem fuel p ch); [done| |done].
  unfold MuStr.mu_str_get_byte. rewrite Hj.
  cbn [MuStr.length MuStr.buf].
  apply lookup_lt_Some in Hch as Hlt.
  destruct (_ || _) eqn:E; [ztests; lia|].
  by rewrite Z.add_0_l, Hch.
Qed.

Lemma open_run k fuel :
  (k ≤ n)%nat →
  parse_loop mem (k + fuel) (parser_init J cap)
  = parse_loop mem fuel (deep_opened L cap k).
Proof.
  revert fuel. induction k as [|k IH]; intros fuel Hk; [done|].
  replace (S k + fuel)%nat with (k + S fuel)%nat by lia.
  rewrite IH by lia.
  pose proof deep_length_L as HLn.
  rewrite (deep_step fuel (deep_opened L cap k) x5b
             (alloc_ok (deep_opened L cap k) MU_JSON_TOKEN_TYPE_ARRAY AR 1));
    [|done|done|cbn; lia| |].
  - f_equal. unfold deep_opened, alloc_ok, advance, new_token.
    unfold Parser.with_char_pos, Parser.with_depth, Parser.with_state,
      Parser.with_tokens, Parser.token_count.
    cbn [Parser.json Parser.tokens Parser.max_tokens
         Parser.depth Parser.char_pos Parser.state Parser.error].
    rewrite open_arrays_length, open_arrays_S.
    rewrite mu_str_slice_to_end by lia.
    f_equal; try lia; try (by destruct k).
    do 2 f_equal. unfold open_array. f_equal.
    destruct (decide (k = 0%nat)) as [->|Hne]; [done|].
    destruct (Z.of_nat k + 1 =? 1) eqn:E; [ztests; lia|done].
  - cbn [deep_opened Parser.char_pos]. rewrite Nat2Z.id.
    apply deep_lookup_open. lia.
  - unfold dispatch.
    assert (lookup_state (Parser.state (deep_opened L cap k)) (classify_char x5b)
            = Done Ba) as ->.
    { cbn [deep_opened Parser.state]. by destruct (decide (k = 0%nat)). }
    cbn [mbind outcome_bind].
    rewrite (perform_begin _ Ba MU_JSON_TOKEN_TYPE_ARRAY AR 1) by done.
    rewrite std_alloc_eq. unfold Parser.token_count.
    cbn [deep_opened Parser.tokens Parser.max_tokens].
    rewrite open_arrays_length.
    destruct (_ >=? _) eqn:E; [ztests; lia|]. done.
Qed.

(** The digit, and the first closing bracket: the number and the array
    around it are sealed. *)
Lemma deep_store_number :
  deep_store L m !! n
  = Some (Token.mk (MuStr.mk (Z.of_nat n) 1) MU_JSON_TOKEN_TYPE_NUMBER 4
            (int16_of_int (Z.of_nat n))).
Proof.
  unfold deep_store. rewrite lookup_app_r; rewrite open_arrays_length; [|lia].
  by replace (S m - m)%nat with 1%nat by lia.
Qed.

Lemma deep_store_array :
  deep_store L m !! m
  = Some (seal_token (set_json (open_array L m) (MuStr.mk (Z.of_nat m) 3))).
Proof.
  unfold deep_store. rewrite lookup_app_r; rewrite open_arrays_length; [|lia].
  by rewrite Nat.sub_diag.
Qed.

Lemma deep_store_parent :
  mu_json_token_parent (deep_store L m) (At n) = Done (At m).
Proof.
  eapply parent_prev; [apply deep_store_array|apply deep_store_number|done|].
  exact Hm.
Qed.

Lemma digit_and_bracket fuel :
  parse_loop mem (S (S fuel)) (deep_opened L cap n) = parse_loop mem fuel (deep_closed L m cap 0).
Proof.
  pose proof deep_length_L as HLn.
  set (number := Token.mk (MuStr.mk (Z.of_nat n) (L - Z.of_nat n))
                   MU_JSON_TOKEN_TYPE_NUMBER 0 (int16_of_int (Z.of_nat n))).
  set (p1 := Parser.mk J (open_arrays L n ++ [number]) cap (Z.of_nat n)
               (Z.of_nat n) IN MU_JSON_ERR_NONE).
  rewrite (deep_step (S fuel) (deep_opened L cap n) x31 p1);
    [|done|done|cbn; lia| |].
  2: { cbn [deep_opened Parser.char_pos]. rewrite Nat2Z.id.
       apply deep_lookup_digit. }
  2: { unfold dispatch.
       change (lookup_state (Parser.state (deep_opened L cap n)) (classify_char x31))
         with (Done Bd). cbn [mbind outcome_bind].
       rewrite (perform_begin _ Bd MU_JSON_TOKEN_TYPE_NUMBER IN 0) by done.
       rewrite std_alloc_eq. unfold Parser.token_count.
       cbn [deep_opened Parser.tokens Parser.max_tokens].
       rewrite open_arrays_length.
       destruct (_ >=? _) eqn:E; [ztests; lia|].
       unfold p1, new_token, Parser.token_count, Parser.with_depth,
         Parser.with_state, Parser.with_tokens, deep_opened.
       cbn [Parser.json Parser.tokens Parser.max_tokens
            Parser.depth Parser.char_pos Parser.state Parser.error].
       rewrite open_arrays_length.
       rewrite mu_str_slice_to_end by lia.
       destruct (Z.of_nat n + 1 =? 1) eqn:E1; [ztests; lia|].
       do 2 f_equal; lia. }
  set (p2 := Parser.mk J (deep_store L m) cap (Z.of_nat m)
               (Z.of_nat n + 1) OK MU_JSON_ERR_NONE).
  rewrite (deep_step fuel (advance p1) x5d p2);
    [|done|done|cbn; lia| |].
  - f_equal. unfold deep_closed, advance, p2, Parser.with_char_pos.
    cbn [Parser.json Parser.tokens Parser.max_tokens
         Parser.depth Parser.char_pos Parser.state Parser.error].
    f_equal; lia.
  - cbn [advance p1 Parser.char_pos Parser.with_char_pos].
    replace (Z.to_nat (Z.of_nat n + 1)) with (S n) by lia.
    apply deep_lookup_close. lia.
  - change (advance p1)
      with (Parser.mk J (open_arrays L n ++ [number]) cap (Z.of_nat n)
              (Z.of_nat n + 1) IN MU_JSON_ERR_NONE).
    unfold dispatch.
    change (lookup_state _ (classify_char x5d)) with (Done Fa).
    cbn [mbind outcome_bind].
    rewrite perform_Fa. unfold finish_container.
    assert (tos (Parser.mk J (open_arrays L n ++ [number]) cap (Z.of_nat n)
                   (Z.of_nat n + 1) IN MU_JSON_ERR_NONE) = At n) as ->.
    { rewrite tos_At; cbn [Parser.tokens].
      - rewrite length_app, open_arrays_length. cbn [length]. f_equal. lia.
      - intros E. by apply app_eq_nil in E as [_ ?]. }
    assert ((open_arrays L n ++ [number]) !! n = Some number) as Hnum.
    { rewrite lookup_app_r; rewrite open_arrays_length; [|lia].
      by rewrite Nat.sub_diag. }
    unfold mu_json_token_type, deref.
    cbn [Parser.tokens].
    rewrite Hnum. cbn [mbind outcome_bind number Token.type].
    destruct (decide (MU_JSON_TOKEN_TYPE_NUMBER ≠ MU_JSON_TOKEN_TYPE_ARRAY))
      as [_|Hne]; [|by destruct Hne].
    rewrite (finish_token_open _ n number) by done.
    unfold Parser.with_tokens, MuStr.mu_str_length.
    cbn [mbind outcome_bind Parser.json Parser.tokens Parser.max_tokens
         Parser.depth Parser.char_pos Parser.state Parser.error
         number Token.json MuStr.length].
    rewrite (mu_str_slice_in_range (MuStr.mk 0 L)) by (cbn; lia).
    set (T1 := <[n:=_]> _).
    assert (T1 = open_arrays L m
                 ++ [open_array L m;
                     Token.mk (MuStr.mk (Z.of_nat n) 1)
                       MU_JSON_TOKEN_TYPE_NUMBER 4
                       (int16_of_int (Z.of_nat n))]) as ->.
    { subst T1. rewrite open_arrays_S, <- app_assoc.
      rewrite insert_app_r_alt; rewrite open_arrays_length; [|lia].
      replace (S m - m)%nat with 1%nat by lia. cbn [app].
      f_equal. cbn. do 2 f_equal. unfold seal_token, set_flag, set_json.
      cbn. do 2 f_equal; lia. }
    rewrite (parent_prev _ m (open_array L m)
               (Token.mk (MuStr.mk (Z.of_nat n) 1) MU_JSON_TOKEN_TYPE_NUMBER 4
                  (int16_of_int (Z.of_nat n)))); cycle 1.
    { rewrite lookup_app_r; rewrite open_arrays_length; [|lia].
      by rewrite Nat.sub_diag. }
    { rewrite lookup_app_r; rewrite open_arrays_length; [|lia].
      by replace (S m - m)%nat with 1%nat by lia. }
    { done. }
    { exact Hm. }
    cbn [mbind outcome_bind].
    rewrite (finish_token_open _ m (open_array L m)); cycle 1.
    { cbn [Parser.tokens].
      rewrite lookup_app_r; rewrite open_arrays_length; [|lia].
      by rewrite Nat.sub_diag. }
    { unfold open_array. by destruct (decide (m = 0%nat)). }
    unfold Parser.with_tokens, Parser.with_depth, set_state,
      Parser.with_state, MuStr.mu_str_length.
    cbn [mbind outcome_bind Parser.json Parser.tokens Parser.max_tokens
         Parser.depth Parser.char_pos Parser.state Parser.error
         open_array Token.json MuStr.length].
    rewrite (mu_str_slice_in_range (MuStr.mk 0 L)) by (cbn; lia).
    rewrite insert_app_r_alt; rewrite open_arrays_length; [|lia].
    rewrite Nat.sub_diag. cbn [insert list_insert].
    unfold p2, deep_store. do 2 f_equal; [|lia].
    do 2 f_equal. unfold seal_token, set_flag, set_json.
    cbn [Token.json Token.type Token.flags Token.depth MuStr.buf].
    f_equal. f_equal; lia.
Qed.

Lemma deep_store_tos j : tos (deep_closed L m cap j) = At n.
Proof.
  rewrite tos_At; cbn [deep_closed Parser.tokens]; unfold deep_store.
  - rewrite length_app, open_arrays_length. cbn [length]. f_equal. lia.
  - intros E. by apply app_eq_nil in E as [_ ?].
Qed.

(** A closing bracket more: the store stays as it is. *)
Lemma close_container j :
  finish_container (deep_closed L m cap j) MU_JSON_TOKEN_TYPE_ARRAY
  = Done (set_state
            (Parser.with_depth (deep_closed L m cap j) (Parser.depth (deep_closed L m cap j) - 1)) OK).
Proof.
  unfold finish_container. rewrite deep_store_tos.
  unfold mu_json_token_type, deref. cbn [deep_closed Parser.tokens].
  rewrite deep_store_number. cbn [mbind outcome_bind Token.type].
  destruct (decide (MU_JSON_TOKEN_TYPE_NUMBER ≠ MU_JSON_TOKEN_TYPE_ARRAY))
    as [_|Hne]; [|by destruct Hne].
  rewrite (finish_token_sealed (deep_closed L m cap j) n _ false deep_store_number
             eq_refl).
  cbn [mbind outcome_bind deep_closed Parser.tokens]. rewrite deep_store_parent.
  cbn [mbind outcome_bind].
  rewrite (finish_token_sealed (deep_closed L m cap j) m _ true deep_store_array
             (token_is_sealed_seal _)).
  done.
Qed.

Lemma close_run j fuel :
  (j ≤ m)%nat →
  parse_loop mem (j + fuel) (deep_closed L m cap 0) = parse_loop mem fuel (deep_closed L m cap j).
Proof.
  revert fuel. induction j as [|j IH]; intros fuel Hj; [done|].
  replace (S j + fuel)%nat with (j + S fuel)%nat by lia.
  rewrite IH by lia.
  rewrite (deep_step fuel (deep_closed L m cap j) x5d
             (set_state
                (Parser.with_depth (deep_closed L m cap j) (Parser.depth (deep_closed L m cap j) - 1))
                OK)); [|done|done|cbn; lia| |].
  - f_equal. unfold deep_closed, advance, set_state, Parser.with_char_pos,
      Parser.with_depth, Parser.with_state.
    cbn [Parser.json Parser.tokens Parser.max_tokens
         Parser.depth Parser.char_pos Parser.state Parser.error].
    f_equal; lia.
  - cbn [deep_closed Parser.char_pos]. apply deep_lookup_close. lia.
  - unfold dispatch.
    change (lookup_state _ (classify_char x5d)) with (Done Fa).
    cbn [mbind outcome_bind]. rewrite perform_Fa. apply close_container.
Qed.

Lemma perform_Ps p :
  perform p Ps
  = match tos p with
    | NULL => Undefined
    | At i as token =>
        t ← deref (Parser.tokens p) i;
        parser ← (if negb (is_container t)
                  then finish_token p token false
                  else Done p);
        s ← select_state (Parser.tokens parser) token OK OK OK
              (Parser.state parser);
        Done (set_state parser s)
    end.
Proof. reflexivity. Qed.

(** The round for the end of the text. *)
Lemma end_round fuel :
  parse_loop mem (S fuel) (deep_closed L m cap m) = Done (advance (deep_closed L m cap m)).
Proof.
  pose proof deep_length_L as HLn.
  rewrite parse_loop_S. cbn [deep_closed Parser.error Parser.json Parser.char_pos].
  change (negb (MU_JSON_ERR_NONE =? MU_JSON_ERR_NONE)) with false.
  cbn match.
  assert (MuStr.mu_str_get_byte mem J (Z.of_nat n + 2 + Z.of_nat m)
          = Done None) as ->.
  { unfold MuStr.mu_str_get_byte. cbn [MuStr.length].
    destruct (_ || _) eqn:E; [done|]. ztests. lia. }
  cbn [mbind outcome_bind].
  assert (dispatch (deep_closed L m cap m) C_SPACE = Done (deep_closed L m cap m)) as ->; [|done].
  unfold dispatch.
  change (lookup_state _ C_SPACE) with (Done Ps).
  cbn [mbind outcome_bind]. rewrite perform_Ps, deep_store_tos.
  unfold deref. cbn [deep_closed Parser.tokens].
  rewrite deep_store_number. cbn [mbind outcome_bind].
  change (negb (is_container _)) with true. cbn match.
  rewrite (finish_token_sealed (deep_closed L m cap m) n _ false deep_store_number
             eq_refl).
  cbn [mbind outcome_bind deep_closed Parser.tokens Parser.state].
  unfold select_state. rewrite deep_store_parent.
  cbn [mbind outcome_bind]. unfold deref. rewrite deep_store_array.
  cbn [mbind outcome_bind].
  destruct (decide _) as [_|Hne]; [|by destruct Hne].
  done.
Qed.

(** The parse of the text succeeds, and it leaves the types, the depths
    and the first bytes of [deep_store] behind. *)
Lemma deep_parse :
  ∃ ts, mu_json_parse_buffer cap mem = Done (Z.of_nat (S n), ts) ∧
        shape <$> ts = shape <$> deep_store L m ∧
        start <$> ts = start <$> deep_store L m.
Proof.
  pose proof deep_length_L as HLn.
  unfold mu_json_parse_buffer, parse, MuStr.mu_str_init. rewrite <- HLen.
  assert (parse_loop mem (parse_fuel J) (parser_init J cap)
          = Done (advance (deep_closed L m cap m))) as Hrun.
  { replace (parse_fuel J) with (n + S (S (m + 1)))%nat
      by (unfold parse_fuel; cbn [MuStr.length]; lia).
    rewrite open_run, digit_and_bracket, close_run by lia.
    apply end_round. }
  rewrite Hrun. cbn [mbind outcome_bind].
  pose proof (parse_loop_open_store mem _ (parser_init J cap) _
                open_store_nil Hrun) as Hopen.
  assert (slices_inv mem J (advance (deep_closed L m cap m))) as Hsl.
  { apply (parse_loop_slices mem J _ _ _ HL) in Hrun; [done|].
    split_and!; [done|done|apply Forall_nil_2]. }
  destruct (endgame_success (advance (deep_closed L m cap m)) Hopen) as (ts & Hts & _);
    [done|cbn; lia|done| |].
  { cbn. unfold deep_store. intros E. by apply app_eq_nil in E as [_ ?]. }
  exists ts. split_and!.
  - rewrite Hts. do 2 f_equal. cbn [advance deep_closed Parser.tokens
      Parser.with_char_pos]. unfold deep_store.
    rewrite length_app, open_arrays_length. cbn [length]. lia.
  - by apply endgame_shape in Hts.
  - by apply (endgame_starts mem J _ _ _ HL Hsl) in Hts.
Qed.

(** The array that opens at the position [m - 1] and the array inside it:
    the second one is a descendant of the first in the text, and the
    store gives them the depths that an [int16_t] makes of [m - 1] and of
    [m]. *)
Lemma deep_records :
  (1 ≤ m)%nat →
  ∃ r ts tc td,
    mu_json_parse_buffer cap mem = Done (r, ts) ∧ 0 ≤ r ∧
    ts !! (m - 1)%nat = Some tc ∧ ts !! m = Some td ∧
    is_container tc = true ∧ descendant mem tc td ∧
    Token.depth tc = int16_of_int (Z.of_nat m - 1) ∧
    Token.depth td = int16_of_int (Z.of_nat m).
Proof.
  intros Hm1. destruct deep_parse as (ts & Hts & Hsh & Hst).
  assert (deep_store L m !! (m - 1)%nat = Some (open_array L (m - 1)))
    as Hc.
  { unfold deep_store.
    rewrite lookup_app_l by (rewrite open_arrays_length; lia).
    apply open_arrays_lookup. lia. }
  pose proof deep_store_array as Hd.
  assert (∀ i t, deep_store L m !! i = Some t →
            ∃ t', ts !! i = Some t' ∧ shape t' = shape t ∧
                  start t' = start t) as Hsame.
  { intros i t Hi.
    destruct (lookup_lt_is_Some_2 ts i) as [t' Ht'].
    { rewrite <- (length_fmap shape), Hsh, length_fmap.
      by apply lookup_lt_Some in Hi. }
    exists t'. split; [done|].
    destruct (shape_lookup _ _ _ _ Hsh Ht') as (t1 & Ht1 & Hs1).
    destruct (start_lookup _ _ _ _ Hst Ht') as (t2 & Ht2 & Hs2).
    split; congruence. }
  destruct (Hsame _ _ Hc) as (tc & Htc & Hshc & Hstc).
  destruct (Hsame _ _ Hd) as (td & Htd & Hshd & Hstd).
  exists (Z.of_nat (S n)), ts, tc, td.
  injection Hshc as Htyc Hdc. injection Hshd as Htyd Hdd.
  split_and!; [done|lia|done|done| | | |].
  - unfold is_container. rewrite Htyc. done.
  - unfold descendant, Json.inside. rewrite Hstc, Hstd.
    cbn [start open_array seal_token set_flag set_json Token.json MuStr.buf].
    rewrite !Nat2Z.id. split; [lia|]. intros q Hq.
    assert (q = m) as -> by lia.
    unfold Json.level. rewrite !deep_before by lia. cbn. lia.
  - rewrite Hdc. cbn. f_equal. lia.
  - rewrite Hdd. done.
Qed.

End Deep.

(** The claim fails on a number in 32769 arrays. *)
Lemma deep_nesting_fails m :
  Z.of_nat m = 32768 →
  ¬ preorder_containment (fun buf =>
      Z.of_nat (length buf) < MuStr.MU_STR_END ∧
      no_control_bytes buf = true).
Proof.
  intros Hm Hclaim.
  pose proof (deep_length (S m)) as HLn.
  assert (Z.of_nat (length (deep_input (S m))) < MuStr.MU_STR_END) as HL.
  { rewrite HLn. unfold MuStr.MU_STR_END. lia. }
  destruct (deep_records m (S (S m))
              (Z.of_nat (length (deep_input (S m))))) as
    (r & ts & tc & td & Hts & Hr & Hc & Hd & Hcont & Hdesc & Hdc & Hdd);
    [|lia|reflexivity|exact HL|lia|].
  { rewrite Nat2Z.inj_succ, Hm. by vm_compute. }
  destruct (Hclaim _ _ _ _ _ _ (conj HL (deep_no_control (S m)))
              Hts Hr Hc Hcont) as [Hin _].
  destruct (Hin m td Hd Hdesc) as [_ Hlt].
  rewrite Hdc, Hdd, Hm in Hlt. by vm_compute in Hlt.
Qed.

(** The claim fails on a text with a control character in a string. *)
Lemma control_byte_fails :
  ¬ preorder_containment (fun buf =>
      Z.of_nat (length buf) < MuStr.MU_STR_END ∧ nesting_fits buf = true).
Proof.
  intros Hclaim.
  destruct (Hclaim control_input 4%nat 4 control_store 2%nat
              (Token.mk (MuStr.mk 4 3) MU_JSON_TOKEN_TYPE_ARRAY 4 1))
    as [_ Hout]; [by vm_compute|by vm_compute|lia|done|done|].
  specialize (Hout 3%nat
                (Token.mk (MuStr.mk 5 1) MU_JSON_TOKEN_TYPE_NUMBER 6 2)
                eq_refl ltac:(lia)).
  cbn [Token.depth] in Hout. assert (2 ≤ 1) as Hle; [|lia].
  apply Hout.
  - intros [_ Hall]. specialize (Hall 5%nat ltac:(cbn; lia)).
    by vm_compute in Hall.
  - intros j tj Hj. lia.
Qed.

(** * The claims *)

(** ** C1: sealing *)

(** C1 (code defect).  The claim: after every successful parse every record
    is sealed and its slice is the text of its value, without whitespace
    around it.  The code, on three valid inputs:
    - [[[1]]]: the parse succeeds with four records, the record of the
      middle array is left without [IS_SEALED] and its slice runs from its
      bracket to the end of the input;
    - [[1]] followed by a space: the slice of the root takes in the
      trailing space;
    - [0 ]: the slice of the number is the zero and the space after it. *)
Theorem C1_slices_not_exact :
  (∃ ts, mu_json_parse_buffer 4 nested_input = Done (4, ts) ∧
         sealed_at ts 1 = Some false ∧
         slice_text nested_input ts 1 = Some "[[1]]]"%string) ∧
  (∃ ts, mu_json_parse_buffer 3 trailing_input = Done (3, ts) ∧
         slice_text trailing_input ts 0 = Some "[[1]] "%string) ∧
  (∃ ts, mu_json_parse_buffer 2 spaced_zero_input = Done (2, ts) ∧
         mu_json_token_type ts (At 1%nat) = Done MU_JSON_TOKEN_TYPE_NUMBER ∧
         slice_text spaced_zero_input ts 1 = Some "0 "%string).
Proof. split_and!; eexists; vm_compute; split_and!; reflexivity. Qed.

(** ** C2: scenario S1 *)

(** C2.  Parsing S1 with a capacity of at least 9 returns 9 and leaves the
    nine records (OBJECT, 0), (STRING, 1), (NUMBER, 1), (STRING, 1),
    (ARRAY, 1), (NUMBER, 2), (TRUE, 2), (STRING, 1), (OBJECT, 1) with the
    slices listed in [S1_expected]. *)
Theorem C2_scenario_S1 (capacity : nat) :
  (9 ≤ capacity)%nat →
  ∃ ts, mu_json_parse_buffer capacity S1_input = Done (9, ts) ∧
        map (summary S1_input) ts = S1_expected.
Proof.
  intros Hcap. exists S1_store. split.
  - apply parse_capacity with (A := 9%nat).
    + vm_compute. reflexivity.
    + discriminate.
    + exact Hcap.
  - vm_compute. reflexivity.
Qed.

Lemma C2_scenario_S1_witness :
  ∃ ts, mu_json_parse_buffer 10 S1_input = Done (9, ts) ∧
        map (summary S1_input) ts = S1_expected.
Proof. apply (C2_scenario_S1 10). lia. Defined.

(** ** C3: preorder containment *)

(** C3, counterexample.  The claim fails for a text nested deeper than an
    [int16_t] counts, although it holds no control character: of the 32769
    arrays around the number of [deep_input 32769], the last one is a
    descendant of the one before it and is stored with the depth -32768,
    below the 32767 of its parent.  It fails as well for a text of few
    levels that holds a control character in a string: the parser leaves
    the string there, the array that follows in [control_input] is the
    record 2, at depth 1, and the number in it, no descendant of anything
    by the text, is the record 3 at depth 2.  So the claim fails as it
    stands, and either of the two conditions alone does not repair it. *)
Lemma C3_counterexample :
  ¬ preorder_containment (fun _ => True) ∧
  ¬ preorder_containment (fun buf =>
      Z.of_nat (length buf) < MuStr.MU_STR_END ∧
      no_control_bytes buf = true) ∧
  ¬ preorder_containment (fun buf =>
      Z.of_nat (length buf) < MuStr.MU_STR_END ∧ nesting_fits buf = true).
Proof.
  assert (Z.of_nat (Z.to_nat 32768) = 32768) as Hm by (by apply Z2Nat.id).
  split_and!.
  - intros Hclaim. apply (deep_nesting_fails _ Hm).
    intros buf max_tokens r ts c tc _. by apply Hclaim.
  - exact (deep_nesting_fails _ Hm).
  - exact control_byte_fails.
Qed.

(** C3 (amended).  The buffer is shorter than [INT_MAX] bytes, holds no
    control character but tab, line feed and carriage return, and its
    levels are numbers an [int16_t] holds.  Then, in the store of a
    successful parse and for every container C: every descendant of C, a
    record whose first byte lies inside the brackets of C, is at a greater
    index and at a greater depth than C, and the first record after C that
    is no descendant of C is no deeper than C. *)
Theorem C3_preorder_containment buf max_tokens r ts c tc :
  Z.of_nat (length buf) < MuStr.MU_STR_END →
  no_control_bytes buf = true → nesting_fits buf = true →
  mu_json_parse_buffer max_tokens buf = Done (r, ts) → 0 ≤ r →
  ts !! c = Some tc → is_container tc = true →
  (∀ d td, ts !! d = Some td → descendant buf tc td →
           (c < d)%nat ∧ Token.depth tc < Token.depth td) ∧
  (∀ e te, ts !! e = Some te → (c < e)%nat →
           ¬ descendant buf tc te →
           (∀ j tj, (c < j < e)%nat → ts !! j = Some tj →
                    descendant buf tc tj) →
           Token.depth te ≤ Token.depth tc).
Proof.
  intros HL Hctl Hfit H Hr Hc Hcont.
  destruct (parse_nesting _ _ _ _ HL Hctl H) as [Hdepths Hpairs].
  unfold mu_json_parse_buffer, MuStr.mu_str_init in H.
  pose proof (parse_starts buf max_tokens
                (MuStr.mk 0 (Z.of_nat (length buf))) r ts HL H) as Hinc.
  pose proof (parse_slices buf max_tokens
                (MuStr.mk 0 (Z.of_nat (length buf))) r ts HL H) as Hok.
  assert (∀ i t, ts !! i = Some t →
                 Token.depth t = Json.level buf (Z.to_nat (start t)))
    as Hdepth.
  { intros i t Hi. rewrite (Hdepths i t Hi).
    apply int16_of_int_id. by apply level_fits. }
  assert (∀ i t, ts !! i = Some t → 0 ≤ start t) as Hpos.
  { intros i t Hi.
    by destruct (proj1 (Forall_lookup _ _) Hok i t Hi) as (? & _). }
  assert (∀ i j ti tj, ts !! i = Some ti → ts !! j = Some tj →
            (Z.to_nat (start ti) < Z.to_nat (start tj))%nat → (i < j)%nat)
    as Hmono.
  { intros i j ti tj Hi Hj Hlt.
    destruct (decide (i < j)%nat) as [|Hge]; [done|].
    destruct (decide (j = i)) as [->|Hne]; [simplify_eq; lia|].
    pose proof (starts_increase_lt ts j i tj ti Hinc ltac:(lia) Hj Hi).
    lia. }
  unfold descendant, Json.inside. split.
  - intros d td Hd [Hlt Hall]. split; [by eapply Hmono|].
    rewrite (Hdepth c tc Hc), (Hdepth d td Hd). apply Hall. lia.
  - intros e te He Hce Hnot Hbetween.
    rewrite (Hdepth c tc Hc), (Hdepth e te He).
    pose proof (starts_increase_lt ts c e tc te Hinc Hce Hc He) as Hse.
    pose proof (Hpos c tc Hc) as Hpc.
    destruct (inside_dec buf (Z.to_nat (start tc)) (Z.to_nat (start te)))
      as [Hall|(q & Hq & Hle)].
    { destruct Hnot. split; [lia|done]. }
    destruct e as [|e']; [lia|].
    destruct (lookup_lt_is_Some_2 ts e') as [tj Hj].
    { apply lookup_lt_Some in He. lia. }
    assert (Z.to_nat (start tj) < q)%nat as Hjq.
    { destruct (decide (e' = c)) as [->|Hne]; [simplify_eq; lia|].
      destruct (Hbetween e' tj ltac:(lia) Hj) as [_ Hallj].
      destruct (decide (q ≤ Z.to_nat (start tj))%nat) as [Hqj|]; [|lia].
      specialize (Hallj q ltac:(lia)). lia. }
    pose proof (Hpairs e' tj te Hj He q ltac:(lia)). lia.
Qed.

(** In S1 the array is the record 4; its elements are the records 5 and 6
    and the record 7 is the key that follows it. *)
Lemma C3_preorder_containment_witness :
  (∀ d td, S1_store !! d = Some td →
           descendant S1_input
             (Token.mk (MuStr.mk 15 11) MU_JSON_TOKEN_TYPE_ARRAY 4 1) td →
           (4 < d)%nat ∧ 1 < Token.depth td) ∧
  (∀ e te, S1_store !! e = Some te → (4 < e)%nat →
           ¬ descendant S1_input
               (Token.mk (MuStr.mk 15 11) MU_JSON_TOKEN_TYPE_ARRAY 4 1) te →
           (∀ j tj, (4 < j < e)%nat → S1_store !! j = Some tj →
                    descendant S1_input
                      (Token.mk (MuStr.mk 15 11) MU_JSON_TOKEN_TYPE_ARRAY 4 1)
                      tj) →
           Token.depth te ≤ 1).
Proof.
  apply (C3_preorder_containment S1_input 9 9 S1_store 4
           (Token.mk (MuStr.mk 15 11) MU_JSON_TOKEN_TYPE_ARRAY 4 1)).
  - vm_compute. reflexivity.
  - vm_compute. reflexivity.
  - vm_compute. reflexivity.
  - vm_compute. reflexivity.
  - lia.
  - reflexivity.
  - reflexivity.
Defined.

(** ** C4: keys and values of an object *)

(** C4 (code defect).  The claim: the children of an object alternate key,
    value, key, value, and every key is a STRING.  The code: the input
    {"a":[1],2} is accepted; the children of the object are the records 1,
    2 and 4, and the child at position 2, where a key belongs, is the
    NUMBER 2.  After the comma that follows the array the parser looks at
    the last record written, the 1 inside the array, finds an array around
    it and expects a value where the object needs a key. *)
Theorem C4_number_in_key_position :
  ∃ ts, mu_json_parse_buffer 5 keyless_input = Done (5, ts) ∧
        mu_json_token_type ts (At 0%nat) = Done MU_JSON_TOKEN_TYPE_OBJECT ∧
        mu_json_token_child ts (At 0%nat) = Done (At 1%nat) ∧
        mu_json_token_next_sibling ts (At 1%nat) = Done (At 2%nat) ∧
        mu_json_token_next_sibling ts (At 2%nat) = Done (At 4%nat) ∧
        mu_json_token_next_sibling ts (At 4%nat) = Done NULL ∧
        mu_json_token_parent ts (At 4%nat) = Done (At 0%nat) ∧
        mu_json_token_type ts (At 4%nat) = Done MU_JSON_TOKEN_TYPE_NUMBER.
Proof. eexists. vm_compute. split_and!; reflexivity. Qed.

(** ** C5: the result at the end of the input *)

(** C5.  When the loop over the bytes is left without an error, [parse]
    returns [INCOMPLETE] if the depth is not 0, else [BAD_FORMAT] if the
    state is not [OK], else the token count, which is not negative.  The
    unterminated object {"a":1 returns [INCOMPLETE] (with room for its
    three tokens); an opening quote followed by plain string bytes and no
    closing quote returns [BAD_FORMAT]. *)
Theorem C5_end_of_input :
  (∀ mem max_tokens json_input p,
      parse_loop mem (parse_fuel json_input)
        (parser_init json_input max_tokens) = Done p →
      Parser.error p = MU_JSON_ERR_NONE →
      0 ≤ Parser.token_count p ∧
      ∃ ts, parse mem max_tokens json_input =
            Done (if negb (Parser.depth p =? 0) then MU_JSON_ERR_INCOMPLETE
                  else if negb (Parser.state p =? OK)
                       then MU_JSON_ERR_BAD_FORMAT
                       else Parser.token_count p,
                  ts)) ∧
  (∀ capacity, (3 ≤ capacity)%nat →
      ∃ ts, mu_json_parse_buffer capacity unterminated_object
            = Done (MU_JSON_ERR_INCOMPLETE, ts)) ∧
  (∀ capacity body, (1 ≤ capacity)%nat →
      Forall (fun b => plain_string_byte b = true) body →
      ∃ ts, mu_json_parse_buffer capacity (x22 :: body)
            = Done (MU_JSON_ERR_BAD_FORMAT, ts)).
Proof.
  split_and!.
  - intros mem max_tokens json_input p Hp He.
    split; [unfold Parser.token_count; lia|].
    unfold parse. rewrite Hp. cbn.
    assert (open_store (Parser.tokens p)) as Ho.
    { eapply parse_loop_open_store; [|done]. apply open_store_nil. }
    assert (started p) as Hst.
    { eapply parse_loop_started; [|done]. by left. }
    destruct (negb (Parser.depth p =? 0)) eqn:E2.
    { unfold endgame. rewrite He, E2. cbn. eauto. }
    destruct (negb (Parser.state p =? OK)) eqn:E3.
    { unfold endgame. rewrite He, E2, E3. cbn. eauto. }
    ztests. destruct Hst as [Hgo|Hne]; [rewrite Hgo in E3; done|].
    destruct (endgame_success p Ho He E2 E3 Hne) as (ts & -> & _).
    eauto.
  - intros capacity Hcap. eexists.
    apply parse_capacity with (A := 3%nat).
    + vm_compute. reflexivity.
    + discriminate.
    + vm_compute. lia.
  - intros capacity body. apply unterminated_string.
Qed.

Lemma C5_end_of_input_witness :
  ∃ ts, mu_json_parse_buffer 9 S1_input = Done (9, ts).
Proof.
  pose (json_input := MuStr.mu_str_init 0 (Z.of_nat (length S1_input))).
  pose (p := match parse_loop S1_input (parse_fuel json_input)
                     (parser_init json_input 9) with
             | Done p => p
             | _ => parser_init json_input 9
             end).
  destruct (proj1 C5_end_of_input S1_input 9%nat json_input p)
    as (_ & ts & H).
  - vm_compute. reflexivity.
  - vm_compute. reflexivity.
  - exists ts. etransitivity; [exact H|]. vm_compute. reflexivity.
Defined.

(** ** C6: the capacity of the store *)

Lemma unterminated_array_not_valid n : ¬ valid_parse unterminated_array n.
Proof.
  intros (Hn & capacity & ts & H).
  destruct capacity as [|[|capacity]].
  - vm_compute in H. simplify_eq. lia.
  - vm_compute in H. simplify_eq. lia.
  - assert (mu_json_parse_buffer 2 unterminated_array
            = Done (MU_JSON_ERR_INCOMPLETE,
                    match mu_json_parse_buffer 2 unterminated_array with
                    | Done (_, ts) => ts
                    | _ => []
                    end)) as H2 by (vm_compute; reflexivity).
    apply parse_capacity with (B := S (S capacity)) in H2.
    + unfold mu_json_parse_buffer in H. rewrite H2 in H. simplify_eq.
      vm_compute in Hn. done.
    + discriminate.
    + vm_compute. lia.
Qed.

(** C6, counterexample.  With capacity 1 the input [1 returns [NO_TOKENS]
    at its second token, but no capacity makes it a valid parse: the array
    is never closed.  So the "only if" half of the claim fails. *)
Lemma C6_counterexample : ¬ capacity_iff.
Proof.
  intros Hiff.
  destruct (proj1 (Hiff unterminated_array 1%nat)) as (n & Hv & _).
  - eexists. vm_compute. reflexivity.
  - by apply unterminated_array_not_valid in Hv.
Qed.

(** C6 (amended).  For an input that has a valid parse, of [n] tokens,
    parsing with capacity [k] returns [NO_TOKENS] if and only if [n] is
    greater than [k]; S1 with capacity 3 does.  (For an input without a
    valid parse [NO_TOKENS] is returned as well when a token begins and
    the store is full, as the counterexample shows.) *)
Theorem C6_capacity :
  (∀ (buf : list byte) (k : nat) (n : Z),
      valid_parse buf n → (returns_NO_TOKENS k buf ↔ Z.of_nat k < n)) ∧
  returns_NO_TOKENS 3 S1_input.
Proof.
  split.
  - intros buf k n (Hn & capacity & ts & H). split.
    + intros (ts' & H').
      destruct (decide (Z.of_nat k < n)) as [|Hge]; [done|]. exfalso.
      unfold mu_json_parse_buffer in *.
      destruct (parse_inv _ _ _ _ _ H) as (p & _ & _ & Hres).
      assert (n = Z.of_nat (length ts)) as Hlen.
      { destruct Hres as [_ _ Hcase|_ _ Hr|_ _ _ Hr|_ _ _ _ _ Hlen _];
          [cells_lia..|done]. }
      apply parse_capacity with (B := k) in H; [|cells_lia|lia].
      rewrite H in H'. injection H' as Hn' _. cells_lia.
    + intros Hk. by apply parse_overflow with (k := k) in H.
  - eexists. vm_compute. reflexivity.
Qed.

Lemma C6_capacity_witness :
  valid_parse S1_input 9 ∧
  (returns_NO_TOKENS 3 S1_input ↔ Z.of_nat 3 < 9).
Proof.
  assert (valid_parse S1_input 9) as Hv.
  { split; [lia|]. exists 9%nat, S1_store. vm_compute. reflexivity. }
  split; [exact Hv|].
  apply (proj1 C6_capacity S1_input 3%nat 9 Hv).
Defined.

(** ** C7: navigation duality *)

(** C7.  In the store of a successful parse, for every token t: if
    [prev_sibling t] is present then [next_sibling (prev_sibling t) = t];
    if [next_sibling t] is present then [prev_sibling (next_sibling t) = t];
    if [child t] is present then [parent (child t) = t]. *)
Theorem C7_navigation_duality mem max_tokens json_input r ts (t : nat) :
  parse mem max_tokens json_input = Done (r, ts) → 0 ≤ r →
  (∀ s, mu_json_token_prev_sibling ts (At t) = Done (At s) →
        mu_json_token_next_sibling ts (At s) = Done (At t)) ∧
  (∀ u, mu_json_token_next_sibling ts (At t) = Done (At u) →
        mu_json_token_prev_sibling ts (At u) = Done (At t)) ∧
  (∀ k, mu_json_token_child ts (At t) = Done (At k) →
        mu_json_token_parent ts (At k) = Done (At t)).
Proof.
  intros H Hr. pose proof (parse_bookends _ _ _ _ _ H Hr) as Hbook.
  split_and!.
  - intros s. by apply prev_next_sibling.
  - intros u. by apply next_prev_sibling.
  - intros k. by apply child_parent.
Qed.

Lemma C7_navigation_duality_witness :
  (∀ s, mu_json_token_prev_sibling S1_store (At 4%nat) = Done (At s) →
        mu_json_token_next_sibling S1_store (At s) = Done (At 4%nat)) ∧
  (∀ u, mu_json_token_next_sibling S1_store (At 4%nat) = Done (At u) →
        mu_json_token_prev_sibling S1_store (At u) = Done (At 4%nat)) ∧
  (∀ k, mu_json_token_child S1_store (At 4%nat) = Done (At k) →
        mu_json_token_parent S1_store (At k) = Done (At 4%nat)).
Proof.
  apply (C7_navigation_duality S1_input 9%nat
           (MuStr.mu_str_init 0 (Z.of_nat (length S1_input))) 9 S1_store 4%nat).
  - vm_compute. reflexivity.
  - lia.
Defined.

(** ** C8: navigation is total *)

(** C8.  In the store of a successful parse each of [prev], [next], [root],
    [parent], [child], [prev_sibling] and [next_sibling], applied to a
    token of the store or to the absent token, returns, and returns a token
    of the store or the absent token; applied to the absent token it
    returns the absent token. *)
Theorem C8_navigation_total mem max_tokens json_input r ts :
  parse mem max_tokens json_input = Done (r, ts) → 0 ≤ r →
  (∀ token, valid_ptr ts token →
            Forall (fun f => ∃ res, f ts token = Done res ∧ valid_ptr ts res)
                   navigation) ∧
  Forall (fun f => f ts NULL = Done NULL) navigation.
Proof.
  intros H Hr. pose proof (parse_bookends _ _ _ _ _ H Hr) as Hbook.
  split.
  - intros token. by apply navigation_total.
  - repeat constructor.
Qed.

Lemma C8_navigation_total_witness :
  (∀ token, valid_ptr S1_store token →
            Forall (fun f => ∃ res, f S1_store token = Done res ∧
                                    valid_ptr S1_store res)
                   navigation) ∧
  Forall (fun f => f S1_store NULL = Done NULL) navigation.
Proof.
  apply (C8_navigation_total S1_input 9%nat
           (MuStr.mu_str_init 0 (Z.of_nat (length S1_input))) 9 S1_store).
  - vm_compute. reflexivity.
  - lia.
Defined.

(** ** C9: accessors of an absent token *)

(** C9.  For the [NULL] token the type is [MU_JSON_TOKEN_TYPE_UNKNOWN], the
    depth is -1, [is_first] and [is_last] are false and the slice is
    absent, whatever the store holds. *)
Theorem C9_null_accessors (ts : list mu_json_token_t) :
  mu_json_token_type ts NULL = Done MU_JSON_TOKEN_TYPE_UNKNOWN ∧
  mu_json_token_depth ts NULL = Done (-1) ∧
  mu_json_token_is_first ts NULL = Done false ∧
  mu_json_token_is_last ts NULL = Done false ∧
  mu_json_token_slice ts NULL = Done None.
Proof. split_and!; reflexivity. Qed.

(** ** C10: the parser never returns 0 *)

(** C10.  [parse] returns an error code or a count of at least 1, never 0:
    no state but [GO] is reached before a token is allocated, and [GO] is
    not [OK].  An input that is empty or made of whitespace only returns
    [BAD_FORMAT]. *)
Theorem C10_never_zero :
  (∀ mem max_tokens json_input r ts,
      parse mem max_tokens json_input = Done (r, ts) →
      r ≠ 0 ∧ (0 ≤ r → 1 ≤ r ∧ r = Z.of_nat (length ts))) ∧
  (∀ max_tokens buf,
      Forall (fun b => is_whitespace b = true) buf →
      mu_json_parse_buffer max_tokens buf
      = Done (MU_JSON_ERR_BAD_FORMAT, [])).
Proof.
  split.
  - intros mem max_tokens json_input r ts H.
    apply parse_inv in H as (p & _ & _ & Hres).
    destruct Hres as [? ? [?|?]| | |He Hd Hs Hcount Hge Hlen Hb];
      split; cells_lia.
  - intros max_tokens buf. apply whitespace_only.
Qed.

Lemma C10_never_zero_witness :
  (9 ≠ 0 ∧ (0 ≤ 9 → 1 ≤ 9 ∧ 9 = Z.of_nat (length S1_store))) ∧
  mu_json_parse_buffer 4 (bytes "  ") = Done (MU_JSON_ERR_BAD_FORMAT, []).
Proof.
  split.
  - apply (proj1 C10_never_zero S1_input 9%nat
             (MuStr.mu_str_init 0 (Z.of_nat (length S1_input)))).
    vm_compute. reflexivity.
  - apply (proj2 C10_never_zero). repeat constructor.
Defined.
